(** * Market-data platform: streaming core

    A shallow embedding of the parts of the platform that carry its
    streaming contracts:

    - [src/api/rate_limiter.py]          (module [RateLimiter])
    - [src/collectors/circuit_breaker.py] (module [CircuitBreaker])
    - [src/processors/data_quality.py]   (module [DataQuality])
    - [src/processors/bar_builder.py]    (module [BarBuilder])
    - [src/api/alert_manager.py]         (module [AlertManager])

    Conventions of the embedding.

    - Python [float] values (prices, quantities, token counts, wall-clock
      seconds) are modelled as exact rationals [Q]; rounding of IEEE
      doubles is outside the model.  Wherever the source only compares,
      selects ([max], [min]) or copies a value the model is exact.
    - Python [int] values are [Z].
    - [dict]s used as maps are stdpp [gmap]s; a [defaultdict] is a [gmap]
      read with its default.
    - Objects mutated in place are threaded explicitly through the
      functions that touch them; every clock read ([time.time()],
      [datetime.utcnow()]) is an explicit argument.
    - An exception escaping a function is modelled by the value the
      enclosing [try/except] of the source turns it into.                 *)

From Stdlib Require Import ZArith QArith Qround Qminmax Qabs Lqa Lia.
From stdpp Require Import base option strings list sorting gmap fin_maps.

#[local] Open Scope Z_scope.

(* ===================================================================== *)
(** * Python numerics                                                     *)
(* ===================================================================== *)

Module Py.

(** [max(a, b)] keeps its first argument unless the second is strictly
    larger; [min(a, b)] keeps its first unless the second is strictly
    smaller. *)
Definition max (a b : Q) : Q :=
  match (a ?= b)%Q with Lt => b | _ => a end.

Definition min (a b : Q) : Q :=
  match (b ?= a)%Q with Lt => b | _ => a end.

(** [int(x)] on a float truncates toward zero. *)
Definition int (x : Q) : Z := Z.quot (Qnum x) (Z.pos (Qden x)).

(** [x // y] rounds the quotient toward minus infinity. *)
Definition floordiv (x y : Q) : Z := Qfloor (x / y).

(** Boolean comparisons, as used in [if] conditions. *)
Definition ltb (a b : Q) : bool :=
  match (a ?= b)%Q with Lt => true | _ => false end.
Definition leb (a b : Q) : bool := Qle_bool a b.
Definition gtb (a b : Q) : bool := ltb b a.
Definition geb (a b : Q) : bool := leb b a.

End Py.

(* ===================================================================== *)
(** * Token-bucket rate limiter ([src/api/rate_limiter.py])               *)
(* ===================================================================== *)

Module RateLimiter.

(** The Redis hash store the limiter talks to: one hash per key (field
    name to value) and the expiry set on each key.  The source writes
    [str(x)] and reads [float(...)]; the model keeps the number.  The
    Prometheus counters and the log lines of the limiter are left out. *)
Record Redis := {
  hashes : gmap string (gmap string Q);
  ttl    : gmap string Z
}.

Definition empty_redis : Redis := {| hashes := ∅; ttl := ∅ |}.

(** [HGETALL key]: the empty mapping when the key does not exist. *)
Definition hgetall (key : string) (r : Redis) : gmap string Q :=
  default ∅ (hashes r !! key).

(** [HSET key mapping=...]: the given fields overwrite, others stay. *)
Definition hset (key : string) (mapping : gmap string Q) (r : Redis) : Redis :=
  {| hashes := <[key := mapping ∪ hgetall key r]> (hashes r); ttl := ttl r |}.

Definition expire (key : string) (seconds : Z) (r : Redis) : Redis :=
  {| hashes := hashes r; ttl := <[key := seconds]> (ttl r) |}.

Record TokenBucketRateLimiter := {
  rate : Z;
  period : Z;
  refill_rate : Q
}.

(** [__init__]: [rate / period] raises [ZeroDivisionError] for
    [period = 0], in which case no limiter is built. *)
Definition init (rate period : Z) : option TokenBucketRateLimiter :=
  if period =? 0 then None
  else Some {| rate := rate; period := period;
               refill_rate := (inject_Z rate / inject_Z period)%Q |}.

Definition bucket_key (client_id : string) : string :=
  "rate_limit:" +:+ client_id.

Definition bucket_mapping (tokens last_refill : Q) : gmap string Q :=
  <["tokens" := tokens]> (<["last_refill" := last_refill]> ∅).

(** Tokens available after the refill step (lines 126-134). *)
Definition refilled_tokens (self : TokenBucketRateLimiter)
    (bucket_data : gmap string Q) (current_time : Q) : Q :=
  let tokens := default (inject_Z (rate self)) (bucket_data !! "tokens") in
  let last_refill := default current_time (bucket_data !! "last_refill") in
  let time_elapsed := (current_time - last_refill)%Q in
  let tokens_to_add := (time_elapsed * refill_rate self)%Q in
  Py.min (inject_Z (rate self)) (tokens + tokens_to_add)%Q.

(** [is_allowed].  [redis = None] is [self.redis.client] being falsy.
    The result is the store after the call and the returned pair
    [(is_allowed, retry_after)].  In the deny branch a zero
    [refill_rate] makes the division raise; the enclosing [except]
    turns that into [(True, None)]. *)
Definition is_allowed (self : TokenBucketRateLimiter) (redis : option Redis)
    (current_time : Q) (client_id : string) (cost : Z)
    : option Redis * (bool * option Z) :=
  match redis with
  | None => (None, (true, None))
  | Some r =>
    let key := bucket_key client_id in
    let bucket_data := hgetall key r in
    if bool_decide (dom bucket_data = ∅) then
      let tokens := inject_Z (rate self - cost) in
      let last_refill := current_time in
      let r := hset key (bucket_mapping tokens last_refill) r in
      let r := expire key (period self * 2) r in
      (Some r, (true, None))
    else
      let tokens := refilled_tokens self bucket_data current_time in
      if Py.geb tokens (inject_Z cost) then
        let tokens := (tokens - inject_Z cost)%Q in
        let r := hset key (bucket_mapping tokens current_time) r in
        let r := expire key (period self * 2) r in
        (Some r, (true, None))
      else
        let tokens_needed := (inject_Z cost - tokens)%Q in
        if Qeq_bool (refill_rate self) 0 then (Some r, (true, None))
        else
          let retry_after := Py.int (tokens_needed / refill_rate self) + 1 in
          (Some r, (false, Some retry_after))
  end.

(** [DEL key]: the hash and its expiry go. *)
Definition del (key : string) (r : Redis) : Redis :=
  {| hashes := delete key (hashes r); ttl := delete key (ttl r) |}.

(** [reset]: the store after the call and the returned flag. *)
Definition reset (self : TokenBucketRateLimiter) (redis : option Redis)
    (client_id : string) : option Redis * bool :=
  match redis with
  | None => (None, false)
  | Some r => (Some (del (bucket_key client_id) r), true)
  end.

(** The dictionaries [get_status] returns: the one carrying
    ['available': False], the one for a client without a bucket, and the
    one for an existing bucket. *)
Inductive Status :=
| StatusUnavailable
| StatusNoBucket (tokens capacity : Z) (refill_rate : Q) (period : Z)
| StatusBucket (tokens : Q) (capacity : Z) (refill_rate : Q) (period : Z)
    (last_refill : Q).

(** [get_status]; [current_time] is its [time.time()].  It reads the
    store and writes nothing. *)
Definition get_status (self : TokenBucketRateLimiter) (redis : option Redis)
    (current_time : Q) (client_id : string) : Status :=
  match redis with
  | None => StatusUnavailable
  | Some r =>
    let key := bucket_key client_id in
    let bucket_data := hgetall key r in
    if bool_decide (dom bucket_data = ∅) then
      StatusNoBucket (rate self) (rate self) (refill_rate self) (period self)
    else
      let tokens := default (inject_Z (rate self)) (bucket_data !! "tokens") in
      let last_refill := default current_time (bucket_data !! "last_refill") in
      let time_elapsed := (current_time - last_refill)%Q in
      let tokens_to_add := (time_elapsed * refill_rate self)%Q in
      let current_tokens := Py.min (inject_Z (rate self)) (tokens + tokens_to_add)%Q in
      StatusBucket current_tokens (rate self) (refill_rate self) (period self)
        last_refill
  end.

End RateLimiter.

(* ===================================================================== *)
(** * Circuit breaker ([src/collectors/circuit_breaker.py])               *)
(* ===================================================================== *)

Module CircuitBreaker.

(** The breaker's own state; its metrics and log lines are left out.
    The lock only serialises the two critical sections of [call], which
    the model runs one after the other. *)
Inductive CircuitState := CLOSED | OPEN | HALF_OPEN.

Record CircuitBreakerConfig := {
  failure_threshold : Z;
  timeout : Q;
  success_threshold : Z;
  exponential_backoff : bool;
  max_timeout : Q
}.

(** The dataclass defaults. *)
Definition default_config : CircuitBreakerConfig :=
  {| failure_threshold := 5; timeout := 60; success_threshold := 2;
     exponential_backoff := true; max_timeout := 300 |}.

Record CircuitBreaker := {
  config : CircuitBreakerConfig;
  state : CircuitState;
  failure_count : Z;
  success_count : Z;
  last_failure_time : option Q;
  opened_at : option Q;
  current_timeout : Q
}.

Definition init (cfg : CircuitBreakerConfig) : CircuitBreaker :=
  {| config := cfg; state := CLOSED; failure_count := 0; success_count := 0;
     last_failure_time := None; opened_at := None;
     current_timeout := timeout cfg |}.

(** [_transition_to_open]; [now] is its [time.time()] reading. *)
Definition _transition_to_open (self : CircuitBreaker) (now : Q) : CircuitBreaker :=
  {| config := config self;
     state := OPEN;
     failure_count := failure_count self;
     success_count := 0;
     last_failure_time := last_failure_time self;
     opened_at := Some now;
     current_timeout :=
       if exponential_backoff (config self)
       then Py.min (current_timeout self * 2)%Q (max_timeout (config self))
       else current_timeout self |}.

Definition _transition_to_half_open (self : CircuitBreaker) : CircuitBreaker :=
  {| config := config self;
     state := HALF_OPEN;
     failure_count := 0;
     success_count := 0;
     last_failure_time := last_failure_time self;
     opened_at := opened_at self;
     current_timeout := current_timeout self |}.

Definition _transition_to_closed (self : CircuitBreaker) : CircuitBreaker :=
  {| config := config self;
     state := CLOSED;
     failure_count := 0;
     success_count := 0;
     last_failure_time := last_failure_time self;
     opened_at := None;
     current_timeout := timeout (config self) |}.

Definition _should_attempt_reset (self : CircuitBreaker) (now : Q) : bool :=
  match opened_at self with
  | None => false
  | Some t0 =>
    let elapsed := (now - t0)%Q in
    Py.geb elapsed (current_timeout self)
  end.

Definition _get_retry_after (self : CircuitBreaker) (now : Q) : Q :=
  match opened_at self with
  | None => 0%Q
  | Some t0 =>
    let elapsed := (now - t0)%Q in
    Py.max 0%Q (current_timeout self - elapsed)%Q
  end.

Definition _on_success (self : CircuitBreaker) : CircuitBreaker :=
  let self :=
    {| config := config self; state := state self; failure_count := 0;
       success_count := success_count self;
       last_failure_time := last_failure_time self;
       opened_at := opened_at self;
       current_timeout := current_timeout self |} in
  match state self with
  | HALF_OPEN =>
    let self :=
      {| config := config self; state := state self;
         failure_count := failure_count self;
         success_count := success_count self + 1;
         last_failure_time := last_failure_time self;
         opened_at := opened_at self;
         current_timeout := current_timeout self |} in
    if success_count self >=? success_threshold (config self)
    then _transition_to_closed self else self
  | CLOSED =>
    {| config := config self; state := state self;
       failure_count := failure_count self;
       success_count := success_count self;
       last_failure_time := last_failure_time self;
       opened_at := opened_at self;
       current_timeout := timeout (config self) |}
  | OPEN => self
  end.

(** [_on_failure]; [t_fail] is the reading stored in [last_failure_time],
    [t_open] the later one taken inside [_transition_to_open]. *)
Definition _on_failure (self : CircuitBreaker) (t_fail t_open : Q) : CircuitBreaker :=
  let self :=
    {| config := config self; state := state self;
       failure_count := failure_count self + 1;
       success_count := success_count self;
       last_failure_time := Some t_fail;
       opened_at := opened_at self;
       current_timeout := current_timeout self |} in
  match state self with
  | CLOSED =>
    if failure_count self >=? failure_threshold (config self)
    then _transition_to_open self t_open else self
  | HALF_OPEN => _transition_to_open self t_open
  | OPEN => self
  end.

(** What the protected function does when it is run. *)
Inductive Outcome := Returns | Raises.

(** How [call] ends: with the function's result, with the function's own
    exception re-raised, or with [CircuitBreakerOpenError] carrying
    [retry_after] (the function is then not run). *)
Inductive CallResult :=
| Result
| Reraised
| CircuitBreakerOpenError (retry_after : Q).

(** The clock readings one [call] may take, in program order. *)
Record Clock := {
  t_check : Q;   (* [_should_attempt_reset] *)
  t_retry : Q;   (* [_get_retry_after] *)
  t_fail  : Q;   (* [_on_failure] *)
  t_open  : Q    (* [_transition_to_open] *)
}.

(** The first critical section of [call]: either the call is admitted
    (possibly after moving OPEN to HALF_OPEN) or it is refused. *)
Definition enter_call (self : CircuitBreaker) (clk : Clock)
    : CircuitBreaker * option Q :=
  match state self with
  | OPEN =>
    if _should_attempt_reset self (t_check clk)
    then (_transition_to_half_open self, None)
    else (self, Some (_get_retry_after self (t_retry clk)))
  | _ => (self, None)
  end.

Definition call (self : CircuitBreaker) (clk : Clock) (func : Outcome)
    : CircuitBreaker * CallResult :=
  match enter_call self clk with
  | (self, Some retry_after) => (self, CircuitBreakerOpenError retry_after)
  | (self, None) =>
    match func with
    | Returns => (_on_success self, Result)
    | Raises => (_on_failure self (t_fail clk) (t_open clk), Reraised)
    end
  end.

(** A run of consecutive calls, each with its own clock readings. *)
Fixpoint calls (self : CircuitBreaker) (l : list (Clock * Outcome))
    : CircuitBreaker * list CallResult :=
  match l with
  | [] => (self, [])
  | (clk, f) :: l =>
    let '(self, r) := call self clk f in
    let '(self, rs) := calls self l in
    (self, r :: rs)
  end.

(** [get_state]. *)
Definition get_state (self : CircuitBreaker) : CircuitState := state self.

(** The dictionary of [get_stats]; [now] is the clock reading of
    [_get_retry_after], taken only when the breaker is OPEN. *)
Record Stats := {
  stats_state : CircuitState;
  stats_failure_count : Z;
  stats_success_count : Z;
  stats_current_timeout : Q;
  stats_retry_after : Q;
  stats_opened_at : option Q
}.

Definition get_stats (self : CircuitBreaker) (now : Q) : Stats :=
  {| stats_state := state self;
     stats_failure_count := failure_count self;
     stats_success_count := success_count self;
     stats_current_timeout := current_timeout self;
     stats_retry_after :=
       match state self with
       | OPEN => _get_retry_after self now
       | _ => 0%Q
       end;
     stats_opened_at := opened_at self |}.

(** [reset]: the manual return to CLOSED. *)
Definition reset (self : CircuitBreaker) : CircuitBreaker :=
  _transition_to_closed self.

End CircuitBreaker.

(* ===================================================================== *)
(** * Trades                                                              *)
(* ===================================================================== *)

(** A trade tick as the processors receive it: the [trade_data] dict
    with its keys [symbol], [price], [quantity] and [timestamp].  An
    empty [symbol] is a falsy one; [timestamp = None] is a missing (or
    [None]) timestamp. *)
Record Trade := {
  trade_symbol : string;
  trade_price : Q;
  trade_quantity : Q;
  trade_timestamp : option Q
}.

(** The literal [1e12]. *)
Definition ms_threshold : Q := inject_Z (10 ^ 12).

(* ===================================================================== *)
(** * Data quality checker ([src/processors/data_quality.py])             *)
(* ===================================================================== *)

Module DataQuality.

Record Counts := { passed : Z; failed : Z }.

Record QuarantineEntry := {
  q_trade : Trade;
  q_check_type : string;
  q_error_message : string;
  q_quality_score : Q
}.

Record DataQualityChecker := {
  enable_quarantine : bool;
  max_age_seconds : Q;
  history_window_size : nat;
  price_history : gmap string (list Q);
  volume_history : gmap string (list Q);
  quality_scores : gmap string Q;
  check_counts : gmap string Counts;
  quarantine : list QuarantineEntry;
  max_quarantine_size : nat
}.

(** [__init__] with the defaults of an empty configuration. *)
Definition init (enable_quarantine : bool) : DataQualityChecker :=
  {| enable_quarantine := enable_quarantine;
     max_age_seconds := 60;
     history_window_size := 100;
     price_history := ∅; volume_history := ∅;
     quality_scores := ∅; check_counts := ∅;
     quarantine := []; max_quarantine_size := 1000 |}.

(** [self.quality_scores] is a [defaultdict(lambda: 1.0)]. *)
Definition score_of (scores : gmap string Q) (symbol : string) : Q :=
  default 1%Q (scores !! symbol).

Definition alpha : Q := 1 # 10.

(** The new score computed by [_update_quality_score]. *)
Definition new_score (current_score : Q) (passed : bool) : Q :=
  if passed
  then (current_score + alpha * (1 - current_score))%Q
  else (current_score + alpha * (0 - current_score))%Q.

Definition set_scores (self : DataQualityChecker) (s : gmap string Q)
    : DataQualityChecker :=
  {| enable_quarantine := enable_quarantine self;
     max_age_seconds := max_age_seconds self;
     history_window_size := history_window_size self;
     price_history := price_history self;
     volume_history := volume_history self;
     quality_scores := s;
     check_counts := check_counts self;
     quarantine := quarantine self;
     max_quarantine_size := max_quarantine_size self |}.

Definition _update_quality_score (self : DataQualityChecker)
    (symbol : string) (passed : bool) : DataQualityChecker :=
  let current_score := score_of (quality_scores self) symbol in
  set_scores self (<[symbol := new_score current_score passed]> (quality_scores self)).

(** [get_quality_score]. *)
Definition get_quality_score (self : DataQualityChecker) (symbol : string) : Q :=
  default 1%Q (quality_scores self !! symbol).

(** The result of one check: [(is_valid, error_msg)].  Messages keep the
    fixed part of the source's f-strings. *)
Definition CheckResult : Type := bool * option string.

(** [_check_valid_values] (prices are rationals here, so the two
    finiteness tests always pass). *)
Definition _check_valid_values (t : Trade) : CheckResult :=
  if Py.leb (trade_price t) 0 then (false, Some "Invalid price")
  else if Py.ltb (trade_quantity t) 0 then (false, Some "Invalid quantity")
  else (true, None).

(** The timestamp in seconds as [_check_data_freshness] reads it
    (lines 229-231). *)
Definition freshness_seconds (timestamp : Q) : Q :=
  if Py.gtb timestamp ms_threshold then (timestamp / 1000)%Q else timestamp.

(** [_check_data_freshness]; [current_time] is its [time.time()]. *)
Definition _check_data_freshness (self : DataQualityChecker) (t : Trade)
    (current_time : Q) : CheckResult :=
  match trade_timestamp t with
  | None => (false, Some "Missing timestamp")
  | Some timestamp =>
    let timestamp := freshness_seconds timestamp in
    let age_seconds := (current_time - timestamp)%Q in
    if Py.gtb age_seconds (max_age_seconds self) then (false, Some "Data too old")
    else if Py.ltb age_seconds (-5) then (false, Some "Data from future")
    else (true, None)
  end.

(** A [deque(maxlen=n)] append: the oldest element falls off the left. *)
Definition deque_append (maxlen : nat) (d : list Q) (x : Q) : list Q :=
  let d := d ++ [x] in
  if (maxlen <? length d)%nat then drop (length d - maxlen) d else d.

Definition _update_history (self : DataQualityChecker) (t : Trade)
    : DataQualityChecker :=
  let symbol := trade_symbol t in
  let ph := default [] (price_history self !! symbol) in
  let vh := default [] (volume_history self !! symbol) in
  {| enable_quarantine := enable_quarantine self;
     max_age_seconds := max_age_seconds self;
     history_window_size := history_window_size self;
     price_history :=
       <[symbol := deque_append (history_window_size self) ph (trade_price t)]>
         (price_history self);
     volume_history :=
       <[symbol := deque_append (history_window_size self) vh (trade_quantity t)]>
         (volume_history self);
     quality_scores := quality_scores self;
     check_counts := check_counts self;
     quarantine := quarantine self;
     max_quarantine_size := max_quarantine_size self |}.

Definition bump_count (self : DataQualityChecker) (symbol : string)
    (is_valid : bool) : DataQualityChecker :=
  let c := default {| passed := 0; failed := 0 |} (check_counts self !! symbol) in
  let c := if is_valid
           then {| passed := passed c + 1; failed := failed c |}
           else {| passed := passed c; failed := failed c + 1 |} in
  {| enable_quarantine := enable_quarantine self;
     max_age_seconds := max_age_seconds self;
     history_window_size := history_window_size self;
     price_history := price_history self;
     volume_history := volume_history self;
     quality_scores := quality_scores self;
     check_counts := <[symbol := c]> (check_counts self);
     quarantine := quarantine self;
     max_quarantine_size := max_quarantine_size self |}.

(** [_quarantine_data]; the recorded score is read with [.get(symbol, 0.0)]. *)
Definition _quarantine_data (self : DataQualityChecker) (t : Trade)
    (check_type error_message : string) : DataQualityChecker :=
  let entry :=
    {| q_trade := t; q_check_type := check_type;
       q_error_message := error_message;
       q_quality_score := default 0%Q (quality_scores self !! trade_symbol t) |} in
  let q := quarantine self ++ [entry] in
  let q := if (max_quarantine_size self <? length q)%nat then drop 1 q else q in
  {| enable_quarantine := enable_quarantine self;
     max_age_seconds := max_age_seconds self;
     history_window_size := history_window_size self;
     price_history := price_history self;
     volume_history := volume_history self;
     quality_scores := quality_scores self;
     check_counts := check_counts self;
     quarantine := q;
     max_quarantine_size := max_quarantine_size self |}.

Section Validate.

(** The two numpy-based checks ([_check_price_anomaly],
    [_check_volume_sanity]) read the rolling histories only; their
    arithmetic (mean, standard deviation) is left abstract. *)
Variable _check_price_anomaly : DataQualityChecker -> Trade -> CheckResult.
Variable _check_volume_sanity : DataQualityChecker -> Trade -> CheckResult.

(** The loop of [validate_trade] over the already computed check
    results: count each result, stop at the first failure. *)
Fixpoint run_checks (self : DataQualityChecker) (t : Trade)
    (checks : list (string * CheckResult))
    : DataQualityChecker * option (bool * option string) :=
  match checks with
  | [] => (self, None)
  | (check_name, (is_valid, error_msg)) :: rest =>
    let symbol := trade_symbol t in
    let self := bump_count self symbol is_valid in
    if negb is_valid then
      let self := _update_quality_score self symbol false in
      let self :=
        if enable_quarantine self
        then _quarantine_data self t check_name (default "" error_msg)
        else self in
      (self, Some (false, Some (check_name +:+ ": " +:+ default "" error_msg)))
    else run_checks self t rest
  end.

(** [validate_trade].  All four checks are evaluated before the loop.
    Writes to the metrics database are not part of the model. *)
Definition validate_trade (self : DataQualityChecker) (t : Trade)
    (current_time : Q) : DataQualityChecker * (bool * option string) :=
  let checks :=
    [ ("valid_values", _check_valid_values t);
      ("data_freshness", _check_data_freshness self t current_time);
      ("price_anomaly", _check_price_anomaly self t);
      ("volume_sanity", _check_volume_sanity self t) ] in
  match run_checks self t checks with
  | (self, Some r) => (self, r)
  | (self, None) =>
    let self := _update_quality_score self (trade_symbol t) true in
    let self := _update_history self t in
    (self, (true, None))
  end.

End Validate.

(** A stream of outcomes for [_update_quality_score], symbol by symbol. *)
Definition update_all (self : DataQualityChecker) (l : list (string * bool))
    : DataQualityChecker :=
  foldl (fun s sp => _update_quality_score s (fst sp) (snd sp)) self l.

(** [np.mean] of a list of floats. *)
Definition mean (l : list Q) : Q :=
  (foldr Qplus 0 l / inject_Z (Z.of_nat (length l)))%Q.

(** [_check_volume_sanity]; the threshold is the checker's
    [volume_multiplier_threshold] (100 unless configured). *)
Definition _check_volume_sanity (volume_multiplier_threshold : Q)
    (self : DataQualityChecker) (t : Trade) : CheckResult :=
  let symbol := trade_symbol t in
  let quantity := trade_quantity t in
  let volumes := default [] (volume_history self !! symbol) in
  if (length volumes <? 10)%nat then (true, None)
  else
    let avg_volume := mean volumes in
    if Py.gtb avg_volume 0 then
      let volume_ratio := (quantity / avg_volume)%Q in
      if Py.gtb volume_ratio volume_multiplier_threshold
      then (false, Some "Abnormal volume")
      else (true, None)
    else (true, None).

Section PriceAnomaly.

(** [np.std], the one function of the check that leaves the rationals. *)
Variable std : list Q -> Q.

(** [_check_price_anomaly]; the thresholds are the checker's
    [z_score_threshold] and [percentage_change_threshold] (3.0 and 0.10
    unless configured). *)
Definition _check_price_anomaly (z_score_threshold percentage_change_threshold : Q)
    (self : DataQualityChecker) (t : Trade) : CheckResult :=
  let symbol := trade_symbol t in
  let price := trade_price t in
  let prices := default [] (price_history self !! symbol) in
  if (length prices <? 10)%nat then (true, None)
  else
    let mean_price := mean prices in
    let std_price := std prices in
    if Py.gtb std_price 0
       && Py.gtb (Qabs ((price - mean_price) / std_price)) z_score_threshold
    then (false, Some "Price anomaly")
    else
      let last_price := List.last prices 0%Q in
      if Py.gtb last_price 0
         && Py.gtb (Qabs ((price - last_price) / last_price))
              percentage_change_threshold
      then (false, Some "Large price change")
      else (true, None).

End PriceAnomaly.

(** A slice [l[-limit:]]: the last [limit] elements for a positive
    [limit], everything from index [-limit] on otherwise (so the whole
    list for [limit = 0]). *)
Definition tail_slice {A} (l : list A) (limit : Z) : list A :=
  if 0 <? limit then drop (length l - Z.to_nat limit) l
  else drop (Z.to_nat (- limit)) l.

(** The truth value of an optional symbol argument: [None] and the
    empty string are falsy. *)
Definition truthy (symbol : option string) : option string :=
  match symbol with
  | Some s => if String.eqb s "" then None else Some s
  | None => None
  end.

Definition set_quarantine (self : DataQualityChecker) (q : list QuarantineEntry)
    : DataQualityChecker :=
  {| enable_quarantine := enable_quarantine self;
     max_age_seconds := max_age_seconds self;
     history_window_size := history_window_size self;
     price_history := price_history self;
     volume_history := volume_history self;
     quality_scores := quality_scores self;
     check_counts := check_counts self;
     quarantine := q;
     max_quarantine_size := max_quarantine_size self |}.

(** [get_quarantine]. *)
Definition get_quarantine (self : DataQualityChecker) (symbol : option string)
    (limit : Z) : list QuarantineEntry :=
  match truthy symbol with
  | Some symbol =>
    let filtered :=
      filter (fun entry => trade_symbol (q_trade entry) = symbol) (quarantine self) in
    tail_slice filtered limit
  | None => tail_slice (quarantine self) limit
  end.

(** [clear_quarantine]: the checker afterwards and the number of
    entries cleared. *)
Definition clear_quarantine (self : DataQualityChecker) (symbol : option string)
    : DataQualityChecker * Z :=
  match truthy symbol with
  | Some symbol =>
    let original_size := length (quarantine self) in
    let q :=
      filter (fun entry => trade_symbol (q_trade entry) <> symbol) (quarantine self) in
    (set_quarantine self q, Z.of_nat original_size - Z.of_nat (length q))
  | None =>
    (set_quarantine self [], Z.of_nat (length (quarantine self)))
  end.

End DataQuality.

(* ===================================================================== *)
(** * Bar builder ([src/processors/bar_builder.py])                       *)
(* ===================================================================== *)

Module BarBuilder.

(** A bar dict.  Its ['time'] entry is [datetime.fromtimestamp] of
    [bucket_time]; it is not kept separately, but building it can fail
    (see [datetime_fromtimestamp]). *)
Record Bar := {
  symbol : string;
  timeframe : string;
  bucket_time : Z;
  open : Q;
  high : Q;
  low : Q;
  close : Q;
  volume : Q;
  trade_count : Z;
  first_trade_time : Q;
  last_update : Q;
  completed : bool;
  completion_time : option Q;
  base_bars_count : option Z
}.

(** The payload [_publish_completed_bar] serialises. *)
Record BarData := {
  bd_symbol : string;
  bd_timeframe : string;
  bd_time : Z;              (* milliseconds *)
  bd_open : Q;
  bd_high : Q;
  bd_low : Q;
  bd_close : Q;
  bd_volume : Q;
  bd_completed : bool
}.

Record Config := {
  base_timeframe : string;
  aggregation_timeframes : list string;
  rolling_window_size : Z;
  cache_size : Z;
  db_manager : bool;        (* is a database manager configured *)
  redis : bool              (* is a Redis manager configured *)
}.

(** [config.get] defaults of [__init__]. *)
Definition default_config (db redis : bool) : Config :=
  {| base_timeframe := "1m";
     aggregation_timeframes := ["5m"; "15m"; "1h"];
     rolling_window_size := 200;
     cache_size := 1000;
     db_manager := db;
     redis := redis |}.

Inductive LogRecord :=
| ErrorMissingSymbol
| WarningQualityCheck (msg : option string)
| ErrorProcessingTrade
| DebugInitializedBar (symbol timeframe : string) (bucket_time : Z)
| WarningInvalidBar (symbol timeframe : string) (error_msg : option string)
| DebugStoringBar (symbol timeframe : string)
| DebugPublishedBar (symbol timeframe : string)
| InfoBarCompleted (symbol timeframe : string)
| DebugAggregated (symbol timeframe : string).

(** The builder, with what it can reach: its two in-memory tables, the
    quality checker it was given, the messages published through Redis
    (channel and payload, oldest first), the bars written through the
    database manager, its Prometheus counters and its log. The nested
    dictionaries are keyed by [(symbol, timeframe)]. *)
Record BarBuilder := {
  config : Config;
  quality_checker : option DataQuality.DataQualityChecker;
  current_bars : gmap (string * string) Bar;
  completed_bars_cache : gmap (string * string) (list Bar);
  redis_published : list (string * BarData);
  db_inserted : list Bar;
  invalid_bars_total : gmap (string * option string) Z;
  bars_completed_total : gmap (string * string) Z;
  trades_processed_total : gmap string Z;
  log : list LogRecord
}.

Definition init (cfg : Config) (qc : option DataQuality.DataQualityChecker)
    : BarBuilder :=
  {| config := cfg; quality_checker := qc;
     current_bars := ∅; completed_bars_cache := ∅;
     redis_published := []; db_inserted := []; invalid_bars_total := ∅;
     bars_completed_total := ∅; trades_processed_total := ∅; log := [] |}.

Definition set_quality_checker (self : BarBuilder)
    (qc : option DataQuality.DataQualityChecker) : BarBuilder :=
  {| config := config self; quality_checker := qc;
     current_bars := current_bars self;
     completed_bars_cache := completed_bars_cache self;
     redis_published := redis_published self;
     db_inserted := db_inserted self;
     invalid_bars_total := invalid_bars_total self;
     bars_completed_total := bars_completed_total self;
     trades_processed_total := trades_processed_total self;
     log := log self |}.

Definition set_current_bar (self : BarBuilder) (symbol timeframe : string)
    (bar : Bar) : BarBuilder :=
  {| config := config self; quality_checker := quality_checker self;
     current_bars := <[(symbol, timeframe) := bar]> (current_bars self);
     completed_bars_cache := completed_bars_cache self;
     redis_published := redis_published self;
     db_inserted := db_inserted self;
     invalid_bars_total := invalid_bars_total self;
     bars_completed_total := bars_completed_total self;
     trades_processed_total := trades_processed_total self;
     log := log self |}.

Definition set_cache (self : BarBuilder) (symbol timeframe : string)
    (bars : list Bar) : BarBuilder :=
  {| config := config self; quality_checker := quality_checker self;
     current_bars := current_bars self;
     completed_bars_cache := <[(symbol, timeframe) := bars]> (completed_bars_cache self);
     redis_published := redis_published self;
     db_inserted := db_inserted self;
     invalid_bars_total := invalid_bars_total self;
     bars_completed_total := bars_completed_total self;
     trades_processed_total := trades_processed_total self;
     log := log self |}.

Definition publish (self : BarBuilder) (channel : string) (msg : BarData)
    : BarBuilder :=
  {| config := config self; quality_checker := quality_checker self;
     current_bars := current_bars self;
     completed_bars_cache := completed_bars_cache self;
     redis_published := redis_published self ++ [(channel, msg)];
     db_inserted := db_inserted self;
     invalid_bars_total := invalid_bars_total self;
     bars_completed_total := bars_completed_total self;
     trades_processed_total := trades_processed_total self;
     log := log self |}.

Definition logger (self : BarBuilder) (r : LogRecord) : BarBuilder :=
  {| config := config self; quality_checker := quality_checker self;
     current_bars := current_bars self;
     completed_bars_cache := completed_bars_cache self;
     redis_published := redis_published self;
     db_inserted := db_inserted self;
     invalid_bars_total := invalid_bars_total self;
     bars_completed_total := bars_completed_total self;
     trades_processed_total := trades_processed_total self;
     log := log self ++ [r] |}.

Definition inc_invalid_bars (self : BarBuilder) (symbol : string)
    (reason : option string) : BarBuilder :=
  {| config := config self; quality_checker := quality_checker self;
     current_bars := current_bars self;
     completed_bars_cache := completed_bars_cache self;
     redis_published := redis_published self;
     db_inserted := db_inserted self;
     invalid_bars_total :=
       <[(symbol, reason) := default 0 (invalid_bars_total self !! (symbol, reason)) + 1]>
         (invalid_bars_total self);
     bars_completed_total := bars_completed_total self;
     trades_processed_total := trades_processed_total self;
     log := log self |}.

Definition inc_bars_completed (self : BarBuilder) (symbol timeframe : string)
    : BarBuilder :=
  {| config := config self; quality_checker := quality_checker self;
     current_bars := current_bars self;
     completed_bars_cache := completed_bars_cache self;
     redis_published := redis_published self;
     db_inserted := db_inserted self;
     invalid_bars_total := invalid_bars_total self;
     bars_completed_total :=
       <[(symbol, timeframe) :=
           default 0 (bars_completed_total self !! (symbol, timeframe)) + 1]>
         (bars_completed_total self);
     trades_processed_total := trades_processed_total self;
     log := log self |}.

Definition inc_trades_processed (self : BarBuilder) (symbol : string)
    : BarBuilder :=
  {| config := config self; quality_checker := quality_checker self;
     current_bars := current_bars self;
     completed_bars_cache := completed_bars_cache self;
     redis_published := redis_published self;
     db_inserted := db_inserted self;
     invalid_bars_total := invalid_bars_total self;
     bars_completed_total := bars_completed_total self;
     trades_processed_total :=
       <[symbol := default 0 (trades_processed_total self !! symbol) + 1]>
         (trades_processed_total self);
     log := log self |}.

(** [self.timeframe_seconds]. *)
Definition timeframe_seconds : gmap string Z :=
  <["1m" := 60]> (<["5m" := 300]> (<["15m" := 900]> (<["1h" := 3600]>
  (<["4h" := 14400]> (<["1d" := 86400]> ∅))))).

(** [_get_bucket_time]:
    [int(timestamp // interval_seconds * interval_seconds)]. *)
Definition _get_bucket_time (timestamp : Q) (timeframe : string) : Z :=
  let interval_seconds := default 60 (timeframe_seconds !! timeframe) in
  Py.int (inject_Z (Py.floordiv timestamp (inject_Z interval_seconds))
          * inject_Z interval_seconds)%Q.

(** [datetime.fromtimestamp(t)] for an integer [t]: the naive local
    datetime, here for a process whose local time is UTC.  A datetime
    has a year between 1 and 9999, and CPython also converts the instant
    one day earlier (its probe for a repeated local hour), so the call
    succeeds from [0001-01-02 00:00:00] to [9999-12-31 23:59:59] and
    raises ([ValueError], [OverflowError] or [OSError]) elsewhere. *)
Definition datetime_min_timestamp : Z := -62135510400.
Definition datetime_max_timestamp : Z := 253402300799.

Definition datetime_fromtimestamp (t : Z) : option Z :=
  if (datetime_min_timestamp <=? t) && (t <=? datetime_max_timestamp)
  then Some t else None.

(** The dict literal of [_init_bar] (lines 245-259), its ['time'] entry
    apart; [now] fills both wall-clock stamps. *)
Definition fresh_bar (symbol timeframe : string) (bucket_time : Z)
    (price quantity : Q) (now : Q) : Bar :=
  {| symbol := symbol; timeframe := timeframe; bucket_time := bucket_time;
     open := price; high := price; low := price; close := price;
     volume := quantity; trade_count := 1;
     first_trade_time := now; last_update := now;
     completed := false; completion_time := None;
     base_bars_count := None |}.

(** [_init_bar]; [None] is the exception [datetime.fromtimestamp]
    raises while the dict is built (line 249). *)
Definition _init_bar (symbol timeframe : string) (bucket_time : Z)
    (price quantity : Q) (now : Q) : option Bar :=
  _ ← datetime_fromtimestamp bucket_time;
  Some (fresh_bar symbol timeframe bucket_time price quantity now).

(** The in-place update of the open bar (lines 198-203). *)
Definition update_bar (current_bar : Bar) (price quantity timestamp : Q) : Bar :=
  {| symbol := symbol current_bar; timeframe := timeframe current_bar;
     bucket_time := bucket_time current_bar;
     open := open current_bar;
     high := Py.max (high current_bar) price;
     low := Py.min (low current_bar) price;
     close := price;
     volume := (volume current_bar + quantity)%Q;
     trade_count := trade_count current_bar + 1;
     first_trade_time := first_trade_time current_bar;
     last_update := timestamp;
     completed := completed current_bar;
     completion_time := completion_time current_bar;
     base_bars_count := base_bars_count current_bar |}.

(** [bar['completed'] = True; bar['completion_time'] = time.time()]. *)
Definition mark_completed (bar : Bar) (now : Q) : Bar :=
  {| symbol := symbol bar; timeframe := timeframe bar;
     bucket_time := bucket_time bar;
     open := open bar; high := high bar; low := low bar; close := close bar;
     volume := volume bar; trade_count := trade_count bar;
     first_trade_time := first_trade_time bar;
     last_update := last_update bar;
     completed := true; completion_time := Some now;
     base_bars_count := base_bars_count bar |}.

(** [_validate_ohlc]; the messages keep the fixed part of the source's. *)
Definition _validate_ohlc (bar : Bar) : bool * option string :=
  let open_price := open bar in
  let high := high bar in
  let low := low bar in
  let close := close bar in
  if Py.ltb high (Py.max open_price close)
  then (false, Some "high < max(open, close)")
  else if Py.gtb low (Py.min open_price close)
  then (false, Some "low > min(open, close)")
  else if existsb (fun v => Py.leb v 0) [open_price; high; low; close]
  then (false, Some "negative or zero price")
  else if Py.ltb (volume bar) 0
  then (false, Some "negative volume")
  else (true, None).

(** [_store_bar] prepares the row and logs; no call on the database
    manager follows (line 470 is a comment), so nothing is written. *)
Definition _store_bar (self : BarBuilder) (bar : Bar) : BarBuilder :=
  if negb (db_manager (config self)) then self
  else logger self (DebugStoringBar (symbol bar) (timeframe bar)).

Definition bar_data (bar : Bar) : BarData :=
  {| bd_symbol := symbol bar;
     bd_timeframe := timeframe bar;
     bd_time := bucket_time bar * 1000;
     bd_open := open bar; bd_high := high bar; bd_low := low bar;
     bd_close := close bar; bd_volume := volume bar;
     bd_completed := true |}.

(** [_publish_completed_bar]. *)
Definition _publish_completed_bar (self : BarBuilder) (bar : Bar) : BarBuilder :=
  if negb (redis (config self)) then self
  else
    let self := publish self "completed_bars" (bar_data bar) in
    logger self (DebugPublishedBar (symbol bar) (timeframe bar)).

(** Append to the completed-bars cache and trim it (lines 309-314). *)
Definition cache_append (self : BarBuilder) (symbol timeframe : string)
    (bar : Bar) : BarBuilder :=
  let l := default [] (completed_bars_cache self !! (symbol, timeframe)) ++ [bar] in
  let l := if Z.of_nat (length l) >? cache_size (config self) then drop 1 l else l in
  set_cache self symbol timeframe l.

(** The bar an aggregation timeframe starts from (lines 410-425).  Its
    ['time'] entry is [datetime.fromtimestamp] of the aggregated bucket
    (line 414); that call succeeds whenever the same call succeeded for
    the bucket of the base bar, which [_init_bar] made when it built the
    base bar ([agg_bucket_has_datetime] below). *)
Definition seed_agg_bar (symbol timeframe : string) (bucket_time : Z)
    (base_bar : Bar) (now : Q) : Bar :=
  {| symbol := symbol; timeframe := timeframe; bucket_time := bucket_time;
     open := open base_bar; high := high base_bar; low := low base_bar;
     close := close base_bar; volume := volume base_bar;
     trade_count := trade_count base_bar;
     first_trade_time := now; last_update := now;
     completed := false; completion_time := None;
     base_bars_count := Some 1 |}.

(** The in-place extension of an aggregated bar (lines 430-436). *)
Definition extend_agg_bar (agg_bar base_bar : Bar) (now : Q) : Bar :=
  {| symbol := symbol agg_bar; timeframe := timeframe agg_bar;
     bucket_time := bucket_time agg_bar;
     open := open agg_bar;
     high := Py.max (high agg_bar) (high base_bar);
     low := Py.min (low agg_bar) (low base_bar);
     close := close base_bar;
     volume := (volume agg_bar + volume base_bar)%Q;
     trade_count := trade_count agg_bar + trade_count base_bar;
     first_trade_time := first_trade_time agg_bar;
     last_update := now;
     completed := completed agg_bar;
     completion_time := completion_time agg_bar;
     base_bars_count := Some (default 0 (base_bars_count agg_bar) + 1) |}.

(** The body of [_complete_bar] before the aggregation trigger: mark,
    validate, store, publish, cache, count.  The result carries the bar
    as mutated.  Where the bar is invalid and a quality checker is
    configured, the source executes [pass] (lines 297-299). *)
Definition complete_bar_effects (self : BarBuilder) (symbol timeframe : string)
    (bar : Bar) (now : Q) : BarBuilder * Bar :=
  let bar := mark_completed bar now in
  let '(is_valid, error_msg) := _validate_ohlc bar in
  let self :=
    if negb is_valid then
      let self := logger self (WarningInvalidBar symbol timeframe error_msg) in
      let self := inc_invalid_bars self symbol error_msg in
      match quality_checker self with
      | Some _ => self
      | None => self
      end
    else self in
  let self := if db_manager (config self) then _store_bar self bar else self in
  let self := if redis (config self) then _publish_completed_bar self bar else self in
  let self := cache_append self symbol timeframe bar in
  let self := inc_bars_completed self symbol timeframe in
  let self := logger self (InfoBarCompleted symbol timeframe) in
  (self, bar).

(** One iteration of the loop of [_aggregate_higher_timeframes]; [k] is
    the call to [_complete_bar]. *)
Definition aggregate_into
    (k : BarBuilder -> string -> string -> Bar -> option BarBuilder)
    (symbol : string) (base_bar : Bar) (now : Q)
    (self : BarBuilder) (timeframe : string) : option BarBuilder :=
  let bucket := _get_bucket_time (inject_Z (bucket_time base_bar)) timeframe in
  let seeded s :=
    set_current_bar s symbol timeframe
      (seed_agg_bar symbol timeframe bucket base_bar now) in
  let self' :=
    match current_bars self !! (symbol, timeframe) with
    | None => Some (seeded self)
    | Some agg_bar =>
      if bool_decide (bucket_time agg_bar ≠ bucket) then
        s ← k self symbol timeframe agg_bar; Some (seeded s)
      else
        Some (set_current_bar self symbol timeframe
                (extend_agg_bar agg_bar base_bar now))
    end in
  s ← self'; Some (logger s (DebugAggregated symbol timeframe)).

(** [_aggregate_higher_timeframes]. *)
Definition _aggregate_higher_timeframes
    (k : BarBuilder -> string -> string -> Bar -> option BarBuilder)
    (self : BarBuilder) (symbol : string) (base_bar : Bar) (now : Q)
    : option BarBuilder :=
  foldl (fun acc timeframe =>
           s ← acc; aggregate_into k symbol base_bar now s timeframe)
        (Some self) (aggregation_timeframes (config self)).

(** [_complete_bar].  Completing a base-timeframe bar aggregates it,
    which may complete further bars; [fuel] bounds that nesting and
    [None] is running out of it.  The source appends to the cache the
    very dict it was given; the model appends its value, which is the
    same thing as long as the base timeframe is not itself listed among
    the aggregation timeframes (the statements below say so) and the
    bar does not stay open afterwards (see
    [_process_trade_for_timeframe]), since then nothing touches a bar
    once it is completed. *)
Fixpoint _complete_bar (fuel : nat) (self : BarBuilder)
    (symbol timeframe : string) (bar : Bar) (now : Q) : option BarBuilder :=
  match fuel with
  | O => None
  | S fuel =>
    let '(self, bar) := complete_bar_effects self symbol timeframe bar now in
    if String.eqb timeframe (base_timeframe (config self)) then
      _aggregate_higher_timeframes
        (fun s sy tf b => _complete_bar fuel s sy tf b now) self symbol bar now
    else Some self
  end.

(** The timestamp in seconds as [_process_trade_for_timeframe] reads it
    (lines 177-179). *)
Definition trade_seconds (timestamp : Q) : Q :=
  if Py.gtb timestamp ms_threshold then (timestamp / 1000)%Q else timestamp.

(** How a call ends: normally, with an exception (the state is the one
    the exception leaves behind), or out of fuel. *)
Inductive Exec :=
| Return (self : BarBuilder)
| Raise (self : BarBuilder)
| OutOfFuel.

(** [_process_trade_for_timeframe].  A missing timestamp raises on its
    first use, before anything is touched.  [_init_bar] may raise too:
    by then [_complete_bar] has run on the open bar, which stays the
    open bar of its key, with the completion marks [_complete_bar] wrote
    into it (with the base timeframe not among the aggregation
    timeframes nothing else touches that entry).  The completed-bars
    cache holds bars by value: the source appends the dict itself, so
    where such a bar stays open and is updated afterwards the cached
    entry changes with it, which the model does not show.
    [_update_redis_cache] only builds a JSON string (its write is
    commented out) and changes nothing. *)
Definition _process_trade_for_timeframe (fuel : nat) (self : BarBuilder)
    (trade_data : Trade) (timeframe : string) (now : Q) : Exec :=
  let symbol := trade_symbol trade_data in
  let price := trade_price trade_data in
  let quantity := trade_quantity trade_data in
  match trade_timestamp trade_data with
  | None => Raise self
  | Some timestamp =>
    let timestamp := trade_seconds timestamp in
    let bucket := _get_bucket_time timestamp timeframe in
    let fresh s stale :=
      match _init_bar symbol timeframe bucket price quantity now with
      | Some bar => Return (set_current_bar s symbol timeframe bar)
      | None => Raise (stale s)
      end in
    match current_bars self !! (symbol, timeframe) with
    | None => fresh self id
    | Some current_bar =>
      if bool_decide (bucket_time current_bar ≠ bucket) then
        match _complete_bar fuel self symbol timeframe current_bar now with
        | Some s =>
          fresh s (fun s => set_current_bar s symbol timeframe
                              (mark_completed current_bar now))
        | None => OutOfFuel
        end
      else
        Return (set_current_bar self symbol timeframe
                  (update_bar current_bar price quantity timestamp))
    end
  end.

Section Process.

Variable _check_price_anomaly :
  DataQuality.DataQualityChecker -> Trade -> DataQuality.CheckResult.
Variable _check_volume_sanity :
  DataQuality.DataQualityChecker -> Trade -> DataQuality.CheckResult.

(** [process_trade]; [None] is running out of fuel.  The gauge of open
    bars is derived from [current_bars] and not kept. *)
Definition process_trade (fuel : nat) (self : BarBuilder) (trade_data : Trade)
    (now : Q) : option BarBuilder :=
  let symbol := trade_symbol trade_data in
  if String.eqb symbol "" then Some (logger self ErrorMissingSymbol)
  else
    let '(self, ok) :=
      match quality_checker self with
      | None => (self, true)
      | Some qc =>
        let '(qc, (is_valid, error_msg)) :=
          DataQuality.validate_trade _check_price_anomaly _check_volume_sanity
            qc trade_data now in
        let self := set_quality_checker self (Some qc) in
        if negb is_valid
        then (logger self (WarningQualityCheck error_msg), false)
        else (self, true)
      end in
    if negb ok then Some self
    else
      let self := inc_trades_processed self symbol in
      match _process_trade_for_timeframe fuel self trade_data
              (base_timeframe (config self)) now with
      | Return s => Some s
      | Raise s => Some (logger s ErrorProcessingTrade)
      | OutOfFuel => None
      end.

(** A stream of trades, each with the wall-clock time of its arrival. *)
Fixpoint process_trades (fuel : nat) (self : BarBuilder)
    (l : list (Trade * Q)) : option BarBuilder :=
  match l with
  | [] => Some self
  | (t, now) :: l =>
    match process_trade fuel self t now with
    | Some s => process_trades fuel s l
    | None => None
    end
  end.

End Process.

(** The completion events published for one [(symbol, timeframe)], in
    the order of publication: their bucket times in milliseconds. *)
Definition completion_events (self : BarBuilder) (symbol timeframe : string)
    : list Z :=
  omap (fun cm =>
          if bool_decide (bd_symbol (snd cm) = symbol /\ bd_timeframe (snd cm) = timeframe)
          then Some (bd_time (snd cm)) else None)
       (redis_published self).

End BarBuilder.

(* ===================================================================== *)
(** * Alert manager ([src/api/alert_manager.py])                          *)
(* ===================================================================== *)

Module AlertManager.

Inductive AlertCondition :=
| PRICE_ABOVE | PRICE_BELOW | RSI_ABOVE | RSI_BELOW | MACD_CROSSOVER | VOLUME_SPIKE.

Inductive NotificationChannel := WEBSOCKET | EMAIL | WEBHOOK | SLACK.

(** A [datetime] is its number of microseconds since the epoch, the
    resolution Python keeps; [timedelta(seconds=n)] is [n] million of
    them. *)
Definition datetime := Z.
Definition timedelta (seconds : Z) : Z := seconds * 1000000.

(** The [Alert] dataclass.  [metadata] keeps the numeric entries the
    manager itself reads and writes. *)
Record Alert := {
  alert_id : string;
  user_id : string;
  symbol : string;
  condition : AlertCondition;
  threshold : Q;
  channels : list NotificationChannel;
  cooldown_seconds : Z;
  one_time : bool;
  is_active : bool;
  created_at : datetime;
  last_triggered_at : option datetime;
  trigger_count : Z;
  metadata : gmap string Q
}.

Definition set_metadata (alert : Alert) (m : gmap string Q) : Alert :=
  {| alert_id := alert_id alert; user_id := user_id alert;
     symbol := symbol alert; condition := condition alert;
     threshold := threshold alert; channels := channels alert;
     cooldown_seconds := cooldown_seconds alert; one_time := one_time alert;
     is_active := is_active alert; created_at := created_at alert;
     last_triggered_at := last_triggered_at alert;
     trigger_count := trigger_count alert; metadata := m |}.

(** The clock of one call: its [n]-th reading of [datetime.utcnow()].
    Functions that read it take the index of the next reading and return
    the index after their last one. *)
Definition Clock := nat -> datetime.

(** The condition test of [_should_trigger] (lines 169-214), with the
    alert as left by the MACD branch. *)
Definition eval_condition (alert : Alert) (price : Q)
    (indicators : gmap string Q) : Alert * bool :=
  match condition alert with
  | PRICE_ABOVE => (alert, Py.gtb price (threshold alert))
  | PRICE_BELOW => (alert, Py.ltb price (threshold alert))
  | RSI_ABOVE =>
    match indicators !! "rsi" with
    | Some rsi => (alert, Py.gtb rsi (threshold alert))
    | None => (alert, false)
    end
  | RSI_BELOW =>
    match indicators !! "rsi" with
    | Some rsi => (alert, Py.ltb rsi (threshold alert))
    | None => (alert, false)
    end
  | MACD_CROSSOVER =>
    match indicators !! "macd", indicators !! "macd_signal" with
    | Some macd, Some macd_signal =>
      let condition_met :=
        match metadata alert !! "prev_macd", metadata alert !! "prev_signal" with
        | Some prev_macd, Some prev_signal =>
          if Py.gtb (threshold alert) 0
          then Py.leb prev_macd prev_signal && Py.gtb macd macd_signal
          else Py.geb prev_macd prev_signal && Py.ltb macd macd_signal
        | _, _ => false
        end in
      (set_metadata alert
         (<["prev_signal" := macd_signal]> (<["prev_macd" := macd]> (metadata alert))),
       condition_met)
    | _, _ => (alert, false)
    end
  | VOLUME_SPIKE =>
    match indicators !! "volume", indicators !! "volume_sma" with
    | Some volume, Some volume_sma =>
      (alert, Py.gtb volume (threshold alert * volume_sma)%Q)
    | _, _ => (alert, false)
    end
  end.

(** [_should_trigger]. *)
Definition _should_trigger (clk : Clock) (n : nat) (alert : Alert) (price : Q)
    (indicators : gmap string Q) : Alert * bool * nat :=
  if negb (is_active alert) then (alert, false, n)
  else
    let '(in_cooldown, n) :=
      match last_triggered_at alert with
      | Some t =>
        let cooldown_end := t + timedelta (cooldown_seconds alert) in
        (clk n <? cooldown_end, S n)
      | None => (false, n)
      end in
    if in_cooldown then (alert, false, n)
    else if one_time alert && (trigger_count alert >? 0) then (alert, false, n)
    else
      let '(alert, condition_met) := eval_condition alert price indicators in
      (alert, condition_met, n).

(** The manager: the alerts table (in insertion order), the per-symbol
    cache and its refresh stamp, and the notifications handed to the
    channels so far.  Database calls are taken to succeed; what a
    channel does with a notification is outside the model. *)
Record AlertManager := {
  db : list Alert;
  _alerts_cache : gmap string (list Alert);
  _cache_ttl : Z;
  _last_cache_refresh : datetime;
  notifications : list (string * NotificationChannel)
}.

Definition init (rows : list Alert) (now : datetime) : AlertManager :=
  {| db := rows; _alerts_cache := ∅; _cache_ttl := 300;
     _last_cache_refresh := now; notifications := [] |}.

(** [db.get_active_alerts]: the active rows of the symbol by creation
    time. *)
Definition created_before (a b : Alert) : Prop := created_at a <= created_at b.

#[local] Instance created_before_dec : RelDecision created_before.
Proof. intros a b. unfold created_before. apply Z.le_dec. Defined.

Definition db_get_active_alerts (rows : list Alert) (sym : string) : list Alert :=
  merge_sort created_before
    (filter (fun a => symbol a = sym /\ is_active a = true) rows).

(** [db.update_alert]: the row with the alert's id and user takes the
    alert's mutable columns. *)
Definition db_update_alert (rows : list Alert) (alert : Alert) : list Alert :=
  map (fun row =>
         if bool_decide (alert_id row = alert_id alert /\ user_id row = user_id alert)
         then {| alert_id := alert_id row; user_id := user_id row;
                 symbol := symbol row; condition := condition alert;
                 threshold := threshold alert; channels := channels alert;
                 cooldown_seconds := cooldown_seconds alert;
                 one_time := one_time alert; is_active := is_active alert;
                 created_at := created_at row;
                 last_triggered_at := last_triggered_at alert;
                 trigger_count := trigger_count alert;
                 metadata := metadata alert |}
         else row) rows.

(** [_get_active_alerts]. *)
Definition _get_active_alerts (clk : Clock) (n : nat) (self : AlertManager)
    (sym : string) : AlertManager * list Alert * nat :=
  let refetch n :=
    let alerts := db_get_active_alerts (db self) sym in
    ({| db := db self;
        _alerts_cache := <[sym := alerts]> (_alerts_cache self);
        _cache_ttl := _cache_ttl self;
        _last_cache_refresh := clk n;
        notifications := notifications self |}, alerts, S n) in
  match _alerts_cache self !! sym with
  | Some cached =>
    (* cache_age.total_seconds() < ttl, in microseconds *)
    if clk n - _last_cache_refresh self <? timedelta (_cache_ttl self)
    then (self, cached, S n)
    else refetch (S n)
  | None => refetch n
  end.

(** [_send_notifications]: one reading of the clock for the message's
    timestamp, then one dispatch per channel. *)
Definition _send_notifications (n : nat) (self : AlertManager) (alert : Alert)
    : AlertManager * nat :=
  ({| db := db self; _alerts_cache := _alerts_cache self;
      _cache_ttl := _cache_ttl self;
      _last_cache_refresh := _last_cache_refresh self;
      notifications :=
        notifications self ++ map (fun c => (alert_id alert, c)) (channels alert) |},
   S n).

(** [_update_alert_state]. *)
Definition _update_alert_state (clk : Clock) (n : nat) (self : AlertManager)
    (alert : Alert) : AlertManager * Alert * nat :=
  let alert :=
    {| alert_id := alert_id alert; user_id := user_id alert;
       symbol := symbol alert; condition := condition alert;
       threshold := threshold alert; channels := channels alert;
       cooldown_seconds := cooldown_seconds alert; one_time := one_time alert;
       is_active := if one_time alert then false else is_active alert;
       created_at := created_at alert;
       last_triggered_at := Some (clk n);
       trigger_count := trigger_count alert + 1;
       metadata := metadata alert |} in
  ({| db := db_update_alert (db self) alert;
      _alerts_cache := delete (symbol alert) (_alerts_cache self);
      _cache_ttl := _cache_ttl self;
      _last_cache_refresh := _last_cache_refresh self;
      notifications := notifications self |}, alert, S n).

(** The loop of [check_alerts]: the alerts as the loop leaves them and
    those that triggered. *)
Fixpoint check_loop (clk : Clock) (n : nat) (self : AlertManager)
    (alerts : list Alert) (price : Q) (indicators : gmap string Q)
    : AlertManager * list Alert * list Alert * nat :=
  match alerts with
  | [] => (self, [], [], n)
  | alert :: rest =>
    let '(alert, fire, n) := _should_trigger clk n alert price indicators in
    let '(self, alert, n, fired) :=
      if fire then
        let '(self, n) := _send_notifications n self alert in
        let '(self, alert, n) := _update_alert_state clk n self alert in
        (self, alert, n, [alert])
      else (self, alert, n, []) in
    let '(self, rest, triggered, n) := check_loop clk n self rest price indicators in
    (self, alert :: rest, fired ++ triggered, n)
  end.

(** [check_alerts].  The alerts in the loop are the cached objects:
    what the loop changed in them is seen through the cache entry as
    long as that entry is still there. *)
Definition check_alerts (clk : Clock) (self : AlertManager) (sym : string)
    (price : Q) (indicators : gmap string Q) : AlertManager * list Alert :=
  let n := 1%nat in (* start_time *)
  let '(self, alerts, n) := _get_active_alerts clk n self sym in
  let '(self, alerts, triggered, _) := check_loop clk n self alerts price indicators in
  let self :=
    match _alerts_cache self !! sym with
    | Some _ =>
      {| db := db self; _alerts_cache := <[sym := alerts]> (_alerts_cache self);
         _cache_ttl := _cache_ttl self;
         _last_cache_refresh := _last_cache_refresh self;
         notifications := notifications self |}
    | None => self
    end in
  (self, triggered).

(** [db.insert_alert], [db.delete_alert] and [db.get_alert] on the
    alerts table; the sources declare no constraint on it, so an insert
    always adds a row. *)
Definition db_insert_alert (rows : list Alert) (alert : Alert) : list Alert :=
  rows ++ [alert].

Definition db_delete_alert (rows : list Alert) (id user : string) : list Alert :=
  filter (fun row => ~ (alert_id row = id /\ user_id row = user)) rows.

Definition db_get_alert (rows : list Alert) (id user : string) : option Alert :=
  head (filter (fun row => alert_id row = id /\ user_id row = user) rows).

(** [create_alert], [update_alert], [delete_alert]: the database call,
    then the invalidation of the cache. *)
Definition create_alert (self : AlertManager) (alert : Alert) : AlertManager :=
  {| db := db_insert_alert (db self) alert;
     _alerts_cache := delete (symbol alert) (_alerts_cache self);
     _cache_ttl := _cache_ttl self;
     _last_cache_refresh := _last_cache_refresh self;
     notifications := notifications self |}.

Definition update_alert (self : AlertManager) (alert : Alert) : AlertManager :=
  {| db := db_update_alert (db self) alert;
     _alerts_cache := delete (symbol alert) (_alerts_cache self);
     _cache_ttl := _cache_ttl self;
     _last_cache_refresh := _last_cache_refresh self;
     notifications := notifications self |}.

Definition delete_alert (self : AlertManager) (id user : string) : AlertManager :=
  {| db := db_delete_alert (db self) id user;
     _alerts_cache := ∅;
     _cache_ttl := _cache_ttl self;
     _last_cache_refresh := _last_cache_refresh self;
     notifications := notifications self |}.

Definition get_alert (self : AlertManager) (id user : string) : option Alert :=
  db_get_alert (db self) id user.

End AlertManager.

(* ===================================================================== *)
(** * Notions and inputs used below                                        *)
(* ===================================================================== *)

(** A limiter of 2 requests per 2 seconds (one token per second), the
    store after a first request of cost 2 at time 100, and the bucket a
    second request finds one second later. *)
Definition limiter_2_per_2 : RateLimiter.TokenBucketRateLimiter :=
  {| RateLimiter.rate := 2; RateLimiter.period := 2;
     RateLimiter.refill_rate := (inject_Z 2 / inject_Z 2)%Q |}.

Definition store_after_first : RateLimiter.Redis :=
  RateLimiter.expire "rate_limit:c" 4
    (RateLimiter.hset "rate_limit:c" (RateLimiter.bucket_mapping 0 100)
       RateLimiter.empty_redis).

(** The breaker configuration of the cycle scenario: three failures open
    it, base timeout half a second, two successes close it, backoff and
    the maximum timeout left at their defaults. *)
Definition cycle_config : CircuitBreaker.CircuitBreakerConfig :=
  {| CircuitBreaker.failure_threshold := 3;
     CircuitBreaker.timeout := 1 # 2;
     CircuitBreaker.success_threshold := 2;
     CircuitBreaker.exponential_backoff := true;
     CircuitBreaker.max_timeout := 300 |}.

(** The configuration of the unit tests: the same with a maximum timeout
    of two seconds. *)
Definition test_config : CircuitBreaker.CircuitBreakerConfig :=
  {| CircuitBreaker.failure_threshold := 3;
     CircuitBreaker.timeout := 1 # 2;
     CircuitBreaker.success_threshold := 2;
     CircuitBreaker.exponential_backoff := true;
     CircuitBreaker.max_timeout := 2 |}.

(** A clock whose four readings are all [t]. *)
Definition clock_at (t : Q) : CircuitBreaker.Clock :=
  {| CircuitBreaker.t_check := t; CircuitBreaker.t_retry := t;
     CircuitBreaker.t_fail := t; CircuitBreaker.t_open := t |}.

(** Three failing calls at times 0, 0.1 and 0.2. *)
Definition three_failures : list (CircuitBreaker.Clock * CircuitBreaker.Outcome) :=
  [ (clock_at 0, CircuitBreaker.Raises);
    (clock_at (1 # 10), CircuitBreaker.Raises);
    (clock_at (2 # 10), CircuitBreaker.Raises) ].

(** The timeout a breaker waits after opening from its initial timeout. *)
Definition first_open_timeout (cfg : CircuitBreaker.CircuitBreakerConfig) : Q :=
  if CircuitBreaker.exponential_backoff cfg
  then Py.min (CircuitBreaker.timeout cfg * 2)%Q (CircuitBreaker.max_timeout cfg)
  else CircuitBreaker.timeout cfg.

(** The pass/fail stream of one symbol inside an interleaved stream. *)
Definition own_stream (symbol : string) (l : list (string * bool)) : list bool :=
  map snd (filter (fun sp => fst sp = symbol) l).

(** The period of a timeframe as [_get_bucket_time] reads it. *)
Definition interval_seconds (timeframe : string) : Z :=
  default 60 (BarBuilder.timeframe_seconds !! timeframe).

(** A trade carrying a timestamp. *)
Definition trade_at (symbol : string) (price quantity timestamp : Q) : Trade :=
  {| trade_symbol := symbol; trade_price := price;
     trade_quantity := quantity; trade_timestamp := Some timestamp |}.

(** What [_complete_bar] does to the builder for a bar of a timeframe
    other than the base one: the effects alone. *)
Definition completed_state (s : BarBuilder.BarBuilder) (symbol timeframe : string)
    (bar : BarBuilder.Bar) (now : Q) : BarBuilder.BarBuilder :=
  fst (BarBuilder.complete_bar_effects s symbol timeframe bar now).

(** One iteration of the aggregation loop when the timeframe is not the
    base one (no nested aggregation). *)
Definition agg_step (symbol : string) (base_bar : BarBuilder.Bar) (now : Q)
    (s : BarBuilder.BarBuilder) (timeframe : string) : BarBuilder.BarBuilder :=
  let bucket :=
    BarBuilder._get_bucket_time (inject_Z (BarBuilder.bucket_time base_bar)) timeframe in
  let seeded s :=
    BarBuilder.set_current_bar s symbol timeframe
      (BarBuilder.seed_agg_bar symbol timeframe bucket base_bar now) in
  BarBuilder.logger
    match BarBuilder.current_bars s !! (symbol, timeframe) with
    | None => seeded s
    | Some agg_bar =>
      if bool_decide (BarBuilder.bucket_time agg_bar ≠ bucket)
      then seeded (completed_state s symbol timeframe agg_bar now)
      else BarBuilder.set_current_bar s symbol timeframe
             (BarBuilder.extend_agg_bar agg_bar base_bar now)
    end
    (BarBuilder.DebugAggregated symbol timeframe).

(** The message a completion publishes when Redis is configured. *)
Definition completion_message (s : BarBuilder.BarBuilder) (bar : BarBuilder.Bar)
    (now : Q) : list (string * BarBuilder.BarData) :=
  if BarBuilder.redis (BarBuilder.config s)
  then [("completed_bars", BarBuilder.bar_data (BarBuilder.mark_completed bar now))]
  else [].

(** The bucket times [datetime.fromtimestamp] accepts, and so the ones
    [_init_bar] opens a bar for. *)
Definition has_datetime (bucket : Z) : Prop :=
  BarBuilder.datetime_min_timestamp <= bucket <= BarBuilder.datetime_max_timestamp.

(** The bucket a tick falls into on the base timeframe has a datetime
    (a tick without a timestamp reaches no bucket). *)
Definition tick_has_datetime (cfg : BarBuilder.Config) (t : Trade) : Prop :=
  match trade_timestamp t with
  | Some ts =>
    has_datetime (BarBuilder._get_bucket_time (BarBuilder.trade_seconds ts)
                    (BarBuilder.base_timeframe cfg))
  | None => True
  end.

(** A tick is in order when its bucket is not earlier than the bucket of
    the base candle open for its symbol. *)
Definition tick_in_order (s : BarBuilder.BarBuilder) (t : Trade) : Prop :=
  match trade_timestamp t,
        BarBuilder.current_bars s
          !! (trade_symbol t, BarBuilder.base_timeframe (BarBuilder.config s)) with
  | Some ts, Some bar =>
    BarBuilder.bucket_time bar
    <= BarBuilder._get_bucket_time (BarBuilder.trade_seconds ts)
         (BarBuilder.base_timeframe (BarBuilder.config s))
  | _, _ => True
  end.

(** A stream is forward-only from a state when each of its ticks is in
    order in the state it is processed in. *)
Fixpoint forward_only
    (pa vs : DataQuality.DataQualityChecker -> Trade -> DataQuality.CheckResult)
    (fuel : nat) (s : BarBuilder.BarBuilder) (l : list (Trade * Q)) : Prop :=
  match l with
  | [] => True
  | (t, now) :: l =>
    tick_in_order s t /\
    match BarBuilder.process_trade pa vs fuel s t now with
    | Some s' => forward_only pa vs fuel s' l
    | None => True
    end
  end.

(** Strictly increasing sequences of bucket times. *)
Definition increasing (l : list Z) : Prop := StronglySorted Z.lt l.

(** Every open bar carries the symbol and timeframe it is filed under. *)
Definition bars_labelled (s : BarBuilder.BarBuilder) : Prop :=
  forall sym tf bar,
    BarBuilder.current_bars s !! (sym, tf) = Some bar ->
    BarBuilder.symbol bar = sym /\ BarBuilder.timeframe bar = tf.

(** The completion events of a key increase and all lie before the bar
    open for that key; a key that never had a bar has no event. *)
Definition events_below_open (s : BarBuilder.BarBuilder) (sym tf : string) : Prop :=
  increasing (BarBuilder.completion_events s sym tf) /\
  match BarBuilder.current_bars s !! (sym, tf) with
  | Some bar =>
    Forall (fun e => e < BarBuilder.bucket_time bar * 1000)
      (BarBuilder.completion_events s sym tf)
  | None => BarBuilder.completion_events s sym tf = []
  end.

(** The open aggregated bars of [sym] are not ahead of the bucket that
    the base bucket [b0] falls into. *)
Definition agg_bounded (s : BarBuilder.BarBuilder) (sym : string) (b0 : Z) : Prop :=
  forall tf a,
    tf <> BarBuilder.base_timeframe (BarBuilder.config s) ->
    BarBuilder.current_bars s !! (sym, tf) = Some a ->
    BarBuilder.bucket_time a <= BarBuilder._get_bucket_time (inject_Z b0) tf.

(** An open aggregated bar comes with an open base bar it is not ahead of. *)
Definition agg_behind_base (s : BarBuilder.BarBuilder) : Prop :=
  forall sym tf a,
    tf <> BarBuilder.base_timeframe (BarBuilder.config s) ->
    BarBuilder.current_bars s !! (sym, tf) = Some a ->
    exists c,
      BarBuilder.current_bars s
        !! (sym, BarBuilder.base_timeframe (BarBuilder.config s)) = Some c /\
      BarBuilder.bucket_time a
      <= BarBuilder._get_bucket_time (inject_Z (BarBuilder.bucket_time c)) tf.

Definition builder_inv (s : BarBuilder.BarBuilder) : Prop :=
  bars_labelled s /\ (forall sym tf, events_below_open s sym tf) /\ agg_behind_base s.

(** Two states agree on the key [(sym, tf)]. *)
Definition same_at (s s' : BarBuilder.BarBuilder) (sym tf : string) : Prop :=
  BarBuilder.completion_events s' sym tf = BarBuilder.completion_events s sym tf /\
  BarBuilder.current_bars s' !! (sym, tf) = BarBuilder.current_bars s !! (sym, tf).

(** The two statistical checks accepting everything. *)
Definition no_anomaly : DataQuality.DataQualityChecker -> Trade -> DataQuality.CheckResult :=
  fun _ _ => (true, None).

(** A builder with the default timeframes, a database and Redis, and no
    quality checker. *)
Definition plain_builder : BarBuilder.BarBuilder :=
  BarBuilder.init (BarBuilder.default_config true true) None.

(** A tick of symbol BTC arriving at the time it carries. *)
Definition btc_tick (ts price quantity : Q) : Trade * Q :=
  (trade_at "BTC" price quantity ts, ts).

(** The literal scenario "bar closure on boundary". *)
Definition boundary_ticks : list (Trade * Q) :=
  [ btc_tick 60 100 1; btc_tick (601 # 10) 101 1; btc_tick (604 # 10) 99 1;
    btc_tick (609 # 10) 102 1; btc_tick 120 103 1 ].

(** A stream with a late tick: 120 s, then 60 s, then 120 s again. *)
Definition late_ticks : list (Trade * Q) :=
  [ btc_tick 120 100 1; btc_tick 60 101 1; btc_tick 120 99 1 ].

(** A forward-only stream with ticks stamped beyond the year 9999: 60 s,
    then 3e11 s and 3e11 + 60 s. *)
Definition far_ticks : list (Trade * Q) :=
  [ btc_tick 60 100 1; btc_tick 300000000000 100 2; btc_tick 300000000060 100 4 ].

(** The bucket of the bar open for a key, if any. *)
Definition open_bucket (s : BarBuilder.BarBuilder) (sym tf : string) : option Z :=
  BarBuilder.bucket_time <$> BarBuilder.current_bars s !! (sym, tf).

(** [s'] is [s] after some more publications, all on the channel
    [completed_bars] and none at all without a Redis manager, with the
    quality checker and configuration kept. *)
Definition published_more (s s' : BarBuilder.BarBuilder) : Prop :=
  BarBuilder.config s' = BarBuilder.config s /\
  BarBuilder.quality_checker s' = BarBuilder.quality_checker s /\
  exists ext,
    BarBuilder.redis_published s' = BarBuilder.redis_published s ++ ext /\
    Forall (fun cm => fst cm = "completed_bars") ext /\
    (BarBuilder.redis (BarBuilder.config s) = false -> ext = []).

(** A tick with a negative price, and the tick of the next minute that
    closes the bar it opened. *)
Definition negative_price_ticks : list (Trade * Q) :=
  [ btc_tick 60 (-5) 1; btc_tick 120 100 1 ].

Definition negative_bar : BarBuilder.Bar :=
  BarBuilder.fresh_bar "BTC" "1m" 60 (-5) 1 60.

(** A bar whose high lies below its open and close, and a builder that
    has a quality checker, a database and Redis. *)
Definition invalid_bar : BarBuilder.Bar :=
  {| BarBuilder.symbol := "BTC"; BarBuilder.timeframe := "1m";
     BarBuilder.bucket_time := 60;
     BarBuilder.open := 100; BarBuilder.high := 90; BarBuilder.low := 80;
     BarBuilder.close := 95; BarBuilder.volume := 1;
     BarBuilder.trade_count := 4;
     BarBuilder.first_trade_time := 60; BarBuilder.last_update := 61;
     BarBuilder.completed := false; BarBuilder.completion_time := None;
     BarBuilder.base_bars_count := None |}.

Definition checked_builder : BarBuilder.BarBuilder :=
  BarBuilder.init (BarBuilder.default_config true true)
    (Some (DataQuality.init true)).

(** A well-formed base bar for bucket 60. *)
Definition valid_bar : BarBuilder.Bar :=
  {| BarBuilder.symbol := "BTC"; BarBuilder.timeframe := "1m";
     BarBuilder.bucket_time := 60;
     BarBuilder.open := 100; BarBuilder.high := 102; BarBuilder.low := 99;
     BarBuilder.close := 102; BarBuilder.volume := 4;
     BarBuilder.trade_count := 4;
     BarBuilder.first_trade_time := 60; BarBuilder.last_update := 61;
     BarBuilder.completed := false; BarBuilder.completion_time := None;
     BarBuilder.base_bars_count := None |}.


(** Completed base candles handed to [_aggregate_higher_timeframes] one
    after the other, each with the time of its completion. *)
Definition aggregate_all (fuel : nat) (s : BarBuilder.BarBuilder) (sym : string)
    (bars : list (BarBuilder.Bar * Q)) : option BarBuilder.BarBuilder :=
  foldl (fun acc cn =>
           s ← acc;
           BarBuilder._aggregate_higher_timeframes
             (fun s sy tf b => BarBuilder._complete_bar fuel s sy tf b (snd cn))
             s sym (fst cn) (snd cn))
        (Some s) bars.

(** An aggregated bar extended by further base candles. *)
Definition rolled (agg : BarBuilder.Bar) (rest : list (BarBuilder.Bar * Q))
    : BarBuilder.Bar :=
  foldl (fun a cn => BarBuilder.extend_agg_bar a (fst cn) (snd cn)) agg rest.

Definition is_max (x : Q) (l : list Q) : Prop :=
  x ∈ l /\ Forall (fun y => (y <= x)%Q) l.

Definition is_min (x : Q) (l : list Q) : Prop :=
  x ∈ l /\ Forall (fun y => (x <= y)%Q) l.

Definition sum_Q (l : list Q) : Q := foldr Qplus 0%Q l.

Definition sum_Z (l : list Z) : Z := foldr Z.add 0 l.

(** The five one-minute candles of the literal roll-up scenario. *)
Definition minute_candle (bucket : Z) (o h l c v : Q) (n : Z) : BarBuilder.Bar :=
  {| BarBuilder.symbol := "BTC"; BarBuilder.timeframe := "1m";
     BarBuilder.bucket_time := bucket;
     BarBuilder.open := o; BarBuilder.high := h; BarBuilder.low := l;
     BarBuilder.close := c; BarBuilder.volume := v;
     BarBuilder.trade_count := n;
     BarBuilder.first_trade_time := inject_Z bucket;
     BarBuilder.last_update := inject_Z bucket;
     BarBuilder.completed := true;
     BarBuilder.completion_time := Some (inject_Z bucket + 60)%Q;
     BarBuilder.base_bars_count := None |}.

Definition first_minute : BarBuilder.Bar := minute_candle 0 10 12 9 11 1 3.

Definition next_minutes : list (BarBuilder.Bar * Q) :=
  [ (minute_candle 60 11 13 10 12 2 5, 120%Q);
    (minute_candle 120 12 14 11 13 3 2, 180%Q);
    (minute_candle 180 13 15 12 14 4 7, 240%Q);
    (minute_candle 240 14 16 13 15 5 1, 300%Q) ].

(** The rule of the cooldown scenario: price above 100, cooldown 60 s. *)
Definition cooldown_rule : AlertManager.Alert :=
  {| AlertManager.alert_id := "a1"; AlertManager.user_id := "u";
     AlertManager.symbol := "BTC";
     AlertManager.condition := AlertManager.PRICE_ABOVE;
     AlertManager.threshold := 100;
     AlertManager.channels := [AlertManager.WEBSOCKET];
     AlertManager.cooldown_seconds := 60;
     AlertManager.one_time := false; AlertManager.is_active := true;
     AlertManager.created_at := 0;
     AlertManager.last_triggered_at := None;
     AlertManager.trigger_count := 0;
     AlertManager.metadata := ∅ |}.

(** An alert as [_update_alert_state] leaves it when it fires at [t]. *)
Definition fired (a : AlertManager.Alert) (t : AlertManager.datetime)
    : AlertManager.Alert :=
  {| AlertManager.alert_id := AlertManager.alert_id a;
     AlertManager.user_id := AlertManager.user_id a;
     AlertManager.symbol := AlertManager.symbol a;
     AlertManager.condition := AlertManager.condition a;
     AlertManager.threshold := AlertManager.threshold a;
     AlertManager.channels := AlertManager.channels a;
     AlertManager.cooldown_seconds := AlertManager.cooldown_seconds a;
     AlertManager.one_time := AlertManager.one_time a;
     AlertManager.is_active :=
       if AlertManager.one_time a then false else AlertManager.is_active a;
     AlertManager.created_at := AlertManager.created_at a;
     AlertManager.last_triggered_at := Some t;
     AlertManager.trigger_count := AlertManager.trigger_count a + 1;
     AlertManager.metadata := AlertManager.metadata a |}.

(** A manager whose only rule is the scenario's, last fired at [T], and
    whose cache for BTC is empty or holds that rule. *)
Definition settled (T : AlertManager.datetime) (m : AlertManager.AlertManager) : Prop :=
  AlertManager.db m = [fired cooldown_rule T] /\
  AlertManager._cache_ttl m = 300 /\
  (AlertManager._alerts_cache m !! "BTC" = None \/
   AlertManager._alerts_cache m !! "BTC" = Some [fired cooldown_rule T]).

(** A clock that reads second [t] throughout a call. *)
Definition clock_at_second (t : Z) : AlertManager.Clock :=
  fun _ => AlertManager.timedelta t.

(* --------------------------------------------------------------------- *)
(** ** Streams of requests through the limiter                            *)
(* --------------------------------------------------------------------- *)

Section RateLimiterNotions.

Import RateLimiter.

(** A stream of requests (time, client and cost of each) answered one
    after the other: the store afterwards and the answers. *)
Fixpoint serve (self : TokenBucketRateLimiter) (redis : option Redis)
    (l : list (Q * string * Z)) : option Redis * list (bool * option Z) :=
  match l with
  | [] => (redis, [])
  | (t, c, k) :: l =>
    let '(redis, v) := is_allowed self redis t c k in
    let '(redis, vs) := serve self redis l in
    (redis, v :: vs)
  end.

(** The cost of the requests of [client] that were allowed. *)
Definition granted (client : string) (l : list (Q * string * Z))
    (vs : list (bool * option Z)) : Z :=
  sum_Z (zip_with (fun (q : Q * string * Z) (v : bool * option Z) =>
                     if bool_decide (snd (fst q) = client) && fst v then snd q else 0)
           l vs).

(** The answers given to the requests of [client]. *)
Definition verdicts (client : string) (l : list (Q * string * Z))
    (vs : list (bool * option Z)) : list (bool * option Z) :=
  omap (fun qv : (Q * string * Z) * (bool * option Z) =>
          if bool_decide (snd (fst (fst qv)) = client) then Some (snd qv) else None)
       (zip l vs).

(** Every stored token count lies between zero and the capacity. *)
Definition tokens_within (self : TokenBucketRateLimiter) (r : Redis) : Prop :=
  forall key m tk,
    hashes r !! key = Some m -> m !! "tokens" = Some tk ->
    (0 <= tk <= inject_Z (rate self))%Q.

(** What the bucket of [client] still allows once [g] tokens have been
    granted to requests made between [t0] and [t1]. *)
Definition bucket_budget (self : TokenBucketRateLimiter) (client : string)
    (t0 t1 : Q) (r : Redis) (g : Z) : Prop :=
  let bucket := hgetall (bucket_key client) r in
  (dom bucket = ∅ /\ g = 0) \/
  exists tk lr,
    bucket !! "tokens" = Some tk /\ bucket !! "last_refill" = Some lr /\
    (0 <= tk)%Q /\
    (inject_Z g + tk <= inject_Z (rate self) + (lr - t0) * refill_rate self)%Q /\
    (lr <= t1)%Q.

(** The token count a status reports. *)
Definition status_tokens (s : Status) : option Q :=
  match s with
  | StatusUnavailable => None
  | StatusNoBucket tokens _ _ _ => Some (inject_Z tokens)
  | StatusBucket tokens _ _ _ _ => Some tokens
  end.

(** Two clients at a limiter of 2 requests per 2 seconds, and a limiter
    configured with a rate of zero. *)
Definition sample_requests : list (Q * string * Z) :=
  [ (100%Q, "c", 1); (100%Q, "d", 2); (100%Q, "c", 1); (101%Q, "c", 2) ].

Definition zero_limiter : TokenBucketRateLimiter :=
  {| rate := 0; period := 60; refill_rate := (inject_Z 0 / inject_Z 60)%Q |}.

End RateLimiterNotions.

(* --------------------------------------------------------------------- *)
(** ** Runs of calls through the breaker                                  *)
(* --------------------------------------------------------------------- *)

Section CircuitBreakerNotions.

Import CircuitBreaker.

Definition succeeding (clks : list Clock) : list (Clock * Outcome) :=
  map (fun c => (c, Returns)) clks.

Definition failing (clks : list Clock) : list (Clock * Outcome) :=
  map (fun c => (c, Raises)) clks.

(** How a call that is let through ends. *)
Definition passed_through (f : Outcome) : CallResult :=
  match f with
  | Returns => Result
  | Raises => Reraised
  end.

(** Every run of consecutive failures in [l], counting the [c] failures
    already on record, stays below [threshold]. *)
Fixpoint streaks_below (threshold c : Z) (l : list Outcome) : Prop :=
  match l with
  | [] => True
  | Returns :: l => streaks_below threshold 0 l
  | Raises :: l => c + 1 < threshold /\ streaks_below threshold (c + 1) l
  end.

(** The clock readings of a run never go back, starting from [t]. *)
Fixpoint clocks_after (t : Q) (l : list (Clock * Outcome)) : Prop :=
  match l with
  | [] => True
  | (clk, _) :: l =>
    (t <= t_check clk)%Q /\ (t_check clk <= t_retry clk)%Q /\
    (t_retry clk <= t_fail clk)%Q /\ (t_fail clk <= t_open clk)%Q /\
    clocks_after (t_open clk) l
  end.

(** A refusal asks to wait between zero and [bound] seconds. *)
Definition retry_within (bound : Q) (r : CallResult) : Prop :=
  match r with
  | CircuitBreakerOpenError retry_after => (0 <= retry_after <= bound)%Q
  | _ => True
  end.

(** Probes each made once the timeout then in force has elapsed since
    the last opening: [wait] is that timeout for a breaker opened at
    [t0], and each failed probe doubles it up to [cap]. *)
Fixpoint probes_due (cap wait t0 : Q) (clks : list Clock) : Prop :=
  match clks with
  | [] => True
  | clk :: clks =>
    (t0 + wait <= t_check clk)%Q /\
    probes_due cap (Py.min (wait * 2) cap) (t_open clk) clks
  end.

(** The timeout in force lies between the base and the maximum timeout,
    and the breaker was not opened after [t]. *)
Definition timeout_inv (cfg : CircuitBreakerConfig) (t : Q) (b : CircuitBreaker) : Prop :=
  config b = cfg /\
  (timeout cfg <= current_timeout b <= max_timeout cfg)%Q /\
  (forall t0, opened_at b = Some t0 -> (t0 <= t)%Q).

(** Two breakers that differ at most in [last_failure_time], which no
    decision reads. *)
Definition same_behaviour (b1 b2 : CircuitBreaker) : Prop :=
  config b1 = config b2 /\ state b1 = state b2 /\
  failure_count b1 = failure_count b2 /\ success_count b1 = success_count b2 /\
  opened_at b1 = opened_at b2 /\ current_timeout b1 = current_timeout b2.

(** The breaker of the cycle scenario once opened at time 0.2, and the
    same breaker probing. *)
Definition opened_breaker : CircuitBreaker :=
  fst (calls (init cycle_config) three_failures).

Definition probing_breaker : CircuitBreaker :=
  _transition_to_half_open opened_breaker.

(** Failures interrupted by a success. *)
Definition interrupted_failures : list (Clock * Outcome) :=
  [ (clock_at 0, Raises); (clock_at 1, Raises); (clock_at 2, Returns);
    (clock_at 3, Raises); (clock_at 4, Raises) ].

End CircuitBreakerNotions.

(* --------------------------------------------------------------------- *)
(** ** Streams of trades through the quality checker                      *)
(* --------------------------------------------------------------------- *)

Section DataQualityNotions.

Import DataQuality.

Definition counts_of (self : DataQualityChecker) (symbol : string) : Counts :=
  default {| passed := 0; failed := 0 |} (check_counts self !! symbol).

Definition prices_of (self : DataQualityChecker) (symbol : string) : list Q :=
  default [] (price_history self !! symbol).

Definition volumes_of (self : DataQualityChecker) (symbol : string) : list Q :=
  default [] (volume_history self !! symbol).

(** A stream of trades through [validate_trade], each with the clock
    reading of its validation: the checker afterwards and the verdicts. *)
Fixpoint validate_all (pa vs : DataQualityChecker -> Trade -> CheckResult)
    (self : DataQualityChecker) (l : list (Trade * Q))
    : DataQualityChecker * list bool :=
  match l with
  | [] => (self, [])
  | (t, now) :: l =>
    let '(self, (ok, _)) := validate_trade pa vs self t now in
    let '(self, oks) := validate_all pa vs self l in
    (self, ok :: oks)
  end.

(** The number of trades of [symbol] in [l] that got the verdict [v]. *)
Definition verdict_count (symbol : string) (v : bool) (l : list (Trade * Q))
    (oks : list bool) : Z :=
  Z.of_nat (length (filter (fun to : (Trade * Q) * bool =>
                              trade_symbol (fst (fst to)) = symbol /\ snd to = v)
                      (zip l oks))).

(** The quarantine and the rolling histories are within their sizes. *)
Definition bounded (self : DataQualityChecker) : Prop :=
  (length (quarantine self) <= max_quarantine_size self)%nat /\
  forall sym,
    (length (prices_of self sym) <= history_window_size self)%nat /\
    (length (volumes_of self sym) <= history_window_size self)%nat.

(** A trade with a positive price, a non-negative quantity and a
    timestamp that is at most [max_age_seconds] old and at most five
    seconds ahead. *)
Definition well_formed_and_fresh (self : DataQualityChecker) (t : Trade) (now : Q)
    : Prop :=
  (0 < trade_price t)%Q /\ (0 <= trade_quantity t)%Q /\
  exists ts, trade_timestamp t = Some ts /\
    (-5 <= now - freshness_seconds ts <= max_age_seconds self)%Q.

(** A checker that has ten prices of 100 and ten volumes of 1 on record
    for BTC, and a checker that has quarantined one trade. *)
Definition warm_checker : DataQualityChecker :=
  {| enable_quarantine := true; max_age_seconds := 60;
     history_window_size := 100;
     price_history := {[ "BTC" := replicate 10 100%Q ]};
     volume_history := {[ "BTC" := replicate 10 1%Q ]};
     quality_scores := ∅; check_counts := ∅;
     quarantine := []; max_quarantine_size := 1000 |}.

Definition checker_with_quarantine : DataQualityChecker :=
  fst (validate_trade (fun _ _ => (true, None)) (fun _ _ => (true, None))
         (init true) (trade_at "BTC" 0 1 100) 100).

End DataQualityNotions.

(* --------------------------------------------------------------------- *)
(** ** Builder states                                                     *)
(* --------------------------------------------------------------------- *)

Section BarBuilderNotions.

Import BarBuilder.

(** The builder once the base bar [c], open for [sym], has been
    completed and rolled into the higher timeframes. *)
Definition rolled_over (s : BarBuilder) (sym : string) (c : Bar) (now : Q)
    : BarBuilder :=
  foldl (agg_step sym (mark_completed c now) now)
    (completed_state s sym (base_timeframe (config s)) c now)
    (aggregation_timeframes (config s)).

(** The builder after [process_trade] has run
    [_process_trade_for_timeframe], for the base timeframe, on a trade
    stamped [ts], when completing a bar needs no nested completion of
    the base timeframe; where [_init_bar] raises, the error record of
    [process_trade] is in the log. *)
Definition base_step (s : BarBuilder) (t : Trade) (ts now : Q) : BarBuilder :=
  let base := base_timeframe (config s) in
  let sym := trade_symbol t in
  let seconds := trade_seconds ts in
  let bucket := _get_bucket_time seconds base in
  let fresh s stale :=
    match _init_bar sym base bucket (trade_price t) (trade_quantity t) now with
    | Some bar => set_current_bar s sym base bar
    | None => logger (stale s) ErrorProcessingTrade
    end in
  match current_bars s !! (sym, base) with
  | None => fresh s id
  | Some c =>
    if bool_decide (bucket_time c ≠ bucket) then
      fresh (foldl (agg_step sym (mark_completed c now) now)
               (completed_state s sym base c now)
               (aggregation_timeframes (config s)))
            (fun s => set_current_bar s sym base (mark_completed c now))
    else
      set_current_bar s sym base
        (update_bar c (trade_price t) (trade_quantity t) seconds)
  end.

(** Two states that differ at most in the quality checker, the trade
    counter and the log. *)
Definition same_bars (s s' : BarBuilder) : Prop :=
  config s' = config s /\
  current_bars s' = current_bars s /\
  completed_bars_cache s' = completed_bars_cache s /\
  redis_published s' = redis_published s /\
  invalid_bars_total s' = invalid_bars_total s /\
  bars_completed_total s' = bars_completed_total s.

(** The trade is let in by [process_trade]: it names a symbol and
    the quality checker, if there is one, accepts it. *)
Definition passes_entry
    (pa vs : DataQuality.DataQualityChecker -> Trade -> DataQuality.CheckResult)
    (s : BarBuilder) (t : Trade) (now : Q) : Prop :=
  trade_symbol t <> "" /\
  match quality_checker s with
  | Some qc => fst (snd (DataQuality.validate_trade pa vs qc t now)) = true
  | None => True
  end.

(** The OHLC relations of a bar: low and high bracket open and close,
    prices are positive, volume is not negative. *)
Definition ohlc_ok (bar : Bar) : Prop :=
  (low bar <= open bar <= high bar)%Q /\
  (low bar <= close bar <= high bar)%Q /\
  (0 < low bar)%Q /\ (0 <= volume bar)%Q.

(** An open bar filed under [(sym, tf)]: labelled with its key, its
    bucket a multiple of the period, and (under [V]) well-formed. *)
Definition bar_wf (V : Prop) (sym tf : string) (bar : Bar) : Prop :=
  symbol bar = sym /\ timeframe bar = tf /\
  (interval_seconds tf | bucket_time bar) /\
  (V -> ohlc_ok bar).

(** A published candle: bucket time a multiple of the period (in
    milliseconds) and, under [V], the OHLC relations. *)
Definition candle_wf (V : Prop) (bd : BarData) : Prop :=
  (interval_seconds (bd_timeframe bd) * 1000 | bd_time bd) /\
  (V ->
   (bd_low bd <= bd_open bd <= bd_high bd)%Q /\
   (bd_low bd <= bd_close bd <= bd_high bd)%Q /\
   (0 < bd_low bd)%Q /\ (0 <= bd_volume bd)%Q).

Definition builder_wf (V : Prop) (s : BarBuilder) : Prop :=
  (forall sym tf bar, current_bars s !! (sym, tf) = Some bar -> bar_wf V sym tf bar) /\
  Forall (fun cm => candle_wf V (snd cm)) (redis_published s) /\
  (V -> invalid_bars_total s = ∅).

(** No list of the cache of completed bars is longer than [n]. *)
Definition cache_within (n : Z) (s : BarBuilder) : Prop :=
  forall key l, completed_bars_cache s !! key = Some l -> Z.of_nat (length l) <= n.

(** The candles published for one [(symbol, timeframe)], oldest first. *)
Definition published_for (s : BarBuilder) (sym tf : string) : list BarData :=
  filter (fun bd => bd_symbol bd = sym /\ bd_timeframe bd = tf)
    (map snd (redis_published s)).

(** The volume the builder accounts for on the base timeframe of a
    symbol: that of its published base candles and of its open one. *)
Definition traded_volume (s : BarBuilder) (sym : string) : Q :=
  let base := base_timeframe (config s) in
  (sum_Q (map bd_volume (published_for s sym base))
   + match current_bars s !! (sym, base) with
     | Some bar => volume bar
     | None => 0
     end)%Q.

(** The quantities of the trades of [sym] that carry a timestamp. *)
Definition stamped_quantities (sym : string) (l : list (Trade * Q)) : list Q :=
  map (fun tn => trade_quantity (fst tn))
    (filter (fun tn : Trade * Q =>
               trade_symbol (fst tn) = sym /\ is_Some (trade_timestamp (fst tn))) l).

(** What two builders show for one symbol. *)
Definition agree_on (sym : string) (s1 s2 : BarBuilder) : Prop :=
  config s1 = config s2 /\
  bars_labelled s1 /\ bars_labelled s2 /\
  forall tf,
    current_bars s1 !! (sym, tf) = current_bars s2 !! (sym, tf) /\
    published_for s1 sym tf = published_for s2 sym tf.

(** Ticks of two symbols, one of them without a timestamp. *)
Definition mixed_ticks : list (Trade * Q) :=
  [ btc_tick 60 100 1;
    (trade_at "ETH" 10 5 61, 61%Q);
    btc_tick 61 101 2;
    ({| trade_symbol := "BTC"; trade_price := 102; trade_quantity := 4;
        trade_timestamp := None |}, 62%Q);
    btc_tick 120 103 1;
    (trade_at "ETH" 11 5 121, 121%Q) ].

End BarBuilderNotions.

(* --------------------------------------------------------------------- *)
(** ** Sequences of alert checks                                          *)
(* --------------------------------------------------------------------- *)

Section AlertManagerNotions.

Import AlertManager.

(** A sequence of calls of [check_alerts], each with its clock, symbol,
    price and indicators: the manager afterwards and every alert that
    triggered, in order. *)
Fixpoint check_many (self : AlertManager)
    (l : list (Clock * string * Q * gmap string Q)) : AlertManager * list Alert :=
  match l with
  | [] => (self, [])
  | (clk, sym, price, indicators) :: l =>
    let '(self, triggered) := check_alerts clk self sym price indicators in
    let '(self, rest) := check_many self l in
    (self, triggered ++ rest)
  end.

(** The dispatches one triggered alert causes: one per channel. *)
Definition dispatches (alert : Alert) : list (string * NotificationChannel) :=
  map (fun c => (alert_id alert, c)) (channels alert).

(** [a'] is the alert [a] as one evaluation may leave it: with its MACD
    memory updated and, if it fired, stamped. *)
Definition evaluated (clk : Clock) (a a' : Alert) : Prop :=
  exists md,
    a' = set_metadata a md \/ exists k, a' = fired (set_metadata a md) (clk k).

(** The alert [a'] triggered from the alert [a]. *)
Definition triggered_from (clk : Clock) (a a' : Alert) : Prop :=
  is_active a = true /\
  (one_time a = true -> trigger_count a <= 0) /\
  exists md k, a' = fired (set_metadata a md) (clk k).

(** Every alert the manager knows, in the table or in a cached list. *)
Definition known (m : AlertManager) (a : Alert) : Prop :=
  a ∈ db m \/ exists sym l, _alerts_cache m !! sym = Some l /\ a ∈ l.

Definition has_key (id user : string) (a : Alert) : Prop :=
  alert_id a = id /\ user_id a = user.

(** Alert ids are unique in the table and in every cached list, and a
    cached alert is filed under its symbol and has its row. *)
Definition consistent (m : AlertManager) : Prop :=
  NoDup (map alert_id (db m)) /\
  forall sym l, _alerts_cache m !! sym = Some l ->
    NoDup (map alert_id l) /\
    forall a, a ∈ l ->
      symbol a = sym /\
      exists row, row ∈ db m /\ alert_id row = alert_id a /\
                  user_id row = user_id a /\ symbol row = sym.

Definition one_shot (X : string) (m : AlertManager) : Prop :=
  forall a, known m a -> alert_id a = X -> one_time a = true.

Definition retired (X : string) (m : AlertManager) : Prop :=
  forall a, known m a -> alert_id a = X -> is_active a = false.

Definition count_id (X : string) (l : list Alert) : nat :=
  length (filter (fun t => alert_id t = X) l).

(** What the updates for the triggered alerts [tr] make of a row. *)
Definition updated (tr : list Alert) (row row' : Alert) : Prop :=
  alert_id row' = alert_id row /\ user_id row' = user_id row /\
  symbol row' = symbol row /\
  ((row' = row /\ Forall (fun t => ~ has_key (alert_id row) (user_id row) t) tr) \/
   (exists t, t ∈ tr /\ has_key (alert_id row) (user_id row) t /\
      one_time row' = one_time t /\ is_active row' = is_active t)).

(** Every known alert with the id of [row] has its user and symbol. *)
Definition filed_as (row : Alert) (m : AlertManager) : Prop :=
  forall a, known m a -> alert_id a = alert_id row ->
    user_id a = user_id row /\ symbol a = symbol row.

(** The scenario's rule as a one-time rule, the scenario's rule switched
    off, and three checks of BTC at prices above the threshold. *)
Definition once_rule : Alert :=
  {| alert_id := "a1"; user_id := "u"; symbol := "BTC";
     condition := PRICE_ABOVE; threshold := 100;
     channels := [WEBSOCKET; EMAIL];
     cooldown_seconds := 0; one_time := true; is_active := true;
     created_at := 0; last_triggered_at := None; trigger_count := 0;
     metadata := ∅ |}.

Definition switched_off : Alert :=
  {| alert_id := "a1"; user_id := "u"; symbol := "BTC";
     condition := PRICE_ABOVE; threshold := 100;
     channels := [WEBSOCKET];
     cooldown_seconds := 60; one_time := false; is_active := false;
     created_at := 0; last_triggered_at := None; trigger_count := 0;
     metadata := ∅ |}.

Definition three_checks : list (Clock * string * Q * gmap string Q) :=
  [ (clock_at_second 10, "BTC", 101%Q, ∅);
    (clock_at_second 400, "BTC", 102%Q, ∅);
    (clock_at_second 800, "BTC", 103%Q, ∅) ].

End AlertManagerNotions.

(* ===================================================================== *)
(** * Facts about the numeric helpers                                     *)
(* ===================================================================== *)

Lemma ltb_lt a b : Py.ltb a b = true <-> (a < b)%Q.
Proof.
  unfold Py.ltb. destruct (Qcompare_spec a b); split; intros; try done; lra.
Qed.

Lemma ltb_ge a b : Py.ltb a b = false <-> (b <= a)%Q.
Proof.
  unfold Py.ltb. destruct (Qcompare_spec a b); split; intros; try done; lra.
Qed.

Lemma leb_le a b : Py.leb a b = true <-> (a <= b)%Q.
Proof. apply Qle_bool_iff. Qed.

Lemma leb_gt a b : Py.leb a b = false <-> (b < a)%Q.
Proof.
  unfold Py.leb. destruct (Qle_bool a b) eqn:E.
  - apply Qle_bool_iff in E. split; intros; try done; lra.
  - split; [intros _|done]. apply Qnot_le_lt. intro L.
    apply Qle_bool_iff in L. congruence.
Qed.

Lemma gtb_gt a b : Py.gtb a b = true <-> (b < a)%Q.
Proof. apply ltb_lt. Qed.

Lemma gtb_le a b : Py.gtb a b = false <-> (a <= b)%Q.
Proof. apply ltb_ge. Qed.

Lemma geb_ge a b : Py.geb a b = true <-> (b <= a)%Q.
Proof. apply leb_le. Qed.

Lemma geb_lt a b : Py.geb a b = false <-> (a < b)%Q.
Proof. apply leb_gt. Qed.

Lemma max_cases a b :
  (Py.max a b = a /\ (b <= a)%Q) \/ (Py.max a b = b /\ (a < b)%Q).
Proof.
  unfold Py.max. destruct (Qcompare_spec a b); [left|right|left]; split; try done; lra.
Qed.

Lemma min_cases a b :
  (Py.min a b = a /\ (a <= b)%Q) \/ (Py.min a b = b /\ (b < a)%Q).
Proof.
  unfold Py.min. destruct (Qcompare_spec b a); [left|right|left]; split; try done; lra.
Qed.

(** A string that is none of the strings of a literal list. *)
Ltac not_in_list :=
  let H := fresh "H" in
  intro H;
  repeat (apply elem_of_cons in H as [H|H]; [discriminate H|]);
  apply elem_of_nil in H; exact H.

(** On non-negative arguments truncation is the floor. *)
Lemma int_floor x : (0 <= x)%Q -> Py.int x = Qfloor x.
Proof.
  destruct x as [n d]. unfold Py.int, Qfloor, Qle. simpl. intro H.
  apply Z.quot_div_nonneg; lia.
Qed.

Lemma int_inject_Z z : Py.int (inject_Z z) = z.
Proof. unfold Py.int, inject_Z. simpl. apply Z.quot_1_r. Qed.

(** Floor and ceiling differ by one exactly off the integers. *)
Lemma ceiling_of_floor_frac q :
  (inject_Z (Qfloor q) < q)%Q -> Qceiling q = Qfloor q + 1.
Proof.
  intro H.
  pose proof (Qle_ceiling q) as Hc. pose proof (Qceiling_lt q) as Hc'.
  pose proof (Qlt_floor q) as Hf.
  assert (Qfloor q < Qceiling q) by (rewrite Zlt_Qlt; lra).
  assert (Qceiling q - 1 < Qfloor q + 1) by (rewrite Zlt_Qlt; lra).
  lia.
Qed.

Lemma ceiling_of_floor_int q :
  (inject_Z (Qfloor q) == q)%Q -> Qceiling q = Qfloor q.
Proof.
  intro H.
  pose proof (Qle_ceiling q) as Hc. pose proof (Qceiling_lt q) as Hc'.
  assert (Qfloor q <= Qceiling q) by (rewrite Zle_Qle; lra).
  assert (Qceiling q - 1 < Qfloor q) by (rewrite Zlt_Qlt; lra).
  lia.
Qed.

(* ===================================================================== *)
(** * Rate limiter: denial                                                *)
(* ===================================================================== *)

Lemma first_request_fills_store :
  RateLimiter.init 2 2 = Some limiter_2_per_2 /\
  RateLimiter.is_allowed limiter_2_per_2 (Some RateLimiter.empty_redis) 100 "c" 2
  = (Some store_after_first, (true, None)).
Proof. split; vm_compute; reflexivity. Qed.

(** C10: when [is_allowed] denies a request it writes nothing back: the
    store it returns (every hash, so the bucket's [tokens] and
    [last_refill], and every expiry) is the store it was given. *)
Theorem is_allowed_deny_leaves_store
    (self : RateLimiter.TokenBucketRateLimiter) (redis redis' : option RateLimiter.Redis)
    (current_time : Q) (client_id : string) (cost : Z) (retry_after : option Z) :
  RateLimiter.is_allowed self redis current_time client_id cost
    = (redis', (false, retry_after)) ->
  redis' = redis.
Proof.
  unfold RateLimiter.is_allowed. destruct redis as [r|]; [|intros [=]].
  case_bool_decide; [intros [=]|].
  destruct (Py.geb _ _); [intros [=]|].
  destruct (Qeq_bool _ _); intros [=]; done.
Qed.

Lemma is_allowed_deny_leaves_store_witness :
  fst (RateLimiter.is_allowed limiter_2_per_2 (Some store_after_first) 101 "c" 2)
  = Some store_after_first.
Proof.
  apply (is_allowed_deny_leaves_store limiter_2_per_2 (Some store_after_first)
           _ 101 "c" 2 (Some 2)).
  vm_compute. reflexivity.
Defined.

(** On allow the refilled count less the cost and the current time are
    written back, with the expiry renewed. *)
Lemma is_allowed_allow_persists
    (self : RateLimiter.TokenBucketRateLimiter) (r : RateLimiter.Redis)
    (current_time : Q) (client_id : string) (cost : Z) :
  let key := RateLimiter.bucket_key client_id in
  let tokens :=
    RateLimiter.refilled_tokens self (RateLimiter.hgetall key r) current_time in
  dom (RateLimiter.hgetall key r) <> ∅ ->
  (inject_Z cost <= tokens)%Q ->
  RateLimiter.is_allowed self (Some r) current_time client_id cost
  = (Some (RateLimiter.expire key (RateLimiter.period self * 2)
             (RateLimiter.hset key
                (RateLimiter.bucket_mapping (tokens - inject_Z cost) current_time) r)),
     (true, None)).
Proof.
  intros key tokens Hdom Hle. unfold RateLimiter.is_allowed. fold key.
  rewrite bool_decide_eq_false_2 by done. fold tokens.
  rewrite (proj2 (geb_ge _ _)) by done. done.
Qed.

(** The positive refill rate of a limiter built from positive settings. *)
Lemma init_refill_rate_pos rate period self :
  0 < rate -> 0 < period -> RateLimiter.init rate period = Some self ->
  (0 < RateLimiter.refill_rate self)%Q /\ RateLimiter.rate self = rate.
Proof.
  intros Hr Hp. unfold RateLimiter.init.
  destruct (period =? 0) eqn:E; [lia|]. intros [= <-]. simpl. split; [|done].
  apply Qlt_shift_div_l.
  - replace 0%Q with (inject_Z 0) by done. rewrite <- Zlt_Qlt. done.
  - rewrite Qmult_0_l. replace 0%Q with (inject_Z 0) by done.
    rewrite <- Zlt_Qlt. done.
Qed.

(** C5 (as the code has it): with positive rate and period, a request
    that finds an existing bucket holding, after refill, fewer tokens
    than its cost is denied, the store is untouched, and
    [retry_after = floor((cost - tokens) / refill_rate) + 1].  That is
    the ceiling of the quotient when the quotient is not an integer and
    one more than the ceiling when it is. *)
Theorem is_allowed_deny_retry_after
    (rate period : Z) (self : RateLimiter.TokenBucketRateLimiter)
    (r : RateLimiter.Redis) (current_time : Q) (client_id : string) (cost : Z) :
  0 < rate -> 0 < period -> RateLimiter.init rate period = Some self ->
  let bucket := RateLimiter.hgetall (RateLimiter.bucket_key client_id) r in
  let tokens := RateLimiter.refilled_tokens self bucket current_time in
  let quotient := ((inject_Z cost - tokens) / RateLimiter.refill_rate self)%Q in
  dom bucket <> ∅ ->
  (tokens < inject_Z cost)%Q ->
  RateLimiter.is_allowed self (Some r) current_time client_id cost
    = (Some r, (false, Some (Qfloor quotient + 1))) /\
  ((inject_Z (Qfloor quotient) < quotient)%Q ->
     Qfloor quotient + 1 = Qceiling quotient) /\
  ((inject_Z (Qfloor quotient) == quotient)%Q ->
     Qfloor quotient + 1 = Qceiling quotient + 1).
Proof.
  intros Hr Hp Hinit bucket tokens quotient Hdom Hlt.
  destruct (init_refill_rate_pos _ _ _ Hr Hp Hinit) as [Hpos _].
  split; [|split].
  - unfold RateLimiter.is_allowed. fold bucket.
    rewrite bool_decide_eq_false_2 by done. fold tokens.
    rewrite (proj2 (geb_lt _ _)) by done.
    destruct (Qeq_bool (RateLimiter.refill_rate self) 0) eqn:E.
    { apply Qeq_bool_iff in E. lra. }
    fold quotient. rewrite int_floor; [done|].
    unfold quotient. apply Qle_shift_div_l; [done|]. lra.
  - intro H. rewrite (ceiling_of_floor_frac _ H). done.
  - intro H. rewrite (ceiling_of_floor_int _ H). done.
Qed.

Lemma is_allowed_deny_retry_after_witness :
  RateLimiter.is_allowed limiter_2_per_2 (Some store_after_first) 101 "c" 2
    = (Some store_after_first,
       (false,
        Some (Qfloor ((inject_Z 2
                       - RateLimiter.refilled_tokens limiter_2_per_2
                           (RateLimiter.hgetall (RateLimiter.bucket_key "c") store_after_first)
                           101)
                      / RateLimiter.refill_rate limiter_2_per_2) + 1))).
Proof.
  refine (proj1 (is_allowed_deny_retry_after 2 2 limiter_2_per_2 store_after_first
                   101 "c" 2 _ _ _ _ _)).
  - lia.
  - lia.
  - vm_compute. reflexivity.
  - vm_compute. intro H. discriminate H.
  - vm_compute. reflexivity.
Defined.

(** C5 (as stated) fails: one second after a first request of cost 2
    emptied a 2-per-2-seconds bucket, the bucket holds 1 token; a second
    request of cost 2 is denied with [retry_after = 2], while the ceiling
    of [(2 - 1) / 1] is 1. *)
Lemma retry_after_is_not_the_ceiling :
  let tokens :=
    RateLimiter.refilled_tokens limiter_2_per_2
      (RateLimiter.hgetall (RateLimiter.bucket_key "c") store_after_first) 101 in
  (tokens < inject_Z 2)%Q /\
  snd (RateLimiter.is_allowed limiter_2_per_2 (Some store_after_first) 101 "c" 2)
    = (false, Some 2) /\
  Qceiling ((inject_Z 2 - tokens) / RateLimiter.refill_rate limiter_2_per_2) = 1 /\
  Some 2 <> Some (Qceiling ((inject_Z 2 - tokens) / RateLimiter.refill_rate limiter_2_per_2)).
Proof.
  vm_compute. repeat split; try reflexivity; intro H; discriminate H.
Qed.

(* ===================================================================== *)
(** * Circuit breaker: the open / half-open cycle                         *)
(* ===================================================================== *)

Lemma calls_app b l1 l2 :
  CircuitBreaker.calls b (l1 ++ l2)
  = let '(b1, r1) := CircuitBreaker.calls b l1 in
    let '(b2, r2) := CircuitBreaker.calls b1 l2 in
    (b2, r1 ++ r2).
Proof.
  revert b. induction l1 as [|[clk f] l1 IH]; intros b; simpl.
  - destruct (CircuitBreaker.calls b l2). done.
  - destruct (CircuitBreaker.call b clk f) as [b' r]. rewrite IH.
    destruct (CircuitBreaker.calls b' l1) as [b1 r1].
    destruct (CircuitBreaker.calls b1 l2) as [b2 r2]. done.
Qed.

(** Failures below the threshold leave a closed breaker closed and only
    count. *)
Lemma failures_below_threshold (clks : list CircuitBreaker.Clock) :
  forall b : CircuitBreaker.CircuitBreaker,
  CircuitBreaker.state b = CircuitBreaker.CLOSED ->
  CircuitBreaker.failure_count b + Z.of_nat (length clks)
    < CircuitBreaker.failure_threshold (CircuitBreaker.config b) ->
  let b' := fst (CircuitBreaker.calls b (map (fun c => (c, CircuitBreaker.Raises)) clks)) in
  CircuitBreaker.state b' = CircuitBreaker.CLOSED /\
  CircuitBreaker.config b' = CircuitBreaker.config b /\
  CircuitBreaker.failure_count b' = CircuitBreaker.failure_count b + Z.of_nat (length clks) /\
  CircuitBreaker.current_timeout b' = CircuitBreaker.current_timeout b.
Proof.
  induction clks as [|clk clks IH]; intros b Hst Hlt; simpl in *.
  - repeat split; try done. lia.
  - unfold CircuitBreaker.call, CircuitBreaker.enter_call. rewrite Hst.
    unfold CircuitBreaker._on_failure. simpl. rewrite Hst.
    destruct (_ >=? _) eqn:E; [lia|].
    match goal with |- context [CircuitBreaker.calls ?b0 _] =>
      specialize (IH b0) end.
    simpl in IH. specialize (IH eq_refl ltac:(lia)).
    destruct (CircuitBreaker.calls _ _) as [b2 rs]. simpl in *.
    destruct IH as (? & ? & ? & ?). repeat split; try done. lia.
Qed.

(** The failure that reaches the threshold opens the breaker. *)
Lemma failure_at_threshold (b : CircuitBreaker.CircuitBreaker) (clk : CircuitBreaker.Clock) :
  CircuitBreaker.state b = CircuitBreaker.CLOSED ->
  CircuitBreaker.failure_count b + 1
    >= CircuitBreaker.failure_threshold (CircuitBreaker.config b) ->
  let b' := fst (CircuitBreaker.call b clk CircuitBreaker.Raises) in
  CircuitBreaker.state b' = CircuitBreaker.OPEN /\
  CircuitBreaker.config b' = CircuitBreaker.config b /\
  CircuitBreaker.opened_at b' = Some (CircuitBreaker.t_open clk) /\
  CircuitBreaker.current_timeout b'
  = if CircuitBreaker.exponential_backoff (CircuitBreaker.config b)
    then Py.min (CircuitBreaker.current_timeout b * 2)%Q
                (CircuitBreaker.max_timeout (CircuitBreaker.config b))
    else CircuitBreaker.current_timeout b.
Proof.
  intros Hst Hge. unfold CircuitBreaker.call, CircuitBreaker.enter_call.
  rewrite Hst. unfold CircuitBreaker._on_failure. simpl. rewrite Hst.
  destruct (_ >=? _) eqn:E; [|lia]. simpl. done.
Qed.

(** What the next call finds at an open breaker. *)
Lemma open_breaker_next_call (b : CircuitBreaker.CircuitBreaker) (t0 : Q)
    (clk : CircuitBreaker.Clock) (f : CircuitBreaker.Outcome) :
  CircuitBreaker.state b = CircuitBreaker.OPEN ->
  CircuitBreaker.opened_at b = Some t0 ->
  ((CircuitBreaker.t_check clk - t0 < CircuitBreaker.current_timeout b)%Q ->
     CircuitBreaker.call b clk f
     = (b, CircuitBreaker.CircuitBreakerOpenError
             (CircuitBreaker._get_retry_after b (CircuitBreaker.t_retry clk)))) /\
  ((CircuitBreaker.current_timeout b <= CircuitBreaker.t_check clk - t0)%Q ->
     CircuitBreaker.enter_call b clk = (CircuitBreaker._transition_to_half_open b, None) /\
     CircuitBreaker.state (fst (CircuitBreaker.enter_call b clk)) = CircuitBreaker.HALF_OPEN).
Proof.
  intros Hst Hop. unfold CircuitBreaker.call, CircuitBreaker.enter_call.
  rewrite Hst. unfold CircuitBreaker._should_attempt_reset. rewrite Hop.
  split; intro H.
  - rewrite (proj2 (geb_lt _ _)) by done. done.
  - rewrite (proj2 (geb_ge _ _)) by done. done.
Qed.

(** What the code does after opening: starting from a fresh breaker
    whose [failure_threshold] is at least one, after [failure_threshold]
    consecutive failing calls the breaker is OPEN, [opened_at] is the
    time the last failure was handled, and the timeout in force is
    [min(2 * timeout, max_timeout)] when [exponential_backoff] is set
    (the base [timeout] otherwise).  A next call arriving before that
    timeout has elapsed since [opened_at] raises [CircuitBreakerOpenError]
    and leaves the breaker as it is; the first call arriving once it has
    elapsed is admitted and moves the breaker to HALF_OPEN. *)
Theorem breaker_opens_and_resets_after_current_timeout
    (cfg : CircuitBreaker.CircuitBreakerConfig)
    (clks : list CircuitBreaker.Clock) (last_clk next_clk : CircuitBreaker.Clock)
    (f : CircuitBreaker.Outcome) :
  Z.of_nat (length clks) + 1 = CircuitBreaker.failure_threshold cfg ->
  let failing := map (fun c => (c, CircuitBreaker.Raises)) (clks ++ [last_clk]) in
  let b := fst (CircuitBreaker.calls (CircuitBreaker.init cfg) failing) in
  let elapsed := (CircuitBreaker.t_check next_clk - CircuitBreaker.t_open last_clk)%Q in
  CircuitBreaker.state b = CircuitBreaker.OPEN /\
  CircuitBreaker.opened_at b = Some (CircuitBreaker.t_open last_clk) /\
  CircuitBreaker.current_timeout b = first_open_timeout cfg /\
  ((elapsed < first_open_timeout cfg)%Q ->
     exists retry_after,
       CircuitBreaker.call b next_clk f
       = (b, CircuitBreaker.CircuitBreakerOpenError retry_after)) /\
  ((first_open_timeout cfg <= elapsed)%Q ->
     snd (CircuitBreaker.enter_call b next_clk) = None /\
     CircuitBreaker.state (fst (CircuitBreaker.enter_call b next_clk))
     = CircuitBreaker.HALF_OPEN).
Proof.
  intros Hlen failing b elapsed.
  assert (Hb : CircuitBreaker.state b = CircuitBreaker.OPEN /\
               CircuitBreaker.opened_at b = Some (CircuitBreaker.t_open last_clk) /\
               CircuitBreaker.current_timeout b = first_open_timeout cfg).
  { subst b failing. rewrite map_app, calls_app.
    pose proof (failures_below_threshold clks (CircuitBreaker.init cfg) eq_refl) as H1.
    simpl in H1. specialize (H1 ltac:(lia)). revert H1.
    destruct (CircuitBreaker.calls (CircuitBreaker.init cfg) _) as [b1 r1].
    simpl. intros (Hst & Hcfg & Hfc & Hct).
    pose proof (failure_at_threshold b1 last_clk Hst) as H2.
    rewrite Hcfg, Hfc in H2. specialize (H2 ltac:(lia)). simpl in H2. revert H2.
    destruct (CircuitBreaker.call b1 last_clk _) as [b2 r2]. simpl.
    intros (? & ? & ? & Hct2). repeat split; try done.
    rewrite Hct2, Hct. done. }
  destruct Hb as (Hst & Hop & Hct).
  pose proof (open_breaker_next_call b _ next_clk f Hst Hop) as [Hclosed Hopen].
  rewrite Hct in Hclosed, Hopen.
  do 3 (split; [done|]). split.
  - intro H. eexists. apply Hclosed. exact H.
  - intro H. destruct (Hopen H) as [E ?]. rewrite E. done.
Qed.

Lemma breaker_opens_and_resets_after_current_timeout_witness :
  let b := fst (CircuitBreaker.calls (CircuitBreaker.init cycle_config) three_failures) in
  CircuitBreaker.state b = CircuitBreaker.OPEN /\
  CircuitBreaker.opened_at b = Some (2 # 10) /\
  CircuitBreaker.current_timeout b = first_open_timeout cycle_config /\
  (((12 # 10) - (2 # 10) < first_open_timeout cycle_config)%Q ->
     exists retry_after,
       CircuitBreaker.call b (clock_at (12 # 10)) CircuitBreaker.Returns
       = (b, CircuitBreaker.CircuitBreakerOpenError retry_after)) /\
  ((first_open_timeout cycle_config <= (12 # 10) - (2 # 10))%Q ->
     snd (CircuitBreaker.enter_call b (clock_at (12 # 10))) = None /\
     CircuitBreaker.state (fst (CircuitBreaker.enter_call b (clock_at (12 # 10))))
     = CircuitBreaker.HALF_OPEN).
Proof.
  apply (breaker_opens_and_resets_after_current_timeout cycle_config
           [clock_at 0; clock_at (1 # 10)] (clock_at (2 # 10)) (clock_at (12 # 10))
           CircuitBreaker.Returns).
  reflexivity.
Defined.

(** C3, at the failing input: with [failure_threshold = 3],
    [timeout = 0.5] and backoff on (the configuration of the claim, and
    that of the unit tests, whose maximum timeout is 2 s), three failing
    calls open the breaker, at time 0.2, with the timeout already
    doubled to [min(2 * 0.5, max_timeout) = 1] second.  A call made
    0.5 s after the opening, where the claim has it run and move the
    breaker to HALF_OPEN, raises [CircuitBreakerOpenError] with half a
    second still to wait; so does the call made 0.6 s after the opening
    ([timeout + 0.1], the delay the unit tests sleep before they require
    HALF_OPEN) and one made 0.9 s after it; the breaker stays OPEN. *)
Lemma half_second_after_opening_still_refused :
  let opened cfg := fst (CircuitBreaker.calls (CircuitBreaker.init cfg) three_failures) in
  let b := opened cycle_config in
  CircuitBreaker.state b = CircuitBreaker.OPEN /\
  CircuitBreaker.opened_at b = Some (2 # 10) /\
  (CircuitBreaker.current_timeout b == 1)%Q /\
  (CircuitBreaker.timeout cycle_config <= (7 # 10) - (2 # 10))%Q /\
  CircuitBreaker.call b (clock_at (7 # 10)) CircuitBreaker.Returns
  = (b, CircuitBreaker.CircuitBreakerOpenError
          (CircuitBreaker._get_retry_after b (7 # 10))) /\
  (CircuitBreaker._get_retry_after b (7 # 10) == 1 # 2)%Q /\
  CircuitBreaker.call b (clock_at (8 # 10)) CircuitBreaker.Returns
  = (b, CircuitBreaker.CircuitBreakerOpenError
          (CircuitBreaker._get_retry_after b (8 # 10))) /\
  CircuitBreaker.state (fst (CircuitBreaker.call b (clock_at (11 # 10)) CircuitBreaker.Returns))
  = CircuitBreaker.OPEN /\
  (CircuitBreaker.current_timeout (opened test_config) == 1)%Q /\
  CircuitBreaker.call (opened test_config) (clock_at (8 # 10)) CircuitBreaker.Returns
  = (opened test_config,
     CircuitBreaker.CircuitBreakerOpenError
       (CircuitBreaker._get_retry_after (opened test_config) (8 # 10))).
Proof.
  cbn zeta. repeat split; try (vm_compute; reflexivity).
  vm_compute. intro H; discriminate H.
Qed.

(* ===================================================================== *)
(** * Quality score                                                       *)
(* ===================================================================== *)

Lemma new_score_range s p :
  (0 <= s <= 1)%Q -> (0 <= DataQuality.new_score s p <= 1)%Q.
Proof.
  intros [H0 H1]. unfold DataQuality.new_score, DataQuality.alpha.
  destruct p; split; lra.
Qed.

Lemma foldl_new_score_range l : forall s,
  (0 <= s <= 1)%Q -> (0 <= foldl DataQuality.new_score s l <= 1)%Q.
Proof.
  induction l as [|p l IH]; intros s Hs; simpl; [done|].
  apply IH. apply new_score_range. done.
Qed.

Lemma update_quality_score_same self symbol passed :
  DataQuality.get_quality_score
    (DataQuality._update_quality_score self symbol passed) symbol
  = DataQuality.new_score (DataQuality.get_quality_score self symbol) passed.
Proof.
  unfold DataQuality.get_quality_score, DataQuality._update_quality_score,
    DataQuality.score_of. simpl. rewrite lookup_insert_eq. done.
Qed.

Lemma update_quality_score_other self symbol other passed :
  other <> symbol ->
  DataQuality.get_quality_score
    (DataQuality._update_quality_score self symbol passed) other
  = DataQuality.get_quality_score self other.
Proof.
  intro H. unfold DataQuality.get_quality_score, DataQuality._update_quality_score.
  simpl. rewrite lookup_insert_ne by done. done.
Qed.

Lemma update_all_score l : forall self symbol,
  DataQuality.get_quality_score (DataQuality.update_all self l) symbol
  = foldl DataQuality.new_score (DataQuality.get_quality_score self symbol)
      (own_stream symbol l).
Proof.
  induction l as [|[sym p] l IH]; intros self symbol; [done|].
  unfold DataQuality.update_all in *. simpl. rewrite IH.
  unfold own_stream. rewrite filter_cons. simpl.
  destruct (decide (sym = symbol)) as [->|Hne]; simpl.
  - rewrite update_quality_score_same. done.
  - rewrite update_quality_score_other by done. done.
Qed.

(** [validate_trade] moves the score of the trade's symbol by exactly one
    update, a pass when it accepts the trade and a fail when it rejects
    it, whatever the two statistical checks compute. *)
Lemma validate_trade_updates_score_once pa vs self t now :
  let '(self', (ok, _)) := DataQuality.validate_trade pa vs self t now in
  DataQuality.quality_scores self'
  = DataQuality.quality_scores
      (DataQuality._update_quality_score self (trade_symbol t) ok).
Proof.
  unfold DataQuality.validate_trade.
  set (checks := [_; _; _; _]). clearbody checks.
  assert (G : forall checks self0,
    DataQuality.quality_scores self0 = DataQuality.quality_scores self ->
    match DataQuality.run_checks self0 t checks with
    | (self', Some (ok, _)) =>
      ok = false /\
      DataQuality.quality_scores self'
      = DataQuality.quality_scores
          (DataQuality._update_quality_score self (trade_symbol t) false)
    | (self', None) =>
      DataQuality.quality_scores self' = DataQuality.quality_scores self
    end).
  { clear checks. induction checks as [|[name [v msg]] checks IH]; intros self0 H0; simpl.
    - done.
    - destruct v; simpl.
      + apply IH. simpl. done.
      + split; [done|].
        unfold DataQuality._update_quality_score, DataQuality.score_of. simpl.
        destruct (DataQuality.enable_quarantine self0); simpl; rewrite H0; done. }
  specialize (G checks self eq_refl).
  destruct (DataQuality.run_checks self t checks) as [self' [[ok msg]|]].
  - destruct G as [-> G]. done.
  - simpl. unfold DataQuality._update_quality_score, DataQuality.score_of.
    simpl. rewrite G. done.
Qed.

(** C6: every symbol's quality score starts at 1; a pass moves the score
    [s] of its symbol to [s + 0.1 * (1 - s)] and a fail to
    [s + 0.1 * (0 - s)], leaving every other symbol's score alone; after
    any interleaved sequence of updates the score of a symbol is the
    fold of these two steps over that symbol's own pass/fail sequence
    (so equal sequences give equal scores) and lies in [0, 1]. *)
Theorem quality_score_is_ema_of_own_stream
    (enable_quarantine : bool) (updates : list (string * bool)) (symbol : string) :
  let start := DataQuality.init enable_quarantine in
  let final := DataQuality.update_all start updates in
  DataQuality.get_quality_score start symbol = 1%Q /\
  (forall self passed,
     let s := DataQuality.get_quality_score self symbol in
     DataQuality.get_quality_score
       (DataQuality._update_quality_score self symbol passed) symbol
     = if passed then (s + (1 # 10) * (1 - s))%Q else (s + (1 # 10) * (0 - s))%Q) /\
  (forall self other passed,
     other <> symbol ->
     DataQuality.get_quality_score
       (DataQuality._update_quality_score self other passed) symbol
     = DataQuality.get_quality_score self symbol) /\
  DataQuality.get_quality_score final symbol
  = foldl DataQuality.new_score 1%Q (own_stream symbol updates) /\
  (forall updates',
     own_stream symbol updates' = own_stream symbol updates ->
     DataQuality.get_quality_score (DataQuality.update_all start updates') symbol
     = DataQuality.get_quality_score final symbol) /\
  (0 <= DataQuality.get_quality_score final symbol <= 1)%Q.
Proof.
  intros start final.
  assert (Hfinal : DataQuality.get_quality_score final symbol
                   = foldl DataQuality.new_score 1%Q (own_stream symbol updates)).
  { unfold final. rewrite update_all_score. done. }
  split; [done|]. split; [|split; [|split; [|split]]].
  - intros self passed s. rewrite update_quality_score_same.
    unfold DataQuality.new_score, DataQuality.alpha. done.
  - intros self other passed Hne. apply update_quality_score_other. done.
  - exact Hfinal.
  - intros updates' Heq. rewrite Hfinal, update_all_score, Heq. done.
  - rewrite Hfinal. apply foldl_new_score_range. lra.
Qed.

(* ===================================================================== *)
(** * Buckets and timestamps                                              *)
(* ===================================================================== *)

Lemma timeframe_seconds_pos timeframe : 0 < interval_seconds timeframe.
Proof.
  unfold interval_seconds, BarBuilder.timeframe_seconds.
  repeat (rewrite lookup_insert; case_decide; [simpl; lia|]).
  rewrite lookup_empty. simpl. lia.
Qed.

(** The bucket start is [floor(t / p) * p]. *)
Lemma get_bucket_time_floor timestamp timeframe :
  BarBuilder._get_bucket_time timestamp timeframe
  = Qfloor (timestamp / inject_Z (interval_seconds timeframe))
    * interval_seconds timeframe.
Proof.
  unfold BarBuilder._get_bucket_time, Py.floordiv. fold (interval_seconds timeframe).
  unfold Py.int, inject_Z, Qmult. simpl. rewrite Z.quot_1_r. done.
Qed.

(** A bucket start is a multiple of the period and is its own bucket. *)
Lemma get_bucket_time_idem t timeframe :
  BarBuilder._get_bucket_time
    (inject_Z (BarBuilder._get_bucket_time t timeframe)) timeframe
  = BarBuilder._get_bucket_time t timeframe.
Proof.
  rewrite !get_bucket_time_floor.
  pose proof (timeframe_seconds_pos timeframe) as Hp.
  set (p := interval_seconds timeframe) in *.
  set (k := Qfloor (t / inject_Z p)).
  f_equal.
  assert (E : (inject_Z (k * p) / inject_Z p == inject_Z k)%Q).
  { rewrite inject_Z_mult. field. intro H.
    assert (inject_Z 0 < inject_Z p)%Q by (rewrite <- Zlt_Qlt; done).
    change (inject_Z 0) with 0%Q in *. lra. }
  rewrite E. apply Qfloor_Z.
Qed.

(** Buckets grow with time. *)
Lemma get_bucket_time_mono t1 t2 timeframe :
  (t1 <= t2)%Q ->
  BarBuilder._get_bucket_time t1 timeframe <= BarBuilder._get_bucket_time t2 timeframe.
Proof.
  intro H. rewrite !get_bucket_time_floor.
  pose proof (timeframe_seconds_pos timeframe) as Hp.
  apply Z.mul_le_mono_nonneg_r; [lia|].
  apply Qfloor_resp_le.
  assert (0 < inject_Z (interval_seconds timeframe))%Q
    by (change 0%Q with (inject_Z 0); rewrite <- Zlt_Qlt; done).
  apply Qmult_le_compat_r; [done|]. apply Qlt_le_weak. apply Qinv_lt_0_compat. done.
Qed.

(** [_init_bar] builds its bar exactly for the bucket times that have a
    datetime. *)
Lemma datetime_fromtimestamp_spec bucket :
  (has_datetime bucket /\ BarBuilder.datetime_fromtimestamp bucket = Some bucket) \/
  (~ has_datetime bucket /\ BarBuilder.datetime_fromtimestamp bucket = None).
Proof.
  unfold has_datetime, BarBuilder.datetime_fromtimestamp.
  destruct (BarBuilder.datetime_min_timestamp <=? bucket) eqn:E1;
    destruct (bucket <=? BarBuilder.datetime_max_timestamp) eqn:E2; simpl;
    [left|right|right|right]; (split; [lia|done]).
Qed.

Lemma init_bar_spec symbol timeframe bucket price quantity now :
  (has_datetime bucket /\
   BarBuilder._init_bar symbol timeframe bucket price quantity now
   = Some (BarBuilder.fresh_bar symbol timeframe bucket price quantity now)) \/
  (~ has_datetime bucket /\
   BarBuilder._init_bar symbol timeframe bucket price quantity now = None).
Proof.
  unfold BarBuilder._init_bar.
  destruct (datetime_fromtimestamp_spec bucket) as [[H ->]|[H ->]];
    [left|right]; done.
Qed.

Lemma init_bar_has_datetime symbol timeframe bucket price quantity now :
  has_datetime bucket ->
  BarBuilder._init_bar symbol timeframe bucket price quantity now
  = Some (BarBuilder.fresh_bar symbol timeframe bucket price quantity now).
Proof.
  intro H. destruct (init_bar_spec symbol timeframe bucket price quantity now)
    as [[_ E]|[Hn _]]; done.
Qed.

(** The periods all divide a day, and the first instant with a datetime
    is the start of a day: the bucket a higher timeframe files a base
    bucket under has a datetime whenever the base bucket has one, so the
    [datetime.fromtimestamp] of [_aggregate_higher_timeframes] (line
    414) does not raise on a bar [_init_bar] has built. *)
Lemma agg_bucket_has_datetime bucket timeframe :
  has_datetime bucket ->
  has_datetime (BarBuilder._get_bucket_time (inject_Z bucket) timeframe).
Proof.
  intros [Hlo Hhi].
  assert (Hmin : BarBuilder._get_bucket_time
                   (inject_Z BarBuilder.datetime_min_timestamp) timeframe
                 = BarBuilder.datetime_min_timestamp).
  { rewrite get_bucket_time_floor.
    assert (Hp : (interval_seconds timeframe | 86400)).
    { unfold interval_seconds, BarBuilder.timeframe_seconds.
      repeat (rewrite lookup_insert; case_decide;
              [simpl; first [by exists 1440 | by exists 288 | by exists 96
                            | by exists 24 | by exists 6 | by exists 1]|]).
      rewrite lookup_empty. by exists 1440. }
    pose proof (timeframe_seconds_pos timeframe) as Hpos.
    destruct Hp as [k Hk].
    set (p := interval_seconds timeframe) in *.
    assert (E : (inject_Z BarBuilder.datetime_min_timestamp / inject_Z p
                 == inject_Z (-719161 * k))%Q).
    { replace BarBuilder.datetime_min_timestamp with (-719161 * k * p)
        by (unfold BarBuilder.datetime_min_timestamp; lia).
      rewrite (inject_Z_mult (-719161 * k) p). field. intro H0.
      assert (inject_Z 0 < inject_Z p)%Q by (rewrite <- Zlt_Qlt; done).
      change (inject_Z 0) with 0%Q in *. lra. }
    rewrite E, Qfloor_Z. unfold BarBuilder.datetime_min_timestamp. lia. }
  assert (Hself : BarBuilder._get_bucket_time (inject_Z bucket) timeframe <= bucket).
  { rewrite get_bucket_time_floor.
    pose proof (timeframe_seconds_pos timeframe) as Hp.
    set (p := interval_seconds timeframe) in *.
    pose proof (Qfloor_le (inject_Z bucket / inject_Z p)) as Hf.
    assert (0 < inject_Z p)%Q by (change 0%Q with (inject_Z 0); rewrite <- Zlt_Qlt; done).
    assert (E1 : (inject_Z bucket / inject_Z p * inject_Z p == inject_Z bucket)%Q)
      by (field; lra).
    assert (E : (inject_Z (Qfloor (inject_Z bucket / inject_Z p) * p) <= inject_Z bucket)%Q).
    { rewrite inject_Z_mult.
      apply Qle_trans with (inject_Z bucket / inject_Z p * inject_Z p)%Q;
        [apply Qmult_le_compat_r; [done|lra]|rewrite E1; lra]. }
    rewrite <- Zle_Qle in E. done. }
  split; [|lia].
  rewrite <- Hmin at 1. apply get_bucket_time_mono. rewrite <- Zle_Qle. done.
Qed.

(** Whatever branch [_process_trade_for_timeframe] takes, the open bar
    it leaves for the trade's symbol when it returns sits at the
    trade's bucket. *)
Lemma process_trade_for_timeframe_bucket fuel self symbol price quantity ts timeframe now s' :
  BarBuilder._process_trade_for_timeframe fuel self
    (trade_at symbol price quantity ts) timeframe now = BarBuilder.Return s' ->
  exists bar,
    BarBuilder.current_bars s' !! (symbol, timeframe) = Some bar /\
    BarBuilder.bucket_time bar
    = BarBuilder._get_bucket_time (BarBuilder.trade_seconds ts) timeframe.
Proof.
  unfold BarBuilder._process_trade_for_timeframe.
  cbn [trade_at trade_symbol trade_price trade_quantity trade_timestamp].
  destruct (init_bar_spec symbol timeframe
              (BarBuilder._get_bucket_time (BarBuilder.trade_seconds ts) timeframe)
              price quantity now) as [[_ ->]|[_ ->]];
    (destruct (BarBuilder.current_bars self !! (symbol, timeframe)) as [cur|] eqn:Hcur;
     [case_bool_decide as Hb;
      [destruct (BarBuilder._complete_bar _ _ _ _ _ _) as [s|]; [|done]|]|]);
    try done;
    intros [= <-]; eexists; simpl; rewrite lookup_insert_eq; (split; [done|]);
    simpl; done.
Qed.

(* ===================================================================== *)
(** * Bar builder: completion                                             *)
(* ===================================================================== *)

Section BarBuilderFacts.

Import BarBuilder.

Lemma complete_bar_effects_spec s symbol timeframe bar now :
  let s' := completed_state s symbol timeframe bar now in
  config s' = config s /\
  quality_checker s' = quality_checker s /\
  current_bars s' = current_bars s /\
  redis_published s' = redis_published s ++ completion_message s bar now /\
  snd (complete_bar_effects s symbol timeframe bar now) = mark_completed bar now.
Proof.
  unfold completed_state, complete_bar_effects, completion_message,
    _store_bar, _publish_completed_bar.
  destruct (_validate_ohlc (mark_completed bar now)) as [[] msg]; simpl;
    destruct (quality_checker s) eqn:Hqc; simpl;
    destruct (db_manager (config s)); simpl;
    destruct (redis (config s)); simpl;
    rewrite ?app_nil_r, ?Hqc; done.
Qed.

Lemma complete_bar_not_base fuel s symbol timeframe bar now :
  timeframe <> base_timeframe (config s) ->
  _complete_bar (S fuel) s symbol timeframe bar now
  = Some (completed_state s symbol timeframe bar now).
Proof.
  intro Hne. simpl.
  pose proof (complete_bar_effects_spec s symbol timeframe bar now) as (Hc & _).
  unfold completed_state in *.
  destruct (complete_bar_effects s symbol timeframe bar now) as [s1 b1].
  simpl in *. rewrite Hc.
  destruct (String.eqb timeframe (base_timeframe (config s))) eqn:E; [|done].
  apply String.eqb_eq in E. done.
Qed.

Lemma agg_step_config symbol base_bar now s timeframe :
  config (agg_step symbol base_bar now s timeframe) = config s /\
  quality_checker (agg_step symbol base_bar now s timeframe) = quality_checker s.
Proof.
  unfold agg_step.
  destruct (current_bars s !! (symbol, timeframe)) as [a|]; [|done].
  case_bool_decide; [|done]. simpl.
  pose proof (complete_bar_effects_spec s symbol timeframe a now) as (? & ? & _).
  done.
Qed.

Lemma aggregate_into_not_base fuel symbol base_bar now s timeframe :
  timeframe <> base_timeframe (config s) ->
  aggregate_into (fun s sy tf b => _complete_bar (S fuel) s sy tf b now)
    symbol base_bar now s timeframe
  = Some (agg_step symbol base_bar now s timeframe).
Proof.
  intro Hne. unfold aggregate_into, agg_step.
  destruct (current_bars s !! (symbol, timeframe)) as [a|]; [|done].
  case_bool_decide; [|done].
  rewrite complete_bar_not_base by done. done.
Qed.

Lemma aggregate_fold_not_base fuel symbol base_bar now l : forall s,
  Forall (fun tf => tf <> base_timeframe (config s)) l ->
  foldl (fun acc timeframe =>
           s ← acc;
           aggregate_into (fun s sy tf b => _complete_bar (S fuel) s sy tf b now)
             symbol base_bar now s timeframe)
        (Some s) l
  = Some (foldl (agg_step symbol base_bar now) s l).
Proof.
  induction l as [|tf l IH]; intros s Hall; [done|].
  apply Forall_cons in Hall as [Hne Hall]. cbn [foldl mbind option_bind].
  rewrite aggregate_into_not_base by done.
  apply IH. rewrite (proj1 (agg_step_config _ _ _ _ _)). done.
Qed.

(** Completing a base bar: its effects, then one aggregation step per
    aggregation timeframe. *)
Lemma complete_bar_base fuel s symbol bar now :
  base_timeframe (config s) ∉ aggregation_timeframes (config s) ->
  _complete_bar (S (S fuel)) s symbol (base_timeframe (config s)) bar now
  = Some (foldl (agg_step symbol (mark_completed bar now) now)
            (completed_state s symbol (base_timeframe (config s)) bar now)
            (aggregation_timeframes (config s))).
Proof.
  intro Hnotin.
  pose proof (complete_bar_effects_spec s symbol (base_timeframe (config s)) bar now)
    as (Hc & _ & _ & _ & Hbar).
  unfold completed_state in *.
  change (_complete_bar (S (S fuel)) s symbol (base_timeframe (config s)) bar now)
    with (let '(self, bar) :=
            complete_bar_effects s symbol (base_timeframe (config s)) bar now in
          if String.eqb (base_timeframe (config s)) (base_timeframe (config self))
          then _aggregate_higher_timeframes
                 (fun s sy tf b => _complete_bar (S fuel) s sy tf b now)
                 self symbol bar now
          else Some self).
  destruct (complete_bar_effects s symbol (base_timeframe (config s)) bar now)
    as [s1 b1]. simpl in *. subst b1. rewrite Hc, String.eqb_refl.
  unfold _aggregate_higher_timeframes. rewrite Hc.
  apply aggregate_fold_not_base. rewrite Hc.
  apply Forall_forall. intros tf Hin ->. apply Hnotin.
  apply list_elem_of_In. done.
Qed.

(** ** Completion events of one key *)

Lemma completion_events_app s s' ext sym tf :
  redis_published s' = redis_published s ++ ext ->
  completion_events s' sym tf
  = completion_events s sym tf
    ++ omap (fun cm =>
               if bool_decide (bd_symbol (snd cm) = sym /\ bd_timeframe (snd cm) = tf)
               then Some (bd_time (snd cm)) else None) ext.
Proof. intro H. unfold completion_events. rewrite H, omap_app. done. Qed.

Lemma completion_events_message s s' bar now sym tf :
  redis_published s' = redis_published s ++ completion_message s bar now ->
  completion_events s' sym tf
  = completion_events s sym tf
    ++ (if bool_decide (symbol bar = sym /\ timeframe bar = tf)
        then (if redis (config s) then [bucket_time bar * 1000] else [])
        else []).
Proof.
  intro H. rewrite (completion_events_app _ _ _ _ _ H).
  unfold completion_message. destruct (redis (config s)); simpl.
  - case_bool_decide; done.
  - case_bool_decide; done.
Qed.

Lemma increasing_snoc l x :
  increasing l -> Forall (fun e => e < x) l -> increasing (l ++ [x]).
Proof.
  intros Hl Hx. apply StronglySorted_app_2; [|done|repeat constructor].
  intros x1 x2 H1 H2. apply list_elem_of_singleton in H2 as ->.
  rewrite Forall_forall in Hx. apply Hx. done.
Qed.

Lemma Forall_lt_weaken (l : list Z) x y :
  Forall (fun e => e < x) l -> x <= y -> Forall (fun e => e < y) l.
Proof. intros H Hxy. eapply Forall_impl; [exact H|]. simpl. intros. lia. Qed.

(** Appending the completion of the bar open at a key, and opening a
    later bar there, keeps the key's events increasing and below the
    open bar. *)
Lemma events_below_open_roll s s' sym tf (old new : Bar) ext :
  events_below_open s sym tf ->
  current_bars s !! (sym, tf) = Some old ->
  completion_events s' sym tf = completion_events s sym tf ++ ext ->
  (ext = [] \/ ext = [bucket_time old * 1000]) ->
  current_bars s' !! (sym, tf) = Some new ->
  bucket_time old < bucket_time new ->
  events_below_open s' sym tf.
Proof.
  intros [Hinc Hbelow] Hold Hev Hext Hnew Hlt. rewrite Hold in Hbelow.
  unfold events_below_open. rewrite Hev, Hnew.
  destruct Hext as [-> | ->].
  - rewrite app_nil_r. split; [done|]. eapply Forall_lt_weaken; [done|lia].
  - split.
    + apply increasing_snoc; done.
    + apply Forall_app. split.
      * eapply Forall_lt_weaken; [done|lia].
      * repeat constructor. lia.
Qed.

(** ** One aggregation step *)

Lemma agg_step_spec sym C now s tf :
  bars_labelled s ->
  let B := _get_bucket_time (inject_Z (bucket_time C)) tf in
  let s' := agg_step sym C now s tf in
  exists nb ext,
    current_bars s' = <[(sym, tf) := nb]> (current_bars s) /\
    bucket_time nb = B /\ symbol nb = sym /\ timeframe nb = tf /\
    redis_published s' = redis_published s ++ ext /\
    match current_bars s !! (sym, tf) with
    | Some a =>
      (bucket_time a = B /\ ext = [] /\ nb = extend_agg_bar a C now) \/
      (bucket_time a <> B /\ ext = completion_message s a now /\
       nb = seed_agg_bar sym tf B C now)
    | None => ext = [] /\ nb = seed_agg_bar sym tf B C now
    end.
Proof.
  intros Hlab B s'. subst s'. unfold agg_step. fold B.
  destruct (current_bars s !! (sym, tf)) as [a|] eqn:Ha.
  - case_bool_decide as Hb.
    + pose proof (complete_bar_effects_spec s sym tf a now) as (_ & _ & Hcur & Hpub & _).
      eexists _, _. simpl. rewrite Hcur, Hpub.
      repeat split; try done. right. done.
    + eexists _, []. simpl. rewrite app_nil_r.
      destruct (Hlab _ _ _ Ha) as [? ?].
      repeat split; try done. left. done.
  - eexists _, []. simpl. rewrite app_nil_r. repeat split; done.
Qed.

Lemma same_at_events_below_open s s' sym tf :
  same_at s s' sym tf -> events_below_open s sym tf -> events_below_open s' sym tf.
Proof. intros [He Hc]. unfold events_below_open. rewrite He, Hc. done. Qed.

Lemma same_at_trans s1 s2 s3 sym tf :
  same_at s1 s2 sym tf -> same_at s2 s3 sym tf -> same_at s1 s3 sym tf.
Proof. intros [? ?] [? ?]. split; congruence. Qed.

(** A step for [(sym, tf)] leaves every other key alone. *)
Lemma agg_step_other_key sym C now s tf sym' tf' :
  bars_labelled s -> (sym', tf') <> (sym, tf) ->
  same_at s (agg_step sym C now s tf) sym' tf'.
Proof.
  intros Hlab Hne.
  destruct (agg_step_spec sym C now s tf Hlab) as (nb & ext & Hcur & _ & _ & _ & Hpub & Hext).
  split.
  - rewrite (completion_events_app _ _ _ _ _ Hpub).
    destruct (current_bars s !! (sym, tf)) as [a|] eqn:Ha.
    + destruct Hext as [(_ & -> & _) | (_ & -> & _)]; [apply app_nil_r|].
      unfold completion_message. destruct (redis (config s)); [|apply app_nil_r].
      simpl. destruct (Hlab _ _ _ Ha) as [-> ->].
      rewrite bool_decide_eq_false_2; [apply app_nil_r|].
      intros [-> ->]. done.
    + destruct Hext as [-> _]. apply app_nil_r.
  - rewrite Hcur. apply lookup_insert_ne. congruence.
Qed.

Lemma agg_step_keeps sym C now s tf :
  tf <> base_timeframe (config s) ->
  bars_labelled s ->
  (forall T, T <> base_timeframe (config s) -> events_below_open s sym T) ->
  agg_bounded s sym (bucket_time C) ->
  let s' := agg_step sym C now s tf in
  bars_labelled s' /\
  (forall T, T <> base_timeframe (config s') -> events_below_open s' sym T) /\
  agg_bounded s' sym (bucket_time C).
Proof.
  intros Hne Hlab Hev Hbd s'.
  pose proof (agg_step_config sym C now s tf) as [Hcfg _]. fold s' in Hcfg.
  destruct (agg_step_spec sym C now s tf Hlab)
    as (nb & ext & Hcur & HB & Hsym & Htf & Hpub & Hext). fold s' in Hcur, Hpub.
  split; [|split].
  - intros sym1 tf1 bar. rewrite Hcur, lookup_insert. case_decide as Hk.
    + intros [= <-]. inversion Hk. subst. done.
    + apply Hlab.
  - rewrite Hcfg. intros T HT. destruct (decide (T = tf)) as [->|HTne].
    + specialize (Hev tf Hne).
      assert (Hnew : current_bars s' !! (sym, tf) = Some nb)
        by (rewrite Hcur; apply lookup_insert_eq).
      destruct (current_bars s !! (sym, tf)) as [a|] eqn:Ha.
      * destruct Hext as [(Hsame & -> & _) | (Hdiff & -> & _)].
        -- destruct Hev as [Hinc Hbelow]. rewrite Ha in Hbelow.
           unfold events_below_open.
           rewrite (completion_events_app _ _ _ _ _ Hpub), app_nil_r, Hnew.
           rewrite HB, <- Hsame. done.
        -- destruct (Hlab _ _ _ Ha) as [Hs Ht].
           pose proof (completion_events_message _ _ _ _ sym tf Hpub) as Hmsg.
           rewrite bool_decide_eq_true_2 in Hmsg by done.
           eapply (events_below_open_roll s s' sym tf a nb); try done.
           ++ destruct (redis (config s)); [right|left]; done.
           ++ specialize (Hbd tf a Hne Ha). rewrite HB. lia.
      * destruct Hext as [-> _]. destruct Hev as [Hinc Hnil]. rewrite Ha in Hnil.
        unfold events_below_open.
        rewrite (completion_events_app _ _ _ _ _ Hpub), app_nil_r, Hnew, Hnil.
        split; constructor.
    + eapply same_at_events_below_open; [|apply Hev; done].
      apply agg_step_other_key; [done|]. congruence.
  - intros T a. rewrite Hcfg. intros HT. rewrite Hcur, lookup_insert. case_decide as Hk.
    + intros [= <-]. inversion Hk. subst. rewrite HB. lia.
    + apply Hbd. done.
Qed.

(** The whole aggregation loop. *)
Lemma agg_fold_keeps sym C now l : forall s,
  Forall (fun tf => tf <> base_timeframe (config s)) l ->
  bars_labelled s ->
  (forall T, T <> base_timeframe (config s) -> events_below_open s sym T) ->
  agg_bounded s sym (bucket_time C) ->
  let s' := foldl (agg_step sym C now) s l in
  config s' = config s /\
  quality_checker s' = quality_checker s /\
  bars_labelled s' /\
  (forall T, T <> base_timeframe (config s) -> events_below_open s' sym T) /\
  agg_bounded s' sym (bucket_time C) /\
  (forall sym' tf', (sym' <> sym \/ tf' = base_timeframe (config s)) ->
     same_at s s' sym' tf').
Proof.
  induction l as [|tf l IH]; intros s Hall Hlab Hev Hbd; simpl.
  - do 5 (split; [done|]). intros. split; done.
  - apply Forall_cons in Hall as [Hne Hall].
    pose proof (agg_step_config sym C now s tf) as [Hcfg Hqc].
    destruct (agg_step_keeps sym C now s tf Hne Hlab Hev Hbd) as (Hlab1 & Hev1 & Hbd1).
    specialize (IH (agg_step sym C now s tf)).
    rewrite Hcfg in IH. specialize (IH Hall Hlab1).
    rewrite Hcfg in Hev1. specialize (IH Hev1 Hbd1). simpl in IH.
    destruct IH as (Hc & Hq & Hl & He & Hb & Hs).
    split; [done|]. split; [rewrite Hq; done|]. do 3 (split; [done|]).
    intros sym' tf' H. eapply same_at_trans; [|apply Hs; done].
    apply agg_step_other_key; [done|]. destruct H as [H | ->]; congruence.
Qed.

(** ** One trade *)

(** Filing a new base bar for [sym]. *)
Lemma set_base_bar_inv s sym nb :
  let base := base_timeframe (config s) in
  bars_labelled s ->
  symbol nb = sym -> timeframe nb = base ->
  (forall sym' tf', (sym', tf') <> (sym, base) -> events_below_open s sym' tf') ->
  increasing (completion_events s sym base) ->
  Forall (fun e => e < bucket_time nb * 1000) (completion_events s sym base) ->
  (forall tf a, tf <> base -> current_bars s !! (sym, tf) = Some a ->
     bucket_time a <= _get_bucket_time (inject_Z (bucket_time nb)) tf) ->
  (forall sym' tf a, sym' <> sym -> tf <> base ->
     current_bars s !! (sym', tf) = Some a ->
     exists c, current_bars s !! (sym', base) = Some c /\
               bucket_time a <= _get_bucket_time (inject_Z (bucket_time c)) tf) ->
  builder_inv (set_current_bar s sym base nb).
Proof.
  intros base Hlab Hsym Htf Hothers Hinc Hbelow Hown Hrest.
  split; [|split].
  - intros sym1 tf1 bar. simpl. rewrite lookup_insert. case_decide as Hk.
    + intros [= <-]. inversion Hk. subst. done.
    + apply Hlab.
  - intros sym1 tf1. unfold events_below_open, completion_events. simpl.
    rewrite lookup_insert. case_decide as Hk.
    + inversion Hk. subst sym1 tf1. split; done.
    + apply (Hothers sym1 tf1). congruence.
  - intros sym1 tf1 a. simpl. fold base. intros Hne.
    rewrite lookup_insert_ne by congruence. intros Ha.
    destruct (decide (sym1 = sym)) as [->|Hs].
    + exists nb. rewrite lookup_insert_eq. split; [done|]. eapply Hown; done.
    + rewrite lookup_insert_ne by congruence. eapply Hrest; done.
Qed.

Lemma process_trade_for_timeframe_inv fuel s t now :
  base_timeframe (config s) ∉ aggregation_timeframes (config s) ->
  builder_inv s -> tick_in_order s t -> tick_has_datetime (config s) t ->
  match _process_trade_for_timeframe (S (S fuel)) s t (base_timeframe (config s)) now with
  | Return s' =>
    builder_inv s' /\ config s' = config s /\ quality_checker s' = quality_checker s
  | Raise s' => s' = s
  | OutOfFuel => False
  end.
Proof.
  intros Hnotin (Hlab & Hev & Hbehind) Horder Hdt.
  unfold _process_trade_for_timeframe, tick_in_order, tick_has_datetime in *.
  destruct (trade_timestamp t) as [ts|]; [|done].
  set (base := base_timeframe (config s)) in *.
  set (sym := trade_symbol t) in *.
  set (b1 := _get_bucket_time (trade_seconds ts) base) in *.
  rewrite (init_bar_has_datetime sym base b1 _ _ now Hdt).
  destruct (current_bars s !! (sym, base)) as [c|] eqn:Hc.
  - case_bool_decide as Hb.
    + (* the bucket changed: complete, aggregate, open a new bar *)
      assert (Hlt : bucket_time c < b1) by lia.
      unfold base at 1. rewrite complete_bar_base by done. fold base.
      set (C := mark_completed c now).
      set (s1 := completed_state s sym base c now).
      pose proof (complete_bar_effects_spec s sym base c now)
        as (Hcfg1 & Hqc1 & Hcur1 & Hpub1 & _). fold s1 in Hcfg1, Hqc1, Hcur1, Hpub1.
      destruct (Hlab _ _ _ Hc) as [Hcs Hct].
      assert (Hsame1 : forall sym' tf', (sym', tf') <> (sym, base) -> same_at s s1 sym' tf').
      { intros sym' tf' Hne. split; [|rewrite Hcur1; done].
        rewrite (completion_events_message _ _ _ _ sym' tf' Hpub1).
        rewrite bool_decide_eq_false_2; [apply app_nil_r|].
        intros [? ?]. apply Hne. congruence. }
      destruct (agg_fold_keeps sym C now (aggregation_timeframes (config s)) s1)
        as (Hcfg2 & Hqc2 & Hlab2 & Hev2 & Hbd2 & Hsame2).
      { rewrite Hcfg1. apply Forall_forall. intros tf Hin ->. apply Hnotin.
        apply list_elem_of_In. done. }
      { intros sym' tf' bar. rewrite Hcur1. apply Hlab. }
      { rewrite Hcfg1. intros T HT. eapply same_at_events_below_open; [|apply Hev].
        apply Hsame1. fold base in HT. congruence. }
      { intros tf a. rewrite Hcfg1, Hcur1. fold base. intros Hne Ha.
        destruct (Hbehind _ _ _ Hne Ha) as (c' & Hc' & Hle). fold base in Hc'.
        rewrite Hc in Hc'. inversion Hc'. subst c'. done. }
      set (s2 := foldl (agg_step sym C now) s1 (aggregation_timeframes (config s))) in *.
      rewrite Hcfg1 in *. fold base in Hev2, Hsame2.
      assert (Hbase2 : same_at s1 s2 sym base) by (apply Hsame2; right; done).
      assert (Hevb : completion_events s2 sym base
                     = completion_events s sym base
                       ++ (if redis (config s) then [bucket_time c * 1000] else [])).
      { destruct Hbase2 as [-> _].
        rewrite (completion_events_message _ _ _ _ sym base Hpub1).
        rewrite bool_decide_eq_true_2 by done. done. }
      destruct (Hev sym base) as [Hinc Hbelow]. rewrite Hc in Hbelow.
      split; [|split; simpl; congruence].
      replace base with (base_timeframe (config s2)) by (rewrite Hcfg2; done).
      apply set_base_bar_inv; rewrite ?Hcfg2; fold base; try done.
      * intros sym' tf' Hne. destruct (decide (sym' = sym)) as [->|Hs].
        -- apply Hev2. congruence.
        -- eapply same_at_events_below_open; [|apply Hev].
           eapply same_at_trans; [apply Hsame1; congruence|].
           apply Hsame2. left. done.
      * rewrite Hevb. destruct (redis (config s)).
        -- apply increasing_snoc; done.
        -- rewrite app_nil_r. done.
      * rewrite Hevb. simpl. apply Forall_app. split.
        -- eapply Forall_lt_weaken; [done|]. fold b1. lia.
        -- destruct (redis (config s)); repeat constructor. fold b1. lia.
      * intros tf a Hne Ha. simpl. fold b1.
        etrans; [apply (Hbd2 tf a); [rewrite Hcfg2; done|done]|].
        apply get_bucket_time_mono. rewrite <- Zle_Qle. simpl. lia.
      * intros sym' tf a Hs Hne Ha.
        assert (Hk : same_at s s2 sym' tf).
        { eapply same_at_trans; [apply Hsame1; congruence|].
          apply Hsame2. left. done. }
        assert (Hkb : same_at s s2 sym' base).
        { eapply same_at_trans; [apply Hsame1; congruence|].
          apply Hsame2. left. done. }
        destruct Hk as [_ Hk]. destruct Hkb as [_ Hkb]. rewrite Hk in Ha.
        rewrite Hkb. eapply Hbehind; done.
    + (* same bucket: update in place *)
      split; [|done].
      destruct (Hlab _ _ _ Hc) as [Hcs Hct].
      destruct (Hev sym base) as [Hinc Hbelow]. rewrite Hc in Hbelow.
      apply set_base_bar_inv; fold base; try done.
      * intros tf a Hne Ha. simpl.
        destruct (Hbehind _ _ _ Hne Ha) as (c' & Hc' & Hle). fold base in Hc'.
        rewrite Hc in Hc'. inversion Hc'. subst c'. done.
      * intros sym' tf a Hs Hne Ha. eapply Hbehind; done.
  - (* no open bar for the symbol *)
    split; [|done].
    destruct (Hev sym base) as [Hinc Hnil]. rewrite Hc in Hnil.
    apply set_base_bar_inv; fold base; try done.
    + rewrite Hnil. constructor.
    + intros tf a Hne Ha.
      destruct (Hbehind _ _ _ Hne Ha) as (c' & Hc' & _). fold base in Hc'.
      rewrite Hc in Hc'. done.
    + intros sym' tf a Hs Hne Ha. eapply Hbehind; done.
Qed.

Lemma builder_inv_core s s' :
  config s' = config s -> current_bars s' = current_bars s ->
  redis_published s' = redis_published s ->
  builder_inv s -> builder_inv s'.
Proof.
  intros Hc Hb Hp (Hlab & Hev & Hbehind).
  unfold builder_inv, bars_labelled, events_below_open, agg_behind_base,
    completion_events in *.
  rewrite Hc, Hb, Hp. done.
Qed.

Lemma tick_in_order_core s s' t :
  config s' = config s -> current_bars s' = current_bars s ->
  tick_in_order s t -> tick_in_order s' t.
Proof. intros Hc Hb. unfold tick_in_order. rewrite Hc, Hb. done. Qed.

Lemma process_trade_inv pa vs fuel s t now :
  base_timeframe (config s) ∉ aggregation_timeframes (config s) ->
  builder_inv s -> tick_in_order s t -> tick_has_datetime (config s) t ->
  exists s', process_trade pa vs (S (S fuel)) s t now = Some s' /\
             builder_inv s' /\ config s' = config s.
Proof.
  intros Hnotin Hinv Horder Hdt. unfold process_trade.
  destruct (String.eqb (trade_symbol t) "").
  { eexists. split; [done|]. split; [|done]. eapply builder_inv_core; [..|exact Hinv]; done. }
  assert (Hstep : forall s0,
    config s0 = config s -> current_bars s0 = current_bars s ->
    redis_published s0 = redis_published s ->
    exists s',
      match _process_trade_for_timeframe (S (S fuel))
              (inc_trades_processed s0 (trade_symbol t)) t
              (base_timeframe (config (inc_trades_processed s0 (trade_symbol t)))) now with
      | Return s1 => Some s1
      | Raise s1 => Some (logger s1 ErrorProcessingTrade)
      | OutOfFuel => None
      end = Some s' /\ builder_inv s' /\ config s' = config s).
  { intros s0 Hc Hb Hp.
    set (s1 := inc_trades_processed s0 (trade_symbol t)).
    assert (Hinv1 : builder_inv s1) by (eapply builder_inv_core; [..|exact Hinv]; done).
    assert (Hord1 : tick_in_order s1 t) by (eapply tick_in_order_core; [..|exact Horder]; done).
    assert (Hnot1 : base_timeframe (config s1) ∉ aggregation_timeframes (config s1)).
    { simpl. rewrite Hc. done. }
    assert (Hdt1 : tick_has_datetime (config s1) t) by (simpl; rewrite Hc; done).
    pose proof (process_trade_for_timeframe_inv fuel s1 t now Hnot1 Hinv1 Hord1 Hdt1) as H.
    destruct (_process_trade_for_timeframe _ _ _ _ _) as [s2|s2|].
    - exists s2. destruct H as (? & Hc2 & _). split; [done|]. split; [done|].
      rewrite Hc2. simpl. done.
    - subst s2. eexists. split; [done|]. split; [|simpl; done].
      eapply builder_inv_core; [..|exact Hinv1]; done.
    - done. }
  destruct (quality_checker s) as [qc|] eqn:Hqc.
  - destruct (DataQuality.validate_trade pa vs qc t now) as [qc' [[] msg]]; simpl.
    + apply Hstep; done.
    + eexists. split; [done|]. split; [|done].
      eapply builder_inv_core; [..|exact Hinv]; done.
  - simpl. apply Hstep; done.
Qed.

Lemma process_trades_inv pa vs fuel l : forall s,
  base_timeframe (config s) ∉ aggregation_timeframes (config s) ->
  builder_inv s ->
  Forall (fun tn => tick_has_datetime (config s) (fst tn)) l ->
  forward_only pa vs (S (S fuel)) s l ->
  exists s', process_trades pa vs (S (S fuel)) s l = Some s' /\ builder_inv s'.
Proof.
  induction l as [|[t now] l IH]; intros s Hnotin Hinv Hdt Hfwd.
  - exists s. done.
  - destruct Hfwd as [Horder Hrest].
    apply Forall_cons in Hdt as [Hdt0 Hdt].
    destruct (process_trade_inv pa vs fuel s t now Hnotin Hinv Horder Hdt0)
      as (s1 & Hs1 & Hinv1 & Hc1).
    cbn [process_trades]. rewrite Hs1 in *. apply IH; [rewrite Hc1|..]; try done.
    rewrite Hc1. done.
Qed.

Lemma init_builder_inv cfg qc : builder_inv (init cfg qc).
Proof.
  split; [|split].
  - intros sym tf bar. simpl. rewrite lookup_empty. done.
  - intros sym tf. unfold events_below_open, completion_events. simpl.
    rewrite lookup_empty. split; [constructor|done].
  - intros sym tf a _. simpl. rewrite lookup_empty. done.
Qed.

(** ** Late ticks *)

Lemma agg_step_labelled sym C now s tf :
  bars_labelled s -> bars_labelled (agg_step sym C now s tf).
Proof.
  intros Hlab.
  destruct (agg_step_spec sym C now s tf Hlab) as (nb & ext & Hcur & _ & ? & ? & _).
  intros sym1 tf1 bar. rewrite Hcur, lookup_insert. case_decide as Hk.
  - intros [= <-]. inversion Hk. subst. done.
  - apply Hlab.
Qed.

Lemma agg_fold_frame sym C now l : forall s,
  bars_labelled s ->
  forall sym' tf', (sym' <> sym \/ tf' ∉ l) ->
  same_at s (foldl (agg_step sym C now) s l) sym' tf'.
Proof.
  induction l as [|tf l IH]; intros s Hlab sym' tf' Hk; simpl.
  - split; done.
  - apply (same_at_trans s (agg_step sym C now s tf)).
    + apply agg_step_other_key; [done|].
      destruct Hk as [Hk|Hk]; [congruence|].
      apply not_elem_of_cons in Hk as [? _]. congruence.
    + apply IH; [apply agg_step_labelled; done|].
      destruct Hk as [Hk|Hk]; [left; done|right].
      apply not_elem_of_cons in Hk as [_ ?]. done.
Qed.

(** A tick whose bucket differs from the open base candle's bucket, be
    it later or earlier, closes that candle and opens a new one at the
    tick's own bucket. *)
Lemma bucket_change_rolls_the_bar fuel s sym price quantity ts now c :
  let base := base_timeframe (config s) in
  let b1 := _get_bucket_time (trade_seconds ts) base in
  base ∉ aggregation_timeframes (config s) ->
  bars_labelled s ->
  current_bars s !! (sym, base) = Some c ->
  bucket_time c <> b1 ->
  has_datetime b1 ->
  exists s',
    _process_trade_for_timeframe (S (S fuel)) s (trade_at sym price quantity ts) base now
    = Return s' /\
    current_bars s' !! (sym, base) = Some (fresh_bar sym base b1 price quantity now) /\
    completion_events s' sym base
    = completion_events s sym base
      ++ (if redis (config s) then [bucket_time c * 1000] else []).
Proof.
  intros base b1 Hnotin Hlab Hc Hne Hdt.
  unfold _process_trade_for_timeframe, trade_at.
  cbn [trade_timestamp trade_symbol trade_price trade_quantity].
  fold base. rewrite Hc. fold b1.
  rewrite (init_bar_has_datetime sym base b1 price quantity now Hdt).
  rewrite bool_decide_eq_true_2 by done.
  unfold base at 1. rewrite complete_bar_base by done. fold base.
  eexists. split; [done|]. split; [simpl; apply lookup_insert_eq|].
  pose proof (complete_bar_effects_spec s sym base c now)
    as (Hcfg1 & _ & Hcur1 & Hpub1 & _).
  set (s1 := completed_state s sym base c now) in *.
  assert (Hlab1 : bars_labelled s1).
  { intros sym' tf' bar. rewrite Hcur1. apply Hlab. }
  destruct (agg_fold_frame sym (mark_completed c now) now
              (aggregation_timeframes (config s)) s1 Hlab1 sym base) as [He _].
  { right. done. }
  unfold completion_events at 1. simpl. fold (completion_events
    (foldl (agg_step sym (mark_completed c now) now) s1
       (aggregation_timeframes (config s))) sym base).
  rewrite He, (completion_events_message _ _ _ _ sym base Hpub1).
  destruct (Hlab _ _ _ Hc) as [? ?].
  rewrite bool_decide_eq_true_2 by done. done.
Qed.

(** C1 (as the code has it): the builder has no notion of a late tick.
    On a stream in which every stamped tick falls into a bucket that has
    a datetime (the years 1 to 9999, without which [_init_bar] opens no
    candle) and no tick's bucket is earlier than the bucket of the base
    candle open for its symbol, every trade is processed and the
    completion events published for any (symbol, timeframe) are
    strictly increasing by bucket time.  A tick whose bucket is earlier
    than the open base candle's bucket is not dropped: it closes that
    candle, publishing its completion, and opens a new candle at the
    tick's own bucket. *)
Theorem forward_only_streams_complete_in_bucket_order
    (pa vs : DataQuality.DataQualityChecker -> Trade -> DataQuality.CheckResult)
    (fuel : nat) (cfg : Config) (qc : option DataQuality.DataQualityChecker)
    (trades : list (Trade * Q)) (sym tf : string) :
  base_timeframe cfg ∉ aggregation_timeframes cfg ->
  Forall (fun tn => tick_has_datetime cfg (fst tn)) trades ->
  forward_only pa vs (S (S fuel)) (init cfg qc) trades ->
  (exists final,
     process_trades pa vs (S (S fuel)) (init cfg qc) trades = Some final /\
     increasing (completion_events final sym tf)) /\
  (forall s price quantity ts now c,
     config s = cfg -> bars_labelled s ->
     current_bars s !! (sym, base_timeframe cfg) = Some c ->
     _get_bucket_time (trade_seconds ts) (base_timeframe cfg) < bucket_time c ->
     has_datetime (_get_bucket_time (trade_seconds ts) (base_timeframe cfg)) ->
     exists s',
       _process_trade_for_timeframe (S (S fuel)) s (trade_at sym price quantity ts)
         (base_timeframe cfg) now = Return s' /\
       current_bars s' !! (sym, base_timeframe cfg)
       = Some (fresh_bar sym (base_timeframe cfg)
                 (_get_bucket_time (trade_seconds ts) (base_timeframe cfg))
                 price quantity now) /\
       completion_events s' sym (base_timeframe cfg)
       = completion_events s sym (base_timeframe cfg)
         ++ (if redis cfg then [bucket_time c * 1000] else [])).
Proof.
  intros Hnotin Hdt Hfwd. split.
  - destruct (process_trades_inv pa vs fuel trades (init cfg qc) Hnotin
                (init_builder_inv cfg qc) Hdt Hfwd) as (final & Hrun & _ & Hev & _).
    exists final. split; [done|]. apply Hev.
  - intros s price quantity ts now c <- Hlab Hc Hlt Hdt1.
    apply bucket_change_rolls_the_bar; try done. lia.
Qed.

Lemma forward_only_streams_complete_in_bucket_order_witness :
  exists final,
    process_trades no_anomaly no_anomaly 2 plain_builder boundary_ticks = Some final /\
    increasing (completion_events final "BTC" "1m").
Proof.
  refine (proj1 (forward_only_streams_complete_in_bucket_order
                   no_anomaly no_anomaly 0 (default_config true true) None
                   boundary_ticks "BTC" "1m" _ _ _)).
  - not_in_list.
  - repeat (constructor; [vm_compute; split; intro H; discriminate H|]). constructor.
  - vm_compute. repeat split; intro H; discriminate H.
Defined.

(** C1 (as stated) fails: with a candle open at bucket 120, a tick
    stamped 60 s (bucket 60, earlier) is not dropped; afterwards the
    open candle is the one at bucket 60, and once the next tick arrives
    the completion events of (BTC, 1m) are 120000 then 60000. *)
Lemma late_tick_is_not_dropped :
  (fun s => open_bucket s "BTC" "1m")
    <$> process_trades no_anomaly no_anomaly 2 plain_builder (take 1 late_ticks)
  = Some (Some 120) /\
  (fun s => open_bucket s "BTC" "1m")
    <$> process_trades no_anomaly no_anomaly 2 plain_builder (take 2 late_ticks)
  = Some (Some 60) /\
  (fun s => completion_events s "BTC" "1m")
    <$> process_trades no_anomaly no_anomaly 2 plain_builder late_ticks
  = Some [120000; 60000] /\
  ~ increasing [120000; 60000].
Proof.
  split; [vm_compute; reflexivity|]. split; [vm_compute; reflexivity|].
  split; [vm_compute; reflexivity|].
  intro H. inversion H as [|? ? _ Hall]. inversion Hall. lia.
Qed.

(** Where a tick falls into a bucket without a datetime, [_init_bar]
    raises after the open candle has been completed: the candle stays
    open, is completed again by the next such tick, and the quantities
    of both ticks are in no candle. *)
Lemma tick_without_datetime_leaves_the_candle_open :
  let run := process_trades no_anomaly no_anomaly 2 plain_builder in
  (fun s => completion_events s "BTC" "1m") <$> run (take 2 far_ticks)
  = Some [60000] /\
  (fun s => open_bucket s "BTC" "1m") <$> run (take 2 far_ticks) = Some (Some 60) /\
  (fun s => completion_events s "BTC" "1m") <$> run far_ticks
  = Some [60000; 60000] /\
  (fun s => map (fun cm => bd_volume (snd cm)) (redis_published s)) <$> run far_ticks
  = Some [1%Q; 1%Q] /\
  (fun s => volume <$> current_bars s !! ("BTC", "1m")) <$> run far_ticks
  = Some (Some 1%Q) /\
  (fun s => last (log s)) <$> run far_ticks = Some (Some ErrorProcessingTrade).
Proof. cbn zeta. repeat split; vm_compute; reflexivity. Qed.

(** ** What a completion publishes *)

Lemma published_more_refl s : published_more s s.
Proof. split; [done|]. split; [done|]. exists []. rewrite app_nil_r. done. Qed.

Lemma published_more_trans s1 s2 s3 :
  published_more s1 s2 -> published_more s2 s3 -> published_more s1 s3.
Proof.
  intros (Hc1 & Hq1 & e1 & Hp1 & Hf1 & Hn1) (Hc2 & Hq2 & e2 & Hp2 & Hf2 & Hn2).
  split; [congruence|]. split; [congruence|]. exists (e1 ++ e2).
  rewrite Hp2, Hp1, app_assoc. split; [done|]. split; [apply Forall_app; done|].
  intros Hr. rewrite Hn1, Hn2 by congruence. done.
Qed.

Lemma published_more_core s s' :
  config s' = config s -> quality_checker s' = quality_checker s ->
  redis_published s' = redis_published s -> published_more s s'.
Proof.
  intros Hc Hq Hp. split; [done|]. split; [done|]. exists [].
  rewrite app_nil_r. done.
Qed.

Lemma completion_message_channel s bar now :
  Forall (fun cm => fst cm = "completed_bars") (completion_message s bar now).
Proof.
  unfold completion_message. destruct (redis (config s)); repeat constructor.
Qed.

Lemma aggregate_into_published_more k symbol base_bar now s timeframe s' :
  (forall s sy tf b s', k s sy tf b = Some s' -> published_more s s') ->
  aggregate_into k symbol base_bar now s timeframe = Some s' ->
  published_more s s'.
Proof.
  intros Hk. unfold aggregate_into.
  destruct (current_bars s !! (symbol, timeframe)) as [a|].
  - case_bool_decide.
    + destruct (k s symbol timeframe a) as [s1|] eqn:E; [|done]. simpl.
      intros [= <-]. eapply published_more_trans; [apply (Hk _ _ _ _ _ E)|].
      apply published_more_core; done.
    + simpl. intros [= <-]. apply published_more_core; done.
  - simpl. intros [= <-]. apply published_more_core; done.
Qed.

Lemma aggregate_fold_published_more k symbol base_bar now l : forall s s',
  (forall s sy tf b s', k s sy tf b = Some s' -> published_more s s') ->
  foldl (fun acc timeframe =>
           s ← acc; aggregate_into k symbol base_bar now s timeframe)
        (Some s) l = Some s' ->
  published_more s s'.
Proof.
  induction l as [|tf l IH]; intros s s' Hk; cbn [foldl mbind option_bind].
  - intros [= <-]. apply published_more_refl.
  - destruct (aggregate_into k symbol base_bar now s tf) as [s1|] eqn:E.
    + intro H. eapply published_more_trans.
      * eapply aggregate_into_published_more; done.
      * apply IH; done.
    + intro H. exfalso. clear -H. induction l as [|? l IHl]; [done|].
      apply IHl. exact H.
Qed.

(** The bars a completion publishes, its own first. *)
Lemma complete_bar_publishes fuel : forall s symbol timeframe bar now s',
  _complete_bar fuel s symbol timeframe bar now = Some s' ->
  config s' = config s /\ quality_checker s' = quality_checker s /\
  exists rest,
    redis_published s'
    = redis_published s ++ completion_message s bar now ++ rest /\
    Forall (fun cm => fst cm = "completed_bars") rest /\
    (redis (config s) = false -> rest = []).
Proof.
  induction fuel as [|fuel IH]; intros s symbol timeframe bar now s'; [done|].
  cbn [_complete_bar].
  pose proof (complete_bar_effects_spec s symbol timeframe bar now)
    as (Hc & Hq & _ & Hp & _). unfold completed_state in *.
  destruct (complete_bar_effects s symbol timeframe bar now) as [s1 b1].
  simpl in Hc, Hq, Hp.
  destruct (String.eqb timeframe (base_timeframe (config s1))).
  - unfold _aggregate_higher_timeframes. intro H.
    destruct (aggregate_fold_published_more
                (fun s sy tf b => _complete_bar fuel s sy tf b now)
                symbol b1 now (aggregation_timeframes (config s1)) s1 s')
      as (Hc2 & Hq2 & ext & Hp2 & Hf & Hn); [|exact H|].
    + intros s0 sy tf b s0' H0.
      destruct (IH _ _ _ _ _ _ H0) as (? & ? & rest & Hr & ? & Hn0).
      split; [done|]. split; [done|]. eexists. split; [exact Hr|].
      split; [apply Forall_app; split; [apply completion_message_channel|done]|].
      intros Hr0. rewrite (Hn0 Hr0). unfold completion_message. rewrite Hr0. done.
    + split; [congruence|]. split; [congruence|]. exists ext.
      rewrite Hp2, Hp, app_assoc. split; [done|]. split; [done|].
      intros Hr0. apply Hn. congruence.
  - intros [= <-]. split; [done|]. split; [done|]. exists [].
    rewrite app_nil_r. done.
Qed.

(** C7 (as the code has it): with the base timeframe not among the
    aggregation timeframes, completing a bar publishes it, when a Redis
    manager is configured, on the channel named [completed_bars]; every
    further message the completion causes (bars of higher timeframes it
    closes) goes to that same channel; without a Redis manager the
    completion publishes nothing at all. *)
Theorem completed_bar_is_published_on_completed_bars
    (fuel : nat) (s : BarBuilder) (symbol timeframe : string) (bar : Bar) (now : Q) :
  base_timeframe (config s) ∉ aggregation_timeframes (config s) ->
  exists s' rest,
    _complete_bar (S (S fuel)) s symbol timeframe bar now = Some s' /\
    redis_published s'
    = redis_published s
      ++ (if redis (config s)
          then [("completed_bars", bar_data (mark_completed bar now))]
          else [])
      ++ rest /\
    Forall (fun cm => fst cm = "completed_bars") rest /\
    (redis (config s) = false -> redis_published s' = redis_published s).
Proof.
  intro Hnotin.
  assert (Hret : exists s', _complete_bar (S (S fuel)) s symbol timeframe bar now = Some s').
  { destruct (decide (timeframe = base_timeframe (config s))) as [->|Hne].
    - rewrite complete_bar_base by done. eexists. done.
    - rewrite complete_bar_not_base by done. eexists. done. }
  destruct Hret as [s' Hs']. exists s'.
  destruct (complete_bar_publishes _ _ _ _ _ _ _ Hs')
    as (_ & _ & rest & Hrest & Hall & Hnone).
  exists rest. split; [done|]. split; [done|]. split; [done|].
  intros Hr. rewrite Hrest, (Hnone Hr). unfold completion_message. rewrite Hr.
  rewrite !app_nil_r. done.
Qed.

Lemma completed_bar_is_published_on_completed_bars_witness :
  (exists s' rest,
     _complete_bar 2 plain_builder "BTC" "1m" valid_bar 120 = Some s' /\
     redis_published s'
     = [("completed_bars", bar_data (mark_completed valid_bar 120))] ++ rest /\
     Forall (fun cm => fst cm = "completed_bars") rest) /\
  (exists s',
     _complete_bar 2 (init (default_config true false) None) "BTC" "1m" valid_bar 120
     = Some s' /\
     redis_published s' = []).
Proof.
  split.
  - destruct (completed_bar_is_published_on_completed_bars 0 plain_builder
                "BTC" "1m" valid_bar 120) as (s' & rest & H1 & H2 & H3 & _).
    + not_in_list.
    + exists s', rest. split; [exact H1|]. split; [exact H2|exact H3].
  - destruct (completed_bar_is_published_on_completed_bars 0
                (init (default_config true false) None)
                "BTC" "1m" valid_bar 120) as (s' & rest & H1 & _ & _ & H4).
    + not_in_list.
    + exists s'. split; [exact H1|]. apply H4. reflexivity.
Defined.

(** C7 (as stated) fails: the one message published for the completed
    bar of the boundary scenario is on [completed_bars], which is not
    the channel [bars:completed]. *)
Lemma builder_channel_is_not_bars_completed :
  (fun s => map fst (redis_published s))
    <$> process_trades no_anomaly no_anomaly 2 plain_builder boundary_ticks
  = Some ["completed_bars"] /\
  "completed_bars" <> "bars:completed".
Proof. split; [vm_compute; reflexivity|discriminate]. Qed.

(** ** Storage and the quality hook *)

(** No step of the builder writes through the database manager. *)
Lemma complete_bar_effects_db s symbol timeframe bar now :
  db_inserted (completed_state s symbol timeframe bar now) = db_inserted s.
Proof.
  unfold completed_state, complete_bar_effects, _store_bar, _publish_completed_bar.
  destruct (_validate_ohlc (mark_completed bar now)) as [[] msg]; simpl;
    destruct (quality_checker s); simpl;
    destruct (db_manager (config s)); simpl;
    destruct (redis (config s)); simpl; done.
Qed.

Lemma aggregate_fold_db k symbol base_bar now l : forall s s',
  (forall s sy tf b s', k s sy tf b = Some s' -> db_inserted s' = db_inserted s) ->
  foldl (fun acc timeframe =>
           s ← acc; aggregate_into k symbol base_bar now s timeframe)
        (Some s) l = Some s' ->
  db_inserted s' = db_inserted s.
Proof.
  induction l as [|tf l IH]; intros s s' Hk; cbn [foldl mbind option_bind].
  - intros [= <-]. done.
  - destruct (aggregate_into k symbol base_bar now s tf) as [s1|] eqn:E.
    + intro H. rewrite (IH _ _ Hk H). revert E. unfold aggregate_into.
      destruct (current_bars s !! (symbol, tf)) as [a|].
      * case_bool_decide.
        -- destruct (k s symbol tf a) as [s0|] eqn:E0; [|done]. simpl.
           intros [= <-]. simpl. eapply Hk. done.
        -- simpl. intros [= <-]. done.
      * simpl. intros [= <-]. done.
    + intro H. exfalso. clear -H. induction l as [|? l IHl]; [done|].
      apply IHl. exact H.
Qed.

Lemma complete_bar_db fuel : forall s symbol timeframe bar now s',
  _complete_bar fuel s symbol timeframe bar now = Some s' ->
  db_inserted s' = db_inserted s.
Proof.
  induction fuel as [|fuel IH]; intros s symbol timeframe bar now s'; [done|].
  cbn [_complete_bar].
  pose proof (complete_bar_effects_db s symbol timeframe bar now) as Hd.
  unfold completed_state in Hd.
  destruct (complete_bar_effects s symbol timeframe bar now) as [s1 b1].
  simpl in Hd.
  destruct (String.eqb timeframe (base_timeframe (config s1))).
  - unfold _aggregate_higher_timeframes. intro H. rewrite <- Hd.
    eapply aggregate_fold_db; [|exact H].
    intros s0 sy tf b s0' H0. apply (IH _ _ _ _ _ _ H0).
  - intros [= <-]. done.
Qed.

Lemma process_trade_db pa vs fuel s t now s' :
  process_trade pa vs fuel s t now = Some s' -> db_inserted s' = db_inserted s.
Proof.
  unfold process_trade.
  destruct (String.eqb (trade_symbol t) ""); [intros [= <-]; done|].
  assert (Hstep : forall s1, db_inserted s1 = db_inserted s ->
    match _process_trade_for_timeframe fuel (inc_trades_processed s1 (trade_symbol t)) t
            (base_timeframe (config (inc_trades_processed s1 (trade_symbol t)))) now with
    | Return s2 => Some s2
    | Raise s2 => Some (logger s2 ErrorProcessingTrade)
    | OutOfFuel => None
    end = Some s' -> db_inserted s' = db_inserted s).
  { intros s1 H1. unfold _process_trade_for_timeframe.
    destruct (trade_timestamp t) as [ts|]; [|intros [= <-]; done].
    destruct (_init_bar _ _ _ _ _ _) as [nb|];
      (destruct (current_bars _ !! _) as [c|];
       [case_bool_decide;
        [destruct (_complete_bar _ _ _ _ _ _) as [s2|] eqn:E; [|done];
         apply complete_bar_db in E|]|]);
      intros [= <-]; simpl in *; congruence. }
  destruct (quality_checker s) as [qc|].
  - destruct (DataQuality.validate_trade pa vs qc t now) as [qc' [[] msg]]; simpl.
    + apply Hstep. done.
    + intros [= <-]. done.
  - simpl. apply Hstep. done.
Qed.

Lemma process_trades_db pa vs fuel l : forall s s',
  process_trades pa vs fuel s l = Some s' -> db_inserted s' = db_inserted s.
Proof.
  induction l as [|[t now] l IH]; intros s s'; cbn [process_trades].
  - intros [= <-]. done.
  - destruct (process_trade pa vs fuel s t now) as [s1|] eqn:E; [|done].
    intro H. rewrite (IH _ _ H). eapply process_trade_db. done.
Qed.

(** The hook under "Flag with quality checker if available" (lines
    296-299) is empty: completing, on a builder that has a quality
    checker, a bar that fails validation leaves the checker as it was. *)
Lemma quality_hook_is_empty :
  let result := _complete_bar 2 checked_builder "BTC" "1m" invalid_bar 120 in
  _validate_ohlc (mark_completed invalid_bar 120)
  = (false, Some "high < max(open, close)") /\
  quality_checker <$> result = Some (Some (DataQuality.init true)) /\
  (fun s => invalid_bars_total s !! ("BTC", Some "high < max(open, close)"))
    <$> result = Some (Some 1).
Proof. vm_compute. repeat split; reflexivity. Qed.

(** C4: a tick with a negative price, on a builder that has a database
    manager and a Redis manager and no quality checker, opens a bar
    that fails OHLC validation when the tick of the next minute closes
    it.  The bar is logged as invalid, counted under its reason,
    handed to [_store_bar], published and appended to the
    completed-bars cache, as a valid bar is; but nothing is written
    through the database manager, here or on any other stream of
    trades, and no quality failure is recorded anywhere. *)
Theorem invalid_bar_is_neither_stored_nor_flagged :
  let result :=
    process_trades no_anomaly no_anomaly 2 plain_builder negative_price_ticks in
  let closed := mark_completed negative_bar 120 in
  _validate_ohlc closed = (false, Some "negative or zero price") /\
  log <$> result
  = Some [ WarningInvalidBar "BTC" "1m" (Some "negative or zero price");
           DebugStoringBar "BTC" "1m"; DebugPublishedBar "BTC" "1m";
           InfoBarCompleted "BTC" "1m"; DebugAggregated "BTC" "5m";
           DebugAggregated "BTC" "15m"; DebugAggregated "BTC" "1h" ] /\
  (fun s => invalid_bars_total s !! ("BTC", Some "negative or zero price"))
    <$> result = Some (Some 1) /\
  redis_published <$> result = Some [("completed_bars", bar_data closed)] /\
  (fun s => completed_bars_cache s !! ("BTC", "1m")) <$> result
  = Some (Some [closed]) /\
  db_inserted <$> result = Some [] /\
  quality_checker <$> result = Some None /\
  (forall pa vs fuel s trades final,
     process_trades pa vs fuel s trades = Some final ->
     db_inserted final = db_inserted s).
Proof.
  cbn zeta. do 7 (split; [vm_compute; reflexivity|]).
  intros pa vs fuel s trades final H. eapply process_trades_db. exact H.
Qed.

(** ** Roll-up *)

Lemma rolled_frame agg rest :
  symbol (rolled agg rest) = symbol agg /\
  timeframe (rolled agg rest) = timeframe agg /\
  bucket_time (rolled agg rest) = bucket_time agg /\
  open (rolled agg rest) = open agg.
Proof.
  revert agg. induction rest as [|[C n] rest IH]; intros agg; [done|].
  destruct (IH (extend_agg_bar agg C n)) as (? & ? & ? & ?). done.
Qed.

Lemma rolled_close agg rest :
  last (close agg :: map (fun cn => close (fst cn)) rest) = Some (close (rolled agg rest)).
Proof.
  revert agg. induction rest as [|[C n] rest IH]; intros agg; [done|].
  specialize (IH (extend_agg_bar agg C n)). simpl in *.
  rewrite <- IH. done.
Qed.

Lemma is_max_step a c l x :
  is_max x (Py.max a c :: l) -> is_max x (a :: c :: l).
Proof.
  intros [Hin Hall]. apply Forall_cons in Hall as [Hm Hall].
  destruct (max_cases a c) as [[E Hle] | [E Hlt]]; rewrite E in *.
  - split.
    + apply elem_of_cons in Hin as [->|Hin]; [left|do 2 right]; done.
    + repeat constructor; [done|lra|done].
  - split.
    + apply elem_of_cons in Hin as [->|Hin]; [right; left|do 2 right]; done.
    + repeat constructor; [lra|done|done].
Qed.

Lemma is_min_step a c l x :
  is_min x (Py.min a c :: l) -> is_min x (a :: c :: l).
Proof.
  intros [Hin Hall]. apply Forall_cons in Hall as [Hm Hall].
  destruct (min_cases a c) as [[E Hle] | [E Hlt]]; rewrite E in *.
  - split.
    + apply elem_of_cons in Hin as [->|Hin]; [left|do 2 right]; done.
    + repeat constructor; [done|lra|done].
  - split.
    + apply elem_of_cons in Hin as [->|Hin]; [right; left|do 2 right]; done.
    + repeat constructor; [lra|done|done].
Qed.

Lemma rolled_high agg rest :
  is_max (high (rolled agg rest)) (high agg :: map (fun cn => high (fst cn)) rest).
Proof.
  revert agg. induction rest as [|[C n] rest IH]; intros agg.
  - simpl. split; [left|repeat constructor; lra].
  - apply is_max_step. apply (IH (extend_agg_bar agg C n)).
Qed.

Lemma rolled_low agg rest :
  is_min (low (rolled agg rest)) (low agg :: map (fun cn => low (fst cn)) rest).
Proof.
  revert agg. induction rest as [|[C n] rest IH]; intros agg.
  - simpl. split; [left|repeat constructor; lra].
  - apply is_min_step. apply (IH (extend_agg_bar agg C n)).
Qed.

Lemma rolled_volume agg rest :
  (volume (rolled agg rest)
   == sum_Q (volume agg :: map (fun cn => volume (fst cn)) rest))%Q.
Proof.
  revert agg. induction rest as [|[C n] rest IH]; intros agg.
  - simpl. lra.
  - specialize (IH (extend_agg_bar agg C n)). simpl in *. rewrite IH. lra.
Qed.

Lemma rolled_trade_count agg rest :
  trade_count (rolled agg rest)
  = sum_Z (trade_count agg :: map (fun cn => trade_count (fst cn)) rest).
Proof.
  revert agg. induction rest as [|[C n] rest IH]; intros agg.
  - simpl. lia.
  - specialize (IH (extend_agg_bar agg C n)). simpl in *. rewrite IH. lia.
Qed.

Lemma agg_fold_labelled sym C now l : forall s,
  bars_labelled s ->
  bars_labelled (foldl (agg_step sym C now) s l) /\
  config (foldl (agg_step sym C now) s l) = config s.
Proof.
  induction l as [|tf l IH]; intros s Hlab; [done|]. simpl.
  destruct (IH (agg_step sym C now s tf) (agg_step_labelled _ _ _ _ _ Hlab)) as [? Hc].
  split; [done|]. rewrite Hc. apply agg_step_config.
Qed.

(** What one run of the aggregation loop leaves at one of its
    timeframes. *)
Lemma agg_fold_at sym C now T l : forall s,
  NoDup l -> T ∈ l -> bars_labelled s ->
  current_bars (foldl (agg_step sym C now) s l) !! (sym, T)
  = Some
      match current_bars s !! (sym, T) with
      | Some a =>
        if bool_decide (bucket_time a ≠ _get_bucket_time (inject_Z (bucket_time C)) T)
        then seed_agg_bar sym T (_get_bucket_time (inject_Z (bucket_time C)) T) C now
        else extend_agg_bar a C now
      | None => seed_agg_bar sym T (_get_bucket_time (inject_Z (bucket_time C)) T) C now
      end.
Proof.
  induction l as [|tf l IH]; intros s Hnd Hin Hlab.
  - apply elem_of_nil in Hin. done.
  - apply NoDup_cons in Hnd as [Hnotin Hnd]. simpl.
    destruct (decide (T = tf)) as [<-|Hne].
    + destruct (agg_fold_frame sym C now l (agg_step sym C now s T)
                  (agg_step_labelled _ _ _ _ _ Hlab) sym T) as [_ ->]; [right; done|].
      destruct (agg_step_spec sym C now s T Hlab) as (nb & ext & -> & _ & _ & _ & _ & Hnb).
      rewrite lookup_insert_eq. f_equal.
      destruct (current_bars s !! (sym, T)) as [a|].
      * destruct Hnb as [(Hb & _ & ->) | (Hb & _ & ->)].
        -- rewrite bool_decide_eq_false_2; [done|]. intro. done.
        -- rewrite bool_decide_eq_true_2; done.
      * destruct Hnb as [_ ->]. done.
    + apply elem_of_cons in Hin as [->|Hin]; [done|].
      rewrite (IH _ Hnd Hin (agg_step_labelled _ _ _ _ _ Hlab)).
      destruct (agg_step_other_key sym C now s tf sym T Hlab) as [_ ->]; [congruence|].
      done.
Qed.

Lemma aggregate_call fuel s sym C now :
  base_timeframe (config s) ∉ aggregation_timeframes (config s) ->
  _aggregate_higher_timeframes
    (fun s sy tf b => _complete_bar (S fuel) s sy tf b now) s sym C now
  = Some (foldl (agg_step sym C now) s (aggregation_timeframes (config s))).
Proof.
  intro Hnotin. unfold _aggregate_higher_timeframes.
  apply aggregate_fold_not_base. apply Forall_forall. intros tf Hin ->.
  apply Hnotin. apply list_elem_of_In. done.
Qed.

(** Base candles of the bucket an aggregated bar is open for extend it. *)
Lemma aggregate_all_extends fuel sym T bT rest : forall s agg,
  base_timeframe (config s) ∉ aggregation_timeframes (config s) ->
  NoDup (aggregation_timeframes (config s)) ->
  T ∈ aggregation_timeframes (config s) ->
  bars_labelled s ->
  current_bars s !! (sym, T) = Some agg -> bucket_time agg = bT ->
  Forall (fun cn => _get_bucket_time (inject_Z (bucket_time (fst cn))) T = bT) rest ->
  exists s',
    aggregate_all (S fuel) s sym rest = Some s' /\
    config s' = config s /\ bars_labelled s' /\
    current_bars s' !! (sym, T) = Some (rolled agg rest).
Proof.
  induction rest as [|[C n] rest IH]; intros s agg Hnotin Hnd Hin Hlab Hcur Hb Hall.
  - exists s. done.
  - apply Forall_cons in Hall as [HC Hall]. simpl in HC.
    unfold aggregate_all. cbn [foldl mbind option_bind fst snd].
    rewrite aggregate_call by done.
    set (s1 := foldl (agg_step sym C n) s (aggregation_timeframes (config s))).
    destruct (agg_fold_labelled sym C n (aggregation_timeframes (config s)) s Hlab)
      as [Hlab1 Hc1]. fold s1 in Hlab1, Hc1.
    assert (Hcur1 : current_bars s1 !! (sym, T) = Some (extend_agg_bar agg C n)).
    { unfold s1. rewrite (agg_fold_at sym C n T _ s Hnd Hin Hlab), Hcur.
      rewrite bool_decide_eq_false_2; [done|]. intro H. apply H. congruence. }
    destruct (IH s1 (extend_agg_bar agg C n)) as (s' & Hrun & Hc' & Hlab' & Hcur');
      rewrite ?Hc1; try done.
    exists s'. split; [exact Hrun|]. split; [congruence|]. done.
Qed.

(** The loop only adds publications. *)
Lemma agg_fold_grows sym C now l : forall s,
  bars_labelled s ->
  exists ext,
    redis_published (foldl (agg_step sym C now) s l) = redis_published s ++ ext.
Proof.
  induction l as [|tf l IH]; intros s Hlab; simpl.
  - exists []. rewrite app_nil_r. done.
  - destruct (agg_step_spec sym C now s tf Hlab) as (nb & e1 & _ & _ & _ & _ & Hp & _).
    destruct (IH _ (agg_step_labelled sym C now s tf Hlab)) as (e2 & ->).
    exists (e1 ++ e2). rewrite Hp, app_assoc. done.
Qed.

(** A loop run that finds, at one of its timeframes, an open bar of
    another bucket publishes that bar's completion. *)
Lemma agg_fold_publishes sym C now T l : forall s a,
  NoDup l -> T ∈ l -> bars_labelled s ->
  current_bars s !! (sym, T) = Some a ->
  bucket_time a <> _get_bucket_time (inject_Z (bucket_time C)) T ->
  forall m, m ∈ completion_message s a now ->
            m ∈ redis_published (foldl (agg_step sym C now) s l).
Proof.
  induction l as [|tf l IH]; intros s a Hnd Hin Hlab Hcur Hb m Hm.
  - apply elem_of_nil in Hin. done.
  - apply NoDup_cons in Hnd as [Hnotin Hnd]. simpl.
    pose proof (agg_step_labelled sym C now s tf Hlab) as Hlab1.
    destruct (decide (T = tf)) as [<-|Hne].
    + destruct (agg_fold_grows sym C now l _ Hlab1) as (ext & ->).
      destruct (agg_step_spec sym C now s T Hlab) as (nb & e1 & _ & _ & _ & _ & -> & He).
      rewrite Hcur in He. destruct He as [(? & _) | (_ & -> & _)]; [done|].
      apply elem_of_app. left. apply elem_of_app. right. done.
    + apply elem_of_cons in Hin as [->|Hin]; [done|].
      apply (IH _ a Hnd Hin Hlab1); [|done|].
      * destruct (agg_step_other_key sym C now s tf sym T Hlab) as [_ ->];
          [congruence|done].
      * unfold completion_message in *.
        rewrite (proj1 (agg_step_config sym C now s tf)). done.
Qed.

(** C2: let base candles [C1 .. Ck], given in order, all fall into the
    same bucket of an aggregation timeframe [T], the first of them
    arriving when no [T] candle is open for that bucket.  Aggregating
    them leaves, for the symbol and [T], an open candle of that bucket
    whose open is [C1]'s, whose close is [Ck]'s, whose high and low are
    the maximum of the highs and the minimum of the lows, and whose
    volume and trade count are the sums of theirs; and that candle is
    the one published when a base candle of another [T] bucket arrives. *)
Theorem rollup_of_consecutive_base_candles
    (fuel : nat) (s : BarBuilder) (sym T : string) (bT : Z)
    (first : Bar) (now1 : Q) (rest : list (Bar * Q)) :
  base_timeframe (config s) ∉ aggregation_timeframes (config s) ->
  NoDup (aggregation_timeframes (config s)) ->
  T ∈ aggregation_timeframes (config s) ->
  bars_labelled s ->
  (forall a, current_bars s !! (sym, T) = Some a -> bucket_time a <> bT) ->
  Forall (fun cn => _get_bucket_time (inject_Z (bucket_time (fst cn))) T = bT)
    ((first, now1) :: rest) ->
  let candles := first :: map fst rest in
  exists s' agg,
    aggregate_all (S fuel) s sym ((first, now1) :: rest) = Some s' /\
    current_bars s' !! (sym, T) = Some agg /\
    bucket_time agg = bT /\
    head (map open candles) = Some (open agg) /\
    last (map close candles) = Some (close agg) /\
    is_max (high agg) (map high candles) /\
    is_min (low agg) (map low candles) /\
    (volume agg == sum_Q (map volume candles))%Q /\
    trade_count agg = sum_Z (map trade_count candles) /\
    (forall next now',
       _get_bucket_time (inject_Z (bucket_time next)) T <> bT ->
       exists s'',
         _aggregate_higher_timeframes
           (fun s sy tf b => _complete_bar (S fuel) s sy tf b now') s' sym next now'
         = Some s'' /\
         (redis (config s) = true ->
          ("completed_bars", bar_data (mark_completed agg now')) ∈ redis_published s'')).
Proof.
  intros Hnotin Hnd Hin Hlab Hfresh Hall candles.
  apply Forall_cons in Hall as [H1 Hall]. simpl in H1.
  set (l := aggregation_timeframes (config s)) in *.
  set (s1 := foldl (agg_step sym first now1) s l).
  destruct (agg_fold_labelled sym first now1 l s Hlab) as [Hlab1 Hc1].
  fold s1 in Hlab1, Hc1.
  set (seed := seed_agg_bar sym T bT first now1).
  assert (Hcur1 : current_bars s1 !! (sym, T) = Some seed).
  { unfold s1. rewrite (agg_fold_at sym first now1 T l s Hnd Hin Hlab), H1.
    destruct (current_bars s !! (sym, T)) as [a|] eqn:Ha; [|done].
    rewrite bool_decide_eq_true_2; [done|]. apply Hfresh. done. }
  destruct (aggregate_all_extends fuel sym T bT rest s1 seed)
    as (s' & Hrun & Hc' & Hlab' & Hcur'); rewrite ?Hc1; try done.
  rewrite Hc1 in Hc'.
  exists s', (rolled seed rest).
  destruct (rolled_frame seed rest) as (_ & _ & Hbk & Hop).
  split.
  { unfold aggregate_all in *. cbn [foldl mbind option_bind fst snd].
    rewrite aggregate_call by done. exact Hrun. }
  split; [done|]. split; [done|]. split; [simpl; rewrite Hop; done|].
  unfold candles. cbn [map]. rewrite !map_map.
  split; [apply (rolled_close seed rest)|].
  split; [apply (rolled_high seed rest)|].
  split; [apply (rolled_low seed rest)|].
  split; [apply (rolled_volume seed rest)|].
  split; [apply (rolled_trade_count seed rest)|].
  intros next now' Hnext.
  rewrite aggregate_call by (rewrite Hc'; done). eexists. split; [done|].
  intros Hredis. rewrite Hc'. fold l.
  apply (agg_fold_publishes sym next now' T l s' (rolled seed rest)); try done.
  - rewrite Hbk. simpl. congruence.
  - unfold completion_message. rewrite Hc', Hredis. left.
Qed.

Lemma rollup_of_consecutive_base_candles_witness :
  exists s' agg,
    aggregate_all 1 plain_builder "BTC" ((first_minute, 60%Q) :: next_minutes)
    = Some s' /\
    current_bars s' !! ("BTC", "5m") = Some agg /\
    bucket_time agg = 0 /\
    head (map open (first_minute :: map fst next_minutes)) = Some (open agg) /\
    last (map close (first_minute :: map fst next_minutes)) = Some (close agg) /\
    is_max (high agg) (map high (first_minute :: map fst next_minutes)) /\
    is_min (low agg) (map low (first_minute :: map fst next_minutes)) /\
    (volume agg == sum_Q (map volume (first_minute :: map fst next_minutes)))%Q /\
    trade_count agg = sum_Z (map trade_count (first_minute :: map fst next_minutes)).
Proof.
  destruct (rollup_of_consecutive_base_candles 0 plain_builder "BTC" "5m" 0
              first_minute 60 next_minutes)
    as (s' & agg & H1 & H2 & H3 & H4 & H5 & H6 & H7 & H8 & H9 & _).
  - not_in_list.
  - repeat (apply NoDup_cons; split; [not_in_list|]). apply NoDup_nil. exact I.
  - left.
  - intros sym tf bar H. vm_compute in H. discriminate H.
  - intros a H. vm_compute in H. discriminate H.
  - repeat constructor.
  - exists s', agg. do 8 (split; [assumption|]). assumption.
Defined.

(** ** Timestamps *)

(** How [_process_trade_for_timeframe] ends on a stamped trade: it
    returns when the trade's bucket has a datetime; when the bucket has
    none and no bar of that bucket is open for the symbol, it raises and
    the symbol's open bar stays at the bucket it was at. *)
Lemma process_trade_for_timeframe_outcome fuel self symbol price quantity ts now :
  let base := base_timeframe (config self) in
  let b := _get_bucket_time (trade_seconds ts) base in
  base ∉ aggregation_timeframes (config self) ->
  (has_datetime b ->
   exists s',
     _process_trade_for_timeframe (S (S fuel)) self
       (trade_at symbol price quantity ts) base now = Return s') /\
  (~ has_datetime b -> open_bucket self symbol base <> Some b ->
   exists s',
     _process_trade_for_timeframe (S (S fuel)) self
       (trade_at symbol price quantity ts) base now = Raise s' /\
     open_bucket s' symbol base = open_bucket self symbol base).
Proof.
  intros base b Hnotin. unfold _process_trade_for_timeframe, trade_at, open_bucket.
  cbn [trade_timestamp trade_symbol trade_price trade_quantity].
  fold base. fold b.
  destruct (init_bar_spec symbol base b price quantity now) as [[Hdt ->]|[Hdt ->]];
    (split; [intros Hb|intros Hb Hopen]); try done.
  - destruct (current_bars self !! (symbol, base)) as [c|].
    + case_bool_decide.
      * unfold base at 1. rewrite complete_bar_base by done. eexists. done.
      * eexists. done.
    + eexists. done.
  - destruct (current_bars self !! (symbol, base)) as [c|] eqn:Hc.
    + rewrite bool_decide_eq_true_2 by (intros E; apply Hopen; simpl; congruence).
      unfold base at 1. rewrite complete_bar_base by done. fold base.
      eexists. split; [done|]. simpl. rewrite lookup_insert_eq. done.
    + eexists. split; [done|]. simpl. rewrite Hc. done.
Qed.

(** C9: the bar builder and the freshness check both read a trade
    timestamp above [1e12] as milliseconds (dividing it by 1000) and any
    other timestamp, a millisecond one of value at most [1e12] included,
    as seconds.  The builder shows its reading in the bucket it files
    the trade under: where the bucket of that many seconds has a
    datetime the trade is processed and the open base bar sits at that
    bucket; where it has none (as for the millisecond stamp [1e12], year
    33658 when read as seconds) and no bar of that bucket is open,
    [_init_bar] raises and the symbol's open bar stays where it was.
    The freshness check accepts the trade exactly when the age computed
    from that many seconds is within [-5, max_age_seconds]. *)
Theorem timestamp_is_milliseconds_only_above_1e12
    (fuel : nat) (self : BarBuilder) (qc : DataQuality.DataQualityChecker)
    (symbol : string) (price quantity ts now : Q) :
  base_timeframe (config self) ∉ aggregation_timeframes (config self) ->
  let base := base_timeframe (config self) in
  let t := trade_at symbol price quantity ts in
  let bucket secs :=
    Qfloor (secs / inject_Z (interval_seconds base)) * interval_seconds base in
  let builder_reads secs :=
    (has_datetime (bucket secs) ->
     exists s' bar,
       _process_trade_for_timeframe (S (S fuel)) self t base now = Return s' /\
       current_bars s' !! (symbol, base) = Some bar /\
       bucket_time bar = bucket secs) /\
    (~ has_datetime (bucket secs) ->
     open_bucket self symbol base <> Some (bucket secs) ->
     exists s',
       _process_trade_for_timeframe (S (S fuel)) self t base now = Raise s' /\
       open_bucket s' symbol base = open_bucket self symbol base) in
  let freshness_reads secs :=
    DataQuality._check_data_freshness qc t now = (true, None)
    <-> (-5 <= now - secs <= DataQuality.max_age_seconds qc)%Q in
  ((ms_threshold < ts)%Q ->
     builder_reads (ts / 1000)%Q /\ freshness_reads (ts / 1000)%Q) /\
  ((ts <= ms_threshold)%Q ->
     builder_reads ts /\ freshness_reads ts).
Proof.
  intros Hnotin base t bucket builder_reads freshness_reads.
  assert (Hb : forall secs, trade_seconds ts = secs -> builder_reads secs).
  { intros secs Hs.
    destruct (process_trade_for_timeframe_outcome fuel self symbol price quantity
                ts now Hnotin) as [Hret Hraise].
    fold base in Hret, Hraise. rewrite Hs, get_bucket_time_floor in Hret, Hraise.
    split.
    - intros Hdt. destruct (Hret Hdt) as [s' Hs'].
      destruct (process_trade_for_timeframe_bucket _ _ _ _ _ _ _ _ _ Hs')
        as (bar & ? & Hbk).
      exists s', bar. split; [exact Hs'|]. split; [done|].
      rewrite Hbk, Hs. apply get_bucket_time_floor.
    - intros Hdt Hopen. apply Hraise; done. }
  assert (Hf : forall secs, DataQuality.freshness_seconds ts = secs -> freshness_reads secs).
  { intros secs Hs. unfold freshness_reads, DataQuality._check_data_freshness.
    simpl. rewrite Hs.
    destruct (Py.gtb _ _) eqn:E1.
    - apply gtb_gt in E1. split; [done|]. lra.
    - apply gtb_le in E1. destruct (Py.ltb _ _) eqn:E2.
      + apply ltb_lt in E2. split; [done|]. lra.
      + apply ltb_ge in E2. split; [|done]. lra. }
  split; intro H.
  - split; [apply Hb|apply Hf].
    + unfold trade_seconds. rewrite (proj2 (gtb_gt _ _)) by done. done.
    + unfold DataQuality.freshness_seconds. rewrite (proj2 (gtb_gt _ _)) by done. done.
  - split; [apply Hb|apply Hf].
    + unfold trade_seconds. rewrite (proj2 (gtb_le _ _)) by done. done.
    + unfold DataQuality.freshness_seconds. rewrite (proj2 (gtb_le _ _)) by done. done.
Qed.

Lemma timestamp_is_milliseconds_only_above_1e12_witness :
  (exists s' bar,
     _process_trade_for_timeframe 2 plain_builder
       (trade_at "BTC" 100 1 (inject_Z 1700000000000)) "1m" (inject_Z 1700000000)
     = Return s' /\
     current_bars s' !! ("BTC", "1m") = Some bar /\
     bucket_time bar = 1699999980) /\
  (exists s' bar,
     _process_trade_for_timeframe 2 plain_builder
       (trade_at "BTC" 100 1 (inject_Z 200000000000)) "1m" (inject_Z 1700000000)
     = Return s' /\
     current_bars s' !! ("BTC", "1m") = Some bar /\
     bucket_time bar = 199999999980) /\
  (exists s',
     _process_trade_for_timeframe 2 plain_builder
       (trade_at "BTC" 100 1 (inject_Z 1000000000000)) "1m" (inject_Z 1700000000)
     = Raise s' /\
     open_bucket s' "BTC" "1m" = None).
Proof.
  assert (Hnotin : base_timeframe (config plain_builder)
                   ∉ aggregation_timeframes (config plain_builder)).
  { not_in_list. }
  split; [|split].
  - destruct (proj1 (timestamp_is_milliseconds_only_above_1e12 0 plain_builder
                       (DataQuality.init true) "BTC" 100 1 (inject_Z 1700000000000)
                       (inject_Z 1700000000) Hnotin) eq_refl)
      as [[Hret _] _].
    destruct Hret as (s' & bar & H1 & H2 & H3).
    + vm_compute. split; intro H; discriminate H.
    + exists s', bar. split; [exact H1|]. split; [exact H2|]. rewrite H3. reflexivity.
  - destruct (proj2 (timestamp_is_milliseconds_only_above_1e12 0 plain_builder
                       (DataQuality.init true) "BTC" 100 1 (inject_Z 200000000000)
                       (inject_Z 1700000000) Hnotin))
      as [[Hret _] _].
    + intro H. discriminate H.
    + destruct Hret as (s' & bar & H1 & H2 & H3).
      * vm_compute. split; intro H; discriminate H.
      * exists s', bar. split; [exact H1|]. split; [exact H2|]. rewrite H3. reflexivity.
  - destruct (proj2 (timestamp_is_milliseconds_only_above_1e12 0 plain_builder
                       (DataQuality.init true) "BTC" 100 1 (inject_Z 1000000000000)
                       (inject_Z 1700000000) Hnotin))
      as [[_ Hraise] _].
    + intro H. discriminate H.
    + destruct Hraise as (s' & H1 & H2).
      * vm_compute. intros [_ H]. apply H. reflexivity.
      * intro H. discriminate H.
      * exists s'. split; [exact H1|exact H2].
Defined.

End BarBuilderFacts.


(* ===================================================================== *)
(** * Alert cooldown                                                      *)
(* ===================================================================== *)

Section AlertFacts.

Import AlertManager.

Lemma get_fired T :
  db_get_active_alerts [fired cooldown_rule T] "BTC" = [fired cooldown_rule T].
Proof. reflexivity. Qed.

(** Evaluating the rule once it has fired at [T]. *)
Lemma loop_fired clk n m T price ind :
  check_loop clk n m [fired cooldown_rule T] price ind
  = if clk n <? T + timedelta 60 then (m, [fired cooldown_rule T], [], S n)
    else if Py.gtb price 100 then
      (fst (fst (_update_alert_state clk (S (S n))
                   (fst (_send_notifications (S n) m (fired cooldown_rule T)))
                   (fired cooldown_rule T))),
       [fired (fired cooldown_rule T) (clk (S (S n)))],
       [fired (fired cooldown_rule T) (clk (S (S n)))], S (S (S n)))
    else (m, [fired cooldown_rule T], [], S n).
Proof.
  unfold check_loop, _should_trigger. cbn -[Z.ltb timedelta Py.gtb Z.add].
  destruct (clk n <? T + timedelta 60); [done|].
  cbn -[Z.ltb timedelta Py.gtb Z.add].
  destruct (Py.gtb price 100); done.
Qed.

(** A check of a settled manager either fires nothing and leaves it
    settled, or fires at a reading at least 60 s after [T] on a price
    above 100. *)
Lemma settled_check T m c price ind :
  settled T m ->
  exists k,
    (snd (check_alerts c m "BTC" price ind) = [] /\
     settled T (fst (check_alerts c m "BTC" price ind)) /\
     (c k < T + timedelta 60 \/ (price <= 100)%Q)) \/
    (snd (check_alerts c m "BTC" price ind)
     = [fired (fired cooldown_rule T) (c (S (S k)))] /\
     T + timedelta 60 <= c k /\ (100 < price)%Q).
Proof.
  destruct m as [rows cache ttl refresh notifs]. unfold settled. simpl.
  intros (-> & -> & Hcache).
  assert (Hloop : forall n m0,
    db m0 = [fired cooldown_rule T] -> _cache_ttl m0 = 300 ->
    _alerts_cache m0 !! "BTC" = Some [fired cooldown_rule T] ->
    let r := check_loop c n m0 [fired cooldown_rule T] price ind in
    let final :=
      match _alerts_cache r.1.1.1 !! "BTC" with
      | Some _ =>
        {| db := db r.1.1.1;
           _alerts_cache := <["BTC" := r.1.1.2]> (_alerts_cache r.1.1.1);
           _cache_ttl := _cache_ttl r.1.1.1;
           _last_cache_refresh := _last_cache_refresh r.1.1.1;
           notifications := notifications r.1.1.1 |}
      | None => r.1.1.1
      end in
    (r.1.2 = [] /\ settled T final /\ (c n < T + timedelta 60 \/ (price <= 100)%Q)) \/
    (r.1.2 = [fired (fired cooldown_rule T) (c (S (S n)))] /\
     T + timedelta 60 <= c n /\ (100 < price)%Q)).
  { intros n m0 Hdb Httl Hc. rewrite loop_fired.
    destruct (c n <? T + timedelta 60) eqn:E1.
    - apply Z.ltb_lt in E1. left. simpl. rewrite Hc.
      split; [done|]. split; [|left; done].
      unfold settled. simpl. rewrite lookup_insert_eq.
      split; [done|]. split; [done|]. right. done.
    - apply Z.ltb_ge in E1. destruct (Py.gtb price 100) eqn:E2.
      + right. simpl. split; [done|]. split; [done|]. apply gtb_gt in E2. done.
      + left. simpl. rewrite Hc. split; [done|]. split.
        * unfold settled. simpl. rewrite lookup_insert_eq.
          split; [done|]. split; [done|]. right. done.
        * right. apply gtb_le in E2. done. }
  unfold check_alerts, _get_active_alerts.
  cbn [_alerts_cache db _cache_ttl _last_cache_refresh notifications].
  destruct Hcache as [Hc | Hc]; rewrite Hc.
  - rewrite get_fired.
    match goal with |- context [check_loop c 2%nat ?m0 _ _ _] =>
      specialize (Hloop 2%nat m0 eq_refl eq_refl (lookup_insert_eq _ _ _)) end.
    exists 2%nat. cbv zeta in Hloop.
    destruct (check_loop c 2 _ _ _ _) as [[[m1 al] tr] n1]. exact Hloop.
  - destruct (c 1%nat - refresh <? timedelta 300).
    + match goal with |- context [check_loop c 2%nat ?m0 _ _ _] =>
        specialize (Hloop 2%nat m0 eq_refl eq_refl Hc) end.
      exists 2%nat. cbv zeta in Hloop.
      destruct (check_loop c 2 _ _ _ _) as [[[m1 al] tr] n1]. exact Hloop.
    + rewrite get_fired.
      match goal with |- context [check_loop c 3%nat ?m0 _ _ _] =>
        specialize (Hloop 3%nat m0 eq_refl eq_refl (lookup_insert_eq _ _ _)) end.
      exists 3%nat. cbv zeta in Hloop.
      destruct (check_loop c 3 _ _ _ _) as [[[m1 al] tr] n1]. exact Hloop.
Qed.

(** The first evaluation, at price 101, fires and stamps the rule with
    its fourth clock reading. *)
Lemma first_fire c ind t0 :
  check_alerts c (init [cooldown_rule] t0) "BTC" 101 ind
  = ({| db := [fired cooldown_rule (c 3%nat)];
        _alerts_cache := delete "BTC" (<["BTC" := [cooldown_rule]]> ∅);
        _cache_ttl := 300; _last_cache_refresh := c 1%nat;
        notifications := [("a1", WEBSOCKET)] |},
     [fired cooldown_rule (c 3%nat)]).
Proof.
  unfold check_alerts, _get_active_alerts, init.
  cbn [_alerts_cache db _cache_ttl _last_cache_refresh notifications].
  rewrite lookup_empty.
  change (db_get_active_alerts [cooldown_rule] "BTC") with [cooldown_rule].
  change (check_loop c 2 ?m [cooldown_rule] 101 ind)
    with (let '(s, a, n) :=
            _update_alert_state c 3 (fst (_send_notifications 2 m cooldown_rule))
              cooldown_rule in
          (s, [a], [a], n)).
  cbn. rewrite lookup_delete_eq. done.
Qed.

(** No alert triggers while its cooldown runs. *)
Lemma should_trigger_after_cooldown clk n alert price ind alert' n' :
  _should_trigger clk n alert price ind = (alert', true, n') ->
  is_active alert = true /\
  match last_triggered_at alert with
  | Some t => t + timedelta (cooldown_seconds alert) <= clk n
  | None => True
  end.
Proof.
  unfold _should_trigger. destruct (is_active alert); [|intros [=]]. simpl.
  destruct (last_triggered_at alert) as [t|]; [|done].
  destruct (clk n <? t + timedelta (cooldown_seconds alert)) eqn:E; [intros [=]|].
  intros _. split; [done|]. apply Z.ltb_ge in E. done.
Qed.

(** C8: the rule PRICE_ABOVE 100 with a 60 s cooldown, evaluated at
    prices 101, 102 and 103, the second and third evaluation reading the
    clock less than 10 s after the first fire: the first evaluation fires
    (stamping [last_triggered_at]), the second and third do not, and any
    later evaluation that fires reads the clock at least 60 s after the
    first fire.  In general [_should_trigger] answers true only for an
    active alert that never fired or whose cooldown, counted from
    [last_triggered_at], has elapsed. *)
Theorem alert_fires_once_within_cooldown
    (t0 : datetime) (c1 c2 c3 : Clock) (i1 i2 i3 : gmap string Q) :
  (forall k, c2 k < c1 3%nat + timedelta 10) ->
  (forall k, c3 k < c1 3%nat + timedelta 10) ->
  let r1 := check_alerts c1 (init [cooldown_rule] t0) "BTC" 101 i1 in
  let r2 := check_alerts c2 (fst r1) "BTC" 102 i2 in
  let r3 := check_alerts c3 (fst r2) "BTC" 103 i3 in
  snd r1 = [fired cooldown_rule (c1 3%nat)] /\
  snd r2 = [] /\
  snd r3 = [] /\
  (forall c4 price i4,
     snd (check_alerts c4 (fst r3) "BTC" price i4) <> [] ->
     exists k, c1 3%nat + timedelta 60 <= c4 k) /\
  (forall clk n alert price ind alert' n',
     _should_trigger clk n alert price ind = (alert', true, n') ->
     is_active alert = true /\
     match last_triggered_at alert with
     | Some t => t + timedelta (cooldown_seconds alert) <= clk n
     | None => True
     end).
Proof.
  intros H2 H3 r1 r2 r3.
  assert (E1 : r1 = _) by apply first_fire.
  assert (S1 : settled (c1 3%nat) (fst r1)).
  { rewrite E1. unfold settled. simpl. rewrite lookup_delete_eq.
    split; [done|]. split; [done|]. left. done. }
  assert (S2 : snd r2 = [] /\ settled (c1 3%nat) (fst r2)).
  { destruct (settled_check _ _ c2 102 i2 S1) as [k [(? & ? & _) | (_ & Hk & _)]].
    - done.
    - specialize (H2 k). unfold timedelta in *. lia. }
  destruct S2 as [F2 S2].
  assert (S3 : snd r3 = [] /\ settled (c1 3%nat) (fst r3)).
  { destruct (settled_check _ _ c3 103 i3 S2) as [k [(? & ? & _) | (_ & Hk & _)]].
    - done.
    - specialize (H3 k). unfold timedelta in *. lia. }
  destruct S3 as [F3 S3].
  split; [rewrite E1; done|]. split; [done|]. split; [done|]. split.
  - intros c4 price i4 Hfire.
    destruct (settled_check _ _ c4 price i4 S3) as [k [(? & _) | (_ & Hk & _)]].
    + done.
    + exists k. done.
  - apply should_trigger_after_cooldown.
Qed.

Lemma alert_fires_once_within_cooldown_witness :
  let r1 := check_alerts (clock_at_second 1000) (init [cooldown_rule] 0) "BTC" 101 ∅ in
  let r2 := check_alerts (clock_at_second 1003) (fst r1) "BTC" 102 ∅ in
  let r3 := check_alerts (clock_at_second 1009) (fst r2) "BTC" 103 ∅ in
  snd r1 = [fired cooldown_rule (timedelta 1000)] /\ snd r2 = [] /\ snd r3 = [].
Proof.
  destruct (alert_fires_once_within_cooldown 0
              (clock_at_second 1000) (clock_at_second 1003) (clock_at_second 1009)
              ∅ ∅ ∅) as (H1 & H2 & H3 & _).
  - intro k. reflexivity.
  - intro k. reflexivity.
  - split; [exact H1|]. split; [exact H2|exact H3].
Defined.

End AlertFacts.

(* ===================================================================== *)
(** * Rate limiter: the bucket over a stream of requests                 *)
(* ===================================================================== *)

Section RateLimiterFacts.

Import RateLimiter.

Lemma bucket_key_inj c1 c2 : bucket_key c1 = bucket_key c2 -> c1 = c2.
Proof. unfold bucket_key. simpl. intros [=]. done. Qed.

Lemma hgetall_hset key m r key' :
  hgetall key' (hset key m r)
  = if decide (key' = key) then m ∪ hgetall key r else hgetall key' r.
Proof.
  unfold hgetall, hset. simpl. rewrite lookup_insert.
  destruct (decide (key = key')), (decide (key' = key)); subst; try done.
Qed.

Lemma hgetall_expire key n r key' :
  hgetall key' (expire key n r) = hgetall key' r.
Proof. done. Qed.

Lemma bucket_mapping_tokens tk lr old :
  (bucket_mapping tk lr ∪ old) !! "tokens" = Some tk.
Proof. unfold bucket_mapping. apply lookup_union_Some_l. apply lookup_insert_eq. Qed.

Lemma bucket_mapping_last_refill tk lr old :
  (bucket_mapping tk lr ∪ old) !! "last_refill" = Some lr.
Proof.
  unfold bucket_mapping. apply lookup_union_Some_l.
  rewrite lookup_insert_ne by done. apply lookup_insert_eq.
Qed.

Lemma dom_nonempty_lookup (m : gmap string Q) k v : m !! k = Some v -> dom m <> ∅.
Proof.
  intros H E. apply dom_empty_inv_L in E. subst. rewrite lookup_empty in H. done.
Qed.

(** The shape of one call on an available store. *)
Lemma is_allowed_cases self r t c k :
  let key := bucket_key c in
  let bucket := hgetall key r in
  let tokens := refilled_tokens self bucket t in
  (dom bucket = ∅ /\
   is_allowed self (Some r) t c k
   = (Some (expire key (period self * 2)
              (hset key (bucket_mapping (inject_Z (rate self - k)) t) r)),
      (true, None))) \/
  (dom bucket <> ∅ /\ (inject_Z k <= tokens)%Q /\
   is_allowed self (Some r) t c k
   = (Some (expire key (period self * 2)
              (hset key (bucket_mapping (tokens - inject_Z k) t) r)),
      (true, None))) \/
  (dom bucket <> ∅ /\ (tokens < inject_Z k)%Q /\
   exists v, is_allowed self (Some r) t c k = (Some r, v) /\
     (fst v = true -> Qeq_bool (refill_rate self) 0 = true)).
Proof.
  intros key bucket tokens. unfold is_allowed. fold key bucket.
  case_bool_decide as Hd; [left; done|right]. fold tokens.
  destruct (Py.geb tokens (inject_Z k)) eqn:E.
  - left. apply geb_ge in E. done.
  - right. apply geb_lt in E. do 2 (split; [done|]).
    destruct (Qeq_bool (refill_rate self) 0) eqn:E0; eexists; (split; [done|]); simpl; done.
Qed.

Lemma refilled_tokens_le self bucket t :
  (refilled_tokens self bucket t <= inject_Z (rate self))%Q.
Proof.
  unfold refilled_tokens.
  destruct (min_cases (inject_Z (rate self))
              (default (inject_Z (rate self)) (bucket !! "tokens")
               + (t - default t (bucket !! "last_refill")) * refill_rate self))
    as [[-> ?]|[-> ?]]; lra.
Qed.

Lemma tokens_within_write self key tk lr n r :
  (0 <= tk <= inject_Z (rate self))%Q ->
  tokens_within self r ->
  tokens_within self (expire key n (hset key (bucket_mapping tk lr) r)).
Proof.
  intros Htk Hr key' m tk'. simpl. rewrite lookup_insert. case_decide as Hk.
  - intros [= <-]. rewrite bucket_mapping_tokens. intros [= <-]. done.
  - apply Hr.
Qed.

Lemma is_allowed_tokens_within self r t c k :
  0 <= k <= rate self -> tokens_within self r ->
  exists r', fst (is_allowed self (Some r) t c k) = Some r' /\ tokens_within self r'.
Proof.
  intros Hk Hr.
  destruct (is_allowed_cases self r t c k) as [[_ ->]|[(_ & Hle & ->)|(_ & _ & v & -> & _)]];
    simpl; eexists; (split; [done|]); [| |done].
  - apply tokens_within_write; [|done].
    rewrite <- !Zle_Qle. change 0%Q with (inject_Z 0). rewrite <- Zle_Qle. lia.
  - apply tokens_within_write; [|done].
    pose proof (refilled_tokens_le self (hgetall (bucket_key c) r) t).
    assert (0 <= inject_Z k)%Q by (change 0%Q with (inject_Z 0); rewrite <- Zle_Qle; lia).
    lra.
Qed.

(** X2: starting from an empty store, as long as no request costs less
    than zero or more than the capacity, every token count the limiter
    stores, for whatever client, lies between zero and the capacity, and
    the store is never lost. *)
Theorem stored_tokens_stay_within_capacity
    (self : TokenBucketRateLimiter) (requests : list (Q * string * Z)) :
  Forall (fun q => 0 <= snd q <= rate self) requests ->
  exists r, fst (serve self (Some empty_redis) requests) = Some r /\
            tokens_within self r.
Proof.
  intro Hall.
  assert (G : forall l r, Forall (fun q => 0 <= snd q <= rate self) l ->
            tokens_within self r ->
            exists r', fst (serve self (Some r) l) = Some r' /\ tokens_within self r').
  { clear. induction l as [|[[t c] k] l IH]; intros r Hall Hr.
    - exists r. done.
    - apply Forall_cons in Hall as [Hk Hall]. simpl in Hk.
      destruct (is_allowed_tokens_within self r t c k Hk Hr) as (r1 & E1 & Hr1).
      cbn [serve]. destruct (is_allowed self (Some r) t c k) as [o v]. simpl in E1. subst o.
      destruct (IH r1 Hall Hr1) as (r2 & E2 & Hr2).
      destruct (serve self (Some r1) l) as [o vs]. simpl in *. eauto. }
  apply G; [done|]. intros key m tk. simpl. rewrite lookup_empty. done.
Qed.

Lemma stored_tokens_stay_within_capacity_witness :
  exists r, fst (serve limiter_2_per_2 (Some empty_redis) sample_requests) = Some r /\
            tokens_within limiter_2_per_2 r.
Proof.
  apply (stored_tokens_stay_within_capacity limiter_2_per_2 sample_requests).
  repeat (constructor; [simpl; lia|]). constructor.
Defined.

Lemma is_allowed_other_client self r t c k client :
  c <> client ->
  exists r', fst (is_allowed self (Some r) t c k) = Some r' /\
    hgetall (bucket_key client) r' = hgetall (bucket_key client) r.
Proof.
  intro Hne.
  assert (Hk : bucket_key client <> bucket_key c).
  { intro E. apply bucket_key_inj in E. done. }
  destruct (is_allowed_cases self r t c k) as [[_ ->]|[(_ & Hle & ->)|(_ & _ & v & -> & _)]];
    simpl; eexists; (split; [done|]); [| |done];
    rewrite hgetall_expire, hgetall_hset; case_decide; done.
Qed.

Lemma is_allowed_budget self r t k client t0 t1 g :
  (0 < refill_rate self)%Q ->
  (t0 <= t <= t1)%Q -> k <= rate self ->
  bucket_budget self client t0 t1 r g ->
  exists r' v, is_allowed self (Some r) t client k = (Some r', v) /\
    bucket_budget self client t0 t1 r' (g + if fst v then k else 0).
Proof.
  intros Hpos Ht Hk Hb.
  destruct (is_allowed_cases self r t client k)
    as [[Hd ->]|[(Hd & Hle & ->)|(Hd & Hlt & v & -> & Hv)]].
  - eexists _, _. split; [done|]. right.
    destruct Hb as [[_ ->]|(tk & lr & Htk & _)].
    2:{ apply dom_nonempty_lookup in Htk. done. }
    exists (inject_Z (rate self - k)), t.
    rewrite hgetall_expire, hgetall_hset, decide_True by done.
    rewrite bucket_mapping_tokens, bucket_mapping_last_refill.
    do 2 (split; [done|]). simpl.
    assert (0 <= (t - t0) * refill_rate self)%Q by (apply Qmult_le_0_compat; lra).
    split; [|split].
    + change 0%Q with (inject_Z 0). rewrite <- Zle_Qle. lia.
    + rewrite <- inject_Z_plus.
      match goal with |- (inject_Z ?z <= _)%Q => replace z with (rate self) by lia end.
      lra.
    + lra.
  - eexists _, _. split; [done|]. right.
    destruct Hb as [[Hd' _]|(tk & lr & Htk & Hlr & Htk0 & Hsum & Hlr1)]; [done|].
    set (tokens := refilled_tokens self (hgetall (bucket_key client) r) t) in *.
    exists (tokens - inject_Z k)%Q, t.
    rewrite hgetall_expire, hgetall_hset, decide_True by done.
    rewrite bucket_mapping_tokens, bucket_mapping_last_refill.
    do 2 (split; [done|]). simpl.
    assert (Hle' : (tokens <= tk + (t - lr) * refill_rate self)%Q).
    { unfold tokens, refilled_tokens. rewrite Htk, Hlr. simpl.
      destruct (min_cases (inject_Z (rate self)) (tk + (t - lr) * refill_rate self))
        as [[-> ?]|[-> ?]]; lra. }
    split; [lra|]. split; [|lra].
    rewrite inject_Z_plus. nra.
  - eexists _, _. split; [done|].
    destruct (fst v) eqn:Ev.
    + specialize (Hv eq_refl). apply Qeq_bool_iff in Hv. lra.
    + rewrite Z.add_0_r. done.
Qed.

Lemma serve_budget self client t0 t1 :
  (0 < refill_rate self)%Q ->
  forall l r g,
  Forall (fun q : Q * string * Z =>
            snd (fst q) = client ->
            (t0 <= fst (fst q) <= t1)%Q /\ snd q <= rate self) l ->
  bucket_budget self client t0 t1 r g ->
  exists r', fst (serve self (Some r) l) = Some r' /\
    bucket_budget self client t0 t1 r'
      (g + granted client l (snd (serve self (Some r) l))).
Proof.
  intros Hpos. induction l as [|[[t c] k] l IH]; intros r g Hall Hb.
  - exists r. split; [done|]. unfold granted. simpl. rewrite Z.add_0_r. done.
  - apply Forall_cons in Hall as [Hq Hall]. simpl in Hq. cbn [serve].
    destruct (decide (c = client)) as [->|Hne].
    + destruct (Hq eq_refl) as [Ht Hk].
      destruct (is_allowed_budget self r t k client t0 t1 g Hpos Ht Hk Hb)
        as (r1 & v & -> & Hb1).
      destruct (IH r1 _ Hall Hb1) as (r2 & E2 & Hb2).
      destruct (serve self (Some r1) l) as [o vs]. simpl in *. subst o.
      exists r2. split; [done|].
      unfold granted in *. simpl. rewrite bool_decide_eq_true_2 by done. simpl.
      fold sum_Z. replace (g + ((if fst v then k else 0) + sum_Z (zip_with _ l vs)))
        with (g + (if fst v then k else 0) + sum_Z (zip_with
                (fun (q : Q * string * Z) (v : bool * option Z) =>
                 if bool_decide (snd (fst q) = client) && fst v then snd q else 0) l vs))
        by lia.
      done.
    + destruct (is_allowed_other_client self r t c k client Hne) as (r1 & E1 & Hsame).
      destruct (is_allowed self (Some r) t c k) as [o v]. simpl in E1. subst o.
      assert (Hb1 : bucket_budget self client t0 t1 r1 g).
      { unfold bucket_budget. rewrite Hsame. done. }
      destruct (IH r1 _ Hall Hb1) as (r2 & E2 & Hb2).
      destruct (serve self (Some r1) l) as [o vs]. simpl in *. subst o.
      exists r2. split; [done|].
      unfold granted in *. simpl. rewrite bool_decide_eq_false_2 by done. simpl.
      done.
Qed.

(** X1: the bucket does what a token bucket is for. With a positive rate
    and period, over any interleaved stream of requests answered from an
    empty store, the total cost of the requests of one client that were
    allowed, all made between [t0] and [t1] and none costing more than
    the capacity, is at most the capacity plus what the bucket refills
    in [t1 - t0]. *)
Theorem admitted_cost_bounded_by_capacity_and_refill
    (rate period : Z) (self : TokenBucketRateLimiter)
    (requests : list (Q * string * Z)) (client : string) (t0 t1 : Q) :
  0 < rate -> 0 < period -> init rate period = Some self ->
  (t0 <= t1)%Q ->
  Forall (fun q : Q * string * Z =>
            snd (fst q) = client ->
            (t0 <= fst (fst q) <= t1)%Q /\ snd q <= rate) requests ->
  let vs := snd (serve self (Some empty_redis) requests) in
  (inject_Z (granted client requests vs)
   <= inject_Z rate + (t1 - t0) * refill_rate self)%Q.
Proof.
  intros Hr Hp Hinit Ht Hall vs.
  destruct (init_refill_rate_pos _ _ _ Hr Hp Hinit) as [Hpos Hrate].
  rewrite <- Hrate in Hall |- *.
  destruct (serve_budget self client t0 t1 Hpos requests empty_redis 0 Hall)
    as (r' & _ & Hb).
  { left. split; [|done]. unfold hgetall. simpl. rewrite lookup_empty. simpl.
    apply dom_empty_L. }
  fold vs in Hb. rewrite Z.add_0_l in Hb.
  assert (0 < inject_Z (RateLimiter.rate self))%Q.
  { change 0%Q with (inject_Z 0). rewrite <- Zlt_Qlt. lia. }
  destruct Hb as [[_ ->]|(tk & lr & _ & _ & Htk & Hsum & Hlr)].
  - change (inject_Z 0) with 0%Q. nra.
  - nra.
Qed.

Lemma admitted_cost_bounded_by_capacity_and_refill_witness :
  (inject_Z (granted "c" sample_requests
               (snd (serve limiter_2_per_2 (Some empty_redis) sample_requests)))
   <= inject_Z 2 + (101 - 100) * refill_rate limiter_2_per_2)%Q.
Proof.
  apply (admitted_cost_bounded_by_capacity_and_refill 2 2 limiter_2_per_2
           sample_requests "c" 100 101).
  - lia.
  - lia.
  - reflexivity.
  - vm_compute. intro H. discriminate H.
  - repeat (constructor;
            [simpl; intro H;
             first [discriminate H
                   | split; [split; vm_compute; intro H'; discriminate H' | lia]]|]).
    constructor.
Defined.

Lemma is_allowed_same_bucket self r1 r2 t c k :
  hgetall (bucket_key c) r1 = hgetall (bucket_key c) r2 ->
  exists r1' r2' v,
    is_allowed self (Some r1) t c k = (Some r1', v) /\
    is_allowed self (Some r2) t c k = (Some r2', v) /\
    hgetall (bucket_key c) r1' = hgetall (bucket_key c) r2'.
Proof.
  intro H. unfold is_allowed. rewrite H.
  case_bool_decide.
  - eexists _, _, _. do 2 (split; [done|]).
    rewrite !hgetall_expire, !hgetall_hset, !decide_True by done. rewrite H. done.
  - destruct (Py.geb _ _).
    + eexists _, _, _. do 2 (split; [done|]).
      rewrite !hgetall_expire, !hgetall_hset, !decide_True by done. rewrite H. done.
    + destruct (Qeq_bool _ _); eexists _, _, _; done.
Qed.

Lemma verdicts_cons client t c k l v vs :
  verdicts client ((t, c, k) :: l) (v :: vs)
  = if bool_decide (c = client) then v :: verdicts client l vs
    else verdicts client l vs.
Proof. unfold verdicts. simpl. case_bool_decide; done. Qed.

Lemma serve_own_requests self client : forall l r1 r2,
  hgetall (bucket_key client) r1 = hgetall (bucket_key client) r2 ->
  verdicts client l (snd (serve self (Some r1) l))
  = snd (serve self (Some r2) (filter (fun q : Q * string * Z => snd (fst q) = client) l)).
Proof.
  induction l as [|[[t c] k] l IH]; intros r1 r2 H; [done|].
  rewrite filter_cons. cbn [serve].
  destruct (decide (c = client)) as [->|Hne].
  - rewrite decide_True by done.
    destruct (is_allowed_same_bucket self r1 r2 t client k H)
      as (r1' & r2' & v & -> & E2 & H').
    cbn [serve]. rewrite E2. specialize (IH r1' r2' H').
    destruct (serve self (Some r1') l) as [o1 vs1].
    destruct (serve self (Some r2') _) as [o2 vs2]. simpl in *.
    rewrite verdicts_cons, bool_decide_eq_true_2 by done.
    rewrite IH. done.
  - rewrite decide_False by done.
    destruct (is_allowed_other_client self r1 t c k client Hne) as (r1' & E1 & Hsame).
    destruct (is_allowed self (Some r1) t c k) as [o v]. simpl in E1. subst o.
    specialize (IH r1' r2 ltac:(congruence)).
    destruct (serve self (Some r1') l) as [o1 vs1]. simpl in *.
    rewrite verdicts_cons, bool_decide_eq_false_2 by done. done.
Qed.

(** X3: clients do not interfere. The answers a client gets in an
    interleaved stream are the answers it gets when the requests of all
    other clients are taken out of the stream. *)
Theorem verdicts_depend_on_own_requests_only
    (self : TokenBucketRateLimiter) (r : Redis)
    (requests : list (Q * string * Z)) (client : string) :
  verdicts client requests (snd (serve self (Some r) requests))
  = snd (serve self (Some r)
           (filter (fun q : Q * string * Z => snd (fst q) = client) requests)).
Proof. apply serve_own_requests. done. Qed.

(** X4: a limiter built with a rate of zero never denies. Its refill
    rate is zero, so in the deny branch [tokens_needed /
    self.refill_rate] raises, and the handler of [is_allowed] answers
    [(True, None)]; the other branches allow anyway. *)
Theorem zero_rate_limiter_allows_everything
    (period : Z) (self : TokenBucketRateLimiter) (redis : option Redis)
    (current_time : Q) (client_id : string) (cost : Z) :
  init 0 period = Some self ->
  snd (is_allowed self redis current_time client_id cost) = (true, None).
Proof.
  unfold init. destruct (period =? 0); [done|]. intros [= <-].
  destruct redis as [r|]; [|done].
  assert (E0 : Qeq_bool (inject_Z 0 / inject_Z period) 0 = true).
  { apply Qeq_bool_iff. unfold Qdiv. change (inject_Z 0) with 0%Q. lra. }
  unfold is_allowed. case_bool_decide; [done|].
  destruct (Py.geb _ _); [done|].
  simpl refill_rate. rewrite E0. done.
Qed.

Lemma zero_rate_limiter_allows_everything_witness :
  snd (is_allowed zero_limiter (Some store_after_first) 100 "c" 5) = (true, None).
Proof.
  apply (zero_rate_limiter_allows_everything 60 zero_limiter
           (Some store_after_first) 100 "c" 5).
  reflexivity.
Defined.

(** X5: [reset] and the next request. After [reset] the client's next
    request is treated as a first request: it is allowed whatever it
    costs, the bucket then holds the capacity less the cost, stamped
    with the time of the request and expiring after two periods, and no
    other client's bucket or expiry has changed. *)
Theorem reset_then_request_starts_a_full_bucket
    (self : TokenBucketRateLimiter) (r : Redis) (client_id : string)
    (current_time : Q) (cost : Z) :
  exists r1 r2,
    reset self (Some r) client_id = (Some r1, true) /\
    is_allowed self (Some r1) current_time client_id cost = (Some r2, (true, None)) /\
    hgetall (bucket_key client_id) r2
    = bucket_mapping (inject_Z (rate self - cost)) current_time /\
    ttl r2 !! bucket_key client_id = Some (period self * 2) /\
    forall other, other <> client_id ->
      hgetall (bucket_key other) r2 = hgetall (bucket_key other) r /\
      ttl r2 !! bucket_key other = ttl r !! bucket_key other.
Proof.
  eexists _, _. split; [done|].
  assert (Hd : dom (hgetall (bucket_key client_id) (del (bucket_key client_id) r)) = ∅).
  { unfold hgetall, del. simpl. rewrite lookup_delete_eq. simpl. apply dom_empty_L. }
  split; [|split; [|split]].
  - unfold is_allowed. rewrite bool_decide_eq_true_2 by done. done.
  - rewrite hgetall_expire, hgetall_hset, decide_True by done.
    apply dom_empty_inv_L in Hd. rewrite Hd. apply (right_id_L ∅ (∪)).
  - simpl. apply lookup_insert_eq.
  - intros other Hne.
    assert (Hk : bucket_key other <> bucket_key client_id).
    { intro E. apply bucket_key_inj in E. done. }
    split.
    + rewrite hgetall_expire, hgetall_hset, decide_False by done.
      unfold hgetall, del. simpl. rewrite lookup_delete_ne by done. done.
    + simpl. rewrite lookup_insert_ne by done. rewrite lookup_delete_ne by done. done.
Qed.

Lemma inject_Z_sub a b : (inject_Z (a - b) == inject_Z a - inject_Z b)%Q.
Proof. unfold Z.sub. rewrite inject_Z_plus, inject_Z_opp. reflexivity. Qed.

(** X6: [get_status] and [is_allowed] agree. A request whose cost does
    not exceed the token count [get_status] reports for the same instant
    is allowed and leaves that count less the cost in the bucket; for an
    existing bucket and a non-zero refill rate, a request costing more
    than the reported count is denied and the store is left as it is. *)
Theorem status_tokens_decide_the_next_request
    (self : TokenBucketRateLimiter) (r : Redis) (current_time : Q)
    (client_id : string) (cost : Z) :
  let status := get_status self (Some r) current_time client_id in
  let answer := is_allowed self (Some r) current_time client_id cost in
  (forall tokens,
     status_tokens status = Some tokens -> (inject_Z cost <= tokens)%Q ->
     snd answer = (true, None) /\
     exists r' left,
       fst answer = Some r' /\
       hgetall (bucket_key client_id) r' !! "tokens" = Some left /\
       (left == tokens - inject_Z cost)%Q) /\
  (forall tokens capacity rr p last_refill,
     status = StatusBucket tokens capacity rr p last_refill ->
     (tokens < inject_Z cost)%Q -> ~ (rr == 0)%Q ->
     fst (snd answer) = false /\ fst answer = Some r).
Proof.
  intros status answer. subst status answer. unfold get_status, is_allowed, refilled_tokens.
  set (key := bucket_key client_id). set (bucket := hgetall key r).
  case_bool_decide as Hd; simpl.
  - split; [|intros; done].
    intros tokens [= <-] Hle. split; [done|]. eexists _, _. split; [done|].
    rewrite hgetall_expire, hgetall_hset, decide_True by done.
    rewrite bucket_mapping_tokens. split; [done|]. apply inject_Z_sub.
  - set (T := Py.min _ _). split.
    + intros tokens [= <-] Hle. rewrite (proj2 (geb_ge _ _)) by done.
      split; [done|]. eexists _, _. split; [done|].
      rewrite hgetall_expire, hgetall_hset, decide_True by done.
      rewrite bucket_mapping_tokens. split; [done|]. reflexivity.
    + intros tokens capacity rr p last_refill [= <- _ <- _ _] Hlt Hrr.
      rewrite (proj2 (geb_lt _ _)) by done.
      destruct (Qeq_bool (refill_rate self) 0) eqn:E; [|done].
      apply Qeq_bool_iff in E. done.
Qed.


End RateLimiterFacts.

(* ===================================================================== *)
(** * Circuit breaker: recovery, streaks and backoff                      *)
(* ===================================================================== *)

Section CircuitBreakerFacts.

Import CircuitBreaker.

Lemma successes_below_threshold (clks : list Clock) : forall b : CircuitBreaker,
  state b = HALF_OPEN ->
  success_count b + Z.of_nat (length clks) < success_threshold (config b) ->
  calls b (succeeding clks)
  = ({| config := config b; state := HALF_OPEN;
        failure_count := match clks with [] => failure_count b | _ => 0 end;
        success_count := success_count b + Z.of_nat (length clks);
        last_failure_time := last_failure_time b;
        opened_at := opened_at b;
        current_timeout := current_timeout b |},
     map (fun _ => Result) clks).
Proof.
  induction clks as [|clk clks IH]; intros b Hst Hlt.
  - simpl. rewrite Z.add_0_r. destruct b; simpl in *; subst; done.
  - cbn [succeeding map calls]. unfold call, enter_call. rewrite Hst.
    unfold _on_success. cbn [state config success_count].
    rewrite Hst. cbn [state config success_count].
    simpl length in Hlt.
    destruct (_ >=? _) eqn:E; [lia|].
    fold (succeeding clks). rewrite IH; [|done|simpl; lia].
    simpl. f_equal. f_equal; [destruct clks; done | lia].
Qed.

(** X7: recovery. A HALF_OPEN breaker stays HALF_OPEN while its
    successes are below [success_threshold]; the success that reaches
    the threshold closes it, every one of these calls having run the
    function, and closing clears both counters and [opened_at] and puts
    the timeout back to the configured one. *)
Theorem half_open_closes_after_success_threshold
    (b : CircuitBreaker) (clks : list Clock) (last : Clock) :
  state b = HALF_OPEN ->
  success_count b + Z.of_nat (length clks) + 1 = success_threshold (config b) ->
  state (fst (calls b (succeeding clks))) = HALF_OPEN /\
  calls b (succeeding (clks ++ [last]))
  = (_transition_to_closed b, map (fun _ => Result) (clks ++ [last])) /\
  state (_transition_to_closed b) = CLOSED /\
  failure_count (_transition_to_closed b) = 0 /\
  opened_at (_transition_to_closed b) = None /\
  current_timeout (_transition_to_closed b) = timeout (config b).
Proof.
  intros Hst Hlen.
  pose proof (successes_below_threshold clks b Hst ltac:(lia)) as H.
  split; [rewrite H; done|]. split; [|done].
  unfold succeeding. rewrite map_app, calls_app. fold (succeeding clks). rewrite H.
  cbn [map calls]. unfold call, enter_call. cbn [state].
  unfold _on_success. cbn [state config success_count].
  destruct (_ >=? _) eqn:E; [|lia].
  rewrite map_app. done.
Qed.

Lemma half_open_closes_after_success_threshold_witness :
  state (fst (calls probing_breaker (succeeding [clock_at 2]))) = HALF_OPEN /\
  state (fst (calls probing_breaker (succeeding [clock_at 2; clock_at 3]))) = CLOSED /\
  current_timeout (fst (calls probing_breaker (succeeding [clock_at 2; clock_at 3])))
  = timeout cycle_config.
Proof.
  destruct (half_open_closes_after_success_threshold probing_breaker
              [clock_at 2] (clock_at 3)) as (H1 & H2 & _).
  - reflexivity.
  - reflexivity.
  - split; [exact H1|]. simpl app in H2. rewrite H2. split; reflexivity.
Defined.

(** ** consecutive failures *)
Lemma closed_streaks (l : list (Clock * Outcome)) : forall b : CircuitBreaker,
  state b = CLOSED ->
  streaks_below (failure_threshold (config b)) (failure_count b) (map snd l) ->
  state (fst (calls b l)) = CLOSED /\
  config (fst (calls b l)) = config b /\
  snd (calls b l) = map (fun cf => passed_through (snd cf)) l.
Proof.
  induction l as [|[clk f] l IH]; intros b Hst Hs; [done|].
  cbn [calls]. unfold call, enter_call. rewrite Hst.
  destruct f; cbn [map snd streaks_below] in Hs.
  - unfold _on_success. cbn [state]. rewrite Hst.
    match goal with |- context [calls ?b0 l] => specialize (IH b0 eq_refl Hs) end.
    destruct (calls _ l) as [b' rs]. simpl in *. destruct IH as (? & ? & ->). done.
  - destruct Hs as [Hlt Hs]. unfold _on_failure. cbn [state failure_count config].
    rewrite Hst. destruct (_ >=? _) eqn:E; [lia|].
    match goal with |- context [calls ?b0 l] => specialize (IH b0 eq_refl Hs) end.
    destruct (calls _ l) as [b' rs]. simpl in *. destruct IH as (? & ? & ->). done.
Qed.

(** X8: the failure count is a count of consecutive failures. A CLOSED
    breaker stays CLOSED, and refuses no call, over any run of calls in
    which no streak of consecutive failures (counting those already on
    record) reaches [failure_threshold]: every success starts the count
    again. *)
Theorem closed_breaker_opens_on_consecutive_failures_only
    (b : CircuitBreaker) (l : list (Clock * Outcome)) :
  state b = CLOSED ->
  streaks_below (failure_threshold (config b)) (failure_count b) (map snd l) ->
  state (fst (calls b l)) = CLOSED /\
  snd (calls b l) = map (fun cf => passed_through (snd cf)) l.
Proof.
  intros Hst Hs. destruct (closed_streaks l b Hst Hs) as (? & _ & ?). done.
Qed.

Lemma closed_breaker_opens_on_consecutive_failures_only_witness :
  state (fst (calls (init cycle_config) interrupted_failures)) = CLOSED /\
  snd (calls (init cycle_config) interrupted_failures)
  = map (fun cf => passed_through (snd cf)) interrupted_failures.
Proof.
  apply (closed_breaker_opens_on_consecutive_failures_only
           (init cycle_config) interrupted_failures).
  - reflexivity.
  - simpl. lia.
Defined.

Lemma timeout_inv_later cfg t t' b :
  (t <= t')%Q -> timeout_inv cfg t b -> timeout_inv cfg t' b.
Proof.
  intros Hle (Hc & Hct & Hop). split; [done|]. split; [done|].
  intros t0 H0. specialize (Hop t0 H0). lra.
Qed.

Lemma transition_to_open_inv cfg t b now :
  (0 <= timeout cfg)%Q -> (now <= t)%Q ->
  timeout_inv cfg t b -> timeout_inv cfg t (_transition_to_open b now).
Proof.
  intros H0 Hnow (Hc & Hct & Hop). split; [done|]. split.
  - simpl. rewrite Hc. destruct (exponential_backoff cfg); [|done].
    destruct (min_cases (current_timeout b * 2) (max_timeout cfg)) as [[-> ?]|[-> ?]]; lra.
  - simpl. intros t0 [= <-]. done.
Qed.

Lemma call_timeout_inv cfg t b clk f :
  (0 <= timeout cfg)%Q -> (timeout cfg <= max_timeout cfg)%Q ->
  (t <= t_check clk)%Q -> (t_check clk <= t_retry clk)%Q ->
  (t_retry clk <= t_fail clk)%Q -> (t_fail clk <= t_open clk)%Q ->
  timeout_inv cfg t b ->
  timeout_inv cfg (t_open clk) (fst (call b clk f)) /\
  retry_within (max_timeout cfg) (snd (call b clk f)).
Proof.
  intros H0 Hmax H1 H2 H3 H4 Hinv.
  assert (Hinv' : timeout_inv cfg (t_open clk) b).
  { eapply timeout_inv_later; [|exact Hinv]. lra. }
  assert (Hclosed : forall b0, timeout_inv cfg (t_open clk) b0 ->
            timeout_inv cfg (t_open clk) (_transition_to_closed b0)).
  { intros b0 (Hc & Hct & Hop). split; [done|]. split; [simpl; rewrite Hc; lra|].
    simpl. intros t0 [=]. }
  assert (Hpass : forall b0, timeout_inv cfg (t_open clk) b0 -> state b0 <> OPEN ->
            timeout_inv cfg (t_open clk)
              (match f with
               | Returns => _on_success b0
               | Raises => _on_failure b0 (t_fail clk) (t_open clk)
               end)).
  { intros b0 Hb0 Hst. pose proof Hb0 as (Hc & Hct & Hop). destruct f.
    - unfold _on_success. cbn [state config success_count].
      destruct (state b0) eqn:E; [| done |].
      + split; [done|]. split; [simpl; rewrite Hc; lra|]. done.
      + destruct (_ >=? _).
        * apply (Hclosed {| config := config b0; state := HALF_OPEN;
                            failure_count := 0; success_count := success_count b0 + 1;
                            last_failure_time := last_failure_time b0;
                            opened_at := opened_at b0;
                            current_timeout := current_timeout b0 |}).
          split; [done|]. split; done.
        * split; [done|]. split; done.
    - unfold _on_failure. cbn [state config failure_count].
      destruct (state b0) eqn:E; [| done |].
      + destruct (_ >=? _).
        * apply transition_to_open_inv; [done|lra|]. split; [done|]. split; done.
        * split; [done|]. split; done.
      + apply transition_to_open_inv; [done|lra|]. split; [done|]. split; done. }
  unfold call, enter_call.
  destruct (state b) eqn:Hst.
  - destruct f; (split; [|done]); apply (Hpass b); [done|congruence|done|congruence].
  - destruct (_should_attempt_reset b (t_check clk)) eqn:E.
    + destruct f; (split; [|done]);
        apply (Hpass (_transition_to_half_open b)); try done;
        destruct Hinv' as (? & ? & ?); split; done.
    + split; [done|]. simpl. destruct Hinv as (Hc & Hct & Hop).
      unfold _get_retry_after. destruct (opened_at b) as [t0|] eqn:E0.
      * specialize (Hop t0 eq_refl).
        destruct (max_cases 0 (current_timeout b - (t_retry clk - t0))) as [[-> ?]|[-> ?]];
          lra.
      * lra.
  - destruct f; (split; [|done]); apply (Hpass b); [done|congruence|done|congruence].
Qed.

Lemma calls_timeout_inv cfg (l : list (Clock * Outcome)) : forall t b,
  (0 <= timeout cfg)%Q -> (timeout cfg <= max_timeout cfg)%Q ->
  clocks_after t l -> timeout_inv cfg t b ->
  (timeout cfg <= current_timeout (fst (calls b l)) <= max_timeout cfg)%Q /\
  Forall (retry_within (max_timeout cfg)) (snd (calls b l)).
Proof.
  induction l as [|[clk f] l IH]; intros t b H0 Hmax Hclk Hinv.
  - simpl. destruct Hinv as (_ & ? & _). done.
  - destruct Hclk as (H1 & H2 & H3 & H4 & Hrest).
    destruct (call_timeout_inv cfg t b clk f H0 Hmax H1 H2 H3 H4 Hinv) as [Hinv1 Hr].
    cbn [calls]. destruct (call b clk f) as [b1 r]. simpl in *.
    specialize (IH _ b1 H0 Hmax Hrest Hinv1).
    destruct (calls b1 l) as [b2 rs]. simpl in *. destruct IH as [? ?].
    split; [done|]. constructor; done.
Qed.

(** X9: bounds. With [0 <= timeout <= max_timeout] and a clock that
    never goes back, after any run of calls from a new breaker the
    timeout in force lies between [timeout] and [max_timeout], and every
    refusal carries a [retry_after] between zero and [max_timeout]. *)
Theorem retry_after_and_timeout_stay_bounded
    (cfg : CircuitBreakerConfig) (t : Q) (l : list (Clock * Outcome)) :
  (0 <= timeout cfg)%Q -> (timeout cfg <= max_timeout cfg)%Q ->
  clocks_after t l ->
  (timeout cfg <= current_timeout (fst (calls (init cfg) l)) <= max_timeout cfg)%Q /\
  Forall (retry_within (max_timeout cfg)) (snd (calls (init cfg) l)).
Proof.
  intros H0 Hmax Hclk. eapply calls_timeout_inv; try done.
  split; [done|]. split; [simpl; lra|]. simpl. intros t0 [=].
Qed.

Lemma retry_after_and_timeout_stay_bounded_witness :
  (timeout cycle_config
   <= current_timeout
        (fst (calls (init cycle_config) (three_failures ++ [(clock_at (7 # 10), Returns)])))
   <= max_timeout cycle_config)%Q /\
  Forall (retry_within (max_timeout cycle_config))
    (snd (calls (init cycle_config) (three_failures ++ [(clock_at (7 # 10), Returns)]))).
Proof.
  apply (retry_after_and_timeout_stay_bounded cycle_config 0
           (three_failures ++ [(clock_at (7 # 10), Returns)])).
  - vm_compute. intro H. discriminate H.
  - vm_compute. intro H. discriminate H.
  - simpl. repeat (split; [vm_compute; intro H; discriminate H|]). exact I.
Defined.

Lemma call_same_behaviour b1 b2 clk f :
  same_behaviour b1 b2 ->
  same_behaviour (fst (call b1 clk f)) (fst (call b2 clk f)) /\
  snd (call b1 clk f) = snd (call b2 clk f).
Proof.
  intros (Hc & Hs & Hf & Hsc & Ho & Ht).
  destruct b1 as [c1 s1 f1 sc1 l1 o1 t1], b2 as [c2 s2 f2 sc2 l2 o2 t2].
  simpl in *. subst.
  unfold call, enter_call, _should_attempt_reset, _get_retry_after,
    _on_success, _on_failure, same_behaviour.
  destruct s2, f, o2; simpl;
    repeat (match goal with |- context [if ?c then _ else _] => destruct c end; simpl);
    done.
Qed.

Lemma calls_same_behaviour (l : list (Clock * Outcome)) : forall b1 b2,
  same_behaviour b1 b2 ->
  same_behaviour (fst (calls b1 l)) (fst (calls b2 l)) /\
  snd (calls b1 l) = snd (calls b2 l).
Proof.
  induction l as [|[clk f] l IH]; intros b1 b2 H; [done|].
  cbn [calls]. destruct (call_same_behaviour b1 b2 clk f H) as [H1 Hr].
  destruct (call b1 clk f) as [b1' r1]. destruct (call b2 clk f) as [b2' r2].
  simpl in *. subst r2. specialize (IH b1' b2' H1).
  destruct (calls b1' l) as [b1'' rs1]. destruct (calls b2' l) as [b2'' rs2].
  simpl in *. destruct IH as [? ->]. done.
Qed.

(** X11: the manual [reset]. Whatever state a breaker is in, after
    [reset] it is CLOSED, reports the statistics of a new breaker with
    its configuration, and from then on answers every run of calls as a
    new breaker would, ending in the same state. *)
Theorem reset_breaker_behaves_like_a_new_one
    (b : CircuitBreaker) (now : Q) (l : list (Clock * Outcome)) :
  get_state (reset b) = CLOSED /\
  get_stats (reset b) now = get_stats (init (config b)) now /\
  snd (calls (reset b) l) = snd (calls (init (config b)) l) /\
  get_state (fst (calls (reset b) l)) = get_state (fst (calls (init (config b)) l)).
Proof.
  split; [done|]. split; [done|].
  destruct (calls_same_behaviour l (reset b) (init (config b))) as [(_ & ? & _) ?].
  { unfold same_behaviour. simpl. done. }
  done.
Qed.

(** ** doubling *)
Lemma failed_probes (clks : list Clock) : forall (b : CircuitBreaker) t0,
  state b = OPEN -> opened_at b = Some t0 ->
  exponential_backoff (config b) = true ->
  (0 <= current_timeout b <= max_timeout (config b))%Q ->
  probes_due (max_timeout (config b)) (current_timeout b) t0 clks ->
  let b' := fst (calls b (failing clks)) in
  snd (calls b (failing clks)) = map (fun _ => Reraised) clks /\
  state b' = OPEN /\ config b' = config b /\
  (current_timeout b'
   == Py.min (current_timeout b * inject_Z (2 ^ Z.of_nat (length clks)))
        (max_timeout (config b)))%Q.
Proof.
  induction clks as [|clk clks IH]; intros b t0 Hst Hop Hbo Hct Hsp.
  - cbn [failing map calls fst snd length]. do 3 (split; [done|]).
    change (inject_Z (2 ^ Z.of_nat 0)) with 1%Q.
    destruct (min_cases (current_timeout b * 1) (max_timeout (config b)))
      as [[-> ?]|[-> ?]]; lra.
  - destruct Hsp as [Hwait Hsp]. cbn [failing map calls].
    unfold call, enter_call. rewrite Hst.
    unfold _should_attempt_reset. rewrite Hop.
    rewrite (proj2 (geb_ge _ _)) by lra.
    unfold _on_failure. cbn [state _transition_to_half_open config failure_count].
    set (b1 := _transition_to_open _ _).
    assert (Hc1 : config b1 = config b) by done.
    assert (Hct1 : current_timeout b1
                   = Py.min (current_timeout b * 2) (max_timeout (config b))).
    { unfold b1. simpl. rewrite Hbo. done. }
    specialize (IH b1 (t_open clk) eq_refl eq_refl).
    rewrite Hc1, Hct1 in IH.
    assert (Hb1 : (0 <= Py.min (current_timeout b * 2) (max_timeout (config b))
                   <= max_timeout (config b))%Q).
    { destruct (min_cases (current_timeout b * 2) (max_timeout (config b)))
        as [[-> ?]|[-> ?]]; lra. }
    specialize (IH Hbo Hb1 Hsp). fold (failing clks).
    destruct (calls b1 (failing clks)) as [b2 rs]. simpl in IH |- *.
    destruct IH as (-> & Hst2 & Hc2 & Hct2).
    do 3 (split; [done|]). rewrite Hct2.
    replace (2 ^ Z.of_nat (S (length clks))) with (2 * 2 ^ Z.of_nat (length clks))
      by (rewrite Nat2Z.inj_succ, Z.pow_succ_r by lia; done).
    rewrite inject_Z_mult.
    assert (Hp : (1 <= inject_Z (2 ^ Z.of_nat (length clks)))%Q).
    { change 1%Q with (inject_Z 1). rewrite <- Zle_Qle.
      pose proof (Z.pow_pos_nonneg 2 (Z.of_nat (length clks))). lia. }
    set (p := inject_Z (2 ^ Z.of_nat (length clks))) in *.
    change (inject_Z 2) with 2%Q.
    destruct (min_cases (current_timeout b * 2) (max_timeout (config b)))
      as [[-> ?]|[-> ?]];
    destruct (min_cases (current_timeout b * 2 * p) (max_timeout (config b)))
      as [[E1 ?]|[E1 ?]];
    destruct (min_cases (current_timeout b * (2 * p)) (max_timeout (config b)))
      as [[-> ?]|[-> ?]];
    destruct (min_cases (max_timeout (config b) * p) (max_timeout (config b)))
      as [[E2 ?]|[E2 ?]]; rewrite ?E1, ?E2; try nra.
Qed.

(** X10: backoff. With exponential backoff, each failed probe of an
    OPEN breaker (a call made once the timeout then in force has
    elapsed since the last opening, whose function raises) runs the
    function, reopens the breaker and doubles the timeout, up to
    [max_timeout]: after [n] such probes the timeout is
    [min(timeout_before * 2^n, max_timeout)]. *)
Theorem failed_probes_double_the_timeout_up_to_the_maximum
    (b : CircuitBreaker) (t0 : Q) (clks : list Clock) :
  state b = OPEN -> opened_at b = Some t0 ->
  exponential_backoff (config b) = true ->
  (0 <= current_timeout b <= max_timeout (config b))%Q ->
  probes_due (max_timeout (config b)) (current_timeout b) t0 clks ->
  let b' := fst (calls b (failing clks)) in
  snd (calls b (failing clks)) = map (fun _ => Reraised) clks /\
  state b' = OPEN /\
  (current_timeout b'
   == Py.min (current_timeout b * inject_Z (2 ^ Z.of_nat (length clks)))
        (max_timeout (config b)))%Q.
Proof.
  intros Hst Hop Hbo Hct Hsp b'.
  destruct (failed_probes clks b t0 Hst Hop Hbo Hct Hsp) as (? & ? & _ & ?). done.
Qed.

Lemma failed_probes_double_the_timeout_up_to_the_maximum_witness :
  let b' :=
    fst (calls opened_breaker (failing [clock_at (12 # 10); clock_at (32 # 10)])) in
  snd (calls opened_breaker (failing [clock_at (12 # 10); clock_at (32 # 10)]))
  = [Reraised; Reraised] /\
  state b' = OPEN /\
  (current_timeout b'
   == Py.min (current_timeout opened_breaker * inject_Z (2 ^ 2))
        (max_timeout cycle_config))%Q.
Proof.
  apply (failed_probes_double_the_timeout_up_to_the_maximum opened_breaker (2 # 10)
           [clock_at (12 # 10); clock_at (32 # 10)]).
  - reflexivity.
  - reflexivity.
  - reflexivity.
  - split; vm_compute; intro H; discriminate H.
  - simpl. repeat (split; [vm_compute; intro H; discriminate H|]). exact I.
Defined.

End CircuitBreakerFacts.

(* ===================================================================== *)
(** * Data quality: what validation leaves behind                         *)
(* ===================================================================== *)

Section DataQualityFacts.

Import DataQuality.

Lemma deque_append_length maxlen d x :
  (length d <= maxlen)%nat -> (length (deque_append maxlen d x) <= maxlen)%nat.
Proof.
  intro H. unfold deque_append. cbv zeta.
  destruct (_ <? _)%nat eqn:E.
  - rewrite length_drop, !length_app. simpl. lia.
  - apply Nat.ltb_ge in E. done.
Qed.

(** What the loop of [validate_trade] leaves, whatever the checks were. *)
Lemma run_checks_spec t (checks : list (string * CheckResult)) : forall self0,
  let r := run_checks self0 t checks in
  let sym := trade_symbol t in
  price_history (fst r) = price_history self0 /\
  volume_history (fst r) = volume_history self0 /\
  enable_quarantine (fst r) = enable_quarantine self0 /\
  history_window_size (fst r) = history_window_size self0 /\
  max_quarantine_size (fst r) = max_quarantine_size self0 /\
  (forall other, other <> sym -> check_counts (fst r) !! other = check_counts self0 !! other) /\
  match snd r with
  | None =>
    Forall (fun c => fst (snd c) = true) checks /\
    quarantine (fst r) = quarantine self0 /\
    quality_scores (fst r) = quality_scores self0 /\
    counts_of (fst r) sym
    = {| passed := passed (counts_of self0 sym) + Z.of_nat (length checks);
         failed := failed (counts_of self0 sym) |}
  | Some (ok, msg) =>
    ok = false /\
    exists pre name m post,
      checks = pre ++ (name, (false, m)) :: post /\
      Forall (fun c => fst (snd c) = true) pre /\
      msg = Some (name +:+ ": " +:+ default "" m) /\
      counts_of (fst r) sym
      = {| passed := passed (counts_of self0 sym) + Z.of_nat (length pre);
           failed := failed (counts_of self0 sym) + 1 |} /\
      quality_scores (fst r)
      = <[sym := new_score (score_of (quality_scores self0) sym) false]>
          (quality_scores self0) /\
      quarantine (fst r)
      = if enable_quarantine self0
        then quarantine
               (_quarantine_data
                  (_update_quality_score self0 sym false) t name (default "" m))
        else quarantine self0
  end.
Proof.
  induction checks as [|[name [v m]] checks IH]; intros self0 r sym; subst r;
    set (sy := trade_symbol t) in *; subst sym.
  - simpl. do 6 (split; [done|]). split; [constructor|]. do 2 (split; [done|]).
    rewrite Z.add_0_r. destruct (counts_of self0 sy). done.
  - cbn [run_checks]. fold sy. destruct v; cbn [negb].
    + specialize (IH (bump_count self0 sy true)). cbn zeta in IH.
      destruct IH as (Hp & Hv & He & Hw & Hm & Ho & IH).
      do 5 (split; [done|]). split.
      { intros other Hne. rewrite (Ho other Hne). simpl.
        rewrite lookup_insert_ne by done. done. }
      assert (Hc : counts_of (bump_count self0 sy true) sy
                   = {| passed := passed (counts_of self0 sy) + 1;
                        failed := failed (counts_of self0 sy) |}).
      { unfold counts_of. simpl. rewrite lookup_insert_eq. done. }
      destruct (snd (run_checks (bump_count self0 sy true) t checks)) as [[ok msg]|].
      * destruct IH as (-> & pre & name' & m' & post & -> & Hpre & -> & Hcnt & Hsc & Hq).
        split; [done|]. exists ((name, (true, m)) :: pre), name', m', post.
        split; [done|]. split; [constructor; done|]. split; [done|].
        split; [|split; done].
        rewrite Hcnt, Hc. simpl. f_equal. lia.
      * destruct IH as (Hall & Hq & Hs & Hcnt).
        split; [constructor; done|]. do 2 (split; [done|]).
        rewrite Hcnt, Hc. simpl. f_equal. lia.
    + cbn [fst snd]. simpl.
      assert (He : enable_quarantine (_update_quality_score (bump_count self0 sy false) sy false)
                   = enable_quarantine self0) by done.
      destruct (enable_quarantine self0) eqn:Eq; simpl.
      * do 5 (split; [done|]). split.
        { intros other Hne. rewrite lookup_insert_ne by done. done. }
        split; [done|]. exists [], name, m, checks. do 3 (split; [done|]).
        split; [|split; done].
        unfold counts_of. simpl. rewrite lookup_insert_eq. simpl. f_equal. lia.
      * do 5 (split; [done|]). split.
        { intros other Hne. rewrite lookup_insert_ne by done. done. }
        split; [done|]. exists [], name, m, checks. do 3 (split; [done|]).
        split; [|split; done].
        unfold counts_of. simpl. rewrite lookup_insert_eq. simpl. f_equal. lia.
Qed.

Lemma validate_trade_spec pa vs self t now :
  let r := validate_trade pa vs self t now in
  let sym := trade_symbol t in
  let checks :=
    [ ("valid_values", _check_valid_values t);
      ("data_freshness", _check_data_freshness self t now);
      ("price_anomaly", pa self t);
      ("volume_sanity", vs self t) ] in
  enable_quarantine (fst r) = enable_quarantine self /\
  history_window_size (fst r) = history_window_size self /\
  max_quarantine_size (fst r) = max_quarantine_size self /\
  (forall other, other <> sym ->
     check_counts (fst r) !! other = check_counts self !! other /\
     price_history (fst r) !! other = price_history self !! other /\
     volume_history (fst r) !! other = volume_history self !! other) /\
  if fst (snd r) then
    Forall (fun c => fst (snd c) = true) checks /\
    prices_of (fst r) sym
    = deque_append (history_window_size self) (prices_of self sym) (trade_price t) /\
    volumes_of (fst r) sym
    = deque_append (history_window_size self) (volumes_of self sym) (trade_quantity t) /\
    quarantine (fst r) = quarantine self /\
    counts_of (fst r) sym
    = {| passed := passed (counts_of self sym) + 4; failed := failed (counts_of self sym) |}
  else
    Exists (fun c => fst (snd c) = false) checks /\
    price_history (fst r) = price_history self /\
    volume_history (fst r) = volume_history self /\
    failed (counts_of (fst r) sym) = failed (counts_of self sym) + 1 /\
    passed (counts_of self sym) <= passed (counts_of (fst r) sym) /\
    (length (quarantine (fst r)) <= max (length (quarantine self)) (max_quarantine_size self))%nat
    .
Proof.
  intros r sym checks. subst r. unfold validate_trade. fold checks. fold sym.
  pose proof (run_checks_spec t checks self) as H. cbn zeta in H. fold sym in H.
  destruct (run_checks self t checks) as [self1 [[ok msg]|]]; cbn [fst snd] in *.
  - destruct H as (Hp & Hv & He & Hw & Hm & Ho & -> & pre & name & m & post & Hchk & Hpre
                   & -> & Hcnt & Hsc & Hq).
    do 3 (split; [done|]). split.
    { intros other Hne. rewrite (Ho other Hne), Hp, Hv. done. }
    split.
    { rewrite Hchk. apply Exists_app. right. constructor. done. }
    do 2 (split; [done|]). rewrite Hcnt. simpl. split; [done|]. split; [lia|].
    rewrite Hq. destruct (enable_quarantine self); [|lia].
    unfold _quarantine_data. simpl.
    destruct (_ <? _)%nat eqn:E.
    + rewrite length_drop, length_app. simpl. lia.
    + apply Nat.ltb_ge in E. rewrite length_app in *. simpl in *. lia.
  - destruct H as (Hp & Hv & He & Hw & Hm & Ho & Hall & Hq & Hs & Hcnt).
    do 3 (split; [done|]). split.
    { intros other Hne. simpl. rewrite !lookup_insert_ne by done.
      rewrite (Ho other Hne), Hp, Hv. done. }
    split; [done|]. unfold prices_of, volumes_of. simpl. subst sym.
    rewrite !lookup_insert_eq. simpl. rewrite Hp, Hv, Hw. do 3 (split; [done|]).
    unfold counts_of in *. simpl. rewrite Hcnt. done.
Qed.

(** X12: what [validate_trade] leaves behind, whatever the two
    statistical checks compute. An accepted trade appends its price and
    quantity to the rolling histories of its symbol (dropping the oldest
    entry of a full history), counts four passed checks and leaves the
    quarantine alone; a rejected trade leaves every history as it was
    and counts exactly one failed check. *)
Theorem rejected_trades_never_enter_the_histories
    (pa vs : DataQualityChecker -> Trade -> CheckResult)
    (self : DataQualityChecker) (t : Trade) (now : Q) :
  let r := validate_trade pa vs self t now in
  let sym := trade_symbol t in
  if fst (snd r) then
    prices_of (fst r) sym
    = deque_append (history_window_size self) (prices_of self sym) (trade_price t) /\
    volumes_of (fst r) sym
    = deque_append (history_window_size self) (volumes_of self sym) (trade_quantity t) /\
    quarantine (fst r) = quarantine self /\
    counts_of (fst r) sym
    = {| passed := passed (counts_of self sym) + 4; failed := failed (counts_of self sym) |}
  else
    price_history (fst r) = price_history self /\
    volume_history (fst r) = volume_history self /\
    failed (counts_of (fst r) sym) = failed (counts_of self sym) + 1.
Proof.
  intros r sym.
  pose proof (validate_trade_spec pa vs self t now) as (_ & _ & _ & _ & H).
  fold r sym in H. destruct (fst (snd r)).
  - destruct H as (_ & ? & ? & ? & ?). done.
  - destruct H as (_ & ? & ? & ? & _). done.
Qed.

(** X13: a trade with a price that is not positive, a negative quantity
    or no timestamp is rejected whatever the histories and the
    statistical checks; it enters no history and multiplies the quality
    score of its symbol by 0.9. *)
Theorem bad_values_or_missing_timestamp_never_pass
    (pa vs : DataQualityChecker -> Trade -> CheckResult)
    (self : DataQualityChecker) (t : Trade) (now : Q) :
  (trade_price t <= 0)%Q \/ (trade_quantity t < 0)%Q \/ trade_timestamp t = None ->
  let r := validate_trade pa vs self t now in
  fst (snd r) = false /\
  price_history (fst r) = price_history self /\
  volume_history (fst r) = volume_history self /\
  (get_quality_score (fst r) (trade_symbol t)
   == get_quality_score self (trade_symbol t) * (9 # 10))%Q.
Proof.
  intros Hbad r.
  pose proof (validate_trade_spec pa vs self t now) as (_ & _ & _ & _ & H).
  pose proof (validate_trade_updates_score_once pa vs self t now) as Hs.
  fold r in H. subst r.
  destruct (validate_trade pa vs self t now) as [self' [ok msg]]. cbn [fst snd] in *.
  destruct ok.
  - exfalso. destruct H as (Hall & _).
    apply Forall_cons in Hall as [H1 Hall]. apply Forall_cons in Hall as [H2 _].
    cbn [fst snd] in H1, H2.
    unfold _check_valid_values in H1. unfold _check_data_freshness in H2.
    destruct (Py.leb (trade_price t) 0) eqn:E1; [done|]. apply leb_gt in E1.
    destruct (Py.ltb (trade_quantity t) 0) eqn:E2; [done|]. apply ltb_ge in E2.
    destruct Hbad as [Hb|[Hb|Hb]]; [lra|lra|]. rewrite Hb in H2. done.
  - destruct H as (_ & ? & ? & _). do 3 (split; [done|]).
    unfold get_quality_score. rewrite Hs. unfold _update_quality_score. simpl.
    rewrite lookup_insert_eq. simpl. unfold new_score, score_of, alpha. lra.
Qed.

Lemma bad_values_or_missing_timestamp_never_pass_witness :
  let r := validate_trade no_anomaly no_anomaly (init true) (trade_at "BTC" 0 1 100) 100 in
  fst (snd r) = false /\
  price_history (fst r) = price_history (init true) /\
  volume_history (fst r) = volume_history (init true) /\
  (get_quality_score (fst r) "BTC" == get_quality_score (init true) "BTC" * (9 # 10))%Q.
Proof.
  apply (bad_values_or_missing_timestamp_never_pass no_anomaly no_anomaly (init true)
           (trade_at "BTC" 0 1 100) 100).
  left. vm_compute. intro H. discriminate H.
Defined.

Lemma validate_trade_bounded pa vs self t now :
  bounded self -> bounded (fst (validate_trade pa vs self t now)).
Proof.
  intros [Hq Hh].
  pose proof (validate_trade_spec pa vs self t now) as (He & Hw & Hm & Ho & H).
  set (r := validate_trade pa vs self t now) in *.
  assert (Hother : forall sym, sym <> trade_symbol t ->
            prices_of (fst r) sym = prices_of self sym /\
            volumes_of (fst r) sym = volumes_of self sym).
  { intros sym Hne. destruct (Ho sym Hne) as (_ & Hp & Hv).
    unfold prices_of, volumes_of. rewrite Hp, Hv. done. }
  destruct (fst (snd r)).
  - destruct H as (_ & Hp & Hv & Hq' & _). split; [rewrite Hq', Hm; done|].
    intros sym. rewrite Hw. destruct (decide (sym = trade_symbol t)) as [->|Hne].
    + rewrite Hp, Hv. split; apply deque_append_length; apply Hh.
    + destruct (Hother sym Hne) as [-> ->]. apply Hh.
  - destruct H as (_ & Hp & Hv & _ & _ & Hq'). split; [rewrite Hm; lia|].
    intros sym. unfold prices_of, volumes_of. rewrite Hp, Hv, Hw. apply Hh.
Qed.

Lemma validate_all_bounded pa vs l : forall self,
  bounded self -> bounded (fst (validate_all pa vs self l)).
Proof.
  induction l as [|[t now] l IH]; intros self Hb; [done|].
  cbn [validate_all].
  pose proof (validate_trade_bounded pa vs self t now Hb) as H1.
  destruct (validate_trade pa vs self t now) as [self1 [ok msg]]. simpl in H1.
  specialize (IH self1 H1). destruct (validate_all pa vs self1 l). done.
Qed.

(** X14: the checker's memory is bounded. After any stream of trades
    through a new checker the quarantine holds at most 1000 entries and
    the price and volume histories of every symbol at most 100. *)
Theorem histories_and_quarantine_stay_bounded
    (pa vs : DataQualityChecker -> Trade -> CheckResult)
    (enable_quarantine : bool) (trades : list (Trade * Q)) (symbol : string) :
  let final := fst (validate_all pa vs (init enable_quarantine) trades) in
  (length (quarantine final) <= 1000)%nat /\
  (length (prices_of final symbol) <= 100)%nat /\
  (length (volumes_of final symbol) <= 100)%nat.
Proof.
  intros final.
  assert (Hb : bounded (init enable_quarantine)).
  { split; [simpl; lia|]. intros sym. unfold prices_of, volumes_of. simpl.
    rewrite !lookup_empty. simpl. lia. }
  pose proof (validate_all_bounded pa vs trades _ Hb) as [Hq Hh]. fold final in Hq, Hh.
  assert (Hcfg : forall l self,
            max_quarantine_size (fst (validate_all pa vs self l)) = max_quarantine_size self /\
            history_window_size (fst (validate_all pa vs self l)) = history_window_size self).
  { clear. induction l as [|[t now] l IH]; intros self; [done|]. cbn [validate_all].
    pose proof (validate_trade_spec pa vs self t now) as (_ & Hw & Hm & _).
    destruct (validate_trade pa vs self t now) as [self1 [ok msg]]. simpl in *.
    specialize (IH self1). destruct (validate_all pa vs self1 l). simpl in *.
    rewrite <- Hw, <- Hm. done. }
  destruct (Hcfg trades (init enable_quarantine)) as [Hm Hw]. fold final in Hm, Hw.
  simpl in Hm, Hw. rewrite Hm in Hq. specialize (Hh symbol). rewrite Hw in Hh.
  split; [done|]. done.
Qed.

(** ** the failure counter *)
Lemma verdict_count_cons symbol v t now l ok oks :
  verdict_count symbol v ((t, now) :: l) (ok :: oks)
  = (if bool_decide (trade_symbol t = symbol /\ ok = v) then 1 else 0)
    + verdict_count symbol v l oks.
Proof.
  unfold verdict_count. simpl. rewrite filter_cons. simpl.
  case_bool_decide; destruct (decide _); try done; simpl; lia.
Qed.

Lemma validate_all_failed pa vs symbol l : forall self,
  let r := validate_all pa vs self l in
  failed (counts_of (fst r) symbol)
  = failed (counts_of self symbol) + verdict_count symbol false l (snd r) /\
  passed (counts_of self symbol) + 4 * verdict_count symbol true l (snd r)
  <= passed (counts_of (fst r) symbol).
Proof.
  induction l as [|[t now] l IH]; intros self r; subst r.
  - unfold verdict_count. simpl. lia.
  - cbn [validate_all].
    pose proof (validate_trade_spec pa vs self t now) as (_ & _ & _ & Ho & H).
    destruct (validate_trade pa vs self t now) as [self1 [ok msg]]. cbn [fst snd] in *.
    specialize (IH self1). cbn zeta in IH.
    destruct (validate_all pa vs self1 l) as [self2 oks]. cbn [fst snd] in *.
    rewrite !verdict_count_cons.
    destruct (decide (trade_symbol t = symbol)) as [<-|Hne].
    + destruct ok.
      * destruct H as (_ & _ & _ & _ & Hc). rewrite Hc in IH. simpl in IH.
        rewrite bool_decide_eq_false_2 by (intros [_ ?]; done).
        rewrite bool_decide_eq_true_2 by done. lia.
      * destruct H as (_ & _ & _ & Hf & Hp & _).
        rewrite bool_decide_eq_true_2 by done.
        rewrite bool_decide_eq_false_2 by (intros [_ ?]; done). lia.
    + rewrite !bool_decide_eq_false_2 by (intros [? _]; done).
      assert (Hsame : counts_of self1 symbol = counts_of self symbol).
      { unfold counts_of. destruct (Ho symbol ltac:(done)) as (-> & _). done. }
      rewrite Hsame in IH. lia.
Qed.

(** X15: the counters of [check_counts]. After any stream of trades
    through a new checker, the [failed] counter of a symbol is the
    number of its trades that were rejected, and its [passed] counter is
    at least four times the number of its trades that were accepted. *)
Theorem failed_counter_counts_the_rejected_trades
    (pa vs : DataQualityChecker -> Trade -> CheckResult)
    (enable_quarantine : bool) (trades : list (Trade * Q)) (symbol : string) :
  let r := validate_all pa vs (init enable_quarantine) trades in
  failed (counts_of (fst r) symbol) = verdict_count symbol false trades (snd r) /\
  4 * verdict_count symbol true trades (snd r) <= passed (counts_of (fst r) symbol).
Proof.
  intros r.
  pose proof (validate_all_failed pa vs symbol trades (init enable_quarantine)) as H.
  cbn zeta in H. fold r in H.
  assert (E : counts_of (init enable_quarantine) symbol = {| passed := 0; failed := 0 |}).
  { unfold counts_of. simpl. rewrite lookup_empty. done. }
  rewrite E in H. simpl in H. lia.
Qed.

Lemma first_two_checks self t now :
  (fst (_check_valid_values t) = true /\ fst (_check_data_freshness self t now) = true)
  <-> well_formed_and_fresh self t now.
Proof.
  unfold _check_valid_values, _check_data_freshness, well_formed_and_fresh.
  destruct (Py.leb (trade_price t) 0) eqn:E1.
  { apply leb_le in E1. split; [intros [? _]; done|]. intros [? _]. lra. }
  apply leb_gt in E1.
  destruct (Py.ltb (trade_quantity t) 0) eqn:E2.
  { apply ltb_lt in E2. split; [intros [? _]; done|]. intros (_ & ? & _). lra. }
  apply ltb_ge in E2.
  destruct (trade_timestamp t) as [ts|].
  2:{ split; [intros [_ ?]; done|]. intros (_ & _ & ts & ? & _). done. }
  destruct (Py.gtb _ _) eqn:E3.
  { apply gtb_gt in E3. split; [intros [_ ?]; done|].
    intros (_ & _ & ts' & [= <-] & ?). lra. }
  apply gtb_le in E3.
  destruct (Py.ltb _ _) eqn:E4.
  { apply ltb_lt in E4. split; [intros [_ ?]; done|].
    intros (_ & _ & ts' & [= <-] & ?). lra. }
  apply ltb_ge in E4. split; [|done]. intros _. do 2 (split; [done|]).
  exists ts. split; [done|]. lra.
Qed.

Lemma validate_trade_accepts_iff pa vs self t now :
  fst (snd (validate_trade pa vs self t now)) = true <->
  fst (_check_valid_values t) = true /\
  fst (_check_data_freshness self t now) = true /\
  fst (pa self t) = true /\ fst (vs self t) = true.
Proof.
  pose proof (validate_trade_spec pa vs self t now) as (_ & _ & _ & _ & H).
  destruct (fst (snd (validate_trade pa vs self t now))).
  - destruct H as (Hall & _). split; [intros _|done].
    apply Forall_cons in Hall as [? Hall]. apply Forall_cons in Hall as [? Hall].
    apply Forall_cons in Hall as [? Hall]. apply Forall_cons in Hall as [? _]. done.
  - destruct H as (Hex & _). split; [done|]. intros (H1 & H2 & H3 & H4).
    apply Exists_cons in Hex as [Hex|Hex]; [simpl in Hex; congruence|].
    apply Exists_cons in Hex as [Hex|Hex]; [simpl in Hex; congruence|].
    apply Exists_cons in Hex as [Hex|Hex]; [simpl in Hex; congruence|].
    apply Exists_cons in Hex as [Hex|Hex]; [simpl in Hex; congruence|].
    apply Exists_nil in Hex. done.
Qed.

(** X16: warm-up. While fewer than ten prices and volumes are on record
    for a symbol, the price-anomaly and volume-sanity checks take no
    part, whatever their thresholds and the standard deviation:
    [validate_trade] leaves the checker, and returns the verdict, it
    would with both checks always passing; and it accepts a trade only
    if its price is positive, its quantity not negative and its
    timestamp present, at most [max_age_seconds] old and at most 5 s
    ahead. *)
Theorem statistical_checks_wait_for_ten_trades
    (std : list Q -> Q) (z_score_threshold percentage_change_threshold
       volume_multiplier_threshold : Q)
    (self : DataQualityChecker) (t : Trade) (now : Q) :
  (length (prices_of self (trade_symbol t)) < 10)%nat ->
  (length (volumes_of self (trade_symbol t)) < 10)%nat ->
  let r :=
    validate_trade
      (_check_price_anomaly std z_score_threshold percentage_change_threshold)
      (_check_volume_sanity volume_multiplier_threshold) self t now in
  r = validate_trade no_anomaly no_anomaly self t now /\
  (fst (snd r) = true -> well_formed_and_fresh self t now).
Proof.
  intros Hp Hv r.
  assert (Hpa : _check_price_anomaly std z_score_threshold percentage_change_threshold
                  self t = (true, None)).
  { unfold _check_price_anomaly. fold (prices_of self (trade_symbol t)).
    rewrite (proj2 (Nat.ltb_lt _ _) Hp). done. }
  assert (Hvs : _check_volume_sanity volume_multiplier_threshold self t = (true, None)).
  { unfold _check_volume_sanity. fold (volumes_of self (trade_symbol t)).
    rewrite (proj2 (Nat.ltb_lt _ _) Hv). done. }
  split.
  - subst r. unfold validate_trade, no_anomaly. rewrite Hpa, Hvs. done.
  - subst r. rewrite validate_trade_accepts_iff, <- first_two_checks. tauto.
Qed.

Lemma statistical_checks_wait_for_ten_trades_witness :
  validate_trade (_check_price_anomaly (fun _ => 1%Q) 3 (1 # 10))
    (_check_volume_sanity 100) (init true) (trade_at "BTC" 100 1 1000) 1000
  = validate_trade no_anomaly no_anomaly (init true) (trade_at "BTC" 100 1 1000) 1000 /\
  (fst (snd (validate_trade (_check_price_anomaly (fun _ => 1%Q) 3 (1 # 10))
               (_check_volume_sanity 100) (init true)
               (trade_at "BTC" 100 1 1000) 1000)) = true ->
   well_formed_and_fresh (init true) (trade_at "BTC" 100 1 1000) 1000).
Proof.
  apply (statistical_checks_wait_for_ten_trades (fun _ => 1%Q) 3 (1 # 10) 100
           (init true) (trade_at "BTC" 100 1 1000) 1000).
  - vm_compute. lia.
  - vm_compute. lia.
Defined.

Lemma price_jump_rejected std z pct self t :
  let prices := prices_of self (trade_symbol t) in
  (10 <= length prices)%nat ->
  (0 < List.last prices 0)%Q ->
  (pct < Qabs ((trade_price t - List.last prices 0) / List.last prices 0))%Q ->
  fst (_check_price_anomaly std z pct self t) = false.
Proof.
  intros prices Hlen Hlast Hjump. unfold _check_price_anomaly.
  unfold prices, prices_of in *.
  rewrite (proj2 (Nat.ltb_ge _ _) Hlen).
  destruct (_ && _); [done|].
  rewrite (proj2 (gtb_gt _ _) Hlast), (proj2 (gtb_gt _ _) Hjump). done.
Qed.

(** X17: rejected prices never become the reference. Once ten prices are
    on record for a symbol and the last of them is positive, every trade
    of that symbol whose price differs from that last price by more than
    [percentage_change_threshold] (as a fraction of it) is rejected,
    however many such trades follow and whatever the standard deviation
    and the volume check say: the history, and so the price they are
    compared with, stays as it was. *)
Theorem price_level_shift_is_rejected_for_good
    (std : list Q -> Q) (z_score_threshold percentage_change_threshold : Q)
    (vs : DataQualityChecker -> Trade -> CheckResult)
    (self : DataQualityChecker) (symbol : string) (trades : list (Trade * Q)) :
  let pa := _check_price_anomaly std z_score_threshold percentage_change_threshold in
  let last_price := List.last (prices_of self symbol) 0%Q in
  (10 <= length (prices_of self symbol))%nat ->
  (0 < last_price)%Q ->
  Forall (fun tn : Trade * Q =>
            trade_symbol (fst tn) = symbol ->
            (percentage_change_threshold
             < Qabs ((trade_price (fst tn) - last_price) / last_price))%Q) trades ->
  let r := validate_all pa vs self trades in
  prices_of (fst r) symbol = prices_of self symbol /\
  verdict_count symbol true trades (snd r) = 0.
Proof.
  intros pa last_price Hlen Hlast Hall r. subst r last_price.
  revert self Hlen Hlast Hall. induction trades as [|[t now] l IH]; intros self Hlen Hlast Hall.
  - done.
  - apply Forall_cons in Hall as [Ht Hall]. cbn [validate_all]. simpl in Ht.
    pose proof (validate_trade_spec pa vs self t now) as (_ & _ & _ & Ho & H).
    pose proof (validate_trade_accepts_iff pa vs self t now) as Hacc.
    destruct (validate_trade pa vs self t now) as [self1 [ok msg]]. cbn [fst snd] in *.
    assert (Hsame : prices_of self1 symbol = prices_of self symbol).
    { destruct (decide (trade_symbol t = symbol)) as [E|Hne].
      - destruct ok.
        + exfalso. destruct (proj1 Hacc eq_refl) as (_ & _ & Hpa & _).
          subst symbol. unfold pa in Hpa.
          rewrite (price_jump_rejected std _ _ self t Hlen Hlast (Ht eq_refl)) in Hpa. done.
        + destruct H as (_ & Hp & _). unfold prices_of. rewrite Hp. done.
      - destruct (Ho symbol ltac:(done)) as (_ & Hp & _). unfold prices_of. rewrite Hp. done. }
    specialize (IH self1). rewrite Hsame in IH. specialize (IH Hlen Hlast Hall).
    destruct (validate_all pa vs self1 l) as [self2 oks]. cbn [fst snd] in *.
    destruct IH as [IH1 IH2]. split; [done|].
    rewrite verdict_count_cons, IH2.
    case_bool_decide as Hd; [|done]. exfalso. destruct Hd as [E ->].
    destruct (proj1 Hacc eq_refl) as (_ & _ & Hpa & _).
    subst symbol. unfold pa in Hpa.
    rewrite (price_jump_rejected std _ _ self t Hlen Hlast (Ht eq_refl)) in Hpa. done.
Qed.

Lemma price_level_shift_is_rejected_for_good_witness :
  let r := validate_all (_check_price_anomaly (fun _ => 0%Q) 3 (1 # 10)) no_anomaly
             warm_checker
             [ (trade_at "BTC" 120 1 1000, 1000%Q); (trade_at "BTC" 121 1 1001, 1001%Q) ] in
  prices_of (fst r) "BTC" = prices_of warm_checker "BTC" /\
  verdict_count "BTC" true
    [ (trade_at "BTC" 120 1 1000, 1000%Q); (trade_at "BTC" 121 1 1001, 1001%Q) ] (snd r)
  = 0.
Proof.
  apply (price_level_shift_is_rejected_for_good (fun _ => 0%Q) 3 (1 # 10) no_anomaly
           warm_checker "BTC"
           [ (trade_at "BTC" 120 1 1000, 1000%Q); (trade_at "BTC" 121 1 1001, 1001%Q) ]).
  - vm_compute. lia.
  - vm_compute. reflexivity.
  - repeat (constructor; [intros _; vm_compute; reflexivity|]). constructor.
Defined.

(** ** quarantine *)
Lemma tail_slice_length {A} (l : list A) limit :
  0 < limit -> (Z.of_nat (length (tail_slice l limit)) <= limit).
Proof.
  intro H. unfold tail_slice. rewrite (proj2 (Z.ltb_lt _ _) H).
  rewrite length_drop. lia.
Qed.

Lemma get_quarantine_limit
    (self : DataQualityChecker) (symbol : option string) (limit : Z) :
  let all :=
    match truthy symbol with
    | Some s => filter (fun e => trade_symbol (q_trade e) = s) (quarantine self)
    | None => quarantine self
    end in
  (0 < limit ->
     Z.of_nat (length (get_quarantine self symbol limit)) = Z.min limit (Z.of_nat (length all)) /\
     get_quarantine self symbol limit `suffix_of` all) /\
  (limit = 0 -> get_quarantine self symbol limit = all).
Proof.
  intros all. unfold get_quarantine. subst all.
  destruct (truthy symbol) as [s|]; (split; [intros H|intros ->; done]);
    unfold tail_slice; rewrite (proj2 (Z.ltb_lt _ _) H);
    (split; [rewrite length_drop; lia|apply suffix_drop]).
Qed.

Lemma quarantine_filters symbol other (q : list QuarantineEntry) :
  other <> symbol ->
  filter (fun e => trade_symbol (q_trade e) = symbol)
    (filter (fun e => trade_symbol (q_trade e) <> symbol) q) = [] /\
  filter (fun e => trade_symbol (q_trade e) = other)
    (filter (fun e => trade_symbol (q_trade e) <> symbol) q)
  = filter (fun e => trade_symbol (q_trade e) = other) q /\
  (length (filter (fun e => trade_symbol (q_trade e) <> symbol) q)
   + length (filter (fun e => trade_symbol (q_trade e) = symbol) q)
   = length q)%nat.
Proof.
  intro Hne. induction q as [|e q (IH1 & IH2 & IH3)]; [done|].
  rewrite !(filter_cons _ e).
  destruct (decide (trade_symbol (q_trade e) <> symbol)) as [Hd|Hd].
  - rewrite (decide_False (P := trade_symbol (q_trade e) = symbol)) by done.
    rewrite !(filter_cons _ e).
    rewrite (decide_False (P := trade_symbol (q_trade e) = symbol)) by done.
    split; [done|]. split; [|simpl; lia].
    destruct (decide (trade_symbol (q_trade e) = other)); rewrite IH2; done.
  - apply dec_stable in Hd.
    rewrite (decide_True (P := trade_symbol (q_trade e) = symbol)) by done.
    rewrite (decide_False (P := trade_symbol (q_trade e) = other)) by congruence.
    split; [done|]. split; [done|]. simpl. lia.
Qed.

(** X18: [clear_quarantine] for one symbol (a non-empty string; the
    empty string clears everything, as [None] does). Afterwards
    [get_quarantine] returns nothing for that symbol and what it
    returned before for any other symbol; the number reported as cleared
    is the number of entries the symbol had, and the quarantine is
    shorter by exactly that number. *)
Theorem clear_quarantine_round_trip
    (self : DataQualityChecker) (symbol other : string) (limit : Z) :
  symbol <> "" -> other <> "" -> other <> symbol ->
  let r := clear_quarantine self (Some symbol) in
  get_quarantine (fst r) (Some symbol) limit = [] /\
  get_quarantine (fst r) (Some other) limit = get_quarantine self (Some other) limit /\
  snd r
  = Z.of_nat (length (filter (fun e => trade_symbol (q_trade e) = symbol) (quarantine self))) /\
  Z.of_nat (length (quarantine (fst r))) = Z.of_nat (length (quarantine self)) - snd r.
Proof.
  intros Hs Ho Hne. unfold clear_quarantine, get_quarantine, truthy.
  rewrite (proj2 (String.eqb_neq _ _) Hs), (proj2 (String.eqb_neq _ _) Ho). simpl.
  destruct (quarantine_filters symbol other (quarantine self) Hne) as (E1 & E2 & E3).
  rewrite E1, E2. split; [unfold tail_slice; destruct (0 <? limit); rewrite drop_nil; done|].
  split; [done|]. split; lia.
Qed.


Lemma clear_quarantine_round_trip_witness :
  let r := clear_quarantine checker_with_quarantine (Some "BTC") in
  get_quarantine (fst r) (Some "BTC") 10 = [] /\
  get_quarantine (fst r) (Some "ETH") 10
  = get_quarantine checker_with_quarantine (Some "ETH") 10 /\
  snd r
  = Z.of_nat (length (filter (fun e => trade_symbol (q_trade e) = "BTC")
                        (quarantine checker_with_quarantine))) /\
  Z.of_nat (length (quarantine (fst r)))
  = Z.of_nat (length (quarantine checker_with_quarantine)) - snd r.
Proof.
  apply (clear_quarantine_round_trip checker_with_quarantine "BTC" "ETH" 10).
  - intro H. discriminate H.
  - intro H. discriminate H.
  - intro H. discriminate H.
Defined.

End DataQualityFacts.

(* ===================================================================== *)
(** * Bar builder: invariants of the candles                              *)
(* ===================================================================== *)

Section BarBuilderInvariants.

Import BarBuilder.

Lemma process_trade_for_timeframe_closed fuel s t ts now :
  base_timeframe (config s) ∉ aggregation_timeframes (config s) ->
  trade_timestamp t = Some ts ->
  match _process_trade_for_timeframe (S (S fuel)) s t (base_timeframe (config s)) now with
  | Return s' => Some s'
  | Raise s' => Some (logger s' ErrorProcessingTrade)
  | OutOfFuel => None
  end = Some (base_step s t ts now).
Proof.
  intros Hnotin Hts. unfold _process_trade_for_timeframe, base_step. rewrite Hts.
  destruct (_init_bar _ _ _ _ _ _) as [nb|];
    (destruct (current_bars s !! (trade_symbol t, base_timeframe (config s))) as [c|];
     [|done]);
    (case_bool_decide; [|done]);
    rewrite complete_bar_base by done; done.
Qed.

(** The five ways a trade that is let in leaves the builder. *)
Lemma base_step_cases s t ts now :
  let base := base_timeframe (config s) in
  let sym := trade_symbol t in
  let b := _get_bucket_time (trade_seconds ts) base in
  let closed c := rolled_over s sym c now in
  let nb := fresh_bar sym base b (trade_price t) (trade_quantity t) now in
  match current_bars s !! (sym, base) with
  | None =>
    (has_datetime b /\ base_step s t ts now = set_current_bar s sym base nb) \/
    (~ has_datetime b /\ base_step s t ts now = logger s ErrorProcessingTrade)
  | Some c =>
    (bucket_time c = b /\
     base_step s t ts now
     = set_current_bar s sym base
         (update_bar c (trade_price t) (trade_quantity t) (trade_seconds ts))) \/
    (bucket_time c <> b /\ has_datetime b /\
     base_step s t ts now = set_current_bar (closed c) sym base nb) \/
    (bucket_time c <> b /\ ~ has_datetime b /\
     base_step s t ts now
     = logger (set_current_bar (closed c) sym base (mark_completed c now))
         ErrorProcessingTrade)
  end.
Proof.
  intros base sym b closed nb. unfold base_step, closed, rolled_over. fold base sym b.
  destruct (init_bar_spec sym base b (trade_price t) (trade_quantity t) now)
    as [[Hdt ->]|[Hdt ->]];
    (destruct (current_bars s !! (sym, base)) as [c|];
     [destruct (decide (bucket_time c = b)) as [Hb|Hb];
      [rewrite bool_decide_eq_false_2 by (intro H; apply H; exact Hb)
      |rewrite bool_decide_eq_true_2 by exact Hb]|]).
  - left. done.
  - right. left. done.
  - left. done.
  - left. done.
  - right. right. done.
  - right. done.
Qed.

Lemma process_trade_cases pa vs fuel s t now :
  base_timeframe (config s) ∉ aggregation_timeframes (config s) ->
  exists s0,
    same_bars s s0 /\
    (is_Some (quality_checker s0) <-> is_Some (quality_checker s)) /\
    ((~ (passes_entry pa vs s t now /\ is_Some (trade_timestamp t)) /\
      process_trade pa vs (S (S fuel)) s t now = Some s0) \/
     (exists ts, trade_timestamp t = Some ts /\ passes_entry pa vs s t now /\
        process_trade pa vs (S (S fuel)) s t now = Some (base_step s0 t ts now))).
Proof.
  intros Hnotin. unfold process_trade, passes_entry.
  destruct (String.eqb (trade_symbol t) "") eqn:Esym.
  { apply String.eqb_eq in Esym. eexists. split; [|split; [|left; split; [|done]]].
    - unfold same_bars. simpl. done.
    - done.
    - intros [[? _] _]. done. }
  apply String.eqb_neq in Esym.
  assert (Hstep : forall s1,
    same_bars s s1 ->
    (is_Some (quality_checker s1) <-> is_Some (quality_checker s)) ->
    exists s0,
      same_bars s s0 /\
      (is_Some (quality_checker s0) <-> is_Some (quality_checker s)) /\
      ((trade_timestamp t = None /\
        match _process_trade_for_timeframe (S (S fuel))
                (inc_trades_processed s1 (trade_symbol t)) t
                (base_timeframe (config (inc_trades_processed s1 (trade_symbol t)))) now with
        | Return s2 => Some s2
        | Raise s2 => Some (logger s2 ErrorProcessingTrade)
        | OutOfFuel => None
        end = Some s0) \/
       (exists ts, trade_timestamp t = Some ts /\
        match _process_trade_for_timeframe (S (S fuel))
                (inc_trades_processed s1 (trade_symbol t)) t
                (base_timeframe (config (inc_trades_processed s1 (trade_symbol t)))) now with
        | Return s2 => Some s2
        | Raise s2 => Some (logger s2 ErrorProcessingTrade)
        | OutOfFuel => None
        end = Some (base_step s0 t ts now)))).
  { intros s1 Hsame Hqc. destruct Hsame as (Hc & Hb & Hca & Hp & Hi & Hbc).
    destruct (trade_timestamp t) as [ts|] eqn:Hts.
    - exists (inc_trades_processed s1 (trade_symbol t)).
      split; [unfold same_bars; simpl; done|]. split; [done|]. right. exists ts.
      split; [done|].
      rewrite (process_trade_for_timeframe_closed fuel _ t ts now); [done| |done].
      simpl. rewrite Hc. done.
    - eexists. split; [|split; [|left; split; [done|]]].
      3:{ unfold _process_trade_for_timeframe. rewrite Hts. done. }
      + unfold same_bars. simpl. done.
      + done. }
  destruct (quality_checker s) as [qc|] eqn:Hqc.
  - destruct (DataQuality.validate_trade pa vs qc t now) as [qc' [ok msg]] eqn:Hv.
    cbn [fst snd negb]. destruct ok; cbn [negb].
    + destruct (Hstep (set_quality_checker s (Some qc'))) as (s0 & Hs0 & Hq0 & H).
      { unfold same_bars. simpl. done. }
      { simpl. split; intros _; eexists; done. }
      exists s0. split; [done|]. split; [done|].
      destruct H as [[Hts H]|(ts & Hts & H)].
      * left. split; [|done]. rewrite Hts. intros [_ [? ?]]. done.
      * right. exists ts. done.
    + eexists. split; [|split; [|left; split; [|done]]].
      * unfold same_bars. simpl. done.
      * simpl. split; intros _; eexists; done.
      * intros [[_ ?] _]. done.
  - cbn [negb].
    destruct (Hstep s) as (s0 & Hs0 & Hq0 & H).
    { unfold same_bars. done. }
    { rewrite Hqc. done. }
    exists s0. split; [done|]. split; [done|].
    destruct H as [[Hts H]|(ts & Hts & H)].
    * left. split; [|done]. rewrite Hts. intros [_ [? ?]]. done.
    * right. exists ts. done.
Qed.

(** ** validation *)
Lemma validate_ohlc_iff bar : _validate_ohlc bar = (true, None) <-> ohlc_ok bar.
Proof.
  unfold _validate_ohlc, ohlc_ok. simpl.
  destruct (max_cases (open bar) (close bar)) as [[Emax ?]|[Emax ?]];
  destruct (min_cases (open bar) (close bar)) as [[Emin ?]|[Emin ?]];
  rewrite Emax, Emin;
  (destruct (Py.ltb (high bar) _) eqn:E1;
   [apply ltb_lt in E1; split; [done|intros (? & ? & ? & ?); lra]|apply ltb_ge in E1]);
  (destruct (Py.gtb (low bar) _) eqn:E2;
   [apply gtb_gt in E2; split; [done|intros (? & ? & ? & ?); lra]|apply gtb_le in E2]);
  (destruct (Py.leb (open bar) 0) eqn:E3;
   [apply leb_le in E3; split; [done|intros (? & ? & ? & ?); lra]|apply leb_gt in E3]);
  (destruct (Py.leb (high bar) 0) eqn:E4;
   [apply leb_le in E4; split; [done|intros (? & ? & ? & ?); lra]|apply leb_gt in E4]);
  (destruct (Py.leb (low bar) 0) eqn:E5;
   [apply leb_le in E5; split; [done|intros (? & ? & ? & ?); lra]|apply leb_gt in E5]);
  (destruct (Py.leb (close bar) 0) eqn:E6;
   [apply leb_le in E6; split; [done|intros (? & ? & ? & ?); lra]|apply leb_gt in E6]);
  simpl;
  (destruct (Py.ltb (volume bar) 0) eqn:E7;
   [apply ltb_lt in E7; split; [done|intros (? & ? & ? & ?); lra]|apply ltb_ge in E7]);
  (split; [intros _; repeat split; lra|done]).
Qed.

(** The fields [complete_bar_effects] touches besides the published
    messages. *)
Lemma complete_bar_effects_fields s symbol timeframe bar now :
  let s' := completed_state s symbol timeframe bar now in
  completed_bars_cache s'
  = completed_bars_cache (cache_append s symbol timeframe (mark_completed bar now)) /\
  bars_completed_total s'
  = <[(symbol, timeframe) :=
        default 0 (bars_completed_total s !! (symbol, timeframe)) + 1]>
      (bars_completed_total s) /\
  trades_processed_total s' = trades_processed_total s /\
  (_validate_ohlc (mark_completed bar now) = (true, None) ->
   invalid_bars_total s' = invalid_bars_total s).
Proof.
  unfold completed_state, complete_bar_effects, _store_bar, _publish_completed_bar,
    cache_append.
  destruct (_validate_ohlc (mark_completed bar now)) as [[] msg]; simpl;
    destruct (quality_checker s) eqn:Hqc; simpl;
    destruct (db_manager (config s)); simpl;
    destruct (redis (config s)); simpl; rewrite ?Hqc; done.
Qed.

Lemma agg_step_fields sym C now s tf :
  let B := _get_bucket_time (inject_Z (bucket_time C)) tf in
  let s' := agg_step sym C now s tf in
  let s1 :=
    match current_bars s !! (sym, tf) with
    | Some a =>
      if bool_decide (bucket_time a ≠ B) then completed_state s sym tf a now else s
    | None => s
    end in
  completed_bars_cache s' = completed_bars_cache s1 /\
  bars_completed_total s' = bars_completed_total s1 /\
  trades_processed_total s' = trades_processed_total s1 /\
  invalid_bars_total s' = invalid_bars_total s1.
Proof.
  intros B s' s1. subst s' s1. unfold agg_step. fold B.
  destruct (current_bars s !! (sym, tf)) as [a|]; [|done].
  case_bool_decide; done.
Qed.

(** ** the well-formedness invariant *)
Lemma builder_wf_same_bars V s s' : same_bars s s' -> builder_wf V s -> builder_wf V s'.
Proof.
  intros (_ & Hb & _ & Hp & Hi & _) (H1 & H2 & H3).
  unfold builder_wf. rewrite Hb, Hp, Hi. done.
Qed.

Lemma builder_wf_labelled V s : builder_wf V s -> bars_labelled s.
Proof. intros (H & _) sym tf bar Hb. destruct (H _ _ _ Hb) as (? & ? & _). done. Qed.

Lemma bar_data_wf V sym tf bar now :
  bar_wf V sym tf bar -> candle_wf V (bar_data (mark_completed bar now)).
Proof.
  intros (_ & <- & Hdiv & Hok). split.
  - simpl. apply Z.mul_divide_mono_r. done.
  - intros HV. destruct (Hok HV) as (? & ? & ? & ?). simpl. done.
Qed.

Lemma completed_state_wf V s sym tf bar now :
  builder_wf V s -> bar_wf V sym tf bar ->
  builder_wf V (completed_state s sym tf bar now).
Proof.
  intros (H1 & H2 & H3) Hbar.
  pose proof (complete_bar_effects_spec s sym tf bar now) as (_ & _ & Hcur & Hpub & _).
  pose proof (complete_bar_effects_fields s sym tf bar now) as (_ & _ & _ & Hinv).
  split; [|split].
  - rewrite Hcur. done.
  - rewrite Hpub. apply Forall_app. split; [done|].
    unfold completion_message. destruct (redis (config s)); [|constructor].
    constructor; [|constructor]. simpl. eapply bar_data_wf. done.
  - intros HV. rewrite Hinv; [auto|].
    apply validate_ohlc_iff. destruct Hbar as (_ & _ & _ & Hok).
    destruct (Hok HV) as (? & ? & ? & ?). unfold ohlc_ok. simpl. done.
Qed.

Lemma bucket_aligned ts tf : (interval_seconds tf | _get_bucket_time ts tf).
Proof. rewrite get_bucket_time_floor. apply Z.divide_factor_r. Qed.

Lemma set_current_bar_wf V s sym tf bar :
  builder_wf V s -> bar_wf V sym tf bar -> builder_wf V (set_current_bar s sym tf bar).
Proof.
  intros (H1 & H2 & H3) Hbar. split; [|split; done].
  intros sym1 tf1 bar1. simpl. rewrite lookup_insert. case_decide as Hk.
  - intros [= <-]. inversion Hk. subst. done.
  - apply H1.
Qed.

Lemma mark_completed_ohlc V bar now :
  (V -> ohlc_ok bar) -> V -> ohlc_ok (mark_completed bar now).
Proof. intros H HV. specialize (H HV). unfold ohlc_ok in *. simpl. done. Qed.

Lemma agg_step_wf V sym C now s tf :
  builder_wf V s -> (V -> ohlc_ok C) ->
  builder_wf V (agg_step sym C now s tf).
Proof.
  intros Hwf HC. pose proof (builder_wf_labelled V s Hwf) as Hlab.
  destruct (agg_step_spec sym C now s tf Hlab)
    as (nb & ext & Hcur & HB & Hsym & Htf & Hpub & Hext).
  pose proof (agg_step_fields sym C now s tf) as (_ & _ & _ & Hinv). cbn zeta in Hinv.
  destruct Hwf as (H1 & H2 & H3).
  assert (Hnb_lab : symbol nb = sym /\ timeframe nb = tf /\
                    (interval_seconds tf | bucket_time nb)).
  { do 2 (split; [done|]). rewrite HB. apply bucket_aligned. }
  destruct (current_bars s !! (sym, tf)) as [a|] eqn:Ha.
  - pose proof (H1 _ _ _ Ha) as Hawf.
    destruct Hext as [(Hsame & -> & Hnb)|(Hdiff & -> & Hnb)].
    + rewrite bool_decide_eq_false_2 in Hinv by (intro; done).
      split; [|split].
      * intros sym1 tf1 bar1. rewrite Hcur, lookup_insert. case_decide as Hk.
        -- intros [= <-]. inversion Hk. subst sym1 tf1.
           destruct Hnb_lab as (? & ? & ?). do 3 (split; [done|]).
           intros HV. destruct Hawf as (_ & _ & _ & Hok).
           destruct (Hok HV) as (? & ? & ? & ?). destruct (HC HV) as (? & ? & ? & ?).
           rewrite Hnb. unfold ohlc_ok. simpl.
           destruct (max_cases (high a) (high C)) as [[-> ?]|[-> ?]];
           destruct (min_cases (low a) (low C)) as [[-> ?]|[-> ?]];
           repeat split; lra.
        -- apply H1.
      * rewrite Hpub, app_nil_r. done.
      * rewrite Hinv. done.
    + rewrite bool_decide_eq_true_2 in Hinv by done.
      pose proof (completed_state_wf V s sym tf a now (conj H1 (conj H2 H3)) Hawf)
        as (_ & H2' & H3').
      pose proof (complete_bar_effects_spec s sym tf a now) as (_ & _ & _ & Hpub' & _).
      split; [|split].
      * intros sym1 tf1 bar1. rewrite Hcur, lookup_insert. case_decide as Hk.
        -- intros [= <-]. inversion Hk. subst sym1 tf1.
           destruct Hnb_lab as (? & ? & ?). do 3 (split; [done|]).
           intros HV. destruct (HC HV) as (? & ? & ? & ?).
           rewrite Hnb. unfold ohlc_ok. simpl. done.
        -- apply H1.
      * rewrite Hpub, <- Hpub'. done.
      * rewrite Hinv. done.
  - destruct Hext as [-> Hnb]. split; [|split].
    + intros sym1 tf1 bar1. rewrite Hcur, lookup_insert. case_decide as Hk.
      * intros [= <-]. inversion Hk. subst sym1 tf1.
        destruct Hnb_lab as (? & ? & ?). do 3 (split; [done|]).
        intros HV. destruct (HC HV) as (? & ? & ? & ?).
        rewrite Hnb. unfold ohlc_ok. simpl. done.
      * apply H1.
    + rewrite Hpub, app_nil_r. done.
    + rewrite Hinv. done.
Qed.

Lemma agg_fold_wf V sym C now l : forall s,
  builder_wf V s -> (V -> ohlc_ok C) ->
  builder_wf V (foldl (agg_step sym C now) s l).
Proof.
  induction l as [|tf l IH]; intros s Hwf HC; [done|].
  simpl. apply IH; [|done]. apply agg_step_wf; done.
Qed.

Lemma logger_same_bars s r : same_bars s (logger s r).
Proof. unfold same_bars. simpl. done. Qed.

Lemma mark_completed_wf V sym tf bar now :
  bar_wf V sym tf bar -> bar_wf V sym tf (mark_completed bar now).
Proof.
  intros (? & ? & ? & Hok). do 3 (split; [done|]).
  apply mark_completed_ohlc. done.
Qed.

Lemma base_step_wf V s t ts now :
  builder_wf V s ->
  (V -> (0 < trade_price t)%Q /\ (0 <= trade_quantity t)%Q) ->
  builder_wf V (base_step s t ts now).
Proof.
  intros Hwf Hval. pose proof (base_step_cases s t ts now) as H. cbn zeta in H.
  set (base := base_timeframe (config s)) in *. set (sym := trade_symbol t) in *.
  set (b := _get_bucket_time (trade_seconds ts) base) in *.
  assert (Hinit : bar_wf V sym base
                    (fresh_bar sym base b (trade_price t) (trade_quantity t) now)).
  { do 2 (split; [done|]). split; [apply bucket_aligned|].
    intros HV. destruct (Hval HV). unfold ohlc_ok. simpl. repeat split; lra. }
  destruct (current_bars s !! (sym, base)) as [c|] eqn:Hc.
  - pose proof (proj1 Hwf _ _ _ Hc) as Hcwf.
    assert (Hclosed : builder_wf V
              (foldl (agg_step sym (mark_completed c now) now)
                 (completed_state s sym base c now)
                 (aggregation_timeframes (config s)))).
    { apply agg_fold_wf.
      - apply completed_state_wf; done.
      - destruct Hcwf as (_ & _ & _ & Hok). apply mark_completed_ohlc. done. }
    destruct H as [[Hb ->]|[(Hb & Hdt & ->)|(Hb & Hdt & ->)]].
    + apply set_current_bar_wf; [done|].
      destruct Hcwf as (? & ? & ? & Hok). do 3 (split; [done|]).
      intros HV. destruct (Hval HV). destruct (Hok HV) as (? & ? & ? & ?).
      unfold ohlc_ok. simpl.
      destruct (max_cases (high c) (trade_price t)) as [[-> ?]|[-> ?]];
      destruct (min_cases (low c) (trade_price t)) as [[-> ?]|[-> ?]];
      repeat split; lra.
    + apply set_current_bar_wf; done.
    + eapply builder_wf_same_bars; [apply logger_same_bars|].
      apply set_current_bar_wf; [done|]. apply mark_completed_wf. done.
  - destruct H as [[_ ->]|[_ ->]]; [apply set_current_bar_wf; done|].
    eapply builder_wf_same_bars; [apply logger_same_bars|done].
Qed.

Lemma agg_fold_config sym C now l : forall s,
  config (foldl (agg_step sym C now) s l) = config s /\
  quality_checker (foldl (agg_step sym C now) s l) = quality_checker s.
Proof.
  induction l as [|tf l IH]; intros s; [done|]. simpl.
  destruct (IH (agg_step sym C now s tf)) as [-> ->]. apply agg_step_config.
Qed.

Lemma base_step_config s t ts now :
  config (base_step s t ts now) = config s /\
  quality_checker (base_step s t ts now) = quality_checker s.
Proof.
  pose proof (base_step_cases s t ts now) as H. cbn zeta in H.
  assert (Hclosed : forall c,
    config (foldl (agg_step (trade_symbol t) (mark_completed c now) now)
              (completed_state s (trade_symbol t) (base_timeframe (config s)) c now)
              (aggregation_timeframes (config s))) = config s /\
    quality_checker (foldl (agg_step (trade_symbol t) (mark_completed c now) now)
              (completed_state s (trade_symbol t) (base_timeframe (config s)) c now)
              (aggregation_timeframes (config s))) = quality_checker s).
  { intros c.
    destruct (agg_fold_config (trade_symbol t) (mark_completed c now) now
                (aggregation_timeframes (config s))
                (completed_state s (trade_symbol t) (base_timeframe (config s)) c now))
      as [-> ->].
    pose proof (complete_bar_effects_spec s (trade_symbol t)
                  (base_timeframe (config s)) c now) as (? & ? & _). done. }
  destruct (current_bars s !! _) as [c|].
  - destruct H as [[_ ->]|[(_ & _ & ->)|(_ & _ & ->)]]; simpl; try done; apply Hclosed.
  - destruct H as [[_ ->]|[_ ->]]; done.
Qed.

(** A trade a quality checker lets through has a positive price and a
    non-negative quantity. *)
Lemma entry_valid_values pa vs s t now :
  is_Some (quality_checker s) -> passes_entry pa vs s t now ->
  (0 < trade_price t)%Q /\ (0 <= trade_quantity t)%Q.
Proof.
  intros [qc Hqc] [_ Hin0]. rewrite Hqc in Hin0.
  apply validate_trade_accepts_iff in Hin0 as (H1 & H2 & _).
  destruct (proj1 (first_two_checks qc t now) (conj H1 H2)) as (? & ? & _). done.
Qed.

Lemma process_trade_wf V pa vs fuel s t now :
  base_timeframe (config s) ∉ aggregation_timeframes (config s) ->
  builder_wf V s ->
  (V -> passes_entry pa vs s t now ->
   (0 < trade_price t)%Q /\ (0 <= trade_quantity t)%Q) ->
  exists s', process_trade pa vs (S (S fuel)) s t now = Some s' /\
    builder_wf V s' /\ config s' = config s /\
    (is_Some (quality_checker s') <-> is_Some (quality_checker s)).
Proof.
  intros Hnotin Hwf Hval.
  destruct (process_trade_cases pa vs fuel s t now Hnotin)
    as (s0 & Hsame & Hq0 & [[_ ->]|(ts & Hts & Hin0 & ->)]).
  - exists s0. split; [done|]. split; [eapply builder_wf_same_bars; done|].
    split; [apply Hsame|done].
  - eexists. split; [done|].
    destruct (base_step_config s0 t ts now) as [Hc Hq]. rewrite Hc, Hq.
    split; [|split; [apply Hsame|done]].
    apply base_step_wf; [eapply builder_wf_same_bars; done|].
    intros HV. apply Hval; done.
Qed.

Lemma process_trades_wf V pa vs fuel l : forall s,
  base_timeframe (config s) ∉ aggregation_timeframes (config s) ->
  builder_wf V s ->
  (V -> is_Some (quality_checker s)) ->
  exists s', process_trades pa vs (S (S fuel)) s l = Some s' /\ builder_wf V s'.
Proof.
  induction l as [|[t now] l IH]; intros s Hnotin Hwf Hqc.
  - exists s. done.
  - destruct (process_trade_wf V pa vs fuel s t now Hnotin Hwf) as (s1 & E1 & Hwf1 & Hc1 & Hq1).
    { intros HV. apply entry_valid_values. auto. }
    cbn [process_trades]. rewrite E1. apply IH; [rewrite Hc1; done|done|].
    intros HV. apply Hq1. auto.
Qed.

Lemma init_builder_wf V cfg qc : builder_wf V (init cfg qc).
Proof.
  split; [|split].
  - intros sym tf bar. simpl. rewrite lookup_empty. done.
  - constructor.
  - done.
Qed.

(** X20: with a quality checker in front, no bar is ever invalid. When
    the base timeframe is not listed among the aggregation timeframes,
    whatever trades arrive and whatever the statistical checks answer,
    every trade is handled, the counter of invalid bars stays empty,
    every open bar passes [_validate_ohlc], and every candle published
    has its low and high bracketing open and close, positive prices and
    a volume that is not negative. *)
Theorem validated_trades_never_complete_an_invalid_bar
    (pa vs : DataQuality.DataQualityChecker -> Trade -> DataQuality.CheckResult)
    (fuel : nat) (cfg : Config) (qc : DataQuality.DataQualityChecker)
    (trades : list (Trade * Q)) :
  base_timeframe cfg ∉ aggregation_timeframes cfg ->
  exists final,
    process_trades pa vs (S (S fuel)) (init cfg (Some qc)) trades = Some final /\
    invalid_bars_total final = ∅ /\
    (forall sym tf bar,
       current_bars final !! (sym, tf) = Some bar ->
       _validate_ohlc bar = (true, None)) /\
    Forall (fun cm : string * BarData =>
              let bd := snd cm in
              (bd_low bd <= bd_open bd <= bd_high bd)%Q /\
              (bd_low bd <= bd_close bd <= bd_high bd)%Q /\
              (0 < bd_low bd)%Q /\ (0 <= bd_volume bd)%Q)
      (redis_published final).
Proof.
  intros Hnotin.
  destruct (process_trades_wf True pa vs fuel trades (init cfg (Some qc)) Hnotin
              (init_builder_wf True cfg (Some qc)))
    as (final & Hrun & H1 & H2 & H3).
  { intros _. eexists. done. }
  exists final. split; [done|]. split; [auto|]. split.
  - intros sym tf bar Hb. apply validate_ohlc_iff.
    destruct (H1 _ _ _ Hb) as (_ & _ & _ & Hok). auto.
  - eapply Forall_impl; [exact H2|]. intros cm [_ H]. auto.
Qed.

Lemma validated_trades_never_complete_an_invalid_bar_witness :
  exists final,
    process_trades no_anomaly no_anomaly 2 checked_builder mixed_ticks = Some final /\
    invalid_bars_total final = ∅.
Proof.
  destruct (validated_trades_never_complete_an_invalid_bar no_anomaly no_anomaly 0
              (default_config true true) (DataQuality.init true) mixed_ticks)
    as (final & Hrun & Hinv & _).
  - not_in_list.
  - exists final. split; [exact Hrun|exact Hinv].
Defined.

(** X21: when the base timeframe is not listed among the aggregation
    timeframes, after any stream of trades every open bar is filed under
    its own symbol and timeframe at a bucket that is a multiple of the
    timeframe's period, and every candle published, base or aggregated,
    carries a bucket time that is a multiple of the period in
    milliseconds. *)
Theorem bucket_times_are_multiples_of_the_period
    (pa vs : DataQuality.DataQualityChecker -> Trade -> DataQuality.CheckResult)
    (fuel : nat) (cfg : Config) (qc : option DataQuality.DataQualityChecker)
    (trades : list (Trade * Q)) :
  base_timeframe cfg ∉ aggregation_timeframes cfg ->
  exists final,
    process_trades pa vs (S (S fuel)) (init cfg qc) trades = Some final /\
    (forall sym tf bar,
       current_bars final !! (sym, tf) = Some bar ->
       symbol bar = sym /\ timeframe bar = tf /\
       bucket_time bar mod interval_seconds tf = 0) /\
    Forall (fun cm : string * BarData =>
              bd_time (snd cm) mod (interval_seconds (bd_timeframe (snd cm)) * 1000) = 0)
      (redis_published final).
Proof.
  intros Hnotin.
  destruct (process_trades_wf False pa vs fuel trades (init cfg qc) Hnotin
              (init_builder_wf False cfg qc))
    as (final & Hrun & H1 & H2 & _); [done|].
  exists final. split; [done|]. split.
  - intros sym tf bar Hb. destruct (H1 _ _ _ Hb) as (? & ? & Hd & _).
    do 2 (split; [done|]). apply Z.mod_divide in Hd; [done|].
    pose proof (timeframe_seconds_pos tf). lia.
  - eapply Forall_impl; [exact H2|]. intros cm [Hd _].
    apply Z.mod_divide in Hd; [done|].
    pose proof (timeframe_seconds_pos (bd_timeframe (snd cm))). lia.
Qed.

Lemma bucket_times_are_multiples_of_the_period_witness :
  exists final,
    process_trades no_anomaly no_anomaly 2 plain_builder mixed_ticks = Some final /\
    Forall (fun cm : string * BarData =>
              bd_time (snd cm) mod (interval_seconds (bd_timeframe (snd cm)) * 1000) = 0)
      (redis_published final).
Proof.
  destruct (bucket_times_are_multiples_of_the_period no_anomaly no_anomaly 0
              (default_config true true) None mixed_ticks)
    as (final & Hrun & _ & Hpub).
  - not_in_list.
  - exists final. split; [exact Hrun|exact Hpub].
Defined.

(** X19: the bucket of a timestamp. [_get_bucket_time] returns a
    multiple of the period, at or before the timestamp and less than one
    period before it (also for timestamps before the epoch); a timestamp
    that lies exactly on a boundary is the start of its own bucket. *)
Theorem bucket_contains_its_timestamp (timestamp : Q) (timeframe : string) :
  let bucket := _get_bucket_time timestamp timeframe in
  let period := interval_seconds timeframe in
  (inject_Z bucket <= timestamp < inject_Z (bucket + period))%Q /\
  bucket mod period = 0 /\
  (forall k : Z, (timestamp == inject_Z (k * period))%Q -> bucket = k * period).
Proof.
  intros bucket period. subst bucket. rewrite get_bucket_time_floor. fold period.
  pose proof (timeframe_seconds_pos timeframe) as Hp. fold period in Hp.
  assert (Hq : (0 < inject_Z period)%Q).
  { change 0%Q with (inject_Z 0). rewrite <- Zlt_Qlt. done. }
  set (x := (timestamp / inject_Z period)%Q).
  assert (Hx : (x * inject_Z period == timestamp)%Q).
  { unfold x. field. lra. }
  pose proof (Qfloor_le x) as Hlo. pose proof (Qlt_floor x) as Hhi.
  split; [|split].
  - rewrite <- Z.mul_succ_l, !inject_Z_mult, <- Hx.
    rewrite inject_Z_plus in Hhi. change (inject_Z 1) with 1%Q in Hhi.
    unfold Z.succ. rewrite inject_Z_plus. change (inject_Z 1) with 1%Q.
    split; nra.
  - apply Z.mod_mul. lia.
  - intros k Hk. f_equal.
    assert (E : (x == inject_Z k)%Q).
    { unfold x. rewrite Hk, inject_Z_mult. field. lra. }
    rewrite E. apply Qfloor_Z.
Qed.

Lemma completed_state_cache s sym tf bar now :
  0 <= cache_size (config s) ->
  cache_within (cache_size (config s)) s ->
  cache_within (cache_size (config s)) (completed_state s sym tf bar now).
Proof.
  intros Hn Hc key l.
  pose proof (complete_bar_effects_fields s sym tf bar now) as (-> & _).
  unfold cache_append. simpl. rewrite lookup_insert. case_decide as Hk; [|apply Hc].
  intros [= <-].
  assert (Hold : Z.of_nat (length (default [] (completed_bars_cache s !! (sym, tf))))
                 <= cache_size (config s)).
  { destruct (completed_bars_cache s !! (sym, tf)) as [l0|] eqn:E; simpl; [|done].
    eapply Hc. done. }
  destruct (_ >? _) eqn:E.
  - rewrite length_drop, length_app. simpl. lia.
  - rewrite Z.gtb_ltb in E. apply Z.ltb_ge in E. done.
Qed.

Lemma agg_fold_cache sym C now l : forall s,
  0 <= cache_size (config s) ->
  cache_within (cache_size (config s)) s ->
  cache_within (cache_size (config s)) (foldl (agg_step sym C now) s l).
Proof.
  induction l as [|tf l IH]; intros s Hn Hc; [done|]. simpl.
  pose proof (agg_step_config sym C now s tf) as [Hcfg _].
  rewrite <- Hcfg. apply IH; rewrite Hcfg; [done|].
  pose proof (agg_step_fields sym C now s tf) as (Hca & _). cbn zeta in Hca.
  intros key l0. rewrite Hca.
  destruct (current_bars s !! (sym, tf)) as [a|]; [|apply Hc].
  case_bool_decide; [|apply Hc]. apply completed_state_cache; done.
Qed.

Lemma base_step_cache s t ts now :
  0 <= cache_size (config s) ->
  cache_within (cache_size (config s)) s ->
  cache_within (cache_size (config s)) (base_step s t ts now).
Proof.
  intros Hn Hc. pose proof (base_step_cases s t ts now) as H. cbn zeta in H.
  destruct (current_bars s !! _) as [c|].
  - pose proof (complete_bar_effects_spec s (trade_symbol t)
                  (base_timeframe (config s)) c now) as (Hcfg & _).
    pose proof (agg_fold_cache (trade_symbol t) (mark_completed c now) now
                  (aggregation_timeframes (config s))
                  (completed_state s (trade_symbol t) (base_timeframe (config s)) c now))
      as Hf.
    rewrite Hcfg in Hf. specialize (Hf Hn (completed_state_cache _ _ _ _ _ Hn Hc)).
    destruct H as [[_ ->]|[(_ & _ & ->)|(_ & _ & ->)]]; [done| |];
      intros key l; simpl; apply Hf.
  - destruct H as [[_ ->]|[_ ->]]; done.
Qed.

Lemma process_trades_cache pa vs fuel l : forall s,
  base_timeframe (config s) ∉ aggregation_timeframes (config s) ->
  0 <= cache_size (config s) ->
  cache_within (cache_size (config s)) s ->
  exists s', process_trades pa vs (S (S fuel)) s l = Some s' /\
    config s' = config s /\ cache_within (cache_size (config s)) s'.
Proof.
  induction l as [|[t now] l IH]; intros s Hnotin Hn Hc.
  - exists s. done.
  - cbn [process_trades].
    destruct (process_trade_cases pa vs fuel s t now Hnotin)
      as (s0 & Hsame & _ & H).
    pose proof Hsame as (Hcfg0 & _ & Hca0 & _).
    assert (Hc0 : cache_within (cache_size (config s0)) s0).
    { unfold cache_within. rewrite Hcfg0, Hca0. done. }
    assert (Hstep : exists s1, process_trade pa vs (S (S fuel)) s t now = Some s1 /\
              config s1 = config s /\ cache_within (cache_size (config s)) s1).
    { destruct H as [[_ ->]|(ts & _ & _ & ->)].
      - exists s0. split; [done|]. split; [done|]. rewrite <- Hcfg0. done.
      - eexists. split; [done|]. destruct (base_step_config s0 t ts now) as [Hc1 _].
        split; [congruence|]. rewrite <- Hcfg0. apply base_step_cache; [|done].
        rewrite Hcfg0. done. }
    destruct Hstep as (s1 & -> & Hc1 & Hca1).
    destruct (IH s1) as (s2 & E2 & Hc2 & Hca2); rewrite ?Hc1; try done.
    exists s2. split; [done|]. split; [congruence|]. rewrite Hc1 in Hca2. done.
Qed.

(** X22: when the base timeframe is not listed among the aggregation
    timeframes and [cache_size] is not negative, after any stream of
    trades the cache of completed bars holds at most [cache_size] bars
    for any symbol and timeframe. *)
Theorem completed_bars_cache_stays_within_cache_size
    (pa vs : DataQuality.DataQualityChecker -> Trade -> DataQuality.CheckResult)
    (fuel : nat) (cfg : Config) (qc : option DataQuality.DataQualityChecker)
    (trades : list (Trade * Q)) :
  base_timeframe cfg ∉ aggregation_timeframes cfg ->
  0 <= cache_size cfg ->
  exists final,
    process_trades pa vs (S (S fuel)) (init cfg qc) trades = Some final /\
    forall symbol timeframe,
      Z.of_nat (length (default [] (completed_bars_cache final !! (symbol, timeframe))))
      <= cache_size cfg.
Proof.
  intros Hnotin Hn.
  destruct (process_trades_cache pa vs fuel trades (init cfg qc) Hnotin Hn)
    as (final & Hrun & _ & Hc).
  { intros key l. simpl. rewrite lookup_empty. done. }
  exists final. split; [done|]. intros symbol timeframe.
  destruct (completed_bars_cache final !! (symbol, timeframe)) as [l|] eqn:E; [|simpl; done].
  simpl. eapply Hc. done.
Qed.

Lemma completed_bars_cache_stays_within_cache_size_witness :
  exists final,
    process_trades no_anomaly no_anomaly 2 plain_builder mixed_ticks = Some final /\
    forall symbol timeframe,
      Z.of_nat (length (default [] (completed_bars_cache final !! (symbol, timeframe))))
      <= 1000.
Proof.
  apply (completed_bars_cache_stays_within_cache_size no_anomaly no_anomaly 0
           (default_config true true) None mixed_ticks).
  - not_in_list.
  - simpl. lia.
Defined.

(** X23: a trade that is dropped changes no bar. A trade without a
    symbol, a trade the quality checker rejects and a trade without a
    timestamp all leave the open bars, the cache, the published messages
    and the bar counters as they were; the first two are not counted as
    processed either. *)
Theorem dropped_trades_leave_the_bars
    (pa vs : DataQuality.DataQualityChecker -> Trade -> DataQuality.CheckResult)
    (fuel : nat) (s : BarBuilder) (t : Trade) (now : Q) :
  ~ passes_entry pa vs s t now \/ trade_timestamp t = None ->
  exists s',
    process_trade pa vs fuel s t now = Some s' /\
    same_bars s s' /\
    (~ passes_entry pa vs s t now ->
     trades_processed_total s' = trades_processed_total s).
Proof.
  intros Hdrop. unfold process_trade, passes_entry in *.
  destruct (String.eqb (trade_symbol t) "") eqn:Esym.
  { eexists. split; [done|]. split; [unfold same_bars; simpl; done|done]. }
  apply String.eqb_neq in Esym.
  assert (Hraise : forall s1, same_bars s s1 -> trade_timestamp t = None ->
    exists s',
      match _process_trade_for_timeframe fuel (inc_trades_processed s1 (trade_symbol t)) t
              (base_timeframe (config (inc_trades_processed s1 (trade_symbol t)))) now with
      | Return s2 => Some s2
      | Raise s2 => Some (logger s2 ErrorProcessingTrade)
      | OutOfFuel => None
      end = Some s' /\ same_bars s s').
  { intros s1 Hs1 Hts. unfold _process_trade_for_timeframe. rewrite Hts.
    eexists. split; [done|]. unfold same_bars in *. simpl. done. }
  destruct (quality_checker s) as [qc|] eqn:Hqc.
  - destruct (DataQuality.validate_trade pa vs qc t now) as [qc' [ok msg]] eqn:Hv.
    cbn [fst snd negb] in *. destruct ok; cbn [negb].
    + destruct Hdrop as [Hn|Hts]; [exfalso; apply Hn; done|].
      destruct (Hraise (set_quality_checker s (Some qc'))) as (s' & E & Hs'); [|done|].
      { unfold same_bars. simpl. done. }
      exists s'. split; [done|]. split; [done|]. intros Hn. exfalso. apply Hn. done.
    + eexists. split; [done|]. split; [unfold same_bars; simpl; done|done].
  - cbn [negb]. destruct Hdrop as [Hn|Hts]; [exfalso; apply Hn; done|].
    destruct (Hraise s) as (s' & E & Hs'); [unfold same_bars; done|done|].
    exists s'. split; [done|]. split; [done|]. intros Hn. exfalso. apply Hn. done.
Qed.

Lemma dropped_trades_leave_the_bars_witness :
  exists s',
    process_trade no_anomaly no_anomaly 2 plain_builder
      {| trade_symbol := "BTC"; trade_price := 102; trade_quantity := 4;
         trade_timestamp := None |} 62 = Some s' /\
    same_bars plain_builder s'.
Proof.
  destruct (dropped_trades_leave_the_bars no_anomaly no_anomaly 2 plain_builder
              {| trade_symbol := "BTC"; trade_price := 102; trade_quantity := 4;
                 trade_timestamp := None |} 62) as (s' & Hrun & Hsame & _).
  - right. reflexivity.
  - exists s'. split; [exact Hrun|exact Hsame].
Defined.

(** ** candles published for one key *)
Lemma published_for_app s s' ext sym tf :
  redis_published s' = redis_published s ++ ext ->
  published_for s' sym tf
  = published_for s sym tf
    ++ filter (fun bd => bd_symbol bd = sym /\ bd_timeframe bd = tf) (map snd ext).
Proof. intro H. unfold published_for. rewrite H, map_app, filter_app. done. Qed.

Lemma published_for_message s s' bar now sym tf :
  redis_published s' = redis_published s ++ completion_message s bar now ->
  published_for s' sym tf
  = published_for s sym tf
    ++ (if bool_decide (symbol bar = sym /\ timeframe bar = tf)
        then (if redis (config s) then [bar_data (mark_completed bar now)] else [])
        else []).
Proof.
  intro H. rewrite (published_for_app _ _ _ _ _ H).
  unfold completion_message. destruct (redis (config s)); simpl.
  - rewrite filter_cons. simpl. case_bool_decide; destruct (decide _); done.
  - case_bool_decide; done.
Qed.

Lemma agg_step_published_other sym C now s tf sym' tf' :
  bars_labelled s -> (sym', tf') <> (sym, tf) ->
  published_for (agg_step sym C now s tf) sym' tf' = published_for s sym' tf' /\
  current_bars (agg_step sym C now s tf) !! (sym', tf') = current_bars s !! (sym', tf').
Proof.
  intros Hlab Hne.
  destruct (agg_step_spec sym C now s tf Hlab) as (nb & ext & Hcur & _ & _ & _ & Hpub & Hext).
  split.
  - destruct (current_bars s !! (sym, tf)) as [a|] eqn:Ha.
    + destruct Hext as [(_ & -> & _) | (_ & -> & _)].
      * rewrite (published_for_app _ _ _ _ _ Hpub). apply app_nil_r.
      * rewrite (published_for_message _ _ _ _ _ _ Hpub).
        destruct (Hlab _ _ _ Ha) as [-> ->].
        rewrite bool_decide_eq_false_2; [apply app_nil_r|].
        intros [-> ->]. done.
    + destruct Hext as [-> _]. rewrite (published_for_app _ _ _ _ _ Hpub). apply app_nil_r.
  - rewrite Hcur. apply lookup_insert_ne. congruence.
Qed.

Lemma agg_fold_published_other sym C now l : forall s,
  bars_labelled s ->
  forall sym' tf', (sym' <> sym \/ tf' ∉ l) ->
  published_for (foldl (agg_step sym C now) s l) sym' tf' = published_for s sym' tf' /\
  current_bars (foldl (agg_step sym C now) s l) !! (sym', tf') = current_bars s !! (sym', tf').
Proof.
  induction l as [|tf l IH]; intros s Hlab sym' tf' Hk; [done|]. simpl.
  destruct (IH (agg_step sym C now s tf) (agg_step_labelled _ _ _ _ _ Hlab) sym' tf')
    as [-> ->].
  { destruct Hk as [Hk|Hk]; [left; done|right].
    apply not_elem_of_cons in Hk as [_ ?]. done. }
  apply agg_step_published_other; [done|].
  destruct Hk as [Hk|Hk]; [congruence|].
  apply not_elem_of_cons in Hk as [? _]. congruence.
Qed.

Lemma agg_fold_labelled_more sym C now l : forall s,
  bars_labelled s -> bars_labelled (foldl (agg_step sym C now) s l).
Proof.
  induction l as [|tf l IH]; intros s Hlab; [done|]. simpl.
  apply IH. apply agg_step_labelled. done.
Qed.

Lemma completed_state_labelled s sym tf bar now :
  bars_labelled s -> bars_labelled (completed_state s sym tf bar now).
Proof.
  intros Hlab sym' tf' b.
  pose proof (complete_bar_effects_spec s sym tf bar now) as (_ & _ & -> & _). apply Hlab.
Qed.

Lemma set_current_bar_labelled s sym tf bar :
  symbol bar = sym -> timeframe bar = tf ->
  bars_labelled s -> bars_labelled (set_current_bar s sym tf bar).
Proof.
  intros Hs Ht Hlab sym' tf' b. simpl. rewrite lookup_insert. case_decide as Hk.
  - intros [= <-]. inversion Hk. subst. done.
  - apply Hlab.
Qed.

Lemma logger_labelled s r : bars_labelled s -> bars_labelled (logger s r).
Proof. intros H sym tf bar. apply H. Qed.

Lemma rolled_over_labelled s sym c now :
  bars_labelled s -> bars_labelled (rolled_over s sym c now).
Proof.
  intros Hlab. apply agg_fold_labelled_more. apply completed_state_labelled. done.
Qed.

Lemma base_step_labelled s t ts now :
  bars_labelled s -> bars_labelled (base_step s t ts now).
Proof.
  intros Hlab. pose proof (base_step_cases s t ts now) as H. cbn zeta in H.
  destruct (current_bars s !! _) as [c|] eqn:Hc.
  - destruct (Hlab _ _ _ Hc).
    destruct H as [[_ ->]|[(_ & _ & ->)|(_ & _ & ->)]].
    + apply set_current_bar_labelled; done.
    + apply set_current_bar_labelled; [done|done|]. apply rolled_over_labelled. done.
    + apply logger_labelled.
      apply set_current_bar_labelled; [done|done|]. apply rolled_over_labelled. done.
  - destruct H as [[_ ->]|[_ ->]].
    + apply set_current_bar_labelled; done.
    + apply logger_labelled. done.
Qed.

(** Completing the open base bar of [sym] shows nothing for another
    symbol, and for [sym] itself publishes that bar on the base
    timeframe. *)
Lemma rolled_over_other_symbol s sym c now sym' tf :
  bars_labelled s ->
  current_bars s !! (sym, base_timeframe (config s)) = Some c ->
  sym <> sym' ->
  published_for (rolled_over s sym c now) sym' tf = published_for s sym' tf /\
  current_bars (rolled_over s sym c now) !! (sym', tf) = current_bars s !! (sym', tf).
Proof.
  intros Hlab Hc Hne. unfold rolled_over.
  set (base := base_timeframe (config s)) in *.
  destruct (agg_fold_published_other sym (mark_completed c now) now
              (aggregation_timeframes (config s))
              (completed_state s sym base c now)
              (completed_state_labelled _ _ _ _ _ Hlab) sym' tf) as [-> ->].
  { left. congruence. }
  pose proof (complete_bar_effects_spec s sym base c now)
    as (_ & _ & -> & Hpub & _).
  rewrite (published_for_message _ _ _ _ _ _ Hpub).
  destruct (Hlab _ _ _ Hc) as [-> _].
  rewrite bool_decide_eq_false_2 by (intros [? _]; done).
  rewrite app_nil_r. done.
Qed.

Lemma rolled_over_own_base s sym c now :
  base_timeframe (config s) ∉ aggregation_timeframes (config s) ->
  bars_labelled s ->
  current_bars s !! (sym, base_timeframe (config s)) = Some c ->
  published_for (rolled_over s sym c now) sym (base_timeframe (config s))
  = published_for s sym (base_timeframe (config s))
    ++ (if redis (config s) then [bar_data (mark_completed c now)] else []).
Proof.
  intros Hnotin Hlab Hc. unfold rolled_over.
  set (base := base_timeframe (config s)) in *.
  destruct (agg_fold_published_other sym (mark_completed c now) now
              (aggregation_timeframes (config s))
              (completed_state s sym base c now)
              (completed_state_labelled _ _ _ _ _ Hlab) sym base) as [-> _].
  { right. done. }
  pose proof (complete_bar_effects_spec s sym base c now) as (_ & _ & _ & Hpub & _).
  rewrite (published_for_message _ _ _ _ _ _ Hpub).
  destruct (Hlab _ _ _ Hc) as [? ?].
  rewrite bool_decide_eq_true_2 by done. done.
Qed.

(** What a base step shows for a symbol other than the trade's. *)
Lemma base_step_other_symbol s t ts now sym tf :
  bars_labelled s -> trade_symbol t <> sym ->
  published_for (base_step s t ts now) sym tf = published_for s sym tf /\
  current_bars (base_step s t ts now) !! (sym, tf) = current_bars s !! (sym, tf).
Proof.
  intros Hlab Hne. pose proof (base_step_cases s t ts now) as H. cbn zeta in H.
  set (base := base_timeframe (config s)) in *.
  destruct (current_bars s !! (trade_symbol t, base)) as [c|] eqn:Hc.
  - destruct (rolled_over_other_symbol s (trade_symbol t) c now sym tf Hlab Hc Hne)
      as [Hp Hb].
    destruct H as [[_ ->]|[(_ & _ & ->)|(_ & _ & ->)]];
      unfold published_for in *; simpl; rewrite lookup_insert_ne by congruence; done.
  - destruct H as [[_ ->]|[_ ->]]; [|done].
    unfold published_for. simpl. rewrite lookup_insert_ne by congruence. done.
Qed.

(** ** volume *)
Lemma sum_Q_app l1 l2 : (sum_Q (l1 ++ l2) == sum_Q l1 + sum_Q l2)%Q.
Proof.
  induction l1 as [|x l1 IH]; simpl; [unfold sum_Q; simpl; lra|].
  unfold sum_Q in *. simpl. rewrite IH. lra.
Qed.

Lemma traded_volume_same_bars s s' sym :
  same_bars s s' -> traded_volume s' sym = traded_volume s sym.
Proof.
  intros (Hc & Hb & _ & Hp & _). unfold traded_volume, published_for.
  rewrite Hc, Hb, Hp. done.
Qed.

Lemma base_step_own_volume s t ts now :
  base_timeframe (config s) ∉ aggregation_timeframes (config s) ->
  bars_labelled s -> redis (config s) = true ->
  has_datetime (_get_bucket_time (trade_seconds ts) (base_timeframe (config s))) ->
  (traded_volume (base_step s t ts now) (trade_symbol t)
   == traded_volume s (trade_symbol t) + trade_quantity t)%Q.
Proof.
  intros Hnotin Hlab Hredis Hdt. unfold traded_volume.
  rewrite (proj1 (base_step_config s t ts now)).
  pose proof (base_step_cases s t ts now) as H. cbn zeta in H.
  set (base := base_timeframe (config s)) in *. set (sym := trade_symbol t) in *.
  destruct (current_bars s !! (sym, base)) as [c|] eqn:Hc.
  - pose proof (rolled_over_own_base s sym c now Hnotin Hlab Hc) as Hp.
    fold base in Hp. rewrite Hredis in Hp.
    destruct H as [[_ ->]|[(_ & _ & ->)|(_ & Hn & _)]]; [| |done].
    + unfold published_for. simpl. rewrite lookup_insert_eq. simpl. lra.
    + unfold published_for at 1. simpl. rewrite lookup_insert_eq. simpl.
      fold (published_for (rolled_over s sym c now) sym base).
      rewrite Hp, map_app, sum_Q_app. unfold sum_Q at 2. simpl. lra.
  - destruct H as [[_ ->]|[Hn _]]; [|done].
    unfold published_for. simpl. rewrite lookup_insert_eq. simpl. lra.
Qed.

Lemma base_step_other_volume s t ts now sym :
  bars_labelled s -> trade_symbol t <> sym ->
  traded_volume (base_step s t ts now) sym = traded_volume s sym.
Proof.
  intros Hlab Hne. unfold traded_volume.
  rewrite (proj1 (base_step_config s t ts now)).
  destruct (base_step_other_symbol s t ts now sym (base_timeframe (config s)) Hlab Hne)
    as [-> ->]. done.
Qed.

Lemma stamped_quantities_cons sym t now l :
  stamped_quantities sym ((t, now) :: l)
  = (if bool_decide (trade_symbol t = sym /\ is_Some (trade_timestamp t))
     then [trade_quantity t] else [])
    ++ stamped_quantities sym l.
Proof.
  unfold stamped_quantities. rewrite filter_cons. simpl.
  case_bool_decide; destruct (decide _); done.
Qed.

Lemma process_trades_volume pa vs fuel sym l : forall s,
  sym <> "" ->
  base_timeframe (config s) ∉ aggregation_timeframes (config s) ->
  redis (config s) = true -> quality_checker s = None -> bars_labelled s ->
  Forall (fun tn : Trade * Q =>
            trade_symbol (fst tn) = sym -> tick_has_datetime (config s) (fst tn)) l ->
  exists s', process_trades pa vs (S (S fuel)) s l = Some s' /\
    (traded_volume s' sym == traded_volume s sym + sum_Q (stamped_quantities sym l))%Q.
Proof.
  intros s Hsym. revert s.
  induction l as [|[t now] l IH]; intros s Hnotin Hredis Hqc Hlab Hdt.
  - exists s. split; [done|]. unfold stamped_quantities, sum_Q. simpl. lra.
  - apply Forall_cons in Hdt as [Hdt0 Hdt]. cbn [fst] in Hdt0.
    cbn [process_trades].
    destruct (process_trade_cases pa vs fuel s t now Hnotin) as (s0 & Hsame & Hq0 & H).
    pose proof Hsame as (Hcfg0 & Hb0 & _).
    assert (Hlab0 : bars_labelled s0).
    { intros sy tf b. rewrite Hb0. apply Hlab. }
    assert (Hqc0 : quality_checker s0 = None).
    { destruct (quality_checker s0) eqn:E; [|done].
      destruct (proj1 Hq0 ltac:(eexists; done)) as [? ?]. congruence. }
    rewrite stamped_quantities_cons.
    destruct H as [[Hno ->]|(ts & Hts & Hin0 & ->)].
    + destruct (IH s0) as (s2 & -> & E2); try done; try (rewrite Hcfg0; done).
      exists s2. split; [done|]. rewrite E2, (traded_volume_same_bars _ _ _ Hsame).
      rewrite bool_decide_eq_false_2; [simpl; lra|].
      intros [E Hts]. apply Hno. split; [|done]. unfold passes_entry. rewrite Hqc.
      split; [congruence|done].
    + destruct (base_step_config s0 t ts now) as [Hc1 Hq1].
      destruct (IH (base_step s0 t ts now)) as (s2 & -> & E2);
        rewrite ?Hc1, ?Hq1, ?Hcfg0; try done.
      { apply base_step_labelled. done. }
      exists s2. split; [done|]. rewrite E2.
      rewrite <- (traded_volume_same_bars _ _ sym Hsame).
      destruct (decide (trade_symbol t = sym)) as [E|Hne].
      * rewrite bool_decide_eq_true_2 by (split; [done|rewrite Hts; eexists; done]).
        subst sym. rewrite base_step_own_volume; rewrite ?Hcfg0; try done.
        -- rewrite sum_Q_app. unfold sum_Q at 2. simpl. lra.
        -- specialize (Hdt0 eq_refl). unfold tick_has_datetime in Hdt0.
           rewrite Hts in Hdt0. done.
      * rewrite bool_decide_eq_false_2 by (intros [? _]; done).
        rewrite base_step_other_volume by done. simpl. lra.
Qed.

(** X24: no volume is lost or counted twice. For a builder without a
    quality checker that publishes through Redis, its base timeframe not
    listed among the aggregation timeframes, after any stream of trades,
    in order or not, in which every stamped trade of a (non-empty)
    symbol falls into a bucket that has a datetime (so that [_init_bar]
    can open its candle), the volumes of the base candles published for
    the symbol plus the volume of its open base candle add up to the
    quantities of that symbol's trades that carried a timestamp. *)
Theorem base_candles_account_for_every_traded_quantity
    (pa vs : DataQuality.DataQualityChecker -> Trade -> DataQuality.CheckResult)
    (fuel : nat) (cfg : Config) (trades : list (Trade * Q)) (sym : string) :
  base_timeframe cfg ∉ aggregation_timeframes cfg ->
  redis cfg = true -> sym <> "" ->
  Forall (fun tn : Trade * Q =>
            trade_symbol (fst tn) = sym -> tick_has_datetime cfg (fst tn)) trades ->
  exists final,
    process_trades pa vs (S (S fuel)) (init cfg None) trades = Some final /\
    (traded_volume final sym == sum_Q (stamped_quantities sym trades))%Q.
Proof.
  intros Hnotin Hredis Hsym Hdt.
  destruct (process_trades_volume pa vs fuel sym trades (init cfg None) Hsym Hnotin Hredis
              eq_refl) as (final & Hrun & E).
  { intros sy tf b. simpl. rewrite lookup_empty. done. }
  { done. }
  exists final. split; [done|]. rewrite E. unfold traded_volume, published_for. simpl.
  rewrite lookup_empty. lra.
Qed.

Lemma base_candles_account_for_every_traded_quantity_witness :
  exists final,
    process_trades no_anomaly no_anomaly 2 plain_builder mixed_ticks = Some final /\
    (traded_volume final "BTC" == sum_Q (stamped_quantities "BTC" mixed_ticks))%Q.
Proof.
  apply (base_candles_account_for_every_traded_quantity no_anomaly no_anomaly 0
           (default_config true true) mixed_ticks "BTC").
  - not_in_list.
  - reflexivity.
  - intro H. discriminate H.
  - repeat (constructor;
            [intros _; vm_compute;
             first [exact I | split; intro H; discriminate H]|]).
    constructor.
Defined.

(** ** one symbol at a time *)
Lemma agree_on_same_bars_l sym s1 s1' s2 :
  same_bars s1 s1' -> agree_on sym s1 s2 -> agree_on sym s1' s2.
Proof.
  intros (Hc & Hb & _ & Hp & _) (Hcfg & Hl1 & Hl2 & H).
  unfold agree_on, bars_labelled, published_for in *. rewrite Hc, Hb, Hp. done.
Qed.

Lemma agree_on_sym sym s1 s2 : agree_on sym s1 s2 -> agree_on sym s2 s1.
Proof.
  intros (Hcfg & Hl1 & Hl2 & H). split; [done|]. do 2 (split; [done|]).
  intros tf. destruct (H tf). done.
Qed.

Lemma completed_state_agree sym s1 s2 tf bar now :
  agree_on sym s1 s2 ->
  agree_on sym (completed_state s1 sym tf bar now) (completed_state s2 sym tf bar now).
Proof.
  intros (Hcfg & Hl1 & Hl2 & H).
  pose proof (complete_bar_effects_spec s1 sym tf bar now) as (Hc1 & _ & Hb1 & Hp1 & _).
  pose proof (complete_bar_effects_spec s2 sym tf bar now) as (Hc2 & _ & Hb2 & Hp2 & _).
  split; [congruence|]. do 2 (split; [apply completed_state_labelled; done|]).
  intros tf'. rewrite Hb1, Hb2.
  rewrite (published_for_message _ _ _ _ _ _ Hp1), (published_for_message _ _ _ _ _ _ Hp2).
  destruct (H tf') as [-> ->]. rewrite Hcfg. done.
Qed.

Lemma agg_step_agree sym C now s1 s2 tf :
  agree_on sym s1 s2 ->
  agree_on sym (agg_step sym C now s1 tf) (agg_step sym C now s2 tf).
Proof.
  intros (Hcfg & Hl1 & Hl2 & H).
  destruct (agg_step_spec sym C now s1 tf Hl1)
    as (nb1 & ext1 & Hcur1 & _ & _ & _ & Hpub1 & Hext1).
  destruct (agg_step_spec sym C now s2 tf Hl2)
    as (nb2 & ext2 & Hcur2 & _ & _ & _ & Hpub2 & Hext2).
  assert (E : nb1 = nb2 /\ ext1 = ext2).
  { destruct (H tf) as [Hb _]. rewrite Hb in Hext1.
    destruct (current_bars s2 !! (sym, tf)) as [a|].
    - unfold completion_message in *. rewrite Hcfg in Hext1.
      destruct Hext1 as [(? & -> & ->)|(? & -> & ->)];
        destruct Hext2 as [(? & -> & ->)|(? & -> & ->)]; done.
    - destruct Hext1 as [-> ->]. destruct Hext2 as [-> ->]. done. }
  destruct E as [<- <-].
  split; [rewrite !(proj1 (agg_step_config _ _ _ _ _)); done|].
  do 2 (split; [apply agg_step_labelled; done|]).
  intros tf'. rewrite Hcur1, Hcur2.
  rewrite (published_for_app _ _ _ _ _ Hpub1), (published_for_app _ _ _ _ _ Hpub2).
  destruct (H tf') as [Hb ->]. split; [|done].
  rewrite !lookup_insert. case_decide; done.
Qed.

Lemma agg_fold_agree sym C now l : forall s1 s2,
  agree_on sym s1 s2 ->
  agree_on sym (foldl (agg_step sym C now) s1 l) (foldl (agg_step sym C now) s2 l).
Proof.
  induction l as [|tf l IH]; intros s1 s2 H; [done|]. simpl.
  apply IH. apply agg_step_agree. done.
Qed.

Lemma set_current_bar_agree sym s1 s2 tf bar :
  symbol bar = sym -> timeframe bar = tf ->
  agree_on sym s1 s2 ->
  agree_on sym (set_current_bar s1 sym tf bar) (set_current_bar s2 sym tf bar).
Proof.
  intros Hs Ht (Hcfg & Hl1 & Hl2 & H). split; [done|].
  do 2 (split; [apply set_current_bar_labelled; done|]).
  intros tf'. unfold published_for. simpl. destruct (H tf') as [Hb Hp].
  split; [|done]. rewrite !lookup_insert. case_decide; done.
Qed.

Lemma base_step_agree s1 s2 t ts now :
  agree_on (trade_symbol t) s1 s2 ->
  agree_on (trade_symbol t) (base_step s1 t ts now) (base_step s2 t ts now).
Proof.
  intros Hag. pose proof Hag as (Hcfg & Hl1 & Hl2 & H).
  unfold base_step. rewrite <- Hcfg.
  set (base := base_timeframe (config s1)). set (sym := trade_symbol t) in *.
  destruct (H base) as [Hb _]. rewrite <- Hb.
  assert (Hlog : forall a1 a2,
    agree_on sym a1 a2 ->
    agree_on sym (logger a1 ErrorProcessingTrade) (logger a2 ErrorProcessingTrade)).
  { intros a1 a2 Ha. exact Ha. }
  destruct (init_bar_spec sym base (_get_bucket_time (trade_seconds ts) base)
              (trade_price t) (trade_quantity t) now) as [[_ ->]|[_ ->]];
    (destruct (current_bars s1 !! (sym, base)) as [c|] eqn:Hc;
     [destruct (Hl1 _ _ _ Hc) as [? ?]; case_bool_decide|]).
  - apply set_current_bar_agree; [done|done|].
    apply agg_fold_agree. apply completed_state_agree. done.
  - apply set_current_bar_agree; done.
  - apply set_current_bar_agree; done.
  - apply Hlog. apply set_current_bar_agree; [done|done|].
    apply agg_fold_agree. apply completed_state_agree. done.
  - apply set_current_bar_agree; done.
  - apply Hlog. done.
Qed.

Lemma base_step_agree_other sym s1 s2 t ts now :
  trade_symbol t <> sym ->
  agree_on sym s1 s2 -> agree_on sym (base_step s1 t ts now) s2.
Proof.
  intros Hne (Hcfg & Hl1 & Hl2 & H).
  split; [rewrite (proj1 (base_step_config s1 t ts now)); done|].
  split; [apply base_step_labelled; done|]. split; [done|].
  intros tf. destruct (base_step_other_symbol s1 t ts now sym tf Hl1 Hne) as [-> ->].
  apply H.
Qed.

Lemma process_trades_agree pa vs fuel sym l : forall s1 s2,
  base_timeframe (config s1) ∉ aggregation_timeframes (config s1) ->
  quality_checker s1 = None -> quality_checker s2 = None ->
  agree_on sym s1 s2 ->
  exists f1 f2,
    process_trades pa vs (S (S fuel)) s1 l = Some f1 /\
    process_trades pa vs (S (S fuel)) s2
      (filter (fun tn : Trade * Q => trade_symbol (fst tn) = sym) l) = Some f2 /\
    agree_on sym f1 f2.
Proof.
  induction l as [|[t now] l IH]; intros s1 s2 Hnotin Hq1 Hq2 Hag.
  - exists s1, s2. done.
  - pose proof Hag as (Hcfg & _).
    assert (Hnotin2 : base_timeframe (config s2) ∉ aggregation_timeframes (config s2))
      by (rewrite <- Hcfg; done).
    assert (Hnone : forall s s0, quality_checker s = None ->
              (is_Some (quality_checker s0) <-> is_Some (quality_checker s)) ->
              quality_checker s0 = None).
    { intros s s0 Hq Hiff. destruct (quality_checker s0) eqn:E; [|done].
      destruct (proj1 Hiff ltac:(eexists; done)) as [? ?]. congruence. }
    rewrite filter_cons. cbn [process_trades fst].
    destruct (process_trade_cases pa vs fuel s1 t now Hnotin) as (a1 & Hs1 & Hqa1 & H1).
    pose proof (Hnone _ _ Hq1 Hqa1) as Hqa1'.
    pose proof (agree_on_same_bars_l _ _ _ _ Hs1 Hag) as Hag1.
    assert (Hna1 : base_timeframe (config a1) ∉ aggregation_timeframes (config a1))
      by (rewrite (proj1 Hs1); done).
    destruct (decide (trade_symbol t = sym)) as [E|Hne].
    + cbn [process_trades].
      destruct (process_trade_cases pa vs fuel s2 t now Hnotin2) as (a2 & Hs2 & Hqa2 & H2).
      pose proof (Hnone _ _ Hq2 Hqa2) as Hqa2'.
      assert (Hag2 : agree_on sym a1 a2).
      { apply agree_on_sym. eapply agree_on_same_bars_l; [exact Hs2|].
        apply agree_on_sym. done. }
      assert (Hin0 : passes_entry pa vs s1 t now <-> passes_entry pa vs s2 t now).
      { unfold passes_entry. rewrite Hq1, Hq2. done. }
      destruct H1 as [[Hno1 ->]|(ts1 & Hts1 & Hg1 & ->)];
        destruct H2 as [[Hno2 ->]|(ts2 & Hts2 & Hg2 & ->)].
      * apply IH; done.
      * exfalso. apply Hno1. split; [tauto|]. rewrite Hts2. eexists. done.
      * exfalso. apply Hno2. split; [tauto|]. rewrite Hts1. eexists. done.
      * assert (ts2 = ts1) by congruence. subst ts2.
        destruct (base_step_config a1 t ts1 now) as [Hc1 Hq1'].
        destruct (base_step_config a2 t ts1 now) as [Hc2 Hq2'].
        apply IH; rewrite ?Hc1, ?Hq1', ?Hq2'; try done.
        subst sym. apply base_step_agree. done.
    + destruct H1 as [[Hno1 ->]|(ts1 & Hts1 & Hg1 & ->)].
      * apply IH; done.
      * destruct (base_step_config a1 t ts1 now) as [Hc1 Hq1'].
        apply IH; rewrite ?Hc1, ?Hq1'; try done.
        apply base_step_agree_other; done.
Qed.

(** X25: symbols do not interfere. For a builder without a quality
    checker, its base timeframe not listed among the aggregation
    timeframes, the open bars of a symbol and the candles published for
    it, on every timeframe, are after an interleaved stream what they
    are after that symbol's own trades alone. *)
Theorem bars_of_a_symbol_depend_on_its_own_trades
    (pa vs : DataQuality.DataQualityChecker -> Trade -> DataQuality.CheckResult)
    (fuel : nat) (cfg : Config) (trades : list (Trade * Q)) (sym : string) :
  base_timeframe cfg ∉ aggregation_timeframes cfg ->
  exists final own,
    process_trades pa vs (S (S fuel)) (init cfg None) trades = Some final /\
    process_trades pa vs (S (S fuel)) (init cfg None)
      (filter (fun tn : Trade * Q => trade_symbol (fst tn) = sym) trades) = Some own /\
    forall tf,
      current_bars final !! (sym, tf) = current_bars own !! (sym, tf) /\
      published_for final sym tf = published_for own sym tf.
Proof.
  intros Hnotin.
  destruct (process_trades_agree pa vs fuel sym trades (init cfg None) (init cfg None)
              Hnotin eq_refl eq_refl) as (f1 & f2 & E1 & E2 & (_ & _ & _ & H)).
  { split; [done|]. split; [|split; [|done]];
      intros sy tf b; simpl; rewrite lookup_empty; done. }
  exists f1, f2. done.
Qed.


Lemma bars_of_a_symbol_depend_on_its_own_trades_witness :
  exists final own,
    process_trades no_anomaly no_anomaly 2 plain_builder mixed_ticks = Some final /\
    process_trades no_anomaly no_anomaly 2 plain_builder
      (filter (fun tn : Trade * Q => trade_symbol (fst tn) = "ETH") mixed_ticks)
    = Some own /\
    forall tf,
      current_bars final !! ("ETH", tf) = current_bars own !! ("ETH", tf) /\
      published_for final "ETH" tf = published_for own "ETH" tf.
Proof.
  apply (bars_of_a_symbol_depend_on_its_own_trades no_anomaly no_anomaly 0
           (default_config true true) mixed_ticks "ETH").
  not_in_list.
Defined.

End BarBuilderInvariants.

(* ===================================================================== *)
(** * Alert manager: triggers over sequences of checks                    *)
(* ===================================================================== *)

Section AlertLifecycle.

Import AlertManager.

Lemma should_trigger_spec clk n a price ind :
  let r := _should_trigger clk n a price ind in
  (exists md, fst (fst r) = set_metadata a md) /\
  (snd (fst r) = true ->
   is_active a = true /\ (one_time a = true -> trigger_count a <= 0)).
Proof.
  assert (Hid : set_metadata a (metadata a) = a) by (destruct a; done).
  unfold _should_trigger.
  destruct (is_active a) eqn:Ea; cbn [negb]; [|split; [exists (metadata a)|]; done].
  set (cd := match last_triggered_at a with
             | Some t => _ | None => _ end).
  destruct cd as [[] n1]; [split; [exists (metadata a)|]; done|].
  destruct (one_time a && (trigger_count a >? 0)) eqn:E1;
    [split; [exists (metadata a)|]; done|].
  assert (Hot : one_time a = true -> trigger_count a <= 0).
  { intros Ho. rewrite Ho in E1. simpl in E1. rewrite Z.gtb_ltb in E1.
    apply Z.ltb_ge in E1. done. }
  unfold eval_condition.
  destruct (condition a); simpl;
    repeat (match goal with
            | |- context [match ?x !! ?k with _ => _ end] => destruct (x !! k)
            end; simpl);
    (split; [first [exists (metadata a); done | eexists; done]|done]).
Qed.

Lemma check_loop_spec clk price ind : forall alerts n m,
  let r := check_loop clk n m alerts price ind in
  let m' := fst (fst (fst r)) in
  let alerts' := snd (fst (fst r)) in
  let triggered := snd (fst r) in
  Forall2 (evaluated clk) alerts alerts' /\
  (exists origins,
     origins `sublist_of` alerts /\ Forall2 (triggered_from clk) origins triggered) /\
  notifications m' = notifications m ++ flat_map dispatches triggered /\
  db m' = foldl db_update_alert (db m) triggered /\
  _alerts_cache m' = foldl (fun c t => delete (symbol t) c) (_alerts_cache m) triggered /\
  _cache_ttl m' = _cache_ttl m /\
  _last_cache_refresh m' = _last_cache_refresh m.
Proof.
  induction alerts as [|a alerts IH]; intros n m.
  - simpl. split; [constructor|]. split; [exists []; split; constructor|].
    rewrite app_nil_r. done.
  - cbn [check_loop].
    pose proof (should_trigger_spec clk n a price ind) as [[md Hmd] Hfire].
    destruct (_should_trigger clk n a price ind) as [[a1 fire] n1].
    cbn [fst snd] in Hmd, Hfire. subst a1.
    destruct fire.
    + destruct (Hfire eq_refl) as [Hact Hot].
      cbn [_send_notifications _update_alert_state].
      match goal with |- context [check_loop clk ?n0 ?m0 alerts price ind] =>
        specialize (IH n0 m0); destruct (check_loop clk n0 m0 alerts price ind)
          as [[[m2 alerts2] tr2] n2] end.
      cbn [fst snd] in *.
      destruct IH as (Hev & (origins & Hsub & Hfrom) & Hnot & Hdb & Hcache & Httl & Href).
      split.
      { constructor; [|done]. exists md. right. exists (S n1). done. }
      split.
      { exists (a :: origins). split; [constructor; done|].
        constructor; [|done]. split; [done|]. split; [done|]. exists md, (S n1). done. }
      split; [rewrite Hnot; simpl; rewrite <- app_assoc; done|].
      split; [rewrite Hdb; done|]. split; [rewrite Hcache; done|]. done.
    + specialize (IH n1 m).
      destruct (check_loop clk n1 m alerts price ind) as [[[m2 alerts2] tr2] n2].
      cbn [fst snd] in *.
      destruct IH as (Hev & (origins & Hsub & Hfrom) & Hnot & Hdb & Hcache & Httl & Href).
      split.
      { constructor; [|done]. exists md. left. done. }
      split.
      { exists origins. split; [apply sublist_cons; done|done]. }
      done.
Qed.

(** X26: notifications and triggers go together. A call of
    [check_alerts] hands to the channels exactly one notification per
    channel of each alert it returns as triggered, in the order of the
    triggers, and nothing else; every alert it returns carries the time
    of this trigger in [last_triggered_at]. *)
Theorem notifications_follow_the_triggered_alerts
    (clk : Clock) (m : AlertManager) (sym : string) (price : Q)
    (indicators : gmap string Q) :
  let r := check_alerts clk m sym price indicators in
  notifications (fst r) = notifications m ++ flat_map dispatches (snd r) /\
  Forall (fun t => exists k, last_triggered_at t = Some (clk k)) (snd r).
Proof.
  intros r. subst r. unfold check_alerts.
  assert (Hget : notifications (fst (fst (_get_active_alerts clk 1 m sym))) = notifications m).
  { unfold _get_active_alerts. destruct (_alerts_cache m !! sym); [|done].
    destruct (_ <? _); done. }
  destruct (_get_active_alerts clk 1 m sym) as [[m1 alerts] n1]. cbn [fst] in Hget.
  pose proof (check_loop_spec clk price indicators alerts n1 m1)
    as (_ & (origins & _ & Hfrom) & Hnot & _).
  destruct (check_loop clk n1 m1 alerts price indicators) as [[[m2 alerts2] tr] n2].
  cbn [fst snd] in *. split.
  - destruct (_alerts_cache m2 !! sym); simpl; rewrite Hnot, Hget; done.
  - clear -Hfrom. induction Hfrom as [|a t origins tr (_ & _ & md & k & ->) _ IH];
      constructor; [|done]. exists k. done.
Qed.

Lemma evaluated_key clk a a' id user :
  evaluated clk a a' -> has_key id user a' -> has_key id user a.
Proof. intros (md & [->|(k & ->)]) H; exact H. Qed.

Lemma triggered_from_key clk a a' id user :
  triggered_from clk a a' -> has_key id user a' -> has_key id user a.
Proof. intros (_ & _ & md & k & ->) H; exact H. Qed.

Lemma db_update_alert_key rows alert id user row' :
  row' ∈ db_update_alert rows alert -> has_key id user row' ->
  exists row, row ∈ rows /\ has_key id user row.
Proof.
  unfold db_update_alert. intros Hin Hk.
  apply list_elem_of_fmap in Hin as (row & -> & Hin).
  exists row. split; [done|]. case_bool_decide; exact Hk.
Qed.

Lemma db_updates_key id user triggered : forall rows row',
  row' ∈ foldl db_update_alert rows triggered -> has_key id user row' ->
  exists row, row ∈ rows /\ has_key id user row.
Proof.
  induction triggered as [|t triggered IH]; intros rows row' Hin Hk; [eauto|].
  simpl in Hin. destruct (IH _ _ Hin Hk) as (row1 & Hin1 & Hk1).
  eapply db_update_alert_key; done.
Qed.

Lemma deleted_cache_lookup triggered : forall (c : gmap string (list Alert)) sym l,
  foldl (fun c t => delete (symbol t) c) c triggered !! sym = Some l ->
  c !! sym = Some l.
Proof.
  induction triggered as [|t triggered IH]; intros c sym l H; [done|].
  simpl in H. apply IH in H. apply lookup_delete_Some in H as [_ H]. done.
Qed.

Lemma db_get_active_alerts_elem rows sym a :
  a ∈ db_get_active_alerts rows sym <->
  a ∈ rows /\ symbol a = sym /\ is_active a = true.
Proof.
  unfold db_get_active_alerts. rewrite merge_sort_Permutation.
  rewrite list_elem_of_filter. tauto.
Qed.

Lemma get_active_alerts_known clk n m sym :
  let r := _get_active_alerts clk n m sym in
  (forall a, a ∈ snd (fst r) -> known m a) /\
  (forall a, known (fst (fst r)) a -> known m a) /\
  db (fst (fst r)) = db m.
Proof.
  unfold _get_active_alerts.
  assert (Hre : forall k,
    let r := ({| db := db m;
                 _alerts_cache := <[sym := db_get_active_alerts (db m) sym]> (_alerts_cache m);
                 _cache_ttl := _cache_ttl m; _last_cache_refresh := clk k;
                 notifications := notifications m |},
              db_get_active_alerts (db m) sym, S k) in
    (forall a, a ∈ snd (fst r) -> known m a) /\
    (forall a, known (fst (fst r)) a -> known m a) /\
    db (fst (fst r)) = db m).
  { intros k. simpl. split; [|split; [|done]].
    - intros a Ha. left. apply db_get_active_alerts_elem in Ha as [? _]. done.
    - intros a [Ha|(s & l & Hl & Ha)]; [left; done|]. simpl in Hl.
      rewrite lookup_insert in Hl. case_decide.
      + inversion Hl. subst l. left. apply db_get_active_alerts_elem in Ha as [? _]. done.
      + right. eauto. }
  destruct (_alerts_cache m !! sym) as [cached|] eqn:Hc; [|apply Hre].
  destruct (_ <? _); [|apply Hre].
  simpl. split; [|done]. intros a Ha. right. eauto.
Qed.

Lemma check_alerts_known clk m sym price ind id user :
  (forall a, known m a -> ~ has_key id user a) ->
  let r := check_alerts clk m sym price ind in
  (forall a, known (fst r) a -> ~ has_key id user a) /\
  Forall (fun t => ~ has_key id user t) (snd r).
Proof.
  intros Habs r. subst r. unfold check_alerts.
  pose proof (get_active_alerts_known clk 1 m sym) as (Hal & Hkn & Hdb).
  destruct (_get_active_alerts clk 1 m sym) as [[m1 alerts] n1]. cbn [fst snd] in *.
  pose proof (check_loop_spec clk price ind alerts n1 m1)
    as (Hev & (origins & Hsub & Hfrom) & _ & Hdb2 & Hcache & _).
  destruct (check_loop clk n1 m1 alerts price ind) as [[[m2 alerts2] tr] n2].
  cbn [fst snd] in *.
  assert (Halerts2 : forall a, a ∈ alerts2 -> ~ has_key id user a).
  { intros a' Ha' Hk.
    apply list_elem_of_lookup in Ha' as [i Hi].
    destruct (Forall2_lookup_r _ _ _ _ _ Hev Hi) as (a & Hia & Heva).
    apply (Habs a); [apply Hal; eapply list_elem_of_lookup_2; done|].
    eapply evaluated_key; done. }
  assert (Hm2 : forall a, known m2 a -> ~ has_key id user a).
  { intros a [Ha|(s & l & Hl & Ha)] Hk.
    - rewrite Hdb2 in Ha. destruct (db_updates_key id user tr _ _ Ha Hk) as (row & Hrow & Hkr).
      apply (Habs row); [|done]. apply Hkn. left. done.
    - rewrite Hcache in Hl. apply deleted_cache_lookup in Hl.
      apply (Habs a); [|done]. apply Hkn. right. eauto. }
  split.
  - intros a Ha. destruct (_alerts_cache m2 !! sym) as [old|] eqn:E; [|apply Hm2; done].
    destruct Ha as [Ha|(s & l1 & Hl & Ha)].
    + apply Hm2. left. done.
    + simpl in Hl. rewrite lookup_insert in Hl. case_decide.
      * inversion Hl. subst l1. apply Halerts2. done.
      * apply Hm2. right. eauto.
  - apply Forall_forall. intros t Ht Hk.
    apply list_elem_of_lookup in Ht as [i Hi].
    destruct (Forall2_lookup_r _ _ _ _ _ Hfrom Hi) as (a & Hia & Hfa).
    apply (Habs a).
    + apply Hal. eapply elem_of_sublist; [|exact Hsub].
      eapply list_elem_of_lookup_2. done.
    + eapply triggered_from_key; done.
Qed.

Lemma check_many_known id user l : forall m,
  (forall a, known m a -> ~ has_key id user a) ->
  Forall (fun t => ~ has_key id user t) (snd (check_many m l)).
Proof.
  induction l as [|[[[clk sym] price] ind] l IH]; intros m Habs; [constructor|].
  cbn [check_many].
  pose proof (check_alerts_known clk m sym price ind id user Habs) as [Hk Htr].
  destruct (check_alerts clk m sym price ind) as [m1 tr]. cbn [fst snd] in *.
  specialize (IH m1 Hk). destruct (check_many m1 l) as [m2 rest]. cbn [snd] in *.
  apply Forall_app. done.
Qed.

(** X29: [delete_alert] is final. Whatever the manager knew and had
    cached, after [delete_alert] the alert can no longer be fetched and
    no later check, of any symbol, returns an alert with its id and user
    as triggered. *)
Theorem deleted_alert_never_triggers_again
    (m : AlertManager) (id user : string)
    (checks : list (Clock * string * Q * gmap string Q)) :
  get_alert (delete_alert m id user) id user = None /\
  Forall (fun t => ~ (alert_id t = id /\ user_id t = user))
    (snd (check_many (delete_alert m id user) checks)).
Proof.
  split.
  - unfold get_alert, delete_alert, db_get_alert, db_delete_alert. simpl.
    destruct (filter _ (filter _ (db m))) as [|a l0] eqn:E; [done|].
    assert (Ha : a ∈ filter (fun row => alert_id row = id /\ user_id row = user)
                   (filter (fun row => ~ (alert_id row = id /\ user_id row = user)) (db m)))
      by (rewrite E; left).
    apply list_elem_of_filter in Ha as [Hk Ha].
    apply list_elem_of_filter in Ha as [Hn _]. done.
  - apply check_many_known. intros a [Ha|(s & l0 & Hl & _)].
    + simpl in Ha. unfold db_delete_alert in Ha.
      apply list_elem_of_filter in Ha as [Hn _]. exact Hn.
    + simpl in Hl. rewrite lookup_empty in Hl. done.
Qed.

(** ** a new alert *)
Lemma check_loop_fires clk price ind a : forall alerts n m,
  a ∈ alerts ->
  is_active a = true -> last_triggered_at a = None ->
  (one_time a = true -> trigger_count a <= 0) ->
  snd (eval_condition a price ind) = true ->
  exists k,
    fired (fst (eval_condition a price ind)) (clk k)
    ∈ snd (fst (check_loop clk n m alerts price ind)).
Proof.
  intros alerts n m Hin Hact Hlast Hot Hcond. revert n m.
  induction Hin as [a alerts|a b alerts Hin IH]; intros n m.
  - cbn [check_loop].
    assert (E : _should_trigger clk n a price ind
                = (fst (eval_condition a price ind), true, n)).
    { unfold _should_trigger. rewrite Hact, Hlast. cbn [negb].
      assert (E1 : one_time a && (trigger_count a >? 0) = false).
      { destruct (one_time a); [|done]. simpl. rewrite Z.gtb_ltb.
        apply Z.ltb_ge. auto. }
      rewrite E1. destruct (eval_condition a price ind) as [a1 c]. simpl in *.
      subst c. done. }
    rewrite E. cbn [_send_notifications _update_alert_state].
    match goal with |- context [check_loop clk ?n0 ?m0 alerts price ind] =>
      destruct (check_loop clk n0 m0 alerts price ind) as [[[m2 alerts2] tr2] n2] end.
    cbn [fst snd]. exists (S n). left.
  - specialize (IH Hact Hlast Hot Hcond). cbn [check_loop].
    destruct (_should_trigger clk n b price ind) as [[b1 fire] n1].
    destruct fire.
    + cbn [_send_notifications _update_alert_state].
      match goal with |- context [check_loop clk ?n0 ?m0 alerts price ind] =>
        destruct (IH n0 m0) as [k Hk];
        destruct (check_loop clk n0 m0 alerts price ind) as [[[m2 alerts2] tr2] n2] end.
      cbn [fst snd] in *. exists k. right. done.
    + destruct (IH n1 m) as [k Hk].
      destruct (check_loop clk n1 m alerts price ind) as [[[m2 alerts2] tr2] n2].
      cbn [fst snd] in *. exists k. done.
Qed.

(** X27: [create_alert] invalidates the cache. Whatever the manager had
    cached, an active alert that never triggered and whose condition
    holds triggers at the very next [check_alerts] of its symbol. *)
Theorem created_alert_is_evaluated_at_the_next_check
    (m : AlertManager) (a : Alert) (clk : Clock) (price : Q)
    (indicators : gmap string Q) :
  is_active a = true -> last_triggered_at a = None ->
  (one_time a = true -> trigger_count a <= 0) ->
  snd (eval_condition a price indicators) = true ->
  exists k,
    fired (fst (eval_condition a price indicators)) (clk k)
    ∈ snd (check_alerts clk (create_alert m a) (symbol a) price indicators).
Proof.
  intros Hact Hlast Hot Hcond. unfold check_alerts, _get_active_alerts.
  cbn [_alerts_cache create_alert db _cache_ttl _last_cache_refresh notifications].
  rewrite lookup_delete_eq.
  match goal with |- context [check_loop clk ?n0 ?m0 ?al price indicators] =>
    destruct (check_loop_fires clk price indicators a al n0 m0) as [k Hk]; try done;
    [|destruct (check_loop clk n0 m0 al price indicators) as [[[m2 alerts2] tr2] n2]]
  end.
  - apply db_get_active_alerts_elem. unfold db_insert_alert.
    split; [|done]. apply elem_of_app. right. left.
  - cbn [fst snd] in *. exists k. done.
Qed.

Lemma created_alert_is_evaluated_at_the_next_check_witness :
  exists k,
    fired (fst (eval_condition once_rule 101 ∅)) (clock_at_second 10 k)
    ∈ snd (check_alerts (clock_at_second 10)
             (create_alert (init [cooldown_rule] 0) once_rule) "BTC" 101 ∅).
Proof.
  apply (created_alert_is_evaluated_at_the_next_check (init [cooldown_rule] 0)
           once_rule (clock_at_second 10) 101 ∅).
  - reflexivity.
  - reflexivity.
  - intros _. simpl. lia.
  - vm_compute. reflexivity.
Defined.

Lemma NoDup_map_inj {A B} (f : A -> B) (l : list A) x y :
  NoDup (map f l) -> x ∈ l -> y ∈ l -> f x = f y -> x = y.
Proof.
  induction l as [|z l IH]; intros Hnd Hx Hy Hf; [inversion Hx|].
  simpl in Hnd. apply NoDup_cons in Hnd as [Hz Hnd].
  apply elem_of_cons in Hx as [->|Hx]; apply elem_of_cons in Hy as [->|Hy]; try done.
  - exfalso. apply Hz. rewrite Hf. apply list_elem_of_fmap. eauto.
  - exfalso. apply Hz. rewrite <- Hf. apply list_elem_of_fmap. eauto.
  - apply IH; done.
Qed.

Lemma count_id_NoDup X (l : list Alert) :
  NoDup (map alert_id l) -> (count_id X l <= 1)%nat.
Proof.
  unfold count_id. induction l as [|a l IH]; intros Hnd; [simpl; lia|].
  simpl in Hnd. apply NoDup_cons in Hnd as [Ha Hnd]. rewrite filter_cons.
  destruct (decide (alert_id a = X)) as [E|E]; [|auto].
  simpl. destruct (filter _ l) as [|b l'] eqn:Ef; [simpl; lia|].
  exfalso. apply Ha.
  assert (Hb : b ∈ filter (fun t => alert_id t = X) l) by (rewrite Ef; left).
  apply list_elem_of_filter in Hb as [Hb1 Hb2].
  rewrite E, <- Hb1. apply list_elem_of_fmap. eauto.
Qed.

Lemma count_id_zero X (l : list Alert) :
  (forall t, t ∈ l -> alert_id t <> X) -> count_id X l = 0%nat.
Proof.
  intros H. unfold count_id.
  destruct (filter _ l) as [|b l'] eqn:Ef; [done|].
  assert (Hb : b ∈ filter (fun t => alert_id t = X) l) by (rewrite Ef; left).
  apply list_elem_of_filter in Hb as [Hb1 Hb2]. destruct (H b Hb2 Hb1).
Qed.

Lemma count_id_app X l1 l2 : count_id X (l1 ++ l2) = (count_id X l1 + count_id X l2)%nat.
Proof. unfold count_id. rewrite filter_app, length_app. done. Qed.

Lemma count_id_pos X (l : list Alert) :
  (0 < count_id X l)%nat -> exists t, t ∈ l /\ alert_id t = X.
Proof.
  unfold count_id. destruct (filter _ l) as [|b l'] eqn:Ef; [simpl; lia|]. intros _.
  assert (Hb : b ∈ filter (fun t => alert_id t = X) l) by (rewrite Ef; left).
  apply list_elem_of_filter in Hb as [Hb1 Hb2]. eauto.
Qed.

Lemma db_update_alert_ids rows t :
  map alert_id (db_update_alert rows t) = map alert_id rows.
Proof.
  unfold db_update_alert. rewrite <- list_fmap_compose. apply list_fmap_ext.
  intros i row _. simpl. case_bool_decide; done.
Qed.

Lemma db_updates_ids tr : forall rows,
  map alert_id (foldl db_update_alert rows tr) = map alert_id rows.
Proof.
  induction tr as [|t tr IH]; intros rows; [done|]. simpl.
  rewrite IH. apply db_update_alert_ids.
Qed.

Lemma db_updates_forward tr : forall rows row,
  row ∈ rows ->
  exists row', row' ∈ foldl db_update_alert rows tr /\
    alert_id row' = alert_id row /\ user_id row' = user_id row /\
    symbol row' = symbol row.
Proof.
  induction tr as [|t tr IH]; intros rows row Hin; [eauto|]. simpl.
  destruct (IH (db_update_alert rows t)
              (if bool_decide (alert_id row = alert_id t /\ user_id row = user_id t)
               then {| alert_id := alert_id row; user_id := user_id row;
                       symbol := symbol row; condition := condition t;
                       threshold := threshold t; channels := channels t;
                       cooldown_seconds := cooldown_seconds t;
                       one_time := one_time t; is_active := is_active t;
                       created_at := created_at row;
                       last_triggered_at := last_triggered_at t;
                       trigger_count := trigger_count t;
                       metadata := metadata t |}
               else row))
    as (row' & Hin' & H1 & H2 & H3).
  { unfold db_update_alert. apply list_elem_of_fmap. exists row. done. }
  exists row'. split; [done|]. case_bool_decide; simpl in *; done.
Qed.

Lemma db_updates_backward tr : forall rows row',
  row' ∈ foldl db_update_alert rows tr ->
  exists row, row ∈ rows /\ updated tr row row'.
Proof.
  induction tr as [|t tr IH]; intros rows row' Hin.
  - exists row'. split; [done|]. do 3 (split; [done|]). left. split; [done|constructor].
  - simpl in Hin. destruct (IH _ _ Hin) as (row1 & Hin1 & Hi & Hu & Hs & Hcase).
    unfold db_update_alert in Hin1.
    apply list_elem_of_fmap in Hin1 as (row & -> & Hrow).
    exists row. split; [done|].
    case_bool_decide as Hk; simpl in *.
    + do 3 (split; [done|]). right.
      destruct Hcase as [[-> Hall]|(t' & Ht' & Hk' & Ho & Ha)].
      * exists t. split; [left|]. split; [unfold has_key; destruct Hk; done|]. done.
      * exists t'. split; [right; done|]. done.
    + do 3 (split; [done|]).
      destruct Hcase as [[-> Hall]|(t' & Ht' & Hk' & Ho & Ha)].
      * left. split; [done|]. constructor; [|done].
        intros [? ?]. apply Hk. done.
      * right. exists t'. split; [right; done|]. done.
Qed.

Lemma deleted_cache_gone tr : forall (c : gmap string (list Alert)) t,
  t ∈ tr -> foldl (fun c t => delete (symbol t) c) c tr !! symbol t = None.
Proof.
  induction tr as [|t0 tr IH]; intros c t Hin; [inversion Hin|].
  simpl. apply elem_of_cons in Hin as [->|Hin]; [|apply IH; done].
  destruct (foldl _ (delete (symbol t0) c) tr !! symbol t0) as [l|] eqn:E; [|done].
  apply deleted_cache_lookup in E. rewrite lookup_delete_eq in E. done.
Qed.

Lemma evaluated_fields clk a a' :
  evaluated clk a a' ->
  alert_id a' = alert_id a /\ user_id a' = user_id a /\ symbol a' = symbol a /\
  one_time a' = one_time a /\ (is_active a = false -> is_active a' = false).
Proof.
  intros (md & [->|(k & ->)]); simpl; do 4 (split; [done|]).
  - done.
  - intros ->. destruct (one_time a); done.
Qed.

Lemma triggered_from_fields clk a t :
  triggered_from clk a t ->
  alert_id t = alert_id a /\ user_id t = user_id a /\ symbol t = symbol a /\
  one_time t = one_time a /\ is_active a = true /\
  (one_time a = true -> is_active t = false).
Proof.
  intros (Hact & _ & md & k & ->). simpl. do 5 (split; [done|]). intros ->. done.
Qed.

Lemma Forall2_ids {R : Alert -> Alert -> Prop} (l l' : list Alert) :
  (forall a a', R a a' -> alert_id a' = alert_id a) ->
  Forall2 R l l' -> map alert_id l' = map alert_id l.
Proof.
  intros HR H. induction H as [|a a' l l' Ha _ IH]; [done|].
  simpl. rewrite IH, (HR _ _ Ha). done.
Qed.

Lemma db_get_active_alerts_NoDup rows sym :
  NoDup (map alert_id rows) -> NoDup (map alert_id (db_get_active_alerts rows sym)).
Proof.
  intros Hnd. unfold db_get_active_alerts.
  rewrite merge_sort_Permutation.
  eapply sublist_NoDup; [exact Hnd|]. apply fmap_sublist. apply sublist_filter.
Qed.

Lemma get_active_alerts_consistent clk n m sym :
  consistent m ->
  let r := _get_active_alerts clk n m sym in
  consistent (fst (fst r)) /\
  NoDup (map alert_id (snd (fst r))) /\
  (forall a, a ∈ snd (fst r) ->
     symbol a = sym /\
     exists row, row ∈ db m /\ alert_id row = alert_id a /\
                 user_id row = user_id a /\ symbol row = sym).
Proof.
  intros [Hnd Hcache]. unfold _get_active_alerts.
  assert (Hfresh : forall a, a ∈ db_get_active_alerts (db m) sym ->
            symbol a = sym /\
            exists row, row ∈ db m /\ alert_id row = alert_id a /\
                        user_id row = user_id a /\ symbol row = sym).
  { intros a Ha. apply db_get_active_alerts_elem in Ha as (? & ? & _).
    split; [done|]. exists a. done. }
  assert (Hre : forall k,
    let r := ({| db := db m;
                 _alerts_cache := <[sym := db_get_active_alerts (db m) sym]> (_alerts_cache m);
                 _cache_ttl := _cache_ttl m; _last_cache_refresh := clk k;
                 notifications := notifications m |},
              db_get_active_alerts (db m) sym, S k) in
    consistent (fst (fst r)) /\
    NoDup (map alert_id (snd (fst r))) /\
    (forall a, a ∈ snd (fst r) ->
       symbol a = sym /\
       exists row, row ∈ db m /\ alert_id row = alert_id a /\
                   user_id row = user_id a /\ symbol row = sym)).
  { intros k. simpl. split; [|split; [apply db_get_active_alerts_NoDup; done|done]].
    split; [done|]. simpl. intros s l Hl. rewrite lookup_insert in Hl. case_decide.
    - inversion Hl. subst l s. split; [apply db_get_active_alerts_NoDup; done|done].
    - apply Hcache. done. }
  destruct (_alerts_cache m !! sym) as [cached|] eqn:Hc; [|apply Hre].
  destruct (_ <? _); [|apply Hre].
  simpl. split; [split; done|]. apply Hcache. done.
Qed.

Lemma check_alerts_step clk m sym price ind X :
  consistent m ->
  let r := check_alerts clk m sym price ind in
  consistent (fst r) /\
  (one_shot X m ->
   one_shot X (fst r) /\ (count_id X (snd r) <= 1)%nat /\
   ((0 < count_id X (snd r))%nat -> retired X (fst r))) /\
  (retired X m -> retired X (fst r) /\ count_id X (snd r) = 0%nat) /\
  (forall a', known (fst r) a' ->
     exists a, known m a /\ alert_id a' = alert_id a /\
               user_id a' = user_id a /\ symbol a' = symbol a).
Proof.
  intros Hcons r. subst r. unfold check_alerts.
  pose proof (get_active_alerts_known clk 1 m sym) as (Hal & Hkn & Hdb).
  pose proof (get_active_alerts_consistent clk 1 m sym Hcons) as (Hcons1 & Hnd & Hrows).
  destruct (_get_active_alerts clk 1 m sym) as [[m1 alerts] n1]. cbn [fst snd] in *.
  pose proof (check_loop_spec clk price ind alerts n1 m1)
    as (Hev & (origins & Hsub & Hfrom) & _ & Hdb2 & Hcache2 & _).
  destruct (check_loop clk n1 m1 alerts price ind) as [[[m2 alerts2] tr] n2].
  cbn [fst snd] in *.
  destruct Hcons1 as [Hnd1 Hcache1].
  (* the triggered alerts and where they come from *)
  assert (Htr : forall t, t ∈ tr -> exists a, a ∈ alerts /\ triggered_from clk a t).
  { intros t Ht. apply list_elem_of_lookup in Ht as [i Hi].
    destruct (Forall2_lookup_r _ _ _ _ _ Hfrom Hi) as (a & Hia & Hfa).
    exists a. split; [|done]. eapply elem_of_sublist; [|exact Hsub].
    eapply list_elem_of_lookup_2. done. }
  assert (Hal2 : forall a', a' ∈ alerts2 -> exists a, a ∈ alerts /\ evaluated clk a a').
  { intros a' Ha'. apply list_elem_of_lookup in Ha' as [i Hi].
    destruct (Forall2_lookup_r _ _ _ _ _ Hev Hi) as (a & Hia & Hea).
    exists a. split; [|done]. eapply list_elem_of_lookup_2. done. }
  assert (Hndtr : NoDup (map alert_id tr)).
  { rewrite (Forall2_ids origins tr (R := triggered_from clk)); [|
      intros a t Ht; apply (triggered_from_fields _ _ _ Ht) | done].
    eapply sublist_NoDup; [exact Hnd|]. apply fmap_sublist. exact Hsub. }
  assert (Hnd2 : NoDup (map alert_id alerts2)).
  { rewrite (Forall2_ids alerts alerts2 (R := evaluated clk)); [done| |done].
    intros a a' Ha. apply (evaluated_fields _ _ _ Ha). }
  (* the table after the loop *)
  assert (Hrow2 : forall a, a ∈ alerts ->
            exists row, row ∈ db m2 /\ alert_id row = alert_id a /\
                        user_id row = user_id a /\ symbol row = sym).
  { intros a Ha. destruct (Hrows a Ha) as (_ & row & Hrow & Hi & Hu & Hs).
    rewrite <- Hdb in Hrow.
    destruct (db_updates_forward tr (db m1) row Hrow) as (row' & Hrow' & Hi' & Hu' & Hs').
    exists row'. rewrite Hdb2. split; [done|]. split; [congruence|]. split; congruence. }
  assert (Hcons2 : consistent m2).
  { split; [rewrite Hdb2, db_updates_ids; done|].
    intros s l Hl. rewrite Hcache2 in Hl. apply deleted_cache_lookup in Hl.
    destruct (Hcache1 s l Hl) as [Hndl Hl']. split; [done|].
    intros a Ha. destruct (Hl' a Ha) as (Hs & row & Hrow & Hi & Hu & Hsr).
    split; [done|].
    destruct (db_updates_forward tr (db m1) row Hrow) as (row' & Hrow' & Hi' & Hu' & Hs').
    exists row'. rewrite Hdb2. split; [done|]. split; [congruence|]. split; congruence. }
  (* the final state *)
  set (m3 := match _alerts_cache m2 !! sym with
             | Some _ => _ | None => m2 end).
  assert (Hdb3 : db m3 = db m2).
  { unfold m3. destruct (_alerts_cache m2 !! sym); done. }
  assert (Hkn3 : forall a, known m3 a ->
            known m2 a \/ (a ∈ alerts2 /\ is_Some (_alerts_cache m2 !! sym))).
  { intros a Ha. unfold m3 in Ha. destruct (_alerts_cache m2 !! sym) as [old|] eqn:E;
      [|left; done].
    destruct Ha as [Ha|(s & l & Hl & Ha)]; [left; left; done|].
    simpl in Hl. rewrite lookup_insert in Hl. case_decide.
    - inversion Hl. subst l. right. split; [done|]. eexists. done.
    - left. right. eauto. }
  assert (Hkn2 : forall a, known m2 a ->
            (exists row, row ∈ db m1 /\ updated tr row a) \/
            (exists s l, _alerts_cache m1 !! s = Some l /\ a ∈ l /\
                         _alerts_cache m2 !! s = Some l)).
  { intros a [Ha|(s & l & Hl & Ha)].
    - left. rewrite Hdb2 in Ha. apply db_updates_backward. done.
    - right. exists s, l. split; [|done]. rewrite Hcache2 in Hl.
      apply deleted_cache_lookup in Hl. done. }
  split; [|split; [|split]].
  - (* consistency *)
    unfold m3. destruct (_alerts_cache m2 !! sym) as [old|] eqn:E; [|done].
    destruct Hcons2 as [Hnd2' Hc2]. split; [done|]. simpl.
    intros s l Hl. rewrite lookup_insert in Hl. case_decide; [|apply Hc2; done].
    inversion Hl. subst l s. split; [done|].
    intros a' Ha'. destruct (Hal2 a' Ha') as (a & Ha & Hea).
    destruct (evaluated_fields _ _ _ Hea) as (Hi & Hu & Hs & _).
    destruct (Hrows a Ha) as (Hsa & _). split; [congruence|].
    destruct (Hrow2 a Ha) as (row & ? & ? & ? & ?).
    exists row. split; [done|]. split; [congruence|]. split; [congruence|done].
  - (* not yet triggered *)
    intros Hone.
    assert (Hone_alerts : forall a, a ∈ alerts -> alert_id a = X -> one_time a = true).
    { intros a Ha. apply Hone. apply Hal. done. }
    split; [|split].
    + intros a Ha HX. destruct (Hkn3 a Ha) as [Ha2|[Ha2 _]].
      * destruct (Hkn2 a Ha2) as [(row & Hrow & Hi & Hu & Hs & Hcase)|(s & l & Hl & Hal' & _)].
        -- destruct Hcase as [[-> _]|(t & Ht & Hk & Ho & _)].
           ++ apply Hone; [|done]. apply Hkn. left. done.
           ++ rewrite Ho. destruct (Htr t Ht) as (a0 & Ha0 & Hf0).
              destruct (triggered_from_fields _ _ _ Hf0) as (Hti & _ & _ & -> & _).
              apply Hone_alerts; [done|]. destruct Hk as [Hk _]. congruence.
        -- apply Hone; [|done]. apply Hkn. right. eauto.
      * destruct (Hal2 a Ha2) as (a0 & Ha0 & He0).
        destruct (evaluated_fields _ _ _ He0) as (Hi & _ & _ & -> & _).
        apply Hone_alerts; [done|congruence].
    + apply count_id_NoDup. done.
    + intros Hpos. apply count_id_pos in Hpos as (tX & HtX & HidX).
      destruct (Htr tX HtX) as (aX & HaX & HfX).
      destruct (triggered_from_fields _ _ _ HfX) as (Hti & Htu & Hts & Hto & _ & Hinact).
      destruct (Hrows aX HaX) as (HsX & rowX & HrowX & HrXi & HrXu & HrXs).
      rewrite <- Hdb in HrowX.
      assert (HoneX : one_time aX = true) by (apply Hone_alerts; [done|congruence]).
      assert (Hgone : _alerts_cache m2 !! sym = None).
      { rewrite Hcache2, <- HsX, <- Hts. apply deleted_cache_gone. done. }
      intros a Ha HX. destruct (Hkn3 a Ha) as [Ha2|[_ [? Hsome]]]; [|congruence].
      destruct (Hkn2 a Ha2) as [(row & Hrow & Hi & Hu & Hs & Hcase)|(s & l & Hl & Hal' & Hl2)].
      * assert (row = rowX).
        { eapply (NoDup_map_inj alert_id (db m1)); try done. congruence. }
        subst row.
        destruct Hcase as [[_ Hall]|(t & Ht & Hk & _ & Hact)].
        -- exfalso. rewrite Forall_forall in Hall. apply (Hall tX HtX).
           split; congruence.
        -- rewrite Hact. destruct (Htr t Ht) as (a0 & Ha0 & Hf0).
           destruct (triggered_from_fields _ _ _ Hf0) as (Hti0 & _ & _ & _ & _ & Hin0).
           apply Hin0. apply Hone_alerts; [done|]. destruct Hk as [Hk _]. congruence.
      * exfalso. destruct (Hcache1 s l Hl) as [_ Hl'].
        destruct (Hl' a Hal') as (Hsa & row & Hrow & Hri & Hru & Hrs).
        assert (row = rowX).
        { eapply (NoDup_map_inj alert_id (db m1)); try done. congruence. }
        subst row. assert (s = sym) by congruence. subst s. congruence.
  - (* already retired *)
    intros Hret.
    assert (Hret_alerts : forall a, a ∈ alerts -> alert_id a = X -> is_active a = false).
    { intros a Ha. apply Hret. apply Hal. done. }
    assert (Hnone : forall t, t ∈ tr -> alert_id t <> X).
    { intros t Ht HX. destruct (Htr t Ht) as (a & Ha & Hf).
      destruct (triggered_from_fields _ _ _ Hf) as (Hti & _ & _ & _ & Hact & _).
      rewrite (Hret_alerts a Ha) in Hact; [done|congruence]. }
    split; [|apply count_id_zero; done].
    intros a Ha HX. destruct (Hkn3 a Ha) as [Ha2|[Ha2 _]].
    + destruct (Hkn2 a Ha2) as [(row & Hrow & Hi & Hu & Hs & Hcase)|(s & l & Hl & Hal' & _)].
      * destruct Hcase as [[-> _]|(t & Ht & Hk & _ & _)].
        -- apply Hret; [|done]. apply Hkn. left. done.
        -- exfalso. apply (Hnone t Ht). destruct Hk as [Hk _]. congruence.
      * apply Hret; [|done]. apply Hkn. right. eauto.
    + destruct (Hal2 a Ha2) as (a0 & Ha0 & He0).
      destruct (evaluated_fields _ _ _ He0) as (Hi & _ & _ & _ & Hin).
      apply Hin. apply Hret_alerts; [done|congruence].
  - (* where the known alerts come from *)
    intros a Ha. destruct (Hkn3 a Ha) as [Ha2|[Ha2 _]].
    + destruct (Hkn2 a Ha2) as [(row & Hrow & Hi & Hu & Hs & _)|(s & l & Hl & Hal' & _)].
      * exists row. split; [apply Hkn; left; done|done].
      * exists a. split; [apply Hkn; right; eauto|done].
    + destruct (Hal2 a Ha2) as (a0 & Ha0 & He0).
      destruct (evaluated_fields _ _ _ He0) as (Hi & Hu & Hs & _).
      exists a0. split; [apply Hal; done|done].
Qed.

Lemma check_many_retired X l : forall m,
  consistent m -> retired X m -> count_id X (snd (check_many m l)) = 0%nat.
Proof.
  induction l as [|[[[clk sym] price] ind] l IH]; intros m Hc Hr; [done|].
  cbn [check_many].
  pose proof (check_alerts_step clk m sym price ind X Hc) as (Hc1 & _ & Hret & _).
  destruct (Hret Hr) as [Hr1 Hz].
  destruct (check_alerts clk m sym price ind) as [m1 tr]. cbn [fst snd] in *.
  specialize (IH m1 Hc1 Hr1). destruct (check_many m1 l) as [m2 rest]. cbn [snd] in *.
  rewrite count_id_app. lia.
Qed.

Lemma check_many_one_shot X l : forall m,
  consistent m -> one_shot X m -> (count_id X (snd (check_many m l)) <= 1)%nat.
Proof.
  induction l as [|[[[clk sym] price] ind] l IH]; intros m Hc Ho;
    [unfold count_id; simpl; lia|].
  cbn [check_many].
  pose proof (check_alerts_step clk m sym price ind X Hc) as (Hc1 & Hone & _ & _).
  destruct (Hone Ho) as (Ho1 & Hle & Hret).
  destruct (check_alerts clk m sym price ind) as [m1 tr]. cbn [fst snd] in *.
  specialize (IH m1 Hc1 Ho1).
  pose proof (check_many_retired X l m1 Hc1) as Hz.
  destruct (check_many m1 l) as [m2 rest]. cbn [snd] in *.
  rewrite count_id_app.
  destruct (count_id X tr) as [|c] eqn:E; [lia|].
  rewrite Hz; [lia|]. apply Hret. lia.
Qed.

(** X28: a one-time alert triggers at most once, ever. In a table with
    unique alert ids, over any sequence of checks of any symbols at any
    prices and clock readings, a one-time alert is returned as triggered
    at most once. *)
Theorem one_time_alert_triggers_at_most_once
    (rows : list Alert) (now : datetime) (id : string)
    (checks : list (Clock * string * Q * gmap string Q)) :
  NoDup (map alert_id rows) ->
  (forall a, a ∈ rows -> alert_id a = id -> one_time a = true) ->
  (length (filter (fun t => alert_id t = id) (snd (check_many (init rows now) checks)))
   <= 1)%nat.
Proof.
  intros Hnd Hone. apply (check_many_one_shot id checks (init rows now)).
  - split; [done|]. simpl. intros s l Hl. rewrite lookup_empty in Hl. done.
  - intros a [Ha|(s & l & Hl & _)]; [apply Hone; done|].
    simpl in Hl. rewrite lookup_empty in Hl. done.
Qed.

Lemma one_time_alert_triggers_at_most_once_witness :
  (length (filter (fun t => alert_id t = "a1")
             (snd (check_many (init [once_rule] 0%Z) three_checks))) <= 1)%nat.
Proof.
  apply (one_time_alert_triggers_at_most_once [once_rule] 0%Z "a1" three_checks).
  - repeat constructor. intro H. inversion H.
  - intros a Ha _. apply list_elem_of_singleton in Ha. rewrite Ha. reflexivity.
Defined.

Lemma check_many_consistent (X : string) row l : forall m,
  consistent m -> filed_as row m ->
  consistent (fst (check_many m l)) /\ filed_as row (fst (check_many m l)).
Proof.
  induction l as [|[[[clk sym] price] ind] l IH]; intros m Hc Hf; [done|].
  cbn [check_many].
  pose proof (check_alerts_step clk m sym price ind X Hc) as (Hc1 & _ & _ & Hfrom).
  destruct (check_alerts clk m sym price ind) as [m1 tr]. cbn [fst snd] in *.
  assert (Hf1 : filed_as row m1).
  { intros a' Ha' Hi'. destruct (Hfrom a' Ha') as (a & Ha & Hi & Hu & Hs).
    destruct (Hf a Ha ltac:(congruence)). split; congruence. }
  specialize (IH m1 Hc1 Hf1). destruct (check_many m1 l) as [m2 rest]. done.
Qed.

Lemma update_alert_retired m a row :
  consistent m -> filed_as row m ->
  alert_id a = alert_id row -> user_id a = user_id row -> symbol a = symbol row ->
  is_active a = false ->
  consistent (update_alert m a) /\ retired (alert_id a) (update_alert m a).
Proof.
  intros [Hnd Hcache] Hf Hi Hu Hs Hact.
  assert (Hlook : forall s l, delete (symbol a) (_alerts_cache m) !! s = Some l ->
            s <> symbol a /\ _alerts_cache m !! s = Some l).
  { intros s l Hl. apply lookup_delete_Some in Hl as [? ?]. split; [congruence|done]. }
  split.
  - split; [simpl; rewrite db_update_alert_ids; done|].
    simpl. intros s l Hl. destruct (Hlook s l Hl) as [_ Hl'].
    destruct (Hcache s l Hl') as [Hndl Hl'']. split; [done|].
    intros a0 Ha0. destruct (Hl'' a0 Ha0) as (Hs0 & r & Hr & Hri & Hru & Hrs).
    split; [done|].
    destruct (db_updates_forward [a] (db m) r Hr) as (r' & Hr' & ? & ? & ?).
    exists r'. split; [done|]. split; [congruence|]. split; congruence.
  - intros a0 [Ha0|(s & l & Hl & Ha0)] HX.
    + simpl in Ha0. unfold db_update_alert in Ha0.
      apply list_elem_of_fmap in Ha0 as (r & -> & Hr).
      case_bool_decide as Hk; [done|]. exfalso. apply Hk.
      simpl in HX. destruct (Hf r (or_introl Hr) ltac:(congruence)) as [? _].
      split; congruence.
    + exfalso. simpl in Hl. destruct (Hlook s l Hl) as [Hne Hl'].
      destruct (Hcache s l Hl') as [_ Hl''].
      destruct (Hl'' a0 Ha0) as (Hs0 & _).
      destruct (Hf a0 (or_intror (ex_intro _ s (ex_intro _ l (conj Hl' Ha0))))
                  ltac:(congruence)) as [_ Hsym].
      congruence.
Qed.

(** X30: switching an alert off through [update_alert]. In a table with
    unique alert ids, after any checks, an [update_alert] that carries
    the row's id, user and symbol with [is_active = False] stops the
    alert: no later check returns it as triggered. *)
Theorem deactivated_alert_stays_silent
    (rows : list Alert) (now : datetime) (row a : Alert)
    (before after : list (Clock * string * Q * gmap string Q)) :
  NoDup (map alert_id rows) -> row ∈ rows ->
  alert_id a = alert_id row -> user_id a = user_id row -> symbol a = symbol row ->
  is_active a = false ->
  let m := fst (check_many (init rows now) before) in
  filter (fun t => alert_id t = alert_id a) (snd (check_many (update_alert m a) after)) = [].
Proof.
  intros Hnd Hrow Hi Hu Hs Hact m.
  destruct (check_many_consistent (alert_id a) row before (init rows now)) as [Hc Hf].
  { split; [done|]. simpl. intros s l Hl. rewrite lookup_empty in Hl. done. }
  { intros a0 [Ha0|(s & l & Hl & _)] Hid.
    - assert (a0 = row) by (eapply (NoDup_map_inj alert_id rows); done).
      subst a0. done.
    - simpl in Hl. rewrite lookup_empty in Hl. done. }
  fold m in Hc, Hf.
  destruct (update_alert_retired m a row Hc Hf Hi Hu Hs Hact) as [Hc' Hr'].
  pose proof (check_many_retired (alert_id a) after _ Hc' Hr') as Hz.
  unfold count_id in Hz. apply length_zero_iff_nil in Hz. done.
Qed.


Lemma deactivated_alert_stays_silent_witness :
  filter (fun t => alert_id t = alert_id switched_off)
    (snd (check_many
            (update_alert (fst (check_many (init [cooldown_rule] 0) three_checks))
               switched_off)
            three_checks)) = [].
Proof.
  apply (deactivated_alert_stays_silent [cooldown_rule] 0 cooldown_rule switched_off
           three_checks three_checks).
  - repeat constructor. intro H. inversion H.
  - apply list_elem_of_singleton. reflexivity.
  - reflexivity.
  - reflexivity.
  - reflexivity.
  - reflexivity.
Defined.

End AlertLifecycle.
